(** * graphiti-mk: ingestion of chat events into a property graph, and the
      query endpoint over it

    A shallow embedding of the Python scripts of the repository:

    - [Py]      the fragment of Python the scripts run on values decoded from
                JSON (dictionaries, [str], truthiness, exceptions);
    - [Answer]  answer extraction of [Benchmark/query_api.py];
    - [Render]  the message normalizer of [Benchmark/ingest_whatsapp_3.py];
    - [Extract] [extract_events] / [WhatsAppAdapter.parse];
    - [Embed]   the two batched [embed_texts];
    - [Cypher]  the MERGE / MATCH / SET statements the graph writers send,
                run over a store of labelled nodes and typed edges;
    - [Query]   the two [/query] handlers.

    Strings are Rocq strings: sequences of 8-bit characters, read as the
    ASCII fragment of Python's [str].  Numbers decoded from JSON are integers
    ([Z]); JSON floats are outside the model.  Embedding vectors are never
    inspected by the code and stay an abstract type. *)

From Stdlib Require Import Ascii.
From stdpp Require Import gmap strings list fin_maps pretty.

Open Scope string_scope.
Open Scope list_scope.
Set Warnings "-register-all".

(** ** Python values and exceptions *)

Module Py.

(** What [json.loads] produces: [None], [bool], [int], [str], [list], and
    [dict] with string keys (items kept in insertion order, keys distinct). *)
Inductive pyval :=
  | VNone
  | VBool (b : bool)
  | VInt (z : Z)
  | VStr (s : string)
  | VList (l : list pyval)
  | VDict (items : list (string * pyval)).

Inductive exn_class :=
  | KeyError | TypeError | AttributeError | ValueError | Exception.

(** An exception instance: its class and [str(e)]. *)
Record exn := Exn { exn_cls : exn_class; exn_str : string }.

Inductive result (A : Type) :=
  | Ok (a : A)
  | Raise (e : exn).
Arguments Ok {A} a.
Arguments Raise {A} e.

#[export] Instance result_ret : MRet result := fun _ a => Ok a.
#[export] Instance result_bind : MBind result := fun _ _ f m =>
  match m with
  | Ok a => f a
  | Raise e => Raise e
  end.

Definition is_ok {A} (r : result A) : bool :=
  match r with Ok _ => true | Raise _ => false end.

(** The single quote, the double quote and the backslash. *)
Definition squote : ascii := Ascii.ascii_of_nat 39.
Definition dquote : ascii := Ascii.ascii_of_nat 34.
Definition backslash : ascii := Ascii.ascii_of_nat 92.

Definition str1 (c : ascii) : string := String c EmptyString.

Fixpoint str_mem (c : ascii) (s : string) : bool :=
  match s with
  | EmptyString => false
  | String d s' => if Ascii.eqb c d then true else str_mem c s'
  end.

Fixpoint join (sep : string) (l : list string) : string :=
  match l with
  | [] => EmptyString
  | [s] => s
  | s :: l' => s +:+ sep +:+ join sep l'
  end.

Definition hex_digit (n : nat) : ascii :=
  if decide (n < 10)%nat then Ascii.ascii_of_nat (48 + n)
  else Ascii.ascii_of_nat (87 + n).

(** One character of [repr(s)] for a [str] quoted with [q]. *)
Definition repr_char (q c : ascii) : string :=
  let n := Ascii.nat_of_ascii c in
  if Ascii.eqb c backslash then String backslash (str1 backslash)
  else if Ascii.eqb c q then String backslash (str1 q)
  else if decide (n = 10)%nat then String backslash "n"
  else if decide (n = 13)%nat then String backslash "r"
  else if decide (n = 9)%nat then String backslash "t"
  else if decide (n < 32 ∨ n = 127)%nat then
    String backslash (String "x"
      (String (hex_digit (n / 16)) (str1 (hex_digit (n mod 16)))))
  else str1 c.

Fixpoint repr_chars (q : ascii) (s : string) : string :=
  match s with
  | EmptyString => EmptyString
  | String c s' => repr_char q c +:+ repr_chars q s'
  end.

(** [repr] of a [str]: single quotes, unless the string has a single quote
    and no double quote. *)
Definition py_repr_str (s : string) : string :=
  let q := if str_mem squote s && negb (str_mem dquote s)
           then dquote else squote in
  String q (repr_chars q s) +:+ str1 q.

Fixpoint py_repr (v : pyval) : string :=
  match v with
  | VNone => "None"
  | VBool true => "True"
  | VBool false => "False"
  | VInt z => pretty z
  | VStr s => py_repr_str s
  | VList l => "[" +:+ join ", " (map py_repr l) +:+ "]"
  | VDict items =>
      "{" +:+ join ", "
        (map (fun kv => py_repr_str (fst kv) +:+ ": " +:+ py_repr (snd kv))
           items) +:+ "}"
  end.

(** [str(v)], also what an f-string field [{v}] renders. *)
Definition py_str (v : pyval) : string :=
  match v with
  | VStr s => s
  | _ => py_repr v
  end.

(** [bool(v)]. *)
Definition truthy (v : pyval) : bool :=
  match v with
  | VNone => false
  | VBool b => b
  | VInt z => negb (z =? 0)%Z
  | VStr s => negb (String.eqb s EmptyString)
  | VList l => match l with [] => false | _ => true end
  | VDict items => match items with [] => false | _ => true end
  end.

Definition str_truthy (s : string) : bool := negb (String.eqb s EmptyString).

(** Lookup in the items of a [dict]. *)
Fixpoint dict_get (k : string) (items : list (string * pyval))
  : option pyval :=
  match items with
  | [] => None
  | (k', v) :: rest => if String.eqb k k' then Some v else dict_get k rest
  end.

(** [k in d] for a dict. *)
Definition dict_mem (k : string) (items : list (string * pyval)) : bool :=
  match dict_get k items with Some _ => true | None => false end.

Definition key_error (k : string) : exn := Exn KeyError (py_repr_str k).

(** [d[k]] on the items of a dict. *)
Definition dict_item (items : list (string * pyval)) (k : string)
  : result pyval :=
  match dict_get k items with
  | Some v => Ok v
  | None => Raise (key_error k)
  end.

(** [v[k]] with a string subscript [k]. *)
Definition getitem (v : pyval) (k : string) : result pyval :=
  match v with
  | VDict items => dict_item items k
  | VList _ =>
      Raise (Exn TypeError "list indices must be integers or slices, not str")
  | VStr _ => Raise (Exn TypeError "string indices must be integers")
  | _ => Raise (Exn TypeError "object is not subscriptable")
  end.

(** [v.get(k, default)]. *)
Definition get (v : pyval) (k : string) (default : pyval) : result pyval :=
  match v with
  | VDict items =>
      Ok (match dict_get k items with Some x => x | None => default end)
  | _ => Raise (Exn AttributeError "object has no attribute 'get'")
  end.

(** [k in v] for a string [k]. *)
Definition contains (v : pyval) (k : string) : result bool :=
  match v with
  | VDict items => Ok (dict_mem k items)
  | VList l =>
      Ok (existsb (fun x => match x with
                            | VStr s => String.eqb s k
                            | _ => false
                            end) l)
  | VStr s =>
      Ok (match String.index 0 k s with Some _ => true | None => false end)
  | _ => Raise (Exn TypeError "argument is not iterable")
  end.

(** The values a [for] loop draws from [v]. *)
Fixpoint chars (s : string) : list pyval :=
  match s with
  | EmptyString => []
  | String c s' => VStr (str1 c) :: chars s'
  end.

Definition iter (v : pyval) : result (list pyval) :=
  match v with
  | VList l => Ok l
  | VDict items => Ok (map (fun kv => VStr (fst kv)) items)
  | VStr s => Ok (chars s)
  | _ => Raise (Exn TypeError "object is not iterable")
  end.

End Py.
Import Py.

(** ** Answer extraction ([Benchmark/query_api.py], [query_graph]) *)

Module Answer.

Definition answer_keys : list string :=
  ["answer"; "response"; "result"; "text"; "content"; "message"].

(** [for key in answer_keys: if key in response and response[key]:
       answer = str(response[key]); break], from [answer = EmptyString]. *)
Fixpoint scan_keys (keys : list string) (response : list (string * pyval))
  : result string :=
  match keys with
  | [] => Ok EmptyString
  | key :: rest =>
      if dict_mem key response then
        v ← dict_item response key;
        if truthy v then
          v' ← dict_item response key; Ok (py_str v')
        else scan_keys rest response
      else scan_keys rest response
  end.

(** [[v for v in response.values() if isinstance(v, str)]]. *)
Fixpoint string_values (items : list (string * pyval)) : list string :=
  match items with
  | [] => []
  | (_, VStr s) :: rest => s :: string_values rest
  | _ :: rest => string_values rest
  end.

(** [max(l, key=len)]: the first element of greatest length. *)
Fixpoint max_from (best : string) (l : list string) : string :=
  match l with
  | [] => best
  | s :: l' =>
      if decide (String.length best < String.length s)%nat
      then max_from s l' else max_from best l'
  end.

Definition max_by_len (l : list string) : result string :=
  match l with
  | [] => Raise (Exn ValueError "max() arg is an empty sequence")
  | s :: l' => Ok (max_from s l')
  end.

(** Lines 237-255 of [query_graph]: from the model's response to [answer]. *)
Definition extract_answer (response : pyval) : result string :=
  match response with
  | VDict items =>
      answer ← scan_keys answer_keys items;
      if negb (str_truthy answer) then
        let svs := string_values items in
        match svs with
        | _ :: _ => max_by_len svs
        | [] => Ok (py_str response)
        end
      else Ok answer
  | _ => Ok (py_str response)
  end.

(** No key of [keys] has a truthy value in [items]. *)
Definition no_truthy (keys : list string) (items : list (string * pyval))
  : Prop :=
  ∀ k w, k ∈ keys → dict_get k items = Some w → truthy w = false.

Definition answer_example : pyval :=
  VDict [("note", VStr "n/a"); ("result", VInt 0); ("text", VStr "Paris")].

End Answer.

(** ** More of Python: [strip], [capitalize], [int], dictionaries keyed by
       arbitrary hashable values, [for] loops that may raise *)

Module PyLib.

(** Whitespace for [str.strip()], among the ASCII characters. *)
Definition is_space (c : ascii) : bool :=
  let n := nat_of_ascii c in
  bool_decide ((9 ≤ n ∧ n ≤ 13) ∨ (28 ≤ n ∧ n ≤ 32))%nat.

Fixpoint lstrip (s : string) : string :=
  match s with
  | String c s' => if is_space c then lstrip s' else s
  | EmptyString => EmptyString
  end.

Fixpoint rstrip (s : string) : string :=
  match s with
  | EmptyString => EmptyString
  | String c s' =>
      match rstrip s' with
      | EmptyString => if is_space c then EmptyString else str1 c
      | r => String c r
      end
  end.

Definition strip (s : string) : string := rstrip (lstrip s).

Definition upper_char (c : ascii) : ascii :=
  let n := nat_of_ascii c in
  if bool_decide (97 ≤ n ∧ n ≤ 122)%nat then ascii_of_nat (n - 32) else c.

Definition lower_char (c : ascii) : ascii :=
  let n := nat_of_ascii c in
  if bool_decide (65 ≤ n ∧ n ≤ 90)%nat then ascii_of_nat (n + 32) else c.

Fixpoint lower (s : string) : string :=
  match s with
  | EmptyString => EmptyString
  | String c s' => String (lower_char c) (lower s')
  end.

(** [s.capitalize()]: first character upper-cased, the rest lower-cased. *)
Definition capitalize (s : string) : string :=
  match s with
  | EmptyString => EmptyString
  | String c s' => String (upper_char c) (lower s')
  end.

Definition digit_val (c : ascii) : option Z :=
  let n := nat_of_ascii c in
  if bool_decide (48 ≤ n ∧ n ≤ 57)%nat then Some (Z.of_nat n - 48)%Z
  else None.

(** Decimal digits, single underscores allowed between two digits. *)
Fixpoint parse_digits (acc : Z) (after_digit : bool) (s : string)
  : option Z :=
  match s with
  | EmptyString => if after_digit then Some acc else None
  | String c s' =>
      match digit_val c with
      | Some d => parse_digits (10 * acc + d)%Z true s'
      | None =>
          if Ascii.eqb c "_" && after_digit then parse_digits acc false s'
          else None
      end
  end.

Definition parse_int (s : string) : option Z :=
  match strip s with
  | String "-" s' => Z.opp <$> parse_digits 0 false s'
  | String "+" s' => parse_digits 0 false s'
  | s' => parse_digits 0 false s'
  end.

(** [int(v)]. *)
Definition py_int (v : pyval) : result Z :=
  match v with
  | VInt z => Ok z
  | VBool b => Ok (if b then 1 else 0)%Z
  | VStr s =>
      match parse_int s with
      | Some z => Ok z
      | None =>
          Raise (Exn ValueError
                   ("invalid literal for int() with base 10: "
                    +:+ py_repr_str s))
      end
  | _ => Raise (Exn TypeError "int() argument must be a string or a number")
  end.

(** [v == s] for a string literal [s]. *)
Definition eq_str (v : pyval) (s : string) : bool :=
  match v with
  | VStr t => String.eqb t s
  | _ => false
  end.

Definition hashable (v : pyval) : bool :=
  match v with
  | VList _ | VDict _ => false
  | _ => true
  end.

(** Equality of dictionary keys ([True == 1] and [False == 0]). *)
Definition key_eqb (a b : pyval) : bool :=
  match a, b with
  | VNone, VNone => true
  | VStr s, VStr t => String.eqb s t
  | VInt x, VInt y => (x =? y)%Z
  | VBool x, VBool y => Bool.eqb x y
  | VBool x, VInt y | VInt y, VBool x => ((if x then 1 else 0) =? y)%Z
  | _, _ => false
  end.

Definition unhashable : exn := Exn TypeError "unhashable type".

(** A dict whose keys are any hashable values. *)
Definition kdict := list (pyval * pyval).

Fixpoint kdict_find (k : pyval) (d : kdict) : option pyval :=
  match d with
  | [] => None
  | (k', v) :: rest => if key_eqb k k' then Some v else kdict_find k rest
  end.

(** [d[k] = v]. *)
Fixpoint kdict_set (k v : pyval) (d : kdict) : kdict :=
  match d with
  | [] => [(k, v)]
  | (k', v') :: rest =>
      if key_eqb k k' then (k', v) :: rest else (k', v') :: kdict_set k v rest
  end.

(** [d.get(k, default)]. *)
Definition kdict_get (d : kdict) (k default : pyval) : result pyval :=
  if hashable k then
    Ok (match kdict_find k d with Some v => v | None => default end)
  else Raise unhashable.

(** [for x in l: s = f(s, x)], stopping at the first exception. *)
Fixpoint for_each {A S : Type} (l : list A) (f : S → A → result S) (s : S)
  : result S :=
  match l with
  | [] => Ok s
  | x :: l' => s' ← f s x; for_each l' f s'
  end.

End PyLib.
Import PyLib.

(** ** The normalizer of [Benchmark/ingest_whatsapp_3.py] ([main]) *)

Module Render.

(** [{c[wa_id]: c[profile][name] for c in value.get(contacts, [])}]. *)
Definition build_contacts (value : pyval) : result kdict :=
  cs ← get value "contacts" (VList []);
  l ← iter cs;
  for_each l (fun d c =>
    k ← getitem c "wa_id";
    p ← getitem c "profile";
    n ← getitem p "name";
    if hashable k then Ok (kdict_set k n d) else Raise unhashable) [].

(** [msg.get(key, {}).get(field, default)]. *)
Definition payload_get (msg : pyval) (key field : string) (default : pyval)
  : result pyval :=
  p ← get msg key (VDict []);
  get p field default.

(** [contacts.get(msg[from], Unknown)]. *)
Definition sender_name (contacts : kdict) (msg : pyval) : result pyval :=
  f ← getitem msg "from";
  kdict_get contacts f (VStr "Unknown").

(** The [if msg[type] == ... elif ...] chain, lines 95-143. *)
Definition render_body (contacts : kdict) (msg : pyval) : result pyval :=
  ty ← getitem msg "type";
  if eq_str ty "text" then
    payload_get msg "text" "body" VNone
  else if eq_str ty "image" then
    caption ← payload_get msg "image" "caption" (VStr EmptyString);
    Ok (VStr (strip ("[Image] " +:+ py_str caption)))
  else if eq_str ty "document" then
    doc ← get msg "document" (VDict []);
    filename ← get doc "filename" (VStr "unknown_file");
    caption ← get doc "caption" (VStr EmptyString);
    Ok (VStr (strip ("[Document: " +:+ py_str filename +:+ "] "
                     +:+ py_str caption)))
  else if eq_str ty "system" then
    sys_type ← payload_get msg "system" "type" VNone;
    if eq_str sys_type "group_title_changed" then
      new_title ← payload_get msg "system" "title" (VStr "Unknown");
      who ← sender_name contacts msg;
      Ok (VStr ("[System] " +:+ py_str who +:+ " changed group title to '"
                +:+ py_str new_title +:+ "'"))
    else if eq_str sys_type "user_joined" then
      who ← sender_name contacts msg;
      Ok (VStr ("[System] " +:+ py_str who +:+ " joined the group"))
    else Ok (VStr ("[System] " +:+ py_str sys_type))
  else if eq_str ty "reaction" then
    emoji ← payload_get msg "reaction" "emoji" (VStr EmptyString);
    target_msg_id ← payload_get msg "reaction" "message_id" (VStr EmptyString);
    Ok (VStr ("[Reaction] Reacted with " +:+ py_str emoji +:+ " to message "
              +:+ py_str target_msg_id))
  else if eq_str ty "video" then
    caption ← payload_get msg "video" "caption" (VStr EmptyString);
    Ok (VStr (strip ("[Video] " +:+ py_str caption)))
  else if eq_str ty "audio" then Ok (VStr "[Audio] Voice Message")
  else if eq_str ty "sticker" then Ok (VStr "[Sticker]")
  else
    match ty with
    | VStr t => Ok (VStr ("[" +:+ capitalize t +:+ "]"))
    | _ => Raise (Exn AttributeError "object has no attribute 'capitalize'")
    end.

(** One element of [records]. *)
Record record := Record_ {
  group_id : pyval;
  user_id : pyval;
  user_name : pyval;
  message_id : pyval;
  parent_id : pyval;
  timestamp : Z;
  body : pyval
}.

(** The dict literal of lines 148-156, fields evaluated in source order. *)
Definition make_record (group_id : pyval) (contacts : kdict)
    (msg body : pyval) : result record :=
  uid ← getitem msg "from";
  uname ← sender_name contacts msg;
  mid ← getitem msg "id";
  has_ctx ← contains msg "context";
  pid ← (if has_ctx : bool then payload_get msg "context" "id" VNone
         else Ok VNone);
  ts_raw ← getitem msg "timestamp";
  ts ← py_int ts_raw;
  Ok (Record_ group_id uid uname mid pid ts body).

(** The body of [for msg in value.get(messages, [])]: [None] when the
    message is passed over by [if not body: continue]. *)
Definition process_message (group_id : pyval) (contacts : kdict)
    (msg : pyval) : result (option record) :=
  body ← render_body contacts msg;
  if negb (truthy body) then Ok None
  else r ← make_record group_id contacts msg body; Ok (Some r).

Definition process_change (group_id : pyval) (records : list record)
    (change : pyval) : result (list record) :=
  value ← getitem change "value";
  contacts ← build_contacts value;
  msgs ← get value "messages" (VList []);
  l ← iter msgs;
  for_each l (fun records msg =>
    r ← process_message group_id contacts msg;
    Ok (match r with
        | Some rec => (records ++ [rec])%list
        | None => records
        end)) records.

Definition process_entry (records : list record) (entry : pyval)
  : result (list record) :=
  group_id ← getitem entry "id";
  changes ← get entry "changes" (VList []);
  l ← iter changes;
  for_each l (process_change group_id) records.

(** Lines 79-156: [records] from the decoded lines of the input file. *)
Definition build_records (payload : list pyval) : result (list record) :=
  for_each payload (fun records obj =>
    entries ← get obj "entry" (VList []);
    l ← iter entries;
    for_each l process_entry records) [].

(** *** Vocabulary for the rendering policy *)

(** The type tags the chain has a branch for. *)
Definition recognized : list string :=
  ["text"; "image"; "document"; "system"; "reaction"; "video"; "audio";
   "sticker"].

(** The templates as the specification words them (section 4.1), for the
    types without a sender or subtype: the body for text, a tag and the
    caption for media, the type between brackets otherwise. *)
Definition template_body (ty text_body filename caption : string)
  : string :=
  if String.eqb ty "text" then text_body
  else if String.eqb ty "image" then "[Image] " +:+ caption
  else if String.eqb ty "document" then
    "[Document: " +:+ filename +:+ "] " +:+ caption
  else if String.eqb ty "video" then "[Video] " +:+ caption
  else if String.eqb ty "audio" then "[Audio] Voice Message"
  else if String.eqb ty "sticker" then "[Sticker]"
  else "[" +:+ ty +:+ "]".

(** A tag followed by a caption, once stripped: the tag alone for a blank
    caption, else the tag, a space, and the caption without its trailing
    whitespace. *)
Definition tagged (tag caption : string) : string :=
  match rstrip caption with
  | EmptyString => tag
  | r => tag +:+ " " +:+ r
  end.

Definition image_no_caption : pyval :=
  VDict [("id", VStr "wamid.7"); ("from", VStr "17025551001");
         ("timestamp", VStr "1700000000"); ("type", VStr "image");
         ("image", VDict [("caption", VStr EmptyString)])].

Definition location_message : pyval :=
  VDict [("id", VStr "wamid.8"); ("from", VStr "17025551001");
         ("timestamp", VStr "1700000060"); ("type", VStr "location")].

Definition document_message : pyval :=
  VDict [("id", VStr "wamid.9"); ("from", VStr "17025551002");
         ("timestamp", VStr "1700000120"); ("type", VStr "document");
         ("document", VDict [("filename", VStr "r.pdf");
                             ("caption", VStr "note")])].

End Render.

(** ** [extract_events] ([whatsapp-ingested-graphiti/ingestion.py]) and
       [WhatsAppAdapter.parse] ([Streaming-data-for-graphiti/adapters]) *)

Module Extract.

(** [{c[wa_id]: c[profile][name] for c in value.get(contacts, [])}]. *)
Definition build_contacts (value : pyval) : result kdict :=
  Render.build_contacts value.

(** The dict appended to [events]. *)
Record event := Event {
  conversation_id : pyval;
  message_id : pyval;
  from : pyval;
  timestamp : Z;
  text : pyval;
  parent_id : pyval;
  contacts : kdict
}.

(** The dict literal of [events.append({...})], fields in source order. *)
Definition make_event (cid : pyval) (contacts : kdict) (msg : pyval)
  : result event :=
  mid ← getitem msg "id";
  sender ← getitem msg "from";
  ts_raw ← getitem msg "timestamp";
  ts ← py_int ts_raw;
  t ← getitem msg "text";
  b ← getitem t "body";
  pid ← get msg "parent_message_id" VNone;
  Ok (Event cid mid sender ts b pid contacts).

Definition events_of_change (cid : pyval) (events : list event)
    (change : pyval) : result (list event) :=
  value ← getitem change "value";
  contacts ← build_contacts value;
  msgs ← get value "messages" (VList []);
  l ← iter msgs;
  for_each l (fun events msg =>
    ev ← make_event cid contacts msg; Ok (events ++ [ev])%list) events.

Definition events_of_entry (events : list event) (entry : pyval)
  : result (list event) :=
  cid ← getitem entry "id";
  changes ← getitem entry "changes";
  l ← iter changes;
  for_each l (events_of_change cid) events.

Definition events_of_record (events : list event) (record : pyval)
  : result (list event) :=
  entries ← getitem record "entry";
  l ← iter entries;
  for_each l events_of_entry events.

Definition extract_events (payload : pyval) : result (list event) :=
  records ← iter payload;
  for_each records events_of_record [].

(** *** The adapter: a generator of [StreamEvent]s *)

Inductive SourceType := whatsapp | slack | teams | gmail | discord | generic.

(** [schemas.StreamEvent]; field values of another type than the declared
    one do not validate. *)
Record StreamEvent := {
  source : SourceType;
  stream_id : string;
  event_id : string;
  actor_id : string;
  actor_name : option string;
  se_timestamp : Z;
  content : string;
  parent_event_id : option string;
  raw_payload : pyval
}.

Definition validation_error : exn :=
  Exn ValueError "validation error for StreamEvent".

Definition as_str (v : pyval) : result string :=
  match v with
  | VStr s => Ok s
  | _ => Raise validation_error
  end.

Definition as_opt_str (v : pyval) : result (option string) :=
  match v with
  | VNone => Ok None
  | VStr s => Ok (Some s)
  | _ => Raise validation_error
  end.

(** The call [StreamEvent(source=..., ...)]: the arguments are evaluated in
    source order, then the model validates them. *)
Definition make_stream_event (stream_id : pyval) (contacts : kdict)
    (msg : pyval) : result StreamEvent :=
  mid ← getitem msg "id";
  sender ← getitem msg "from";
  sender' ← getitem msg "from";
  name ← kdict_get contacts sender' VNone;
  ts_raw ← getitem msg "timestamp";
  ts ← py_int ts_raw;
  t ← getitem msg "text";
  b ← getitem t "body";
  pid ← get msg "parent_message_id" VNone;
  sid ← as_str stream_id;
  eid ← as_str mid;
  aid ← as_str sender;
  aname ← as_opt_str name;
  c ← as_str b;
  p ← as_opt_str pid;
  Ok {| source := whatsapp; stream_id := sid; event_id := eid;
        actor_id := aid; actor_name := aname; se_timestamp := ts;
        content := c; parent_event_id := p; raw_payload := msg |}.

(** A run of a generator: what it yielded, and the exception that ended it,
    if any. *)
Definition gen : Type := list StreamEvent * option exn.

Definition gen_try {A} (r : result A) (k : A → gen) : gen :=
  match r with
  | Ok a => k a
  | Raise e => ([], Some e)
  end.

Fixpoint gen_for {A} (l : list A) (body : A → gen) : gen :=
  match l with
  | [] => ([], None)
  | x :: l' =>
      match body x with
      | (ys, Some e) => (ys, Some e)
      | (ys, None) =>
          let (zs, e) := gen_for l' body in ((ys ++ zs)%list, e)
      end
  end.

Definition parse_change (stream_id : pyval) (change : pyval) : gen :=
  gen_try (getitem change "value") (fun value =>
  gen_try (build_contacts value) (fun contacts =>
  gen_try (msgs ← get value "messages" (VList []); iter msgs) (fun l =>
  gen_for l (fun msg =>
    gen_try (make_stream_event stream_id contacts msg) (fun ev =>
      ([ev], None)))))).

Definition parse_entry (entry : pyval) : gen :=
  gen_try (getitem entry "id") (fun stream_id =>
  gen_try (changes ← getitem entry "changes"; iter changes) (fun l =>
  gen_for l (parse_change stream_id))).

(** [WhatsAppAdapter.parse]. *)
Definition parse (payload : pyval) : gen :=
  gen_try (iter payload) (fun records =>
  gen_for records (fun record =>
    gen_try (entries ← getitem record "entry"; iter entries) (fun l =>
    gen_for l parse_entry))).

(** [list(adapter.parse(payload))] of [ingest.py]. *)
Definition collect (g : gen) : result (list StreamEvent) :=
  match g with
  | (evs, None) => Ok evs
  | (_, Some e) => Raise e
  end.

(** *** Vocabulary: the messages of a payload, and well-formed input *)

(** The elements a loop draws from the value of [r], none if there is no
    such value. *)
Definition items_of (r : result pyval) : list pyval :=
  match r ≫= iter with
  | Ok l => l
  | Raise _ => []
  end.

Definition messages_of_change (change : pyval) : list pyval :=
  match getitem change "value" with
  | Ok value => items_of (get value "messages" (VList []))
  | Raise _ => []
  end.

Definition messages_of_entry (entry : pyval) : list pyval :=
  flat_map messages_of_change (items_of (getitem entry "changes")).

Definition messages_of_record (record : pyval) : list pyval :=
  flat_map messages_of_entry (items_of (getitem record "entry")).

(** Every message of every record, entry and change, in input order. *)
Definition messages_of (payload : pyval) : list pyval :=
  flat_map messages_of_record (items_of (Ok payload)).

(** The message has no [id], no [from] or no [timestamp]. *)
Definition lacks_identity (msg : pyval) : bool :=
  negb (is_ok (getitem msg "id"))
  || negb (is_ok (getitem msg "from"))
  || negb (is_ok (getitem msg "timestamp")).

(** [msg[key]], or [None]. *)
Definition field (key : string) (msg : pyval) : pyval :=
  match getitem msg key with
  | Ok v => v
  | Raise _ => VNone
  end.

(** [msg[text][body]], or [None]. *)
Definition text_body (msg : pyval) : pyval := field "body" (field "text" msg).

(** What is compared between a message and its event: id and text. *)
Definition seen (msg : pyval) : pyval * pyval :=
  (field "id" msg, text_body msg).

(** Every name in the contact dict is a string. *)
Definition str_valued (d : kdict) : Prop :=
  Forall (fun kv => ∃ s, kv.2 = VStr s) d.

Definition is_str (v : option pyval) : bool :=
  match v with
  | Some (VStr _) => true
  | _ => false
  end.

(** A message with string [id] and [from], a [timestamp] that [int]
    accepts, a string [text.body], and a string or no [parent_message_id]. *)
Definition wf_message (msg : pyval) : bool :=
  match msg with
  | VDict items =>
      is_str (dict_get "id" items) && is_str (dict_get "from" items)
      && match dict_get "timestamp" items with
         | Some ts => is_ok (py_int ts)
         | None => false
         end
      && match dict_get "text" items with
         | Some (VDict t) => is_str (dict_get "body" t)
         | _ => false
         end
      && match dict_get "parent_message_id" items with
         | None | Some VNone | Some (VStr _) => true
         | _ => false
         end
  | _ => false
  end.

Definition wf_contact (c : pyval) : bool :=
  match c with
  | VDict items =>
      is_str (dict_get "wa_id" items)
      && match dict_get "profile" items with
         | Some (VDict p) => is_str (dict_get "name" p)
         | _ => false
         end
  | _ => false
  end.

Definition wf_list (wf : pyval → bool) (v : option pyval) : bool :=
  match v with
  | Some (VList l) => forallb wf l
  | _ => false
  end.

Definition wf_value (value : pyval) : bool :=
  match value with
  | VDict items =>
      (negb (dict_mem "contacts" items)
       || wf_list wf_contact (dict_get "contacts" items))
      && (negb (dict_mem "messages" items)
          || wf_list wf_message (dict_get "messages" items))
  | _ => false
  end.

Definition wf_change (change : pyval) : bool :=
  match change with
  | VDict items =>
      match dict_get "value" items with
      | Some value => wf_value value
      | None => false
      end
  | _ => false
  end.

Definition wf_entry (entry : pyval) : bool :=
  match entry with
  | VDict items =>
      is_str (dict_get "id" items)
      && wf_list wf_change (dict_get "changes" items)
  | _ => false
  end.

Definition wf_record (record : pyval) : bool :=
  match record with
  | VDict items => wf_list wf_entry (dict_get "entry" items)
  | _ => false
  end.

(** The shape of section 6: a list of records, each message complete. *)
Definition wf_payload (payload : pyval) : bool :=
  wf_list wf_record (Some payload).

Definition message (id sender : string) (fields : list (string * pyval))
  : pyval :=
  VDict ([("id", VStr id); ("from", VStr sender);
          ("timestamp", VStr "1700000000")] ++ fields).

Definition payload_of (messages : list pyval) : pyval :=
  VList [VDict [("entry", VList [VDict [
    ("id", VStr "120363");
    ("changes", VList [VDict [("value", VDict [
       ("contacts", VList [VDict [("wa_id", VStr "17025551001");
                                  ("profile", VDict [("name", VStr "Sara")])]]);
       ("messages", VList messages)])]])]])]].

(** A message without [text], then a complete one. *)
Definition malformed_then_good : pyval :=
  payload_of [message "wamid.1" "17025551001" [];
              message "wamid.2" "17025551001"
                [("text", VDict [("body", VStr "hello")])]].

(** Two complete messages, then one without [id]. *)
Definition good_then_malformed : pyval :=
  payload_of [message "wamid.1" "17025551001"
                [("text", VDict [("body", VStr "hello")])];
              message "wamid.2" "17025551001"
                [("text", VDict [("body", VStr "again")])];
              VDict [("from", VStr "17025551001");
                     ("timestamp", VStr "1700000000");
                     ("text", VDict [("body", VStr "lost")])]].

Definition two_good : pyval :=
  payload_of [message "wamid.1" "17025551001"
                [("text", VDict [("body", VStr "hello")])];
              message "wamid.2" "17025551001"
                [("text", VDict [("body", VStr "again")]);
                 ("parent_message_id", VStr "wamid.1")]].

End Extract.

(** ** The embedding pipeline: the two batched [embed_texts] *)

Module Embed.

(** [range(start, stop, step)]. *)
Definition py_range (start stop step : Z) : result (list Z) :=
  if (step =? 0)%Z then
    Raise (Exn ValueError "range() arg 3 must not be zero")
  else
    let count :=
      if (0 <? step)%Z then Z.to_nat ((stop - start + step - 1) / step)
      else Z.to_nat ((start - stop - step - 1) / (- step)) in
    Ok (map (fun k => (start + Z.of_nat k * step)%Z) (seq 0 count)).

(** A slice bound brought into [0 .. len]. *)
Definition clamp (len i : Z) : Z :=
  if (i <? 0)%Z then Z.max 0 (i + len) else Z.min i len.

(** [l[i:j]]. *)
Definition py_slice {A} (l : list A) (i j : Z) : list A :=
  let len := Z.of_nat (length l) in
  let lo := clamp len i in
  let hi := clamp len j in
  take (Z.to_nat (hi - lo)) (drop (Z.to_nat lo) l).

Section Service.

(** Embedding vectors: lists of floats the code only passes along. *)
Context {vector : Type}.

(** The JSON body of a response of the embedding service, with the keys the
    code looks at; an item of [data] is a dict that may lack [embedding]. *)
Record body := Body {
  data : option (list (option vector));
  embeddings : option (list vector);
  embedding : option vector
}.

(** The service: from the requests served so far and the [input] of this
    request, either the decoded body, or the exception raised by
    [requests.post], [raise_for_status] or [r.json()]. *)
Definition service : Type := list (list string) → list string → result body.

(** [[d[embedding] for d in items]]. *)
Fixpoint item_embeddings (items : list (option vector))
  : result (list vector) :=
  match items with
  | [] => Ok []
  | Some v :: rest => vs ← item_embeddings rest; Ok (v :: vs)
  | None :: _ => Raise (key_error "embedding")
  end.

(** [[d[embedding] for d in r.json()[data]]]. *)
Definition data_embeddings (b : body) : result (list vector) :=
  match data b with
  | Some items => item_embeddings items
  | None => Raise (key_error "data")
  end.

(** The three response formats of the second variant. *)
Definition any_embeddings (b : body) : result (list vector) :=
  match data b, embeddings b, embedding b with
  | Some items, _, _ => item_embeddings items
  | None, Some vs, _ => Ok vs
  | None, None, Some v => Ok [v]
  | None, None, None =>
      Raise (Exn ValueError "Unknown embedding response format")
  end.

(** The [for i in range(...)] loop: the requests sent so far are threaded
    along with the accumulated [embeddings]. *)
Fixpoint embed_loop (post : service) (decode : body → result (list vector))
    (texts : list string) (batch_size : Z) (starts : list Z)
    (sent : list (list string)) (embeddings : list vector)
  : list (list string) * result (list vector) :=
  match starts with
  | [] => (sent, Ok embeddings)
  | i :: rest =>
      let batch := py_slice texts i (i + batch_size) in
      let sent' := (sent ++ [batch])%list in
      match post sent batch ≫= decode with
      | Raise e => (sent', Raise e)
      | Ok vs =>
          embed_loop post decode texts batch_size rest sent'
            (embeddings ++ vs)%list
      end
  end.

Definition embed_with (decode : body → result (list vector))
    (post : service) (texts : list string) (batch_size : Z)
  : list (list string) * result (list vector) :=
  match py_range 0 (Z.of_nat (length texts)) batch_size with
  | Raise e => ([], Raise e)
  | Ok starts => embed_loop post decode texts batch_size starts [] []
  end.

End Service.

Arguments body : clear implicits.
Arguments service : clear implicits.

(** [Streaming-data-for-graphiti/embedding.py]: the requests sent, and the
    value returned or the exception raised. *)
Module Streaming.
Definition embed_texts {vector} (post : service vector)
    (texts : list string) (batch_size : Z)
  : list (list string) * result (list vector) :=
  embed_with data_embeddings post texts batch_size.
End Streaming.

(** [whatsapp-ingested-graphiti/ingestion.py]. *)
Module Ingested.
Definition embed_texts {vector} (post : service vector)
    (texts : list string) (batch_size : Z)
  : list (list string) * result (list vector) :=
  embed_with any_embeddings post texts batch_size.
End Ingested.

(** A service for examples: the vector of a text is its length. *)
Definition length_service : service nat :=
  fun _ batch =>
    Ok (Body (Some (map (fun t => Some (String.length t)) batch)) None None).

End Embed.

(** ** The graph store and the Cypher statements of the writers *)

Module Cypher.

Section Store.

(** Embedding vectors, as in [Embed]. *)
Context {vector : Type}.

(** Property values the writers store. A property set to [null] is removed,
    so a stored property always has a value. *)
Inductive propval :=
  | PStr (s : string)
  | PInt (z : Z)
  | PVec (v : vector).

Record node := Node { label : string; props : gmap string propval }.

(** [(start, type, end)]; nodes are named by their position in [nodes],
    the store never deletes. *)
Definition edge : Type := nat * string * nat.

Record graph := Graph { nodes : list node; edges : list edge }.

Definition empty_graph : graph := Graph [] [].

(** A node pattern [(:Label {k1: s1, ...})] with string values. *)
Definition pattern : Type := list (string * string).

Definition has_str (n : node) (kv : string * string) : bool :=
  match props n !! kv.1 with
  | Some (PStr t) => String.eqb t kv.2
  | _ => false
  end.

Definition node_matches (lbl : string) (pat : pattern) (n : node) : bool :=
  String.eqb (label n) lbl && forallb (has_str n) pat.

Fixpoint find_from (i : nat) (lbl : string) (pat : pattern)
    (ns : list node) : list nat :=
  match ns with
  | [] => []
  | n :: ns' =>
      if node_matches lbl pat n then i :: find_from (S i) lbl pat ns'
      else find_from (S i) lbl pat ns'
  end.

(** The nodes a pattern matches, in store order. *)
Definition match_nodes (lbl : string) (pat : pattern) (g : graph)
  : list nat :=
  find_from 0 lbl pat (nodes g).

Definition pattern_props (pat : pattern) : gmap string propval :=
  foldr (fun kv m => <[kv.1 := PStr kv.2]> m) ∅ pat.

Definition create_node (lbl : string) (pat : pattern) (g : graph) : graph :=
  Graph (nodes g ++ [Node lbl (pattern_props pat)]) (edges g).

(** [MERGE (x:Label {...})]: the matching nodes, or one new node. *)
Definition merge_node (lbl : string) (pat : pattern) (g : graph)
  : graph * list nat :=
  match match_nodes lbl pat g with
  | [] => (create_node lbl pat g, [length (nodes g)])
  | ms => (g, ms)
  end.

(** [SET x.k = v]; a [null] value removes the property. *)
Definition set_prop (m : gmap string propval)
    (kv : string * option propval) : gmap string propval :=
  match kv.2 with
  | Some v => <[kv.1 := v]> m
  | None => delete kv.1 m
  end.

Definition set_props (i : nat) (items : list (string * option propval))
    (g : graph) : graph :=
  Graph (alter (fun n => Node (label n) (foldl set_prop (props n) items))
           i (nodes g))
        (edges g).

(** [MERGE (a)-[:TYPE]->(b)] on bound nodes: created unless present. *)
Definition add_edge (e : edge) (g : graph) : graph :=
  if decide (e ∈ edges g) then g else Graph (nodes g) (edges g ++ [e]).

(** *** Rows and clauses *)

Section Rows.

(** [R]: what a row carries besides node variables, the query parameters
    or the element of [UNWIND $batch AS row]. *)
Context {R : Type}.

Record env := Env { row : R; vars : list (string * nat) }.

Fixpoint assoc (x : string) (l : list (string * nat)) : option nat :=
  match l with
  | [] => None
  | (y, n) :: l' => if String.eqb x y then Some n else assoc x l'
  end.

Definition bind (x : string) (e : env) (n : nat) : env :=
  Env (row e) ((x, n) :: vars e).

Fixpoint keep (xs : list string) (l : list (string * nat))
  : list (string * nat) :=
  match l with
  | [] => []
  | (y, n) :: l' =>
      if existsb (String.eqb y) xs then (y, n) :: keep xs l' else keep xs l'
  end.

Inductive clause :=
  | MERGE (x lbl : string) (pat : R → pattern)
  | MATCH (x lbl : string) (pat : R → pattern)
  | SET (x : string) (items : R → list (string * option propval))
  | MERGE_rel (a ty b : string)
  | WITH (xs : list string).

(** A statement: a clause, or [FOREACH (_ IN items | body)]. The idiom
    [CASE WHEN v IS NULL THEN [] ELSE [1] END] is the list of the non-null
    [v], which the body then refers to. *)
Inductive stmt :=
  | Do (c : clause)
  | FOREACH {X : Type} (items : R → list X) (body : X → list clause).

(** A clause on one row: the updated graph and the rows it produces.
    The writers' queries bind every variable before they use it. *)
Definition step (c : clause) (g : graph) (e : env) : graph * list env :=
  match c with
  | MERGE x lbl pat =>
      let (g', ms) := merge_node lbl (pat (row e)) g in (g', map (bind x e) ms)
  | MATCH x lbl pat => (g, map (bind x e) (match_nodes lbl (pat (row e)) g))
  | SET x items =>
      (match assoc x (vars e) with
       | Some n => set_props n (items (row e)) g
       | None => g
       end, [e])
  | MERGE_rel a ty b =>
      (match assoc a (vars e), assoc b (vars e) with
       | Some i, Some j => add_edge (i, ty, j) g
       | _, _ => g
       end, [e])
  | WITH xs => (g, [Env (row e) (keep xs (vars e))])
  end.

(** A clause on a table: row after row, on the graph left by the rows
    before. *)
Fixpoint run_rows (f : graph → env → graph * list env) (g : graph)
    (tbl : list env) : graph * list env :=
  match tbl with
  | [] => (g, [])
  | e :: rest =>
      let (g1, out1) := f g e in
      let (g2, out2) := run_rows f g1 rest in
      (g2, out1 ++ out2)
  end.

Definition run_clause (st : graph * list env) (c : clause)
  : graph * list env :=
  run_rows (step c) st.1 st.2.

Definition run_clauses (cs : list clause) (st : graph * list env)
  : graph * list env :=
  foldl run_clause st cs.

Definition foreach_step {X} (items : R → list X) (body : X → list clause)
    (g : graph) (e : env) : graph * list env :=
  (foldl (fun g x => (run_clauses (body x) (g, [e])).1) g (items (row e)),
   [e]).

Definition run_stmt (st : graph * list env) (s : stmt) : graph * list env :=
  match s with
  | Do c => run_clause st c
  | FOREACH items body => run_rows (foreach_step items body) st.1 st.2
  end.

(** [tx.run(query, ...)] with one row per element of [rows]. *)
Definition run_query (q : list stmt) (rows : list R) (g : graph) : graph :=
  (foldl run_stmt (g, map (fun r => Env r []) rows) q).1.

End Rows.

End Store.


Arguments propval : clear implicits.
Arguments node : clear implicits.
Arguments graph : clear implicits.
Arguments env : clear implicits.
Arguments clause : clear implicits.
Arguments stmt : clear implicits.

(** *** Tables of a single event *)

Section Tables.
Context {R : Type}.

(** A table whose rows all carry [r]: one row per list of bindings. *)
Definition rows (r : R) (vss : list (list (string * nat))) : list (env R) :=
  map (Env r) vss.

(** Each row, once for each node of [ns], with [x] bound to it. *)
Definition extend (x : string) (ns : list nat)
    (vss : list (list (string * nat))) : list (list (string * nat)) :=
  flat_map (fun vs => map (fun n => (x, n) :: vs) ns) vss.

(** The nodes bound to [x], row by row. *)
Definition bound (x : string) (vss : list (list (string * nat)))
  : list nat :=
  omap (assoc x) vss.

(** The pairs of nodes bound to [a] and [b], row by row. *)
Definition bound2 (a b : string) (vss : list (list (string * nat)))
  : list (nat * nat) :=
  omap (fun vs =>
          match assoc a vs, assoc b vs with
          | Some i, Some j => Some (i, j)
          | _, _ => None
          end) vss.

End Tables.

(** *** Vocabulary for statements about the store *)

(** Nodes labelled [lbl] keep their properties [keys] when the properties
    [K] of the nodes labelled [L] are set. *)
Definition untouched (lbl : string) (keys : list string) (L : string)
    (K : list string) : bool :=
  negb (String.eqb lbl L)
  || forallb (fun k => negb (existsb (String.eqb k) K)) keys.


Section StoreVocabulary.
Context {vector : Type}.

(** The graph a [MERGE] of a node leaves. *)
Definition ensure (lbl : string) (pat : pattern) (g : graph vector)
  : graph vector :=
  (merge_node lbl pat g).1.

(** [SET] with the same items on each node of a list, in order. *)
Definition set_nodes (ns : list nat)
    (items : list (string * option (propval vector))) (g : graph vector)
  : graph vector :=
  foldl (fun g n => set_props n items g) g ns.

(** [MERGE] of a relationship of one type for each pair of a list. *)
Definition link_all (pairs : list (nat * nat)) (ty : string)
    (g : graph vector) : graph vector :=
  foldl (fun g p => add_edge (p.1, ty, p.2) g) g pairs.

(** The value of property [k] of node [j], if both exist. *)
Definition prop_at (g : graph vector) (j : nat) (k : string)
  : option (propval vector) :=
  nodes g !! j ≫= fun nd => props nd !! k.

Definition distinct_keys {A} (l : list (string * A)) : Prop := NoDup l.*1.

(** [h] has the nodes of [g], with the same labels, and the same
    properties except for the keys [K] on nodes labelled [L]; and all the
    edges of [g]. *)
Definition frame (L : string) (K : list string) (g h : graph vector)
  : Prop :=
  Forall2 (fun nd nd' =>
             label nd' = label nd
             ∧ ∀ k, (label nd = L → k ∉ K) → props nd' !! k = props nd !! k)
    (nodes g) (nodes h)
  ∧ ∀ e, e ∈ edges g → e ∈ edges h.

(** Every node matching the pattern has the items as properties. *)
Definition all_have (lbl : string) (pat : pattern)
    (items : list (string * option (propval vector))) (g : graph vector)
  : Prop :=
  ∀ n k v, n ∈ match_nodes lbl pat g → (k, v) ∈ items → prop_at g n k = v.

(** Every pair of nodes matching the two patterns is linked. *)
Definition all_linked (lbl1 : string) (pat1 : pattern) (ty : string)
    (lbl2 : string) (pat2 : pattern) (g : graph vector) : Prop :=
  ∀ a b, a ∈ match_nodes lbl1 pat1 g → b ∈ match_nodes lbl2 pat2 g →
         (a, ty, b) ∈ edges g.

End StoreVocabulary.

End Cypher.

Import Cypher.

(** ** [GraphWriter] ([Streaming-data-for-graphiti/graph_writer.py]) *)

Module GraphWriter.

Section Writer.
Context {vector : Type}.

Definition source_value (s : Extract.SourceType) : string :=
  match s with
  | Extract.whatsapp => "whatsapp"
  | Extract.slack => "slack"
  | Extract.teams => "teams"
  | Extract.gmail => "gmail"
  | Extract.discord => "discord"
  | Extract.generic => "generic"
  end.

(** The attributes of a [StreamEvent] the writer reads, [embedding] being
    the attribute [ingest.py] sets on the event before writing. *)
Record event := Event {
  actor_id : string;
  actor_name : option string;
  stream_id : string;
  source : Extract.SourceType;
  event_id : string;
  content : string;
  timestamp : Z;
  embedding : option vector;
  parent_event_id : option string
}.

Definition of_stream_event (e : Extract.StreamEvent)
    (v : option vector) : event :=
  {| actor_id := Extract.actor_id e; actor_name := Extract.actor_name e;
     stream_id := Extract.stream_id e; source := Extract.source e;
     event_id := Extract.event_id e; content := Extract.content e;
     timestamp := Extract.se_timestamp e; embedding := v;
     parent_event_id := Extract.parent_event_id e |}.

(** [MERGE (a:Actor {id: $actor_id}) SET a.name = $actor_name] *)
Definition merge_actor : list (stmt vector event) :=
  [ Do (MERGE "a" "Actor" (fun e => [("id", actor_id e)]));
    Do (SET "a" (fun e => [("name", PStr <$> actor_name e)])) ].

(** [MERGE (s:Stream {id: $stream_id, source: $source})] *)
Definition merge_stream : list (stmt vector event) :=
  [ Do (MERGE "s" "Stream"
          (fun e => [("id", stream_id e);
                     ("source", source_value (source e))])) ].

(** The third statement of [write_event], lines 20-40. *)
Definition merge_message : list (stmt vector event) :=
  [ Do (MERGE "m" "Message" (fun e => [("id", event_id e)]));
    Do (SET "m" (fun e =>
          [("body", Some (PStr (content e)));
           ("timestamp", Some (PInt (timestamp e)));
           ("embedding", PVec <$> embedding e);
           ("source", Some (PStr (source_value (source e))))]));
    Do (WITH ["m"]);
    Do (MATCH "a" "Actor" (fun e => [("id", actor_id e)]));
    Do (MERGE_rel "a" "PRODUCED" "m");
    Do (WITH ["m"]);
    Do (MATCH "s" "Stream" (fun e => [("id", stream_id e)]));
    Do (MERGE_rel "s" "HAS_EVENT" "m") ].

(** [MATCH (c:Message {id: $child}) MATCH (p:Message {id: $parent})
     MERGE (c)-[:REPLIES_TO]->(p)] *)
Definition merge_reply (parent : string) : list (stmt vector event) :=
  [ Do (MATCH "c" "Message" (fun e => [("id", event_id e)]));
    Do (MATCH "p" "Message" (fun _ => [("id", parent)]));
    Do (MERGE_rel "c" "REPLIES_TO" "p") ].

(** [write_event(self, tx, e)]; [if e.parent_event_id:] passes over [None]
    and the empty string. *)
Definition write_event (e : event) (g : graph vector) : graph vector :=
  let g := run_query merge_actor [e] g in
  let g := run_query merge_stream [e] g in
  let g := run_query merge_message [e] g in
  match parent_event_id e with
  | Some parent =>
      if str_truthy parent then run_query (merge_reply parent) [e] g else g
  | None => g
  end.

(** [ingest(self, events)]. *)
Definition ingest (events : list event) (g : graph vector) : graph vector :=
  foldl (fun g e => write_event e g) g events.

(** *** Vocabulary: a store in which an event is written *)

(** What the third statement sets on the message. *)
Definition message_items (e : event)
  : list (string * option (propval vector)) :=
  [("body", Some (PStr (content e)));
   ("timestamp", Some (PInt (timestamp e)));
   ("embedding", PVec <$> embedding e);
   ("source", Some (PStr (source_value (source e))))].

(** The store has the actor, the stream and the message of [e], with the
    attributes of [e] on every node that carries the identity, and the
    edges between them. *)
Definition settled (e : event) (g : graph vector) : Prop :=
  match_nodes "Actor" [("id", actor_id e)] g ≠ []
  ∧ all_have "Actor" [("id", actor_id e)]
      [("name", PStr <$> actor_name e)] g
  ∧ match_nodes "Stream"
      [("id", stream_id e); ("source", source_value (source e))] g ≠ []
  ∧ match_nodes "Message" [("id", event_id e)] g ≠ []
  ∧ all_have "Message" [("id", event_id e)] (message_items e) g
  ∧ all_linked "Actor" [("id", actor_id e)] "PRODUCED"
      "Message" [("id", event_id e)] g
  ∧ all_linked "Stream" [("id", stream_id e)] "HAS_EVENT"
      "Message" [("id", event_id e)] g
  ∧ ∀ parent, parent_event_id e = Some parent → str_truthy parent = true →
      all_linked "Message" [("id", event_id e)] "REPLIES_TO"
        "Message" [("id", parent)] g.

End Writer.

Arguments event : clear implicits.

End GraphWriter.

(** ** [write_batch] of [Benchmark/ingest_whatsapp_3.py] *)

Module Benchmark.

Section Writer.
Context {vector : Type}.

(** An element of [$batch]: a record of [main] with its [embedding]; a key
    the dict lacks reads as [null]. *)
Record row := Row {
  group_id : string;
  user_id : string;
  user_name : string;
  message_id : string;
  parent_id : option string;
  timestamp : Z;
  body : string;
  embedding : option vector
}.

(** The statement of [write_batch], after [UNWIND $batch AS row]. *)
Definition write_batch_query : list (stmt vector row) :=
  [ Do (MERGE "g" "Group" (fun row => [("id", group_id row)]));
    Do (MERGE "u" "User" (fun row => [("id", user_id row)]));
    Do (SET "u" (fun row => [("name", Some (PStr (user_name row)))]));
    Do (MERGE "m" "Message" (fun row => [("id", message_id row)]));
    Do (SET "m" (fun row =>
          [("body", Some (PStr (body row)));
           ("timestamp", Some (PInt (timestamp row)));
           ("embedding", PVec <$> embedding row)]));
    Do (MERGE_rel "u" "SENT" "m");
    Do (MERGE_rel "m" "IN_GROUP" "g");
    FOREACH (fun row => option_list (parent_id row))
      (fun parent =>
         [ MERGE "p" "Message" (fun _ => [("id", parent)]);
           MERGE_rel "p" "REPLIED_TO" "m" ]) ].

Definition write_batch (batch : list row) (g : graph vector)
  : graph vector :=
  run_query write_batch_query batch g.

(** The body of the [FOREACH], on one row of bindings. *)
Definition reply_step (r : row) (parent : string) (g : graph vector)
    (vs : list (string * nat)) : graph vector :=
  (run_clauses
     [MERGE "p" "Message" (fun _ => [("id", parent)]);
      MERGE_rel "p" "REPLIED_TO" "m"] (g, rows r [vs])).1.

(** *** Vocabulary: a store in which a row is written *)

Definition message_items (row : row)
  : list (string * option (propval vector)) :=
  [("body", Some (PStr (body row)));
   ("timestamp", Some (PInt (timestamp row)));
   ("embedding", PVec <$> embedding row)].

(** The store has the group, the user and the message of [row], with the
    attributes of [row] on every node that carries the identity, the edges
    between them, and for a reply the parent and the reply edge. *)
Definition settled (row : row) (g : graph vector) : Prop :=
  match_nodes "Group" [("id", group_id row)] g ≠ []
  ∧ match_nodes "User" [("id", user_id row)] g ≠ []
  ∧ all_have "User" [("id", user_id row)]
      [("name", Some (PStr (user_name row)))] g
  ∧ match_nodes "Message" [("id", message_id row)] g ≠ []
  ∧ all_have "Message" [("id", message_id row)] (message_items row) g
  ∧ all_linked "User" [("id", user_id row)] "SENT"
      "Message" [("id", message_id row)] g
  ∧ all_linked "Message" [("id", message_id row)] "IN_GROUP"
      "Group" [("id", group_id row)] g
  ∧ ∀ parent, parent_id row = Some parent →
      match_nodes "Message" [("id", parent)] g ≠ []
      ∧ all_linked "Message" [("id", parent)] "REPLIED_TO"
          "Message" [("id", message_id row)] g.

End Writer.

Arguments row : clear implicits.

End Benchmark.

(** ** [write_batch] of [whatsapp-ingested-graphiti/ingestion.py] *)

Module Ingestion.

Section Writer.
Context {vector : Type}.

(** An event of [extract_events] with its [embedding]. *)
Record event := Event {
  conversation_id : string;
  message_id : string;
  from : string;
  timestamp : Z;
  text : string;
  parent_id : option string;
  contacts : list (string * string);
  embedding : option vector
}.

(** [MERGE (u:User {wa_id: $wa_id}) SET u.name = $name] *)
Definition merge_user (wa_id name : string) : list (stmt vector event) :=
  [ Do (MERGE "u" "User" (fun _ => [("wa_id", wa_id)]));
    Do (SET "u" (fun _ => [("name", Some (PStr name))])) ].

(** [MERGE (c:Conversation {id: $cid})] *)
Definition merge_conversation : list (stmt vector event) :=
  [ Do (MERGE "c" "Conversation" (fun e => [("id", conversation_id e)])) ].

Definition merge_message : list (stmt vector event) :=
  [ Do (MERGE "m" "Message" (fun e => [("id", message_id e)]));
    Do (SET "m" (fun e =>
          [("body", Some (PStr (text e)));
           ("timestamp", Some (PInt (timestamp e)));
           ("embedding", PVec <$> embedding e)]));
    Do (WITH ["m"]);
    Do (MATCH "u" "User" (fun e => [("wa_id", from e)]));
    Do (MERGE_rel "u" "SENT" "m");
    Do (WITH ["m"]);
    Do (MATCH "c" "Conversation" (fun e => [("id", conversation_id e)]));
    Do (MERGE_rel "c" "HAS_MESSAGE" "m") ].

Definition merge_reply (parent : string) : list (stmt vector event) :=
  [ Do (MATCH "child" "Message" (fun e => [("id", message_id e)]));
    Do (MATCH "parent" "Message" (fun _ => [("id", parent)]));
    Do (MERGE_rel "child" "REPLY_TO" "parent") ].

(** [write_batch(tx, event)]: one event, despite the name. *)
Definition write_batch (e : event) (g : graph vector) : graph vector :=
  let g := foldl (fun g c => run_query (merge_user c.1 c.2) [e] g) g
             (contacts e) in
  let g := run_query merge_conversation [e] g in
  let g := run_query merge_message [e] g in
  match parent_id e with
  | Some parent =>
      if str_truthy parent then run_query (merge_reply parent) [e] g else g
  | None => g
  end.

End Writer.

Arguments event : clear implicits.

End Ingestion.

(** ** The [/query] handlers *)

Module Query.

(** The JSON body a handler returns. *)
Inductive reply :=
  | Answered (query answer context : string)
  | Failed (error query : string)
  | AnsweredBare (query answer : string).

(** A call of a handler: it returns a body, or an exception leaves it.
    Exceptions here are instances of [Exception]. *)
Inductive outcome :=
  | Returns (r : reply)
  | Propagates (e : exn).

(** [try: body except Exception as e: handler(e)]. *)
Definition try_except (body : result reply) (handler : exn → reply)
  : outcome :=
  match body with
  | Ok r => Returns r
  | Raise e => Returns (handler e)
  end.

(** A block with no [try] around it. *)
Definition unguarded (body : result reply) : outcome :=
  match body with
  | Ok r => Returns r
  | Raise e => Propagates e
  end.

(** *** [Benchmark/query_api.py] *)

Module Benchmark.

Section Handler.

(** [SearchResults] of the graph library. *)
Context {results : Type}.

(** What the handler calls on the initialised [graphiti] object and the
    library helper; each may raise. *)
Record client := Client {
  search_ : string → result results;
  search_results_to_context_string : results → result string;
  generate_response : string → result pyval
}.

Definition newline : string := str1 (ascii_of_nat 10).

(** The f-string of lines 221-229. *)
Definition prompt (context_text query : string) : string :=
  newline
  +:+ "You are answering based on WhatsApp conversations stored in a knowledge graph."
  +:+ newline +:+ newline +:+ context_text +:+ newline +:+ newline
  +:+ "Question: " +:+ query +:+ newline +:+ newline
  +:+ "Answer concisely and only using the context provided above."
  +:+ newline.

(** The body of the [try]. *)
Definition answer_query (graphiti : option client) (query : string)
  : result reply :=
  match graphiti with
  | None => Raise (Exn Exception "Graphiti client not initialized")
  | Some c =>
      search_results ← search_ c query;
      context_text ← search_results_to_context_string c search_results;
      response ← generate_response c (prompt context_text query);
      answer ← Answer.extract_answer response;
      Ok (Answered query answer context_text)
  end.

(** [query_graph(req)], with the global [graphiti]. *)
Definition query_graph (graphiti : option client) (query : string)
  : outcome :=
  try_except (answer_query graphiti query)
    (fun e => Failed (exn_str e) query).

End Handler.

Arguments client : clear implicits.

End Benchmark.

(** *** [Streaming-data-for-graphiti/query_api.py] *)

Module Streaming.

Section Handler.

Context {vector : Type}.

(** A row of [retrieve_graph_context]: [main] and [related]. *)
Record context_row := ContextRow { main : string; related : list string }.

(** The calls that leave the process, and the iteration order of a [set]
    of strings. *)
Record services := Services {
  embed_query : string → result vector;
  retrieve_graph_context : vector → result (list context_row);
  call_llm : string → result string;
  set_order : list string → list string
}.

Definition newline : string := str1 (ascii_of_nat 10).

Definition build_prompt (s : services) (context : list context_row)
    (query : string) : string :=
  let lines := flat_map (fun r => main r :: related r) context in
  let context_text := join newline (set_order s lines) in
  newline +:+ "You are answering based on WhatsApp conversations."
  +:+ newline +:+ newline +:+ "Context:" +:+ newline +:+ context_text
  +:+ newline +:+ newline +:+ "Question:" +:+ newline +:+ query
  +:+ newline +:+ newline
  +:+ "Answer concisely and only using the context." +:+ newline.

(** [query_graph(req)]: no [try] in this handler. *)
Definition query_graph (s : services) (query : string) : outcome :=
  unguarded (
    embedding ← embed_query s query;
    context ← retrieve_graph_context s embedding;
    answer ← call_llm s (build_prompt s context query);
    Ok (AnsweredBare query answer)).

End Handler.

Arguments services : clear implicits.

End Streaming.

(** Services for examples: an embedding service that cannot be reached,
    and services that all answer. *)
Definition embedder_down : Streaming.services nat :=
  {| Streaming.embed_query := fun _ =>
       Raise (Exn Exception "Connection refused");
     Streaming.retrieve_graph_context := fun _ => Ok [];
     Streaming.call_llm := fun _ => Ok "A2";
     Streaming.set_order := fun l => l |}.

Definition all_up : Streaming.services nat :=
  {| Streaming.embed_query := fun q => Ok (String.length q);
     Streaming.retrieve_graph_context := fun _ =>
       Ok [Streaming.ContextRow "M2" ["M1"]];
     Streaming.call_llm := fun _ => Ok "A2";
     Streaming.set_order := fun l => l |}.

End Query.

(** ** Example events: a message [M1] of [A1], a reply [M2] of [A2] *)

Module Examples.

(** Vectors of the examples. *)
Definition vec : Type := list Z.

Definition stream_parent : GraphWriter.event vec :=
  GraphWriter.Event "A1" (Some "Sara") "G1" Extract.whatsapp "M1"
    "Lunch at noon?" 1700000000 (Some [1; 2]%Z) None.

Definition stream_reply : GraphWriter.event vec :=
  GraphWriter.Event "A2" (Some "David") "G1" Extract.whatsapp "M2"
    "Yes" 1700000060 (Some [3; 4]%Z) (Some "M1").

(** [M1] again, with another body. *)
Definition stream_parent_edited : GraphWriter.event vec :=
  GraphWriter.Event "A1" (Some "Sara") "G1" Extract.whatsapp "M1"
    "Lunch at one?" 1700000000 (Some [5; 6]%Z) None.

(** [M1] again, without an embedding. *)
Definition stream_parent_bare : GraphWriter.event vec :=
  GraphWriter.Event "A1" (Some "Sara") "G1" Extract.whatsapp "M1"
    "Lunch at noon?" 1700000000 None None.

Definition row_parent : Benchmark.row vec :=
  Benchmark.Row "G1" "A1" "Sara" "M1" None 1700000000 "Lunch at noon?"
    (Some [1; 2]%Z).

Definition row_reply : Benchmark.row vec :=
  Benchmark.Row "G1" "A2" "David" "M2" (Some "M1") 1700000060 "Yes"
    (Some [3; 4]%Z).

Definition row_parent_edited : Benchmark.row vec :=
  Benchmark.Row "G1" "A1" "Sara" "M1" None 1700000000 "Lunch at one?"
    (Some [5; 6]%Z).

Definition row_parent_bare : Benchmark.row vec :=
  Benchmark.Row "G1" "A1" "Sara" "M1" None 1700000000 "Lunch at noon?" None.

Definition ingested_parent : Ingestion.event vec :=
  Ingestion.Event "G1" "M1" "A1" 1700000000 "Lunch at noon?" None
    [("A1", "Sara")] (Some [1; 2]%Z).

Definition ingested_reply : Ingestion.event vec :=
  Ingestion.Event "G1" "M2" "A2" 1700000060 "Yes" (Some "M1")
    [("A2", "David")] (Some [3; 4]%Z).

(** The edges of one relationship type. *)
Definition edges_of_type {vector} (ty : string) (g : graph vector)
  : list edge :=
  List.filter (fun e => String.eqb (snd (fst e)) ty) (edges g).

End Examples.

(** ** [normalize_url] ([Benchmark/query_api.py]) *)

Module Url.

(** [s.endswith(suffix)]: some tail of [s] is [suffix]. *)
Fixpoint endswith (s suffix : string) : bool :=
  String.eqb s suffix
  || match s with
     | EmptyString => false
     | String _ s' => endswith s' suffix
     end.

(** [normalize_url(url)], lines 44-49. *)
Definition normalize_url (url : string) : string :=
  let url := if negb (endswith url "/") then url +:+ "/" else url in
  if negb (endswith url "v1/") then url +:+ "v1" else url.

End Url.

(** ** [embed_texts] of [Benchmark/ingest_whatsapp_3.py]: one request *)

Module BenchmarkEmbed.

Section Service.
Context {vector : Type}.

(** How a call of [embed_texts] ends. [IndexError], which [vectors[0]]
    raises on an empty list, has a constructor of its own. *)
Inductive outcome :=
  | Returns (vectors : list vector)
  | Raises (e : exn)
  | RaisesIndexError.

(** [embed_texts(texts)], lines 22-37: the request sent, and how the call
    ends. [len(vectors[0])] is taken of a vector, a list of floats. *)
Definition embed_texts (post : Embed.service vector) (texts : list string)
  : list (list string) * outcome :=
  ([texts],
   match post [] texts ≫= Embed.data_embeddings with
   | Raise e => Raises e
   | Ok [] => RaisesIndexError
   | Ok vectors => Returns vectors
   end).

End Service.

Arguments outcome : clear implicits.

End BenchmarkEmbed.

(** ** Embedding services for examples *)

Module EmbedExamples.

(** A service that refuses every request after the first. *)
Definition second_fails : Embed.service nat :=
  fun sent batch =>
    match sent with
    | [] => Embed.length_service sent batch
    | _ => Raise (Exn Exception "503 Server Error")
    end.

(** A service that answers a request with a single vector. *)
Definition single_vector_service : Embed.service nat :=
  fun _ batch => Ok (Embed.Body None None (Some (length batch))).

(** A service that answers under the key [embeddings]: the vector of a
    text is its length. *)
Definition embeddings_service : Embed.service nat :=
  fun _ batch => Ok (Embed.Body None (Some (map String.length batch)) None).

End EmbedExamples.

(** ** What the statements of the writers keep of a store *)

Module Invariant.

Section Store.
Context {vector : Type}.

(** [h] keeps the nodes of [g], each at its position and with its label
    and its properties, the keys [K] apart; and it keeps the edges of
    [g]. *)
Definition keeps (K : list string) (g h : graph vector) : Prop :=
  (∀ j nd, nodes g !! j = Some nd →
     ∃ nd', nodes h !! j = Some nd' ∧ label nd' = label nd
            ∧ ∀ k, k ∉ K → props nd' !! k = props nd !! k)
  ∧ (∀ e, e ∈ edges g → e ∈ edges h).

(** No two nodes labelled [lbl] have the same string as property
    [key]. *)
Definition unique_on (lbl key : string) (g : graph vector) : Prop :=
  ∀ s, (length (match_nodes lbl [(key, s)] g) ≤ 1)%nat.

Section Clauses.
Context {R : Type}.

(** Every clause of a statement, the body of a [FOREACH] included. *)
Definition every_clause (P : clause vector R → Prop) (s : stmt vector R)
  : Prop :=
  match s with
  | Do c => P c
  | FOREACH items body => ∀ x, Forall P (body x)
  end.

(** A [SET] clause sets keys of [K] only. *)
Definition sets_within (K : list string) (c : clause vector R) : Prop :=
  match c with
  | SET _ items => ∀ r, (items r).*1 ⊆ K
  | _ => True
  end.

(** A [MERGE] of a node labelled [lbl] gives [key] and nothing else, and no
    [SET] sets [key]. *)
Definition merges_on (lbl key : string) (c : clause vector R) : Prop :=
  match c with
  | MERGE _ l pat => l = lbl → ∀ r, ∃ s, pat r = [(key, s)]
  | SET _ items => ∀ r, key ∉ (items r).*1
  | _ => True
  end.

(** No [MERGE] creates a node labelled [lbl] that has [s] as [key], and no
    [SET] sets [key]. *)
Definition creates_no (lbl key s : string) (c : clause vector R) : Prop :=
  match c with
  | MERGE _ l pat =>
      ∀ r, node_matches lbl [(key, s)]
             (Node l (pattern_props (pat r)) : node vector) = false
  | SET _ items => ∀ r, key ∉ (items r).*1
  | _ => True
  end.

End Clauses.

End Store.

End Invariant.

(** ** The node statements of a writer, apart from its relationships *)

Module Nodes.

Section Writers.
Context {vector : Type}.

(** The store after the three [MERGE] of nodes and the two [SET] of
    [GraphWriter.write_event], before any relationship is merged. *)
Definition graph_writer (e : GraphWriter.event vector) (g : graph vector)
  : graph vector :=
  let g := ensure "Actor" [("id", GraphWriter.actor_id e)] g in
  let g := set_nodes (match_nodes "Actor" [("id", GraphWriter.actor_id e)] g)
             [("name", PStr <$> GraphWriter.actor_name e)] g in
  let g := ensure "Stream"
             [("id", GraphWriter.stream_id e);
              ("source", GraphWriter.source_value (GraphWriter.source e))] g in
  let g := ensure "Message" [("id", GraphWriter.event_id e)] g in
  set_nodes (match_nodes "Message" [("id", GraphWriter.event_id e)] g)
    (GraphWriter.message_items e) g.

End Writers.

End Nodes.

(** ** A store in which an event of the third writer is written *)

Module IngestionSettled.

Section Writer.
Import Ingestion.
Context {vector : Type}.

(** What the third statement of [write_batch] sets on the message. *)
Definition message_items (e : event vector)
  : list (string * option (propval vector)) :=
  [("body", Some (PStr (text e)));
   ("timestamp", Some (PInt (timestamp e)));
   ("embedding", PVec <$> embedding e)].

(** The store has a user with its name for each contact of [e], the
    conversation and the message with the attributes of [e], the [SENT] edge
    from the users with the sender's [wa_id], if there is such a user the
    [HAS_MESSAGE] edge, and for a reply the [REPLY_TO] edges. *)
Definition settled (e : event vector) (g : graph vector) : Prop :=
  (∀ w n, (w, n) ∈ contacts e →
     match_nodes "User" [("wa_id", w)] g ≠ []
     ∧ all_have "User" [("wa_id", w)] [("name", Some (PStr n))] g)
  ∧ match_nodes "Conversation" [("id", conversation_id e)] g ≠ []
  ∧ match_nodes "Message" [("id", message_id e)] g ≠ []
  ∧ all_have "Message" [("id", message_id e)] (message_items e) g
  ∧ all_linked "User" [("wa_id", from e)] "SENT"
      "Message" [("id", message_id e)] g
  ∧ (match_nodes "User" [("wa_id", from e)] g ≠ [] →
       all_linked "Conversation" [("id", conversation_id e)] "HAS_MESSAGE"
         "Message" [("id", message_id e)] g)
  ∧ ∀ parent, parent_id e = Some parent → str_truthy parent = true →
      all_linked "Message" [("id", message_id e)] "REPLY_TO"
        "Message" [("id", parent)] g.

End Writer.

End IngestionSettled.

(** ** Vocabulary for the records of the benchmark ingestion *)

Module Records.

(** The messages the loops of [main] visit, in order: [obj.get(entry, [])],
    [entry.get(changes, [])], [change[value].get(messages, [])]. *)
Definition messages_of_entry (entry : pyval) : list pyval :=
  flat_map Extract.messages_of_change
    (Extract.items_of (get entry "changes" (VList []))).

Definition messages_of_object (obj : pyval) : list pyval :=
  flat_map messages_of_entry (Extract.items_of (get obj "entry" (VList []))).

Definition messages_of (payload : list pyval) : list pyval :=
  flat_map messages_of_object payload.

(** A text message whose [text.body] is missing or falsy. *)
Definition is_blank_text (msg : pyval) : bool :=
  match getitem msg "type" with
  | Ok ty =>
      eq_str ty "text"
      && match Render.payload_get msg "text" "body" VNone with
         | Ok b => negb (truthy b)
         | Raise _ => false
         end
  | Raise _ => false
  end.

(** The [id] of the messages that are not blank text messages. *)
Definition kept_ids (msgs : list pyval) : list pyval :=
  omap (fun msg => if is_blank_text msg then None
                   else Some (Extract.field "id" msg)) msgs.

(** One step of the dict comprehension that builds [contacts]. *)
Definition contact_step (d : kdict) (c : pyval) : result kdict :=
  k ← getitem c "wa_id";
  p ← getitem c "profile";
  n ← getitem p "name";
  if hashable k then Ok (kdict_set k n d) else Raise unhashable.

(** Two contact entries for one [wa_id], and a message of that sender. *)
Definition renamed_contact : pyval :=
  VDict [("contacts", VList [
            VDict [("wa_id", VStr "17025551001");
                   ("profile", VDict [("name", VStr "Sara")])];
            VDict [("wa_id", VStr "17025551001");
                   ("profile", VDict [("name", VStr "Sara K.")])]])].

(** A loop body that appends to the accumulator what [G] makes of the
    element. *)
Definition appends {A B} (F : list B → A → result (list B))
    (G : A → result (list B)) : Prop :=
  ∀ acc x, F acc x = ys ← G x; Ok (acc ++ ys).

(** The records [ys] are those of the messages [msgs]: one record, with a
    truthy body, for each message that is not a blank text message, in
    order; and each of these messages has its [id], [from] and
    [timestamp]. *)
Definition collected (msgs : list pyval) (ys : list Render.record) : Prop :=
  map Render.message_id ys = kept_ids msgs
  ∧ Forall (fun r => truthy (Render.body r) = true) ys
  ∧ ∀ msg, msg ∈ msgs → is_blank_text msg = false →
           Extract.lacks_identity msg = false.

(** A text message without a body, between two complete messages. *)
Definition blank_between : list pyval :=
  [VDict [("entry", VList [VDict [
     ("id", VStr "120363");
     ("changes", VList [VDict [("value", VDict [
        ("messages", VList [
           VDict [("id", VStr "wamid.1"); ("from", VStr "17025551001");
                  ("timestamp", VStr "1700000000"); ("type", VStr "text");
                  ("text", VDict [("body", VStr "hello")])];
           VDict [("type", VStr "text")];
           VDict [("id", VStr "wamid.3"); ("from", VStr "17025551009");
                  ("timestamp", VStr "1700000100");
                  ("type", VStr "sticker")]])])]])]])]].

End Records.

(** ** More example events *)

Module MoreExamples.

(** [M2], sent by [A2], with [A1] as only contact. *)
Definition ingested_stranger : Ingestion.event Examples.vec :=
  Ingestion.Event "G1" "M2" "A2" 1700000060 "Yes" None [("A1", "Sara")]
    (Some [3; 4]%Z).

End MoreExamples.

(** ** Rows of a batch, followed through a statement *)

Module Batch.

Section Tracked.
Context {vector R : Type}.

(** A table in which every row of bindings satisfies [A], with one row of
    bindings for the batch element [r] that satisfies [D], followed only by
    rows of bindings for [r] and for the batch elements [later]. *)
Definition tracked (r : R) (later : list R)
    (A D : graph vector → env R → Prop) (g : graph vector)
    (tbl : list (env R)) : Prop :=
  ∃ t1 e t2,
    tbl = t1 ++ e :: t2 ∧ row e = r ∧ Forall (A g) tbl ∧ D g e
    ∧ Forall (fun e2 => row e2 ∈ r :: later) t2.

End Tracked.

Section Benchmark.
Import Benchmark.
Context {vector : Type}.

(** The later rows of the batch with the user of [r] give the same name,
    and those with the message of [r] set the same properties. *)
Definition names_agree (r : row vector) (later : list (row vector)) : Prop :=
  ∀ r', r' ∈ later → user_id r' = user_id r → user_name r' = user_name r.

Definition items_agree (r : row vector) (later : list (row vector)) : Prop :=
  ∀ r', r' ∈ later → message_id r' = message_id r →
        message_items r' = message_items r.

(** After [k] of the eight statements of [write_batch_query], the variables
    bound so far name nodes that carry the identities of the row. *)
Definition bound (k : nat) (g : graph vector) (e : env (row vector)) : Prop :=
  ((1 ≤ k)%nat → ∃ n, assoc "g" (vars e) = Some n
                ∧ n ∈ match_nodes "Group" [("id", group_id (Cypher.row e))] g)
  ∧ ((2 ≤ k)%nat → ∃ n, assoc "u" (vars e) = Some n
                  ∧ n ∈ match_nodes "User" [("id", user_id (Cypher.row e))] g)
  ∧ ((4 ≤ k)%nat → ∃ n, assoc "m" (vars e) = Some n
                  ∧ n ∈ match_nodes "Message" [("id", message_id (Cypher.row e))] g).

(** What the first [k] statements have written of [r] on the nodes [gi],
    [ui] and [mi]. *)
Definition written (k : nat) (r : row vector) (later : list (row vector))
    (g : graph vector) (gi ui mi : nat) : Prop :=
  ((1 ≤ k)%nat → gi ∈ match_nodes "Group" [("id", group_id r)] g)
  ∧ ((2 ≤ k)%nat → ui ∈ match_nodes "User" [("id", user_id r)] g)
  ∧ ((3 ≤ k)%nat → names_agree r later →
       prop_at g ui "name" = Some (PStr (user_name r)))
  ∧ ((4 ≤ k)%nat → mi ∈ match_nodes "Message" [("id", message_id r)] g)
  ∧ ((5 ≤ k)%nat → items_agree r later →
       ∀ key v, (key, v) ∈ message_items r → prop_at g mi key = v)
  ∧ ((6 ≤ k)%nat → (ui, "SENT", mi) ∈ edges g)
  ∧ ((7 ≤ k)%nat → (mi, "IN_GROUP", gi) ∈ edges g)
  ∧ ((8 ≤ k)%nat → ∀ parent, parent_id r = Some parent →
       ∃ p, p ∈ match_nodes "Message" [("id", parent)] g
            ∧ (p, "REPLIED_TO", mi) ∈ edges g).

(** A row of bindings for [r] whose variables name such nodes. *)
Definition reached (k : nat) (r : row vector) (later : list (row vector))
    (g : graph vector) (e : env (row vector)) : Prop :=
  ∃ gi ui mi,
    ((1 ≤ k)%nat → assoc "g" (vars e) = Some gi)
    ∧ ((2 ≤ k)%nat → assoc "u" (vars e) = Some ui)
    ∧ ((4 ≤ k)%nat → assoc "m" (vars e) = Some mi)
    ∧ written k r later g gi ui mi.

(** What the proofs need of the [k]-th statement, run on one row of
    bindings by [f]: it sets the keys [K] only, keeps the batch element of
    the row, keeps the variables bound and binds its own, keeps what is
    written of [r] when it runs for [r] or for a later element, and writes
    its part of [r] when it runs for [r]. *)
Definition stage
    (f : graph vector → env (row vector)
         → graph vector * list (env (row vector)))
    (K : list string) (k : nat) : Prop :=
  ("id" ∉ K)
  ∧ ((3 ≤ k)%nat → "name" ∉ K)
  ∧ ((5 ≤ k)%nat → ∀ key, key ∈ ["body"; "timestamp"; "embedding"] → key ∉ K)
  ∧ (∀ g e, Invariant.keeps K g (f g e).1)
  ∧ (∀ g e, Forall (fun e' => Cypher.row e' = Cypher.row e) (f g e).2)
  ∧ (∀ g e, bound k g e → Forall (bound (S k) (f g e).1) (f g e).2)
  ∧ (∀ k' r later gi ui mi g e,
       bound k g e → Cypher.row e ∈ r :: later →
       written k' r later g gi ui mi →
       written k' r later (f g e).1 gi ui mi)
  ∧ (∀ r later g e,
       bound k g e → reached k r later g e → Cypher.row e = r →
       ∃ e' rest, (f g e).2 = e' :: rest
                  ∧ reached (S k) r later (f g e).1 e').

(** A table of rows of bindings for later elements than [r], in a store in
    which [r] is written. *)
Definition passing (k : nat) (r : row vector) (later : list (row vector))
    (gi ui mi : nat) (st : graph vector * list (env (row vector))) : Prop :=
  Forall (bound k st.1) st.2
  ∧ Forall (fun e => Cypher.row e ∈ r :: later) st.2
  ∧ written 8 r later st.1 gi ui mi.

End Benchmark.

End Batch.

(** ** The write loop of the benchmark ingestion *)

Module BenchmarkMain.

Section Loop.
Import Embed Benchmark.
Context {vector : Type}.

Definition BATCH_SIZE : Z := 100.

(** Lines 175-179 of [main]: one [write_batch] transaction for each slice
    of [BATCH_SIZE] records. *)
Definition write_records (records : list (row vector)) (g : graph vector)
  : result (graph vector) :=
  starts ← py_range 0 (Z.of_nat (length records)) BATCH_SIZE;
  Ok (foldl (fun g i =>
               let batch := py_slice records i (i + BATCH_SIZE) in
               write_batch batch g)
        g starts).

End Loop.

End BenchmarkMain.

(** ** The nodes that carry an identity, before and after a write *)

Module Identity.

Section Store.
Context {vector : Type}.

(** [h] has at least the nodes of [g], and the nodes labelled [lbl] with
    [s] as [key] are those of [g], or, when [g] had none, a single node
    that [g] did not have. *)
Definition same_or_new (lbl key s : string) (g h : graph vector) : Prop :=
  (length (nodes g) ≤ length (nodes h))%nat
  ∧ (match_nodes lbl [(key, s)] h = match_nodes lbl [(key, s)] g
     ∨ (match_nodes lbl [(key, s)] g = []
        ∧ ∃ m, match_nodes lbl [(key, s)] h = [m]
               ∧ (length (nodes g) ≤ m)%nat)).

End Store.

End Identity.

(** * Properties *)

(** ** Python values *)

Section PyFacts.

Lemma bind_ok {A B} (m : result A) (f : A → result B) (b : B) :
  m ≫= f = Ok b ↔ ∃ a, m = Ok a ∧ f a = Ok b.
Proof.
  destruct m as [a|e]; simpl; split.
  - intros H. by exists a.
  - by intros (a' & [= ->] & H).
  - done.
  - by intros (a' & ? & _).
Qed.

Lemma append_nonempty_l (s t : string) :
  s ≠ EmptyString → s +:+ t ≠ EmptyString.
Proof. by destruct s. Qed.

Lemma pretty_N_go_nonempty (x : N) (s : string) :
  s ≠ EmptyString → pretty_N_go x s ≠ EmptyString.
Proof.
  revert s. induction (N.lt_wf_0 x) as [x _ IH]; intros s Hs.
  destruct (decide (x = 0)%N) as [->|Hx].
  - by rewrite pretty_N_go_0.
  - rewrite pretty_N_go_step by lia.
    apply IH; [apply N.div_lt; lia | done].
Qed.

Lemma pretty_Z_nonempty (z : Z) : pretty z ≠ EmptyString.
Proof.
  assert (∀ p : positive, pretty p ≠ EmptyString) as Hpos.
  { intros p. unfold pretty, pretty_positive, pretty, pretty_N.
    rewrite decide_False by done.
    rewrite pretty_N_go_step by lia.
    by apply pretty_N_go_nonempty. }
  destruct z as [|p|p]; unfold pretty, pretty_Z; [done|apply Hpos|done].
Qed.

(** [str] of a truthy value is not empty. *)
Lemma py_str_truthy (v : pyval) :
  truthy v = true → str_truthy (py_str v) = true.
Proof.
  unfold str_truthy.
  destruct v as [|[]|z|s|l|items]; simpl; try done.
  - intros _. apply negb_true_iff, String.eqb_neq, pretty_Z_nonempty.
Qed.

Lemma dict_mem_get k items :
  dict_mem k items = true ↔ ∃ v, dict_get k items = Some v.
Proof.
  unfold dict_mem. destruct (dict_get k items); split; intros H; eauto.
  - done.
  - by destruct H.
Qed.

Lemma dict_get_elem_of k v items :
  dict_get k items = Some v → (k, v) ∈ items.
Proof.
  induction items as [|[k' v'] items IH]; simpl; [done|].
  destruct (String.eqb k k') eqn:E.
  - apply String.eqb_eq in E as ->. intros [= ->]. left.
  - intros. right. auto.
Qed.

End PyFacts.

(** ** Answer extraction *)

Section AnswerFacts.
Import Answer.

Lemma scan_keys_none keys items :
  no_truthy keys items → scan_keys keys items = Ok EmptyString.
Proof.
  induction keys as [|key keys IH]; intros Hno; simpl; [done|].
  assert (no_truthy keys items) as Hrest.
  { intros k w Hk. apply Hno. by right. }
  unfold dict_mem, dict_item. destruct (dict_get key items) as [v|] eqn:E.
  - simpl. rewrite (Hno key v); [by apply IH| left | done].
  - by apply IH.
Qed.

Lemma scan_keys_first pre key post items v :
  no_truthy pre items →
  dict_get key items = Some v → truthy v = true →
  scan_keys (pre ++ key :: post) items = Ok (py_str v).
Proof.
  induction pre as [|k pre IH]; intros Hno Hget Hv; simpl.
  - unfold dict_mem, dict_item. rewrite Hget. simpl. by rewrite Hv.
  - assert (no_truthy pre items) as Hrest.
    { intros k' w Hk. apply Hno. by right. }
    unfold dict_mem, dict_item. destruct (dict_get k items) as [w|] eqn:E.
    + simpl. rewrite (Hno k w); [by apply IH| left | done].
    + by apply IH.
Qed.

(** [scan_keys] never raises: [response[key]] is read under [key in
    response]. *)
Lemma scan_keys_ok keys items : ∃ s, scan_keys keys items = Ok s.
Proof.
  induction keys as [|key keys IH]; simpl; [by eexists|].
  unfold dict_mem, dict_item. destruct (dict_get key items) as [v|]; [|done].
  simpl. destruct (truthy v); [by eexists | done].
Qed.

Lemma string_values_elem_of items s :
  s ∈ string_values items ↔ ∃ k, (k, VStr s) ∈ items.
Proof.
  induction items as [|[k v] items IH]; simpl.
  - split; [by intros ?%elem_of_nil | by intros [? ?%elem_of_nil]].
  - assert ((∃ k0, (k0, VStr s) ∈ (k, v) :: items)
            ↔ v = VStr s ∨ ∃ k0, (k0, VStr s) ∈ items) as ->.
    { split.
      - intros [k0 [[= -> ->]|H]%elem_of_cons]; eauto.
      - intros [->|[k0 H]]; [exists k; left | exists k0; by right]. }
    destruct v as [| | |s0| |]; rewrite ?elem_of_cons, IH.
    all: split; [intros H | intros [H|H]]; try discriminate; auto.
    + destruct H as [->|H]; auto.
    + left. by injection H.
Qed.

Lemma max_from_elem_of best l :
  max_from best l = best ∨ max_from best l ∈ l.
Proof.
  revert best. induction l as [|s l IH]; intros best; simpl; [by left|].
  case_decide.
  - destruct (IH s) as [->|?]; right; [left | by right].
  - destruct (IH best) as [->|?]; [by left | right; by right].
Qed.

Lemma max_from_ge best l :
  (String.length best ≤ String.length (max_from best l))%nat ∧
  ∀ s, s ∈ l → (String.length s ≤ String.length (max_from best l))%nat.
Proof.
  revert best. induction l as [|s l IH]; intros best; simpl.
  - split; [done | by intros ? ?%elem_of_nil].
  - case_decide.
    + destruct (IH s) as [H1 H2]. split; [lia|].
      intros t [->|Ht]%elem_of_cons; auto.
    + destruct (IH best) as [H1 H2]. split; [done|].
      intros t [->|Ht]%elem_of_cons; [lia | auto].
Qed.

End AnswerFacts.

Section AnswerSpec.
Import Answer.

(** C8. Answer extraction from the response of the language model, for
    every response value: it never raises; a response that is not a dict is
    stringified; for a dict, the first key of the priority list [answer],
    [response], [result], [text], [content], [message] that is present with
    a truthy value gives the answer (its value through [str], the identity
    on strings); with no such key, the answer is a longest string-valued
    field of the dict; with no string-valued field either, the whole
    response stringified. *)
Theorem extract_answer_spec (response : pyval) :
  (∃ answer, extract_answer response = Ok answer) ∧
  (∀ items, response = VDict items →
     (∀ pre key post v,
        answer_keys = pre ++ key :: post →
        no_truthy pre items →
        dict_get key items = Some v → truthy v = true →
        extract_answer response = Ok (py_str v)) ∧
     (no_truthy answer_keys items →
        ((∃ k t, (k, VStr t) ∈ items) →
           ∃ s, extract_answer response = Ok s ∧
                (∃ k, (k, VStr s) ∈ items) ∧
                ∀ k t, (k, VStr t) ∈ items →
                       (String.length t ≤ String.length s)%nat) ∧
        ((∀ k t, (k, VStr t) ∉ items) →
           extract_answer response = Ok (py_str response)))) ∧
  ((∀ items, response ≠ VDict items) →
     extract_answer response = Ok (py_str response)).
Proof.
  split; [|split].
  - destruct response as [| | | | |items]; try (by eexists).
    unfold extract_answer.
    destruct (scan_keys_ok answer_keys items) as [s ->]. cbn [mbind result_bind].
    destruct (str_truthy s); cbn [negb]; [by eexists|].
    destruct (string_values items); by eexists.
  - intros items ->. split.
    + intros pre key post v Hkeys Hno Hget Hv. unfold extract_answer.
      rewrite Hkeys, (scan_keys_first pre key post items v) by done.
      cbn [mbind result_bind]. by rewrite py_str_truthy.
    + intros Hno. unfold extract_answer. rewrite scan_keys_none by done.
      cbn [mbind result_bind str_truthy String.eqb negb]. split.
      * intros (k & t & Hin).
        assert (t ∈ string_values items) as Ht
          by (apply string_values_elem_of; eauto).
        destruct (string_values items) as [|s0 svs] eqn:E;
          [by apply elem_of_nil in Ht|].
        simpl. eexists; split; [done|]. split.
        -- apply string_values_elem_of. rewrite E.
           destruct (max_from_elem_of s0 svs) as [->|?]; [left | by right].
        -- intros k' t' Hin'. destruct (max_from_ge s0 svs) as [H1 H2].
           assert (t' ∈ s0 :: svs) as [->|?]%elem_of_cons
             by (rewrite <- E; apply string_values_elem_of; eauto); auto.
      * intros Hnone.
        destruct (string_values items) as [|s0 svs] eqn:E; [done|].
        assert (s0 ∈ string_values items) as [k Hk]%string_values_elem_of
          by (rewrite E; left).
        by destruct (Hnone k s0).
  - intros Hnd. destruct response; try done. by destruct (Hnd items).
Qed.

Lemma extract_answer_spec_witness :
  extract_answer answer_example = Ok "Paris".
Proof.
  destruct (extract_answer_spec answer_example) as (_ & H & _).
  destruct (H _ eq_refl) as [Hfirst _].
  apply (Hfirst ["answer"; "response"; "result"] "text"
           ["content"; "message"] (VStr "Paris")); try reflexivity.
  intros k w Hk Hget.
  repeat (apply elem_of_cons in Hk as [->|Hk];
          [vm_compute in Hget; by simplify_eq|]).
  by apply elem_of_nil in Hk.
Defined.

End AnswerSpec.

(** ** The normalizer *)

Section RenderFacts.
Import Render.

Lemma append_cons (c : ascii) (a b : string) :
  String c a +:+ b = String c (a +:+ b).
Proof. reflexivity. Qed.

Lemma append_nil (b : string) : EmptyString +:+ b = b.
Proof. reflexivity. Qed.

Lemma append_assoc (a b c : string) : (a +:+ b) +:+ c = a +:+ (b +:+ c).
Proof.
  induction a as [|x a IH]; [done|]. rewrite !append_cons. by f_equal.
Qed.

Lemma rstrip_app_nonblank (a b : string) :
  rstrip b ≠ EmptyString → rstrip (a +:+ b) = a +:+ rstrip b.
Proof.
  intros Hb. induction a as [|c a IH]; [done|].
  rewrite !append_cons. simpl. rewrite IH.
  destruct (a +:+ rstrip b) eqn:E; [|done].
  exfalso. destruct a; [by destruct Hb | done].
Qed.

Lemma rstrip_app_blank (a b : string) :
  rstrip b = EmptyString → rstrip (a +:+ b) = rstrip a.
Proof.
  intros Hb. induction a as [|c a IH]; [done|].
  rewrite append_cons. simpl. by rewrite IH.
Qed.

Lemma rstrip_snoc_nonspace (a : string) (c : ascii) :
  is_space c = false → rstrip (a +:+ str1 c) = a +:+ str1 c.
Proof.
  intros Hc. assert (rstrip (str1 c) = str1 c) as E by (simpl; by rewrite Hc).
  rewrite <- E at 2. apply rstrip_app_nonblank. by rewrite E.
Qed.

Lemma strip_tagged (inner caption : string) :
  strip ("[" +:+ inner +:+ "] " +:+ caption)
  = tagged ("[" +:+ inner +:+ "]") caption.
Proof.
  unfold strip, tagged. change (lstrip ("[" +:+ inner +:+ "] " +:+ caption))
    with ("[" +:+ inner +:+ "] " +:+ caption).
  replace ("[" +:+ inner +:+ "] " +:+ caption)
    with ((("[" +:+ inner) +:+ "]") +:+ (" " +:+ caption))
    by (by rewrite !append_assoc).
  replace ("[" +:+ inner +:+ "]") with (("[" +:+ inner) +:+ "]")
    by (by rewrite !append_assoc).
  change (" " +:+ caption) with (String " " caption).
  destruct (rstrip caption) as [|c r] eqn:E.
  - rewrite rstrip_app_blank by (simpl; by rewrite E).
    by apply (rstrip_snoc_nonspace _ "]").
  - rewrite rstrip_app_nonblank by (simpl; by rewrite E).
    simpl. by rewrite E.
Qed.

Lemma eq_str_true v s : eq_str v s = true ↔ v = VStr s.
Proof.
  destruct v; simpl; split; try done.
  - by intros ->%String.eqb_eq.
  - intros [= ->]. apply String.eqb_refl.
Qed.

Lemma eq_str_other ty s : ty ≠ s → eq_str (VStr ty) s = false.
Proof. intros. by apply String.eqb_neq. Qed.

End RenderFacts.

Section RenderSpec.
Import Render.

Lemma render_body_unrecognized contacts msg ty :
  getitem msg "type" = Ok (VStr ty) → ty ∉ recognized →
  render_body contacts msg = Ok (VStr ("[" +:+ capitalize ty +:+ "]")).
Proof.
  intros Hty Hnot. unfold render_body. rewrite Hty. cbn [mbind result_bind].
  rewrite !eq_str_other; [done|..];
    intros ->; apply Hnot; unfold recognized; set_solver.
Qed.

(** C6 (as amended). The body rendered for a message of string type [ty]:
    the text body verbatim for text; for image, document and video the
    bracketed tag, a space and the caption with surrounding whitespace
    stripped, so the tag alone when the caption is empty or blank; the
    fixed strings for audio and sticker; and for a type without a branch
    the capitalized type between brackets, a non-empty body, so that the
    message is not passed over by the empty-body filter. *)
Theorem render_body_spec (contacts : kdict) (msg : pyval) (ty : string) :
  getitem msg "type" = Ok (VStr ty) →
  (ty = "text" →
     ∀ b, payload_get msg "text" "body" VNone = Ok b →
          render_body contacts msg = Ok b) ∧
  (ty = "image" →
     ∀ c, payload_get msg "image" "caption" (VStr EmptyString) = Ok c →
          render_body contacts msg = Ok (VStr (tagged "[Image]" (py_str c)))) ∧
  (ty = "document" →
     ∀ f c, payload_get msg "document" "filename" (VStr "unknown_file") = Ok f →
            payload_get msg "document" "caption" (VStr EmptyString) = Ok c →
            render_body contacts msg
            = Ok (VStr (tagged ("[Document: " +:+ py_str f +:+ "]")
                          (py_str c)))) ∧
  (ty = "video" →
     ∀ c, payload_get msg "video" "caption" (VStr EmptyString) = Ok c →
          render_body contacts msg = Ok (VStr (tagged "[Video]" (py_str c)))) ∧
  (ty = "audio" →
     render_body contacts msg = Ok (VStr "[Audio] Voice Message")) ∧
  (ty = "sticker" → render_body contacts msg = Ok (VStr "[Sticker]")) ∧
  (ty ∉ recognized →
     render_body contacts msg = Ok (VStr ("[" +:+ capitalize ty +:+ "]")) ∧
     ∀ group_id, process_message group_id contacts msg ≠ Ok None).
Proof.
  intros Hty. repeat split.
  - intros -> b Hb. unfold render_body. rewrite Hty. by cbn.
  - intros -> c Hc. unfold render_body. rewrite Hty. cbn. rewrite Hc. cbn.
    do 2 f_equal. apply (strip_tagged "Image").
  - intros -> f c Hf Hc. unfold render_body. rewrite Hty. cbn.
    unfold payload_get in Hf, Hc.
    destruct (get msg "document" (VDict [])) as [doc|]; [|done].
    cbn in Hf, Hc |- *. rewrite Hf, Hc. cbn. do 2 f_equal.
    apply (strip_tagged ("Document: " +:+ py_str f)).
  - intros -> c Hc. unfold render_body. rewrite Hty. cbn. rewrite Hc. cbn.
    do 2 f_equal. apply (strip_tagged "Video").
  - intros ->. unfold render_body. rewrite Hty. by cbn.
  - intros ->. unfold render_body. rewrite Hty. by cbn.
  - by apply render_body_unrecognized.
  - intros group_id. unfold process_message.
    rewrite (render_body_unrecognized _ _ ty) by done. cbn.
    by destruct (make_record _ _ _ _).
Qed.

Lemma render_body_spec_witness :
  render_body [] document_message = Ok (VStr "[Document: r.pdf] note").
Proof.
  destruct (render_body_spec [] document_message "document" eq_refl)
    as (_ & _ & H & _).
  apply (H eq_refl (VStr "r.pdf") (VStr "note")); reflexivity.
Defined.

(** C6 (as stated) fails: an image with an empty caption is rendered as
    the tag alone, without the space of the template, and a message of
    type [location] with a capital. *)
Lemma render_body_template_counterexample :
  render_body [] image_no_caption
    ≠ Ok (VStr (template_body "image" EmptyString EmptyString EmptyString))
  ∧ render_body [] location_message
    ≠ Ok (VStr (template_body "location" EmptyString EmptyString
                  EmptyString)).
Proof. split; vm_compute; discriminate. Qed.

End RenderSpec.

(** ** Normalization of a payload: [extract_events] and [parse] *)

Section LoopFacts.

Lemma elem_of_flat_map {A B} (f : A → list B) (l : list A) (y : B) :
  y ∈ flat_map f l ↔ ∃ x, x ∈ l ∧ y ∈ f x.
Proof.
  rewrite list_elem_of_In, in_flat_map. setoid_rewrite list_elem_of_In.
  done.
Qed.

(** A loop that ends normally ran its body normally on every element. *)
Lemma for_each_ok_elem {A S} (F : S → A → result S) (l : list A) (s r : S) :
  for_each l F s = Ok r → ∀ x, x ∈ l → ∃ s1 s2, F s1 x = Ok s2.
Proof.
  revert s. induction l as [|y l IH]; intros s Hrun x Hx.
  - by apply elem_of_nil in Hx.
  - simpl in Hrun. apply bind_ok in Hrun as (s' & Hy & Hrest).
    apply elem_of_cons in Hx as [->|Hx]; [by eauto | by eapply IH].
Qed.

(** A loop whose body appends to the accumulator, and succeeds on every
    element, appends the concatenation. *)
Lemma for_each_collect {A B} (F : list B → A → result (list B))
    (Q : A → list B → Prop) (l : list A) (acc : list B) :
  (∀ x, x ∈ l → ∀ acc, ∃ ys, F acc x = Ok (acc ++ ys) ∧ Q x ys) →
  ∃ yss, for_each l F acc = Ok (acc ++ concat yss) ∧ Forall2 Q l yss.
Proof.
  revert acc. induction l as [|x l IH]; intros acc Hbody.
  - exists []. simpl. by rewrite app_nil_r.
  - destruct (Hbody x ltac:(left) acc) as (ys & Hx & HQ).
    destruct (IH (acc ++ ys)) as (yss & Hrest & HQs).
    { intros y Hy. apply Hbody. by right. }
    exists (ys :: yss). simpl. rewrite Hx. simpl. rewrite Hrest.
    split; [by rewrite app_assoc | by constructor].
Qed.

Lemma Forall2_concat_map {A B C} (f : B → C) (g : A → list C)
    (l : list A) (yss : list (list B)) :
  Forall2 (fun x ys => map f ys = g x) l yss →
  map f (concat yss) = flat_map g l.
Proof.
  induction 1 as [|x ys l yss Hx _ IH]; simpl; [done|].
  by rewrite map_app, Hx, IH.
Qed.

Lemma flat_map_map {A B C} (f : B → C) (g : A → list B) (l : list A) :
  flat_map (fun x => map f (g x)) l = map f (flat_map g l).
Proof.
  induction l as [|x l IH]; simpl; [done|]. by rewrite map_app, IH.
Qed.

End LoopFacts.

Section GenFacts.
Import Extract.

Lemma gen_for_ok_elem {A} (l : list A) (body : A → gen) ys :
  gen_for l body = (ys, None) → ∀ x, x ∈ l → ∃ zs, body x = (zs, None).
Proof.
  revert ys. induction l as [|y l IH]; intros ys Hrun x Hx.
  - by apply elem_of_nil in Hx.
  - simpl in Hrun. destruct (body y) as [zs [e|]] eqn:Ey; [done|].
    destruct (gen_for l body) as [ws e'] eqn:El.
    injection Hrun as _ ->.
    apply elem_of_cons in Hx as [->|Hx]; [by eauto | by eapply IH].
Qed.

Lemma gen_for_collect {A} (body : A → gen)
    (Q : A → list StreamEvent → Prop) (l : list A) :
  (∀ x, x ∈ l → ∃ ys, body x = (ys, None) ∧ Q x ys) →
  ∃ yss, gen_for l body = (concat yss, None) ∧ Forall2 Q l yss.
Proof.
  induction l as [|x l IH]; intros Hbody.
  - by exists [].
  - destruct (Hbody x ltac:(left)) as (ys & Hx & HQ).
    destruct IH as (yss & Hrest & HQs).
    { intros y Hy. apply Hbody. by right. }
    exists (ys :: yss). simpl. rewrite Hx, Hrest.
    split; [done | by constructor].
Qed.

Lemma gen_try_ok {A} (r : result A) (k : A → gen) ys :
  gen_try r k = (ys, None) → ∃ a, r = Ok a ∧ k a = (ys, None).
Proof. destruct r; simpl; [eauto | done]. Qed.

End GenFacts.

Section ExtractFacts.
Import Extract.

(** *** A message without identity stops the run *)

Lemma make_event_identity cid contacts msg ev :
  make_event cid contacts msg = Ok ev → lacks_identity msg = false.
Proof.
  unfold make_event, lacks_identity. intros H.
  apply bind_ok in H as (mid & -> & H).
  apply bind_ok in H as (sender & -> & H).
  apply bind_ok in H as (ts & -> & H). done.
Qed.

Lemma make_stream_event_identity sid contacts msg ev :
  make_stream_event sid contacts msg = Ok ev → lacks_identity msg = false.
Proof.
  unfold make_stream_event, lacks_identity. intros H.
  apply bind_ok in H as (mid & -> & H).
  apply bind_ok in H as (sender & -> & H).
  apply bind_ok in H as (sender' & _ & H).
  apply bind_ok in H as (name & _ & H).
  apply bind_ok in H as (ts & -> & H). done.
Qed.

Lemma items_of_ok r v l : r = Ok v → iter v = Ok l → items_of r = l.
Proof. intros -> H. unfold items_of. simpl. by rewrite H. Qed.

Lemma events_of_change_identity cid evs change r :
  events_of_change cid evs change = Ok r →
  ∀ msg, msg ∈ messages_of_change change → lacks_identity msg = false.
Proof.
  unfold events_of_change, messages_of_change. intros H msg.
  apply bind_ok in H as (value & -> & H).
  apply bind_ok in H as (contacts & _ & H).
  apply bind_ok in H as (msgs & Hm & H).
  apply bind_ok in H as (l & Hl & H).
  rewrite (items_of_ok _ msgs l) by done. intros Hin.
  destruct (for_each_ok_elem _ _ _ _ H msg Hin) as (s1 & s2 & Hstep).
  apply bind_ok in Hstep as (ev & Hev & _).
  by eapply make_event_identity.
Qed.

Lemma events_of_entry_identity evs entry r :
  events_of_entry evs entry = Ok r →
  ∀ msg, msg ∈ messages_of_entry entry → lacks_identity msg = false.
Proof.
  unfold events_of_entry, messages_of_entry. intros H msg.
  apply bind_ok in H as (cid & _ & H).
  apply bind_ok in H as (changes & Hc & H).
  apply bind_ok in H as (l & Hl & H).
  rewrite (items_of_ok _ changes l) by done.
  intros (change & Hin & Hmsg)%elem_of_flat_map.
  destruct (for_each_ok_elem _ _ _ _ H change Hin) as (s1 & s2 & Hstep).
  by eapply events_of_change_identity.
Qed.

Lemma events_of_record_identity evs record r :
  events_of_record evs record = Ok r →
  ∀ msg, msg ∈ messages_of_record record → lacks_identity msg = false.
Proof.
  unfold events_of_record, messages_of_record. intros H msg.
  apply bind_ok in H as (entries & He & H).
  apply bind_ok in H as (l & Hl & H).
  rewrite (items_of_ok _ entries l) by done.
  intros (entry & Hin & Hmsg)%elem_of_flat_map.
  destruct (for_each_ok_elem _ _ _ _ H entry Hin) as (s1 & s2 & Hstep).
  by eapply events_of_entry_identity.
Qed.

Lemma extract_events_identity payload r :
  extract_events payload = Ok r →
  ∀ msg, msg ∈ messages_of payload → lacks_identity msg = false.
Proof.
  unfold extract_events, messages_of. intros H msg.
  apply bind_ok in H as (l & Hl & H).
  rewrite (items_of_ok _ payload l) by done.
  intros (record & Hin & Hmsg)%elem_of_flat_map.
  destruct (for_each_ok_elem _ _ _ _ H record Hin) as (s1 & s2 & Hstep).
  by eapply events_of_record_identity.
Qed.

Lemma parse_change_identity sid change ys :
  parse_change sid change = (ys, None) →
  ∀ msg, msg ∈ messages_of_change change → lacks_identity msg = false.
Proof.
  unfold parse_change, messages_of_change. intros H msg.
  apply gen_try_ok in H as (value & -> & H).
  apply gen_try_ok in H as (contacts & _ & H).
  apply gen_try_ok in H as (l & Hl & H).
  apply bind_ok in Hl as (msgs & Hm & Hl).
  rewrite (items_of_ok _ msgs l) by done. intros Hin.
  destruct (gen_for_ok_elem _ _ _ H msg Hin) as (zs & Hstep).
  apply gen_try_ok in Hstep as (ev & Hev & _).
  by eapply make_stream_event_identity.
Qed.

Lemma parse_entry_identity entry ys :
  parse_entry entry = (ys, None) →
  ∀ msg, msg ∈ messages_of_entry entry → lacks_identity msg = false.
Proof.
  unfold parse_entry, messages_of_entry. intros H msg.
  apply gen_try_ok in H as (sid & _ & H).
  apply gen_try_ok in H as (l & Hl & H).
  apply bind_ok in Hl as (changes & Hc & Hl).
  rewrite (items_of_ok _ changes l) by done.
  intros (change & Hin & Hmsg)%elem_of_flat_map.
  destruct (gen_for_ok_elem _ _ _ H change Hin) as (zs & Hstep).
  by eapply parse_change_identity.
Qed.

Lemma parse_identity payload ys :
  parse payload = (ys, None) →
  ∀ msg, msg ∈ messages_of payload → lacks_identity msg = false.
Proof.
  unfold parse, messages_of. intros H msg.
  apply gen_try_ok in H as (l & Hl & H).
  rewrite (items_of_ok _ payload l) by done.
  intros (record & Hin & Hmsg)%elem_of_flat_map.
  destruct (gen_for_ok_elem _ _ _ H record Hin) as (zs & Hstep).
  apply gen_try_ok in Hstep as (l' & Hl' & Hstep).
  apply bind_ok in Hl' as (entries & He & Hl').
  unfold messages_of_record in Hmsg.
  rewrite (items_of_ok _ entries l') in Hmsg by done.
  apply elem_of_flat_map in Hmsg as (entry & Hin' & Hmsg).
  destruct (gen_for_ok_elem _ _ _ Hstep entry Hin') as (zs' & Hstep').
  by eapply parse_entry_identity.
Qed.

End ExtractFacts.

Section ExtractWellFormed.
Import Extract.

(** *** Well-formed payloads are normalized message by message *)

Lemma for_each_total {A S} (P : S → Prop) (F : S → A → result S)
    (l : list A) (s : S) :
  P s → (∀ x, x ∈ l → ∀ s, P s → ∃ s', F s x = Ok s' ∧ P s') →
  ∃ r, for_each l F s = Ok r ∧ P r.
Proof.
  revert s. induction l as [|x l IH]; intros s Hs Hbody; [by eauto|].
  destruct (Hbody x ltac:(left) s Hs) as (s' & Hx & Hs').
  destruct (IH s' Hs') as (r & Hr & HPr).
  { intros y Hy. apply Hbody. by right. }
  exists r. simpl. by rewrite Hx.
Qed.

Lemma flat_map_singleton {A B} (f : A → B) (l : list A) :
  flat_map (fun x => [f x]) l = map f l.
Proof. induction l as [|x l IH]; simpl; [done|]. by rewrite IH. Qed.

Lemma is_str_inv v : is_str v = true → ∃ s, v = Some (VStr s).
Proof. destruct v as [[]|]; try done. by eexists. Qed.

Lemma wf_list_inv wf v :
  wf_list wf v = true → ∃ l, v = Some (VList l) ∧ ∀ x, x ∈ l → wf x = true.
Proof.
  destruct v as [[]|]; try done. simpl. intros H. eexists; split; [done|].
  intros x Hx. rewrite forallb_forall in H. apply H.
  by apply list_elem_of_In.
Qed.

Lemma kdict_set_str_valued k s d :
  str_valued d → str_valued (kdict_set k (VStr s) d).
Proof.
  unfold str_valued. induction 1 as [|[k' v'] d Hv Hd IH]; simpl.
  - constructor; [by eexists | constructor].
  - destruct (key_eqb k k'); constructor; simpl; eauto.
Qed.

Lemma kdict_find_str_valued k d v :
  str_valued d → kdict_find k d = Some v → ∃ s, v = VStr s.
Proof.
  unfold str_valued. induction 1 as [|[k' v'] d Hv Hd IH]; simpl; [done|].
  destruct (key_eqb k k'); [|done]. by intros [= <-].
Qed.

Lemma build_contacts_wf items :
  negb (dict_mem "contacts" items)
  || wf_list wf_contact (dict_get "contacts" items) = true →
  ∃ d, build_contacts (VDict items) = Ok d ∧ str_valued d.
Proof.
  unfold build_contacts, Render.build_contacts, dict_mem. simpl.
  intros Hwf.
  assert (∃ l, (match dict_get "contacts" items with
                | Some x => x
                | None => VList []
                end) = VList l ∧ ∀ c, c ∈ l → wf_contact c = true)
    as (l & -> & Hl).
  { destruct (dict_get "contacts" items) as [cs|] eqn:E.
    - apply (wf_list_inv wf_contact (Some cs)) in Hwf as (l & [= ->] & Hl).
      eauto.
    - exists []. split; [done|]. by intros c ?%elem_of_nil. }
  simpl. apply (for_each_total str_valued); [constructor|].
  intros c Hc d Hd. specialize (Hl c Hc).
  destruct c as [| | | | |citems]; try done. simpl in Hl.
  apply andb_true_iff in Hl as [Hid Hp].
  apply is_str_inv in Hid as (wa & Hid).
  destruct (dict_get "profile" citems) as [[| | | | |p]|] eqn:Ep; try done.
  apply is_str_inv in Hp as (name & Hname).
  simpl. unfold dict_item. rewrite Hid, Ep. simpl.
  unfold dict_item. rewrite Hname. simpl.
  eexists; split; [done|]. by apply kdict_set_str_valued.
Qed.

Lemma make_event_wf cid contacts msg :
  wf_message msg = true →
  ∃ ev, make_event cid contacts msg = Ok ev
        ∧ (message_id ev, text ev) = seen msg.
Proof.
  destruct msg as [| | | | |items]; try done. simpl.
  rewrite !andb_true_iff. intros ((((Hid & Hfrom) & Hts) & Htext) & Hp).
  apply is_str_inv in Hid as (id & Hid).
  apply is_str_inv in Hfrom as (sender & Hfrom).
  destruct (dict_get "timestamp" items) as [ts|] eqn:Ets; [|done].
  destruct (py_int ts) as [z|] eqn:Ez; [|done].
  destruct (dict_get "text" items) as [[| | | | |t]|] eqn:Et; try done.
  apply is_str_inv in Htext as (b & Hb).
  unfold make_event, seen, text_body, field. simpl. unfold dict_item.
  rewrite Hid, Hfrom, Ets, Et. simpl. rewrite Ez. simpl.
  unfold dict_item. rewrite Hb. simpl. by eexists.
Qed.

Lemma make_stream_event_wf sid contacts msg :
  wf_message msg = true → str_valued contacts →
  ∃ ev, make_stream_event (VStr sid) contacts msg = Ok ev
        ∧ (VStr (event_id ev), VStr (content ev)) = seen msg.
Proof.
  destruct msg as [| | | | |items]; try done. simpl.
  rewrite !andb_true_iff. intros ((((Hid & Hfrom) & Hts) & Htext) & Hp) Hc.
  apply is_str_inv in Hid as (id & Hid).
  apply is_str_inv in Hfrom as (sender & Hfrom).
  destruct (dict_get "timestamp" items) as [ts|] eqn:Ets; [|done].
  destruct (py_int ts) as [z|] eqn:Ez; [|done].
  destruct (dict_get "text" items) as [[| | | | |t]|] eqn:Et; try done.
  apply is_str_inv in Htext as (b & Hb).
  unfold make_stream_event, seen, text_body, field. simpl. unfold dict_item.
  rewrite Hid, Hfrom, Ets, Et. simpl. rewrite Ez. simpl.
  unfold dict_item. rewrite Hb. simpl.
  assert (∃ n, as_opt_str (match kdict_find (VStr sender) contacts with
                           | Some v => v
                           | None => VNone
                           end) = Ok n) as (n & ->).
  { destruct (kdict_find (VStr sender) contacts) as [v|] eqn:Ef.
    - destruct (kdict_find_str_valued _ _ _ Hc Ef) as (s & ->).
      by eexists.
    - by eexists. }
  simpl.
  destruct (dict_get "parent_message_id" items) as [[| | |p| |]|];
    try done; simpl; by eexists.
Qed.

End ExtractWellFormed.

Section ExtractSpec.
Import Extract.

Lemma optional_list_field wf key items :
  negb (dict_mem key items) || wf_list wf (dict_get key items) = true →
  ∃ l, get (VDict items) key (VList []) = Ok (VList l)
       ∧ ∀ x, x ∈ l → wf x = true.
Proof.
  unfold dict_mem. simpl. intros Hwf.
  destruct (dict_get key items) as [v|] eqn:E.
  - apply (wf_list_inv wf (Some v)) in Hwf as (l & [= ->] & Hl). eauto.
  - exists []. split; [done|]. by intros c ?%elem_of_nil.
Qed.

Lemma wf_change_inv change :
  wf_change change = true →
  ∃ items vitems contacts msgs,
    change = VDict items ∧ dict_get "value" items = Some (VDict vitems)
    ∧ build_contacts (VDict vitems) = Ok contacts ∧ str_valued contacts
    ∧ get (VDict vitems) "messages" (VList []) = Ok (VList msgs)
    ∧ ∀ msg, msg ∈ msgs → wf_message msg = true.
Proof.
  destruct change as [| | | | |items]; try done. simpl.
  destruct (dict_get "value" items) as [[| | | | |vitems]|] eqn:Ev; try done.
  intros [Hc Hm]%andb_true_iff.
  destruct (build_contacts_wf vitems Hc) as (d & Hd & Hstr).
  destruct (optional_list_field _ _ _ Hm) as (msgs & Hmsgs & Hwf).
  by exists items, vitems, d, msgs.
Qed.

Lemma messages_of_change_wf items vitems msgs :
  dict_get "value" items = Some (VDict vitems) →
  get (VDict vitems) "messages" (VList []) = Ok (VList msgs) →
  messages_of_change (VDict items) = msgs.
Proof.
  intros Hv Hm. unfold messages_of_change. simpl. unfold dict_item.
  rewrite Hv. by apply (items_of_ok _ (VList msgs)).
Qed.

Lemma events_of_change_wf cid change :
  wf_change change = true →
  ∀ acc, ∃ ys,
    events_of_change cid acc change = Ok (acc ++ ys)
    ∧ map (fun e => (message_id e, text e)) ys
      = map seen (messages_of_change change).
Proof.
  intros (items & vitems & contacts & msgs & -> & Hv & Hc & _ & Hm & Hwf)
    %wf_change_inv acc.
  rewrite (messages_of_change_wf items vitems msgs) by done.
  unfold events_of_change. simpl getitem. unfold dict_item. rewrite Hv.
  cbn [mbind result_bind]. rewrite Hc. cbn [mbind result_bind].
  rewrite Hm. cbn [mbind result_bind iter].
  destruct (for_each_collect
              (fun events msg =>
                 ev ← make_event cid contacts msg; Ok (events ++ [ev]))
              (fun msg ys => map (fun e => (message_id e, text e)) ys
                             = [seen msg]) msgs acc)
    as (yss & Hrun & HQ).
  { intros msg Hmsg acc'.
    destruct (make_event_wf cid contacts msg (Hwf msg Hmsg)) as (ev & -> & E).
    exists [ev]. simpl. by rewrite E. }
  exists (concat yss). split; [done|].
  rewrite (Forall2_concat_map _ (fun msg => [seen msg]) msgs) by done.
  apply flat_map_singleton.
Qed.

Lemma parse_change_wf sid change :
  wf_change change = true →
  ∃ ys,
    parse_change (VStr sid) change = (ys, None)
    ∧ map (fun e => (VStr (event_id e), VStr (content e))) ys
      = map seen (messages_of_change change).
Proof.
  intros (items & vitems & contacts & msgs & -> & Hv & Hc & Hstr & Hm & Hwf)
    %wf_change_inv.
  rewrite (messages_of_change_wf items vitems msgs) by done.
  unfold parse_change. simpl getitem. unfold dict_item. rewrite Hv.
  cbn [gen_try]. rewrite Hc. cbn [gen_try]. rewrite Hm.
  cbn [mbind result_bind iter gen_try].
  destruct (gen_for_collect
              (fun msg =>
                 gen_try (make_stream_event (VStr sid) contacts msg)
                   (fun ev => ([ev], None)))
              (fun msg ys =>
                 map (fun e => (VStr (event_id e), VStr (content e))) ys
                 = [seen msg]) msgs)
    as (yss & Hrun & HQ).
  { intros msg Hmsg.
    destruct (make_stream_event_wf sid contacts msg (Hwf msg Hmsg) Hstr)
      as (ev & -> & E).
    exists [ev]. simpl. by rewrite E. }
  exists (concat yss). split; [done|].
  rewrite (Forall2_concat_map _ (fun msg => [seen msg]) msgs) by done.
  apply flat_map_singleton.
Qed.

Lemma wf_entry_inv entry :
  wf_entry entry = true →
  ∃ items sid changes,
    entry = VDict items ∧ dict_get "id" items = Some (VStr sid)
    ∧ dict_get "changes" items = Some (VList changes)
    ∧ ∀ c, c ∈ changes → wf_change c = true.
Proof.
  destruct entry as [| | | | |items]; try done. simpl.
  intros [(sid & Hid)%is_str_inv (l & Hl & Hwf)%wf_list_inv]%andb_true_iff.
  by exists items, sid, l.
Qed.

Lemma events_of_entry_wf entry :
  wf_entry entry = true →
  ∀ acc, ∃ ys,
    events_of_entry acc entry = Ok (acc ++ ys)
    ∧ map (fun e => (message_id e, text e)) ys
      = map seen (messages_of_entry entry).
Proof.
  intros (items & sid & changes & -> & Hid & Hc & Hwf)%wf_entry_inv acc.
  unfold events_of_entry, messages_of_entry. simpl getitem.
  unfold dict_item. rewrite Hid, Hc. cbn [mbind result_bind iter].
  rewrite (items_of_ok (Ok (VList changes)) (VList changes) changes) by done.
  destruct (for_each_collect (events_of_change (VStr sid))
              (fun change ys => map (fun e => (message_id e, text e)) ys
                                = map seen (messages_of_change change))
              changes acc) as (yss & Hrun & HQ).
  { intros c Hin acc'. by apply events_of_change_wf, Hwf. }
  exists (concat yss). split; [done|].
  rewrite (Forall2_concat_map _
             (fun c => map seen (messages_of_change c)) changes) by done.
  apply flat_map_map.
Qed.

Lemma parse_entry_wf entry :
  wf_entry entry = true →
  ∃ ys,
    parse_entry entry = (ys, None)
    ∧ map (fun e => (VStr (event_id e), VStr (content e))) ys
      = map seen (messages_of_entry entry).
Proof.
  intros (items & sid & changes & -> & Hid & Hc & Hwf)%wf_entry_inv.
  unfold parse_entry, messages_of_entry. simpl getitem.
  unfold dict_item. rewrite Hid, Hc. cbn [mbind result_bind iter gen_try].
  rewrite (items_of_ok (Ok (VList changes)) (VList changes) changes) by done.
  destruct (gen_for_collect (parse_change (VStr sid))
              (fun change ys =>
                 map (fun e => (VStr (event_id e), VStr (content e))) ys
                 = map seen (messages_of_change change))
              changes) as (yss & Hrun & HQ).
  { intros c Hin. by apply parse_change_wf, Hwf. }
  exists (concat yss). split; [done|].
  rewrite (Forall2_concat_map _
             (fun c => map seen (messages_of_change c)) changes) by done.
  apply flat_map_map.
Qed.

Lemma wf_record_inv record :
  wf_record record = true →
  ∃ items entries,
    record = VDict items ∧ dict_get "entry" items = Some (VList entries)
    ∧ ∀ e, e ∈ entries → wf_entry e = true.
Proof.
  destruct record as [| | | | |items]; try done. simpl.
  intros (l & Hl & Hwf)%wf_list_inv. by exists items, l.
Qed.

Lemma events_of_record_wf record :
  wf_record record = true →
  ∀ acc, ∃ ys,
    events_of_record acc record = Ok (acc ++ ys)
    ∧ map (fun e => (message_id e, text e)) ys
      = map seen (messages_of_record record).
Proof.
  intros (items & entries & -> & He & Hwf)%wf_record_inv acc.
  unfold events_of_record, messages_of_record. simpl getitem.
  unfold dict_item. rewrite He. cbn [mbind result_bind iter].
  rewrite (items_of_ok (Ok (VList entries)) (VList entries) entries) by done.
  destruct (for_each_collect events_of_entry
              (fun entry ys => map (fun e => (message_id e, text e)) ys
                               = map seen (messages_of_entry entry))
              entries acc) as (yss & Hrun & HQ).
  { intros e Hin acc'. by apply events_of_entry_wf, Hwf. }
  exists (concat yss). split; [done|].
  rewrite (Forall2_concat_map _
             (fun e => map seen (messages_of_entry e)) entries) by done.
  apply flat_map_map.
Qed.

Lemma parse_record_wf record :
  wf_record record = true →
  ∃ ys,
    gen_try (entries ← getitem record "entry"; iter entries)
      (fun l => gen_for l parse_entry) = (ys, None)
    ∧ map (fun e => (VStr (event_id e), VStr (content e))) ys
      = map seen (messages_of_record record).
Proof.
  intros (items & entries & -> & He & Hwf)%wf_record_inv.
  unfold messages_of_record. simpl getitem.
  unfold dict_item. rewrite He. cbn [mbind result_bind iter gen_try].
  rewrite (items_of_ok (Ok (VList entries)) (VList entries) entries) by done.
  destruct (gen_for_collect parse_entry
              (fun entry ys =>
                 map (fun e => (VStr (event_id e), VStr (content e))) ys
                 = map seen (messages_of_entry entry))
              entries) as (yss & Hrun & HQ).
  { intros e Hin. by apply parse_entry_wf, Hwf. }
  exists (concat yss). split; [done|].
  rewrite (Forall2_concat_map _
             (fun e => map seen (messages_of_entry e)) entries) by done.
  apply flat_map_map.
Qed.

(** C7 (as amended). A payload in which every message carries a string id
    and sender, a timestamp [int] accepts and a text body is normalized
    message by message: [extract_events] returns, and [parse] yields, one
    event per message, in input order, with the id and text of the message.
    A message without id, sender or timestamp is not skipped: with such a
    message anywhere in the payload, [extract_events] raises, and so does
    [list(adapter.parse(payload))], so no event of the batch is returned. *)
Theorem normalization_spec (payload : pyval) :
  (wf_payload payload = true →
     ∃ events stream_events,
       extract_events payload = Ok events
       ∧ collect (parse payload) = Ok stream_events
       ∧ map (fun e => (message_id e, text e)) events
         = map seen (messages_of payload)
       ∧ map (fun e => (VStr (event_id e), VStr (content e))) stream_events
         = map seen (messages_of payload)) ∧
  (∀ msg, msg ∈ messages_of payload → lacks_identity msg = true →
     is_ok (extract_events payload) = false
     ∧ is_ok (collect (parse payload)) = false).
Proof.
  split.
  - unfold wf_payload. intros (records & [= ->] & Hwf)%wf_list_inv.
    unfold extract_events, parse, messages_of.
    rewrite (items_of_ok (Ok (VList records)) (VList records) records)
      by done.
    cbn [mbind result_bind iter gen_try].
    destruct (for_each_collect events_of_record
                (fun record ys => map (fun e => (message_id e, text e)) ys
                                  = map seen (messages_of_record record))
                records []) as (yss & Hrun & HQ).
    { intros r Hin acc'. by apply events_of_record_wf, Hwf. }
    destruct (gen_for_collect
                (fun record =>
                   gen_try (entries ← getitem record "entry"; iter entries)
                     (fun l => gen_for l parse_entry))
                (fun record ys =>
                   map (fun e => (VStr (event_id e), VStr (content e))) ys
                   = map seen (messages_of_record record))
                records) as (zss & Hgen & HG).
    { intros r Hin. by apply parse_record_wf, Hwf. }
    exists (concat yss), (concat zss). rewrite Hrun, Hgen.
    repeat split.
    + rewrite (Forall2_concat_map _
                 (fun r => map seen (messages_of_record r)) records) by done.
      apply flat_map_map.
    + rewrite (Forall2_concat_map _
                 (fun r => map seen (messages_of_record r)) records) by done.
      apply flat_map_map.
  - intros msg Hin Hlacks. split.
    + destruct (extract_events payload) as [r|e] eqn:E; [|done].
      by rewrite (extract_events_identity payload r E msg Hin) in Hlacks.
    + destruct (parse payload) as [ys [e|]] eqn:E; [done|].
      by rewrite (parse_identity payload ys E msg Hin) in Hlacks.
Qed.

Lemma normalization_spec_witness :
  (∃ events stream_events,
     extract_events two_good = Ok events
     ∧ collect (parse two_good) = Ok stream_events
     ∧ map (fun e => (message_id e, text e)) events
       = map seen (messages_of two_good)
     ∧ map (fun e => (VStr (event_id e), VStr (content e))) stream_events
       = map seen (messages_of two_good))
  ∧ is_ok (extract_events good_then_malformed) = false
  ∧ is_ok (collect (parse good_then_malformed)) = false.
Proof.
  split.
  - apply (proj1 (normalization_spec two_good)). reflexivity.
  - apply (proj2 (normalization_spec good_then_malformed)
             (VDict [("from", VStr "17025551001");
                     ("timestamp", VStr "1700000000");
                     ("text", VDict [("body", VStr "lost")])])).
    + vm_compute. do 2 right. left.
    + reflexivity.
Defined.

(** C7 (as stated) fails: a message without a text payload is not skipped;
    it makes [extract_events] raise [KeyError], and ends [parse] before it
    has yielded anything, although the next message is complete. *)
Lemma normalization_skips_malformed_counterexample :
  wf_message (message "wamid.2" "17025551001"
                [("text", VDict [("body", VStr "hello")])]) = true
  ∧ extract_events malformed_then_good = Raise (key_error "text")
  ∧ parse malformed_then_good = ([], Some (key_error "text")).
Proof. by vm_compute. Qed.

End ExtractSpec.

(** ** The embedding pipeline *)

Section EmbedFacts.
Import Embed.
Context {vector : Type}.

Lemma lookup_map {A B} (f : A → B) (l : list A) (i : nat) :
  map f l !! i = f <$> l !! i.
Proof.
  revert i. induction l as [|x l IH]; intros [|i]; simpl; auto.
Qed.

(** A slice of [batch_size] elements from a start inside the range. *)
Lemma py_slice_chunk {A} (l : list A) (i b : nat) :
  (0 < b)%nat →
  py_slice l (Z.of_nat i) (Z.of_nat i + Z.of_nat b) = take b (drop i l).
Proof.
  intros Hb. unfold py_slice, clamp.
  rewrite !(proj2 (Z.ltb_ge _ _)) by lia.
  destruct (decide (length l ≤ i)%nat) as [Hge|Hlt].
  - rewrite (drop_ge l i) by done. rewrite drop_ge by lia.
    by rewrite !take_nil.
  - replace (Z.to_nat (Z.of_nat i `min` Z.of_nat (length l))) with i by lia.
    destruct (decide (b ≤ length l - i)%nat).
    + f_equal. lia.
    + rewrite !take_ge; [done|rewrite length_drop; lia..].
Qed.

(** The range of starts of the loop, with an integer count. *)
Lemma py_range_starts (len b : nat) :
  (0 < b)%nat →
  ∃ count, (len ≤ count * b)%nat ∧
    py_range 0 (Z.of_nat len) (Z.of_nat b)
    = Ok (map (fun k => Z.of_nat (k * b)) (seq 0 count)).
Proof.
  intros Hb. unfold py_range.
  rewrite (proj2 (Z.eqb_neq _ _)) by lia.
  rewrite (proj2 (Z.ltb_lt _ _)) by lia.
  set (q := ((Z.of_nat len - 0 + Z.of_nat b - 1) `div` Z.of_nat b)%Z).
  exists (Z.to_nat q). split.
  - assert (0 ≤ q)%Z by (apply Z.div_pos; lia).
    pose proof (Z.mul_succ_div_gt
                  (Z.of_nat len - 0 + Z.of_nat b - 1) (Z.of_nat b)
                  ltac:(lia)) as Hgt.
    fold q in Hgt. nia.
  - f_equal. apply map_ext. intros k. lia.
Qed.

Lemma py_range_empty (b : Z) : (1 ≤ b)%Z → py_range 0 0 b = Ok [].
Proof.
  intros Hb. unfold py_range.
  rewrite (proj2 (Z.eqb_neq _ _)) by lia.
  rewrite (proj2 (Z.ltb_lt _ _)) by lia.
  replace ((0 - 0 + b - 1) `div` b)%Z with 0%Z; [done|].
  symmetry. apply Z.div_small. lia.
Qed.

(** The loop over the starts [k0 * b, (k0 + 1) * b, ...], against a service
    that answers every batch with its embeddings in order. *)
Lemma embed_loop_ordered (post : service vector) (emb : string → vector)
    (texts : list string) (b : nat) :
  (0 < b)%nat →
  (∀ sent batch, ∃ body,
      post sent batch = Ok body
      ∧ data body = Some (map (fun t => Some (emb t)) batch)) →
  ∀ n k0 sent acc,
    (embed_loop post data_embeddings texts (Z.of_nat b)
       (map (fun k => Z.of_nat (k * b)) (seq k0 n)) sent acc).2
    = Ok (acc ++ map emb (take (n * b) (drop (k0 * b) texts))).
Proof.
  intros Hb Hpost. induction n as [|n IH]; intros k0 sent acc.
  - simpl. by rewrite app_nil_r.
  - cbn [seq map embed_loop].
    rewrite py_slice_chunk by done.
    destruct (Hpost sent (take b (drop (k0 * b) texts))) as (body & -> & Hd).
    cbn [mbind result_bind]. unfold data_embeddings. rewrite Hd.
    assert (∀ l : list string,
              item_embeddings (map (fun t => Some (emb t)) l)
              = Ok (map emb l)) as ->.
    { induction l as [|t l IHl]; simpl; [done|]. by rewrite IHl. }
    rewrite IH. f_equal. rewrite <- app_assoc. f_equal.
    rewrite <- map_app. f_equal.
    replace (S k0 * b)%nat with (k0 * b + b)%nat by lia.
    rewrite <- drop_drop. by rewrite take_take_drop.
Qed.

(** C2. For every list of texts and every batch size of at least one,
    against a service that returns the vectors of a batch in input order,
    [embed_texts] returns as many vectors as there are texts, the i-th
    being the embedding of the i-th text. *)
Theorem embed_texts_ordered (post : service vector) (emb : string → vector)
    (texts : list string) (batch_size : Z) :
  (1 ≤ batch_size)%Z →
  (∀ sent batch, ∃ body,
      post sent batch = Ok body
      ∧ data body = Some (map (fun t => Some (emb t)) batch)) →
  ∃ embeddings,
    (Streaming.embed_texts post texts batch_size).2 = Ok embeddings
    ∧ length embeddings = length texts
    ∧ ∀ i t, texts !! i = Some t → embeddings !! i = Some (emb t).
Proof.
  intros Hbs Hpost. exists (map emb texts). split; [|split].
  - unfold Streaming.embed_texts, embed_with.
    replace batch_size with (Z.of_nat (Z.to_nat batch_size)) by lia.
    destruct (py_range_starts (length texts) (Z.to_nat batch_size))
      as (count & Hcount & ->); [lia|].
    rewrite (embed_loop_ordered post emb) by (done || lia).
    simpl. by rewrite drop_0, take_ge.
  - by rewrite length_map.
  - intros i t Hi. by rewrite lookup_map, Hi.
Qed.

(** C10. On the empty list of texts, for every batch size of at least
    one, both [embed_texts] return the empty list and send no request to
    the embedding service. *)
Theorem embed_texts_empty (post : service vector) (batch_size : Z) :
  (1 ≤ batch_size)%Z →
  Streaming.embed_texts post [] batch_size = ([], Ok [])
  ∧ Ingested.embed_texts post [] batch_size = ([], Ok []).
Proof.
  intros Hbs. unfold Streaming.embed_texts, Ingested.embed_texts, embed_with.
  simpl length. change (Z.of_nat 0) with 0%Z.
  by rewrite py_range_empty.
Qed.

End EmbedFacts.

Section EmbedWitness.
Import Embed.

Lemma embed_texts_ordered_witness :
  ∃ embeddings,
    (Streaming.embed_texts length_service ["hi"; "hello"; "hey"] 2).2
    = Ok embeddings
    ∧ length embeddings = 3%nat
    ∧ ∀ i t, ["hi"; "hello"; "hey"] !! i = Some t
             → embeddings !! i = Some (String.length t).
Proof.
  apply (embed_texts_ordered length_service String.length); [lia|].
  intros sent batch. by eexists.
Defined.

Lemma embed_texts_empty_witness :
  Streaming.embed_texts length_service [] 64 = ([], Ok [])
  ∧ Ingested.embed_texts length_service [] 64 = ([], Ok []).
Proof. apply embed_texts_empty. lia. Defined.

End EmbedWitness.

(** ** The [/query] handlers *)

Section QueryFacts.
Import Query.

(** The handler of [Benchmark/query_api.py] always returns a body: the
    answer with its context, or the error with the query; this includes
    the call before [graphiti] is initialised. *)
Lemma benchmark_query_graph_returns {results} (graphiti : option
    (Benchmark.client results)) (query : string) :
  (∃ answer context,
     Benchmark.query_graph graphiti query
     = Returns (Answered query answer context))
  ∨ (∃ error,
       Benchmark.query_graph graphiti query = Returns (Failed error query)).
Proof.
  unfold Benchmark.query_graph, try_except.
  destruct (Benchmark.answer_query graphiti query) as [r|e] eqn:E.
  - left. unfold Benchmark.answer_query in E.
    destruct graphiti as [c|]; [|done].
    apply bind_ok in E as (sr & _ & E).
    apply bind_ok in E as (ctx & _ & E).
    apply bind_ok in E as (resp & _ & E).
    apply bind_ok in E as (ans & _ & [= <-]). eauto.
  - right. eauto.
Qed.

Lemma benchmark_query_graph_uninitialised {results} (query : string) :
  Benchmark.query_graph (results := results) None query
  = Returns (Failed "Graphiti client not initialized" query).
Proof. reflexivity. Qed.

(** In the handler of [Streaming-data-for-graphiti/query_api.py] the
    exception of a step leaves the handler. *)
Lemma streaming_query_graph_raises {vector} (s : Streaming.services vector)
    (query : string) (e : exn) :
  Streaming.embed_query s query = Raise e →
  Streaming.query_graph s query = Propagates e.
Proof. intros H. unfold Streaming.query_graph. by rewrite H. Qed.

(** C9 (the code departs from it). With the embedding service down, the
    handler of [Streaming-data-for-graphiti/query_api.py] returns no body:
    the exception propagates; and when every step succeeds, its body has
    the query and the answer but no context. *)
Theorem streaming_query_graph_unhandled :
  Streaming.query_graph embedder_down "who sent M2"
  = Propagates (Exn Exception "Connection refused")
  ∧ Streaming.query_graph all_up "who sent M2"
    = Returns (AnsweredBare "who sent M2" "A2").
Proof. split; reflexivity. Qed.

End QueryFacts.

(** ** The graph store *)

Section GraphFacts.
Context {vector : Type}.
Implicit Types (g h : graph vector) (n : node vector) (pat : pattern).

Lemma elem_of_find_from i lbl pat (ns : list (node vector)) j :
  j ∈ find_from i lbl pat ns ↔
  ∃ k n, j = (i + k)%nat ∧ ns !! k = Some n ∧ node_matches lbl pat n = true.
Proof.
  revert i. induction ns as [|n ns IH]; intros i; simpl.
  - split; [by intros ?%elem_of_nil | by intros (k & n & _ & ? & _)].
  - assert (j ∈ find_from (S i) lbl pat ns ↔
            ∃ k n', j = (i + S k)%nat ∧ ns !! k = Some n'
                    ∧ node_matches lbl pat n' = true) as Htail.
    { rewrite IH. by setoid_rewrite Nat.add_succ_r. }
    destruct (node_matches lbl pat n) eqn:E; rewrite ?elem_of_cons, Htail.
    + split.
      * intros [->|(k & n' & -> & ? & ?)].
        -- exists 0%nat, n. by rewrite Nat.add_0_r.
        -- by exists (S k), n'.
      * intros ([|k] & n' & -> & Hk & Hn'); [left; lia|right; eauto].
    + split.
      * intros (k & n' & -> & ? & ?). by exists (S k), n'.
      * intros ([|k] & n' & -> & Hk & Hn'); [|by eauto].
        simpl in Hk. injection Hk as <-. congruence.
Qed.

Lemma elem_of_match_nodes lbl pat g j :
  j ∈ match_nodes lbl pat g ↔
  ∃ n, nodes g !! j = Some n ∧ node_matches lbl pat n = true.
Proof.
  unfold match_nodes. rewrite elem_of_find_from. split.
  - intros (k & n & -> & ? & ?). eauto.
  - intros (n & ? & ?). by exists j, n.
Qed.

(** Matching looks at the nodes one by one. *)
Lemma find_from_pointwise i lbl pat (ns ns' : list (node vector)) :
  Forall2 (fun n n' => node_matches lbl pat n = node_matches lbl pat n')
    ns ns' →
  find_from i lbl pat ns = find_from i lbl pat ns'.
Proof.
  intros H. revert i. induction H as [|n n' ns ns' Hn _ IH]; intros i;
    simpl; [done|].
  by rewrite Hn, !IH.
Qed.

Lemma find_from_app i lbl pat (ns ns' : list (node vector)) :
  find_from i lbl pat (ns ++ ns')
  = find_from i lbl pat ns ++ find_from (i + length ns) lbl pat ns'.
Proof.
  revert i. induction ns as [|n ns IH]; intros i; simpl.
  - by rewrite Nat.add_0_r.
  - rewrite IH, Nat.add_succ_r. by destruct (node_matches lbl pat n).
Qed.

(** *** [MERGE] of a node *)

Lemma match_nodes_create lbl pat lbl' pat' g :
  match_nodes lbl pat (create_node lbl' pat' g)
  = match_nodes lbl pat g
    ++ (if node_matches lbl pat
             (Node lbl' (pattern_props pat') : node vector)
        then [length (nodes g)] else []).
Proof. unfold match_nodes, create_node. simpl. by rewrite find_from_app. Qed.

Lemma pattern_props_lookup pat k s :
  distinct_keys pat → (k, s) ∈ pat →
  pattern_props (vector := vector) pat !! k = Some (PStr s).
Proof.
  unfold distinct_keys, pattern_props.
  induction pat as [|[k' s'] pat IH]; simpl; [by intros _ ?%elem_of_nil|].
  intros [Hk' Hnd]%NoDup_cons [[= -> ->]|Hin]%elem_of_cons.
  - apply lookup_insert_eq.
  - rewrite lookup_insert_ne; [by apply IH|].
    intros ->. apply Hk'. by apply (list_elem_of_fmap_2 fst _ (k, s)).
Qed.

(** The node a [MERGE] creates matches its pattern. *)
Lemma created_matches lbl pat :
  distinct_keys pat →
  node_matches (vector := vector) lbl pat (Node lbl (pattern_props pat))
  = true.
Proof.
  intros Hnd. unfold node_matches. simpl. rewrite String.eqb_refl. simpl.
  apply forallb_forall. intros [k s] Hin%list_elem_of_In.
  unfold has_str. simpl. rewrite (pattern_props_lookup pat k s) by done.
  apply String.eqb_refl.
Qed.

Lemma merge_node_matched lbl pat g :
  match_nodes lbl pat g ≠ [] →
  merge_node lbl pat g = (g, match_nodes lbl pat g).
Proof. unfold merge_node. by destruct (match_nodes lbl pat g). Qed.

Lemma ensure_noop lbl pat g :
  match_nodes lbl pat g ≠ [] → ensure lbl pat g = g.
Proof. intros H. unfold ensure. by rewrite merge_node_matched. Qed.

(** After a [MERGE], the variable ranges over the nodes that match in the
    graph it leaves, and there is one at least. *)
Lemma merge_node_result lbl pat g :
  distinct_keys pat →
  (merge_node lbl pat g).2 = match_nodes lbl pat (ensure lbl pat g)
  ∧ match_nodes lbl pat (ensure lbl pat g) ≠ [].
Proof.
  intros Hnd. unfold ensure, merge_node.
  destruct (match_nodes lbl pat g) as [|m ms] eqn:E; simpl.
  - rewrite match_nodes_create, E, created_matches by done. by split.
  - by rewrite E.
Qed.

Lemma ensure_nodes lbl pat g :
  ∃ new, nodes (ensure lbl pat g) = nodes g ++ new
         ∧ edges (ensure lbl pat g) = edges g.
Proof.
  unfold ensure, merge_node. destruct (match_nodes lbl pat g); simpl.
  - by eexists.
  - exists []. by rewrite app_nil_r.
Qed.

(** A [MERGE] of another pattern leaves the matches of [pat] alone, when
    it finds a node, or when the node it creates does not match [pat]. *)
Lemma match_nodes_ensure lbl pat lbl' pat' g :
  match_nodes lbl' pat' g ≠ []
  ∨ node_matches lbl pat (Node lbl' (pattern_props pat') : node vector)
    = false →
  match_nodes lbl pat (ensure lbl' pat' g) = match_nodes lbl pat g.
Proof.
  intros [Hne|Hno].
  - by rewrite ensure_noop.
  - unfold ensure, merge_node. destruct (match_nodes lbl' pat' g); [|done].
    simpl. by rewrite match_nodes_create, Hno, app_nil_r.
Qed.

Lemma match_nodes_lt lbl pat g j :
  j ∈ match_nodes lbl pat g → (j < length (nodes g))%nat.
Proof.
  intros (n & Hn & _)%elem_of_match_nodes. by eapply lookup_lt_Some.
Qed.

Lemma prop_at_ensure lbl pat g j k :
  (j < length (nodes g))%nat →
  prop_at (ensure lbl pat g) j k = prop_at g j k.
Proof.
  intros Hj. destruct (ensure_nodes lbl pat g) as (new & Hn & _).
  unfold prop_at. by rewrite Hn, lookup_app_l.
Qed.

Lemma all_have_ensure lbl pat items lbl' pat' g :
  match_nodes lbl pat (ensure lbl' pat' g) = match_nodes lbl pat g →
  all_have lbl pat items g → all_have lbl pat items (ensure lbl' pat' g).
Proof.
  intros HM Hall n k v Hn Hkv. rewrite HM in Hn.
  rewrite prop_at_ensure by (by eapply match_nodes_lt). by apply Hall.
Qed.

Lemma all_linked_ensure lbl1 pat1 ty lbl2 pat2 lbl' pat' g :
  match_nodes lbl1 pat1 (ensure lbl' pat' g) = match_nodes lbl1 pat1 g →
  match_nodes lbl2 pat2 (ensure lbl' pat' g) = match_nodes lbl2 pat2 g →
  all_linked lbl1 pat1 ty lbl2 pat2 g →
  all_linked lbl1 pat1 ty lbl2 pat2 (ensure lbl' pat' g).
Proof.
  intros H1 H2 Hall a b Ha Hb. rewrite H1 in Ha. rewrite H2 in Hb.
  destruct (ensure_nodes lbl' pat' g) as (new & _ & ->). by apply Hall.
Qed.

(** *** Frames: [SET] and [MERGE] of relationships *)

Lemma frame_refl L K g : frame L K g g.
Proof.
  split; [|done]. apply Forall2_same_length_lookup_2; [done|].
  intros i nd nd' H1 H2. by simplify_eq.
Qed.

Lemma frame_trans L K g1 g2 g3 :
  frame L K g1 g2 → frame L K g2 g3 → frame L K g1 g3.
Proof.
  intros [Hn12 He12] [Hn23 He23]. split; [|by auto].
  apply Forall2_same_length_lookup in Hn12 as [Hlen12 Hn12].
  apply Forall2_same_length_lookup in Hn23 as [Hlen23 Hn23].
  apply Forall2_same_length_lookup_2; [congruence|].
  intros i nd1 nd3 H1 H3.
  destruct (lookup_lt_is_Some_2 (nodes g2) i) as [nd2 H2].
  { rewrite <- Hlen12. by eapply lookup_lt_Some. }
  destruct (Hn12 i nd1 nd2 H1 H2) as [Hl12 Hp12].
  destruct (Hn23 i nd2 nd3 H2 H3) as [Hl23 Hp23].
  split; [congruence|].
  intros k Hk. rewrite Hp23, Hp12; [done..|]. by rewrite Hl12.
Qed.

Lemma foldl_set_prop_lookup_ne (m : gmap string (propval vector)) items k :
  k ∉ items.*1 → foldl set_prop m items !! k = m !! k.
Proof.
  revert m. induction items as [|[k' v] items IH]; intros m Hk; [done|].
  simpl in *. apply not_elem_of_cons in Hk as [Hne Hk].
  rewrite IH by done. unfold set_prop. simpl.
  destruct v; [by rewrite lookup_insert_ne | by rewrite lookup_delete_ne].
Qed.

Lemma foldl_set_prop_lookup (m : gmap string (propval vector)) items k v :
  distinct_keys items → (k, v) ∈ items → foldl set_prop m items !! k = v.
Proof.
  unfold distinct_keys. revert m.
  induction items as [|[k' v'] items IH]; intros m Hnd Hin;
    [by apply elem_of_nil in Hin|].
  simpl in *. apply NoDup_cons in Hnd as [Hk' Hnd].
  apply elem_of_cons in Hin as [[= -> ->]|Hin].
  - rewrite foldl_set_prop_lookup_ne by done. unfold set_prop. simpl.
    destruct v'; [apply lookup_insert_eq | apply lookup_delete_eq].
  - by apply IH.
Qed.

Lemma foldl_set_prop_noop (m : gmap string (propval vector)) items :
  (∀ k v, (k, v) ∈ items → m !! k = v) → foldl set_prop m items = m.
Proof.
  revert m. induction items as [|[k v] items IH]; intros m Hm; [done|].
  simpl. assert (set_prop m (k, v) = m) as ->.
  { unfold set_prop. simpl. specialize (Hm k v ltac:(left)).
    destruct v; [by apply insert_id | by apply delete_id]. }
  apply IH. intros k' v' Hin. apply Hm. by right.
Qed.

End GraphFacts.

Section FrameFacts.
Context {vector : Type}.
Implicit Types (g h : graph vector) (pat : pattern).
Implicit Types items : list (string * option (propval vector)).

Lemma untouched_spec lbl keys L K :
  untouched lbl keys L K = true →
  lbl ≠ L ∨ ∀ k, k ∈ keys → k ∉ K.
Proof.
  unfold untouched. intros [Hl|Hk]%orb_true_iff.
  - left. by apply String.eqb_neq, negb_true_iff.
  - right. intros k Hin HK. rewrite forallb_forall in Hk.
    specialize (Hk k (proj1 (list_elem_of_In _ _) Hin)).
    apply negb_true_iff in Hk. rewrite <- not_true_iff_false in Hk.
    apply Hk, existsb_exists. exists k.
    split; [by apply list_elem_of_In | apply String.eqb_refl].
Qed.

Lemma node_matches_label lbl pat (nd : node vector) :
  node_matches lbl pat nd = true → label nd = lbl.
Proof.
  unfold node_matches. intros [H _]%andb_true_iff. by apply String.eqb_eq.
Qed.

Lemma match_nodes_frame L K lbl pat g h :
  frame L K g h → untouched lbl pat.*1 L K = true →
  match_nodes lbl pat h = match_nodes lbl pat g.
Proof.
  intros [Hn _] Hun%untouched_spec. unfold match_nodes. symmetry.
  apply find_from_pointwise. eapply Forall2_impl; [done|].
  intros nd nd' [Hl Hp]. unfold node_matches. rewrite Hl.
  destruct (String.eqb (label nd) lbl) eqn:E; [|done]. simpl.
  apply String.eqb_eq in E.
  induction pat as [|[k s] pat IH]; [done|]. simpl. f_equal.
  - unfold has_str. simpl. rewrite Hp; [done|]. intros HL.
    destruct Hun as [?|Hk]; [congruence|]. apply Hk. simpl. left.
  - apply IH. destruct Hun as [?|Hk]; [by left|right].
    intros k' Hk'. apply Hk. simpl. by right.
Qed.

Lemma prop_at_frame L K lbl pat g h n k :
  frame L K g h → n ∈ match_nodes lbl pat g → (lbl = L → k ∉ K) →
  prop_at h n k = prop_at g n k.
Proof.
  intros [Hn _] (nd & Hnd & Hm)%elem_of_match_nodes Hk.
  destruct (Forall2_lookup_l _ _ _ _ _ Hn Hnd) as (nd' & Hnd' & _ & Hp).
  unfold prop_at. rewrite Hnd, Hnd'. simpl. apply Hp.
  by rewrite (node_matches_label _ _ _ Hm).
Qed.

Lemma all_have_frame L K lbl pat items g h :
  frame L K g h → untouched lbl pat.*1 L K = true →
  untouched lbl items.*1 L K = true →
  all_have lbl pat items g → all_have lbl pat items h.
Proof.
  intros Hf Hpat Hit%untouched_spec Hall n k v Hn Hkv.
  rewrite (match_nodes_frame L K lbl pat g h) in Hn by done.
  rewrite (prop_at_frame L K lbl pat g h n k Hf Hn); [by apply Hall|].
  intros ->. destruct Hit as [?|Hit]; [done|].
  apply Hit. by apply (list_elem_of_fmap_2 fst _ (k, v)).
Qed.

Lemma all_linked_frame L K lbl1 pat1 ty lbl2 pat2 g h :
  frame L K g h → untouched lbl1 pat1.*1 L K = true →
  untouched lbl2 pat2.*1 L K = true →
  all_linked lbl1 pat1 ty lbl2 pat2 g → all_linked lbl1 pat1 ty lbl2 pat2 h.
Proof.
  intros Hf H1 H2 Hall a b Ha Hb.
  rewrite (match_nodes_frame L K lbl1 pat1 g h) in Ha by done.
  rewrite (match_nodes_frame L K lbl2 pat2 g h) in Hb by done.
  destruct Hf as [_ He]. by apply He, Hall.
Qed.

(** *** [SET] *)

Lemma set_props_lookup n items g j :
  nodes (set_props n items g) !! j
  = (if decide (n = j)
     then (fun nd => Node (label nd) (foldl set_prop (props nd) items))
          <$> nodes g !! j
     else nodes g !! j).
Proof.
  unfold set_props. simpl. rewrite list_lookup_alter.
  by destruct (decide (n = j)) as [->|].
Qed.

Lemma frame_set_props L n items g :
  (∀ nd, nodes g !! n = Some nd → label nd = L) →
  frame L items.*1 g (set_props n items g).
Proof.
  intros HL. split; [|done].
  apply Forall2_same_length_lookup_2.
  { unfold set_props. simpl. by rewrite length_alter. }
  intros j nd nd' Hnd. rewrite set_props_lookup, Hnd.
  destruct (decide (n = j)) as [->|]; simpl; intros [= <-]; [|done].
  split; [done|]. simpl. intros k Hk.
  apply foldl_set_prop_lookup_ne, Hk. by apply HL.
Qed.

Lemma frame_set_nodes L ns items g :
  (∀ n nd, n ∈ ns → nodes g !! n = Some nd → label nd = L) →
  frame L items.*1 g (set_nodes ns items g).
Proof.
  revert g. induction ns as [|n ns IH]; intros g HL; [apply frame_refl|].
  unfold set_nodes. simpl.
  assert (frame L items.*1 g (set_props n items g)) as Hstep.
  { apply frame_set_props. intros nd. apply HL. left. }
  eapply frame_trans; [done|]. apply IH. intros n' nd' Hn' Hnd'.
  destruct Hstep as [Hf _].
  destruct (Forall2_lookup_r _ _ _ _ _ Hf Hnd') as (nd & Hnd & Hl & _).
  rewrite Hl. apply (HL n'); [by right | done].
Qed.

Lemma prop_at_set_props n' items g n k v :
  distinct_keys items → (k, v) ∈ items →
  (n' = n ∧ (n < length (nodes g))%nat) ∨ prop_at g n k = v →
  prop_at (set_props n' items g) n k = v.
Proof.
  intros Hnd Hkv Hcase. unfold prop_at. rewrite set_props_lookup.
  destruct (decide (n' = n)) as [->|Hne].
  - destruct (nodes g !! n) as [nd|] eqn:E; simpl.
    + by apply foldl_set_prop_lookup.
    + destruct Hcase as [[_ Hlt]|Hp].
      * apply lookup_ge_None in E. lia.
      * unfold prop_at in Hp. by rewrite E in Hp.
  - destruct Hcase as [[? _]|Hp]; [done|]. done.
Qed.

Lemma set_props_length n items g :
  length (nodes (set_props n items g)) = length (nodes g).
Proof. unfold set_props. simpl. by rewrite length_alter. Qed.

(** After a [SET] over a list of nodes, each of them has the items. *)
Lemma prop_at_set_nodes ns items g n k v :
  distinct_keys items → (k, v) ∈ items →
  (n ∈ ns ∧ (n < length (nodes g))%nat) ∨ prop_at g n k = v →
  prop_at (set_nodes ns items g) n k = v.
Proof.
  intros Hnd Hkv. revert g.
  induction ns as [|n' ns IH]; intros g Hcase.
  - destruct Hcase as [[?%elem_of_nil _]|?]; done.
  - unfold set_nodes. simpl. apply IH.
    destruct Hcase as [[[->|Hin]%elem_of_cons Hlt]|Hp].
    + right. apply prop_at_set_props; auto.
    + left. by rewrite set_props_length.
    + right. apply prop_at_set_props; auto.
Qed.

Lemma set_props_noop n items g :
  (∀ k v, (k, v) ∈ items → is_Some (nodes g !! n) → prop_at g n k = v) →
  set_props n items g = g.
Proof.
  intros H. destruct g as [ns es]. unfold set_props. simpl in *. f_equal.
  apply list_eq. intros j. rewrite list_lookup_alter.
  destruct (decide (n = j)) as [->|]; [|done].
  destruct (ns !! j) as [[l p]|] eqn:E; [|done]. simpl. do 2 f_equal.
  apply foldl_set_prop_noop. intros k v Hkv.
  specialize (H k v Hkv). unfold prop_at in H. simpl in H.
  rewrite E in H. apply H. by eexists.
Qed.

Lemma set_nodes_noop ns items g :
  (∀ n k v, n ∈ ns → (k, v) ∈ items → is_Some (nodes g !! n) →
            prop_at g n k = v) →
  set_nodes ns items g = g.
Proof.
  induction ns as [|n ns IH]; intros H; [done|].
  unfold set_nodes. simpl. rewrite set_props_noop.
  - apply IH. intros n' k v Hn'. apply H. by right.
  - intros k v. apply H. left.
Qed.

(** *** [MERGE] of relationships *)

Lemma elem_of_add_edge (e e' : edge) g :
  e' ∈ edges (add_edge e g) ↔ e' = e ∨ e' ∈ edges g.
Proof.
  unfold add_edge. case_decide; simpl.
  - split; [by right | by intros [->|?]].
  - rewrite elem_of_app, list_elem_of_singleton. tauto.
Qed.

Lemma add_edge_nodes (e : edge) g : nodes (add_edge e g) = nodes g.
Proof. unfold add_edge. by case_decide. Qed.

Lemma add_edge_noop (e : edge) g : e ∈ edges g → add_edge e g = g.
Proof. intros H. unfold add_edge. by rewrite decide_True. Qed.

Lemma link_all_nodes pairs ty g : nodes (link_all pairs ty g) = nodes g.
Proof.
  revert g. induction pairs as [|p pairs IH]; intros g; [done|].
  unfold link_all. simpl. fold (link_all pairs ty (add_edge (p.1, ty, p.2) g)).
  by rewrite IH, add_edge_nodes.
Qed.

Lemma elem_of_link_all pairs ty g (e : edge) :
  e ∈ edges (link_all pairs ty g) ↔
  e ∈ edges g ∨ ∃ p, p ∈ pairs ∧ e = (p.1, ty, p.2).
Proof.
  revert g. induction pairs as [|p pairs IH]; intros g.
  - simpl. split; [by left | intros [?|(p & ?%elem_of_nil & _)]; done].
  - unfold link_all. simpl.
    fold (link_all pairs ty (add_edge (p.1, ty, p.2) g)).
    rewrite IH, elem_of_add_edge. split.
    + intros [[->|?]|(q & Hq & ->)]; eauto.
      * right. exists p. split; [left | done].
      * right. exists q. split; [by right | done].
    + intros [?|(q & [->|Hq]%elem_of_cons & ->)]; eauto.
Qed.

Lemma link_all_noop pairs ty g :
  (∀ p, p ∈ pairs → (p.1, ty, p.2) ∈ edges g) → link_all pairs ty g = g.
Proof.
  revert g. induction pairs as [|p pairs IH]; intros g H; [done|].
  unfold link_all. simpl. rewrite add_edge_noop by (apply H; left).
  apply IH. intros q Hq. apply H. by right.
Qed.

Lemma frame_link_all L K pairs ty g : frame L K g (link_all pairs ty g).
Proof.
  split.
  - rewrite link_all_nodes. apply (frame_refl L K g).
  - intros e He. apply elem_of_link_all. by left.
Qed.

Lemma frame_weaken L K K' g h :
  K ⊆ K' → frame L K g h → frame L K' g h.
Proof.
  intros Hsub [Hn He]. split; [|done]. eapply Forall2_impl; [done|].
  intros nd nd' [Hl Hp]. split; [done|]. intros k Hk. apply Hp.
  intros HL HK. by apply (Hk HL), Hsub.
Qed.

End FrameFacts.

(** ** Clauses on the table of a single event *)

Section RunFacts.
Context {vector R : Type}.
Implicit Types (g : graph vector) (r : R) (vss : list (list (string * nat))).

Lemma run_rows_app (f : graph vector → env R → graph vector * list (env R))
    g (t1 t2 : list (env R)) :
  run_rows f g (t1 ++ t2)
  = let (g1, o1) := run_rows f g t1 in
    let (g2, o2) := run_rows f g1 t2 in (g2, o1 ++ o2).
Proof.
  revert g. induction t1 as [|e t1 IH]; intros g; simpl.
  - by destruct (run_rows f g t2).
  - destruct (f g e) as [g1 o1]. rewrite IH.
    destruct (run_rows f g1 t1) as [g2 o2].
    destruct (run_rows f g2 t2) as [g3 o3]. by rewrite app_assoc.
Qed.

Lemma run_match x lbl (pat : R → pattern) g r vss :
  run_rows (step (MATCH x lbl pat)) g (rows r vss)
  = (g, rows r (extend x (match_nodes lbl (pat r) g) vss)).
Proof.
  induction vss as [|vs vss IH]; simpl; [done|].
  unfold rows in *. rewrite IH. f_equal.
  unfold extend. simpl. rewrite map_app. f_equal.
  by rewrite !map_map.
Qed.

Lemma run_with xs g r vss :
  run_rows (step (WITH xs)) g (rows r vss)
  = (g, rows r (map (keep xs) vss)).
Proof.
  induction vss as [|vs vss IH]; simpl; [done|].
  unfold rows in *. by rewrite IH.
Qed.

Lemma run_set x (items : R → list (string * option (propval vector)))
    g r vss :
  run_rows (step (SET x items)) g (rows r vss)
  = (set_nodes (bound x vss) (items r) g, rows r vss).
Proof.
  revert g. induction vss as [|vs vss IH]; intros g; simpl; [done|].
  unfold rows in *. rewrite IH. f_equal. unfold bound. simpl.
  by destruct (assoc x vs).
Qed.

Lemma run_merge_rel a ty b g r vss :
  run_rows (step (MERGE_rel a ty b)) g (rows r vss)
  = (link_all (bound2 a b vss) ty g, rows r vss).
Proof.
  revert g. induction vss as [|vs vss IH]; intros g; simpl; [done|].
  unfold rows in *. rewrite IH. f_equal. unfold bound2. simpl.
  by destruct (assoc a vs), (assoc b vs).
Qed.

(** A [MERGE] of a node with the same pattern on every row: the first row
    finds or creates, the others find. *)
Lemma run_merge x lbl (pat : R → pattern) g r vss :
  distinct_keys (pat r) → vss ≠ [] →
  run_rows (step (MERGE x lbl pat)) g (rows r vss)
  = (ensure lbl (pat r) g,
     rows r (extend x (match_nodes lbl (pat r) (ensure lbl (pat r) g)) vss)).
Proof.
  intros Hnd Hne.
  assert (∀ (h : graph vector) vss', match_nodes lbl (pat r) h ≠ [] →
            run_rows (step (MERGE x lbl pat)) h (rows r vss')
            = (h, rows r (extend x (match_nodes lbl (pat r) h) vss')))
    as Hfound.
  { intros h vss' Hh. induction vss' as [|vs vss' IH]; simpl; [done|].
    unfold rows in *. rewrite merge_node_matched by done. rewrite IH.
    f_equal. unfold extend. simpl. rewrite map_app. f_equal.
    by rewrite !map_map. }
  destruct vss as [|vs vss]; [done|]. simpl.
  destruct (merge_node_result lbl (pat r) g Hnd) as [Hms Hnonempty].
  destruct (merge_node lbl (pat r) g) as [g1 ms] eqn:E.
  unfold ensure in *. rewrite E in *. simpl in *. subst ms.
  unfold rows in *. rewrite Hfound by done. f_equal.
  unfold extend. simpl. rewrite map_app. f_equal. by rewrite !map_map.
Qed.

Lemma run_foreach {X} (items : R → list X) (body : X → list (clause vector R))
    g r vss :
  run_rows (foreach_step items body) g (rows r vss)
  = (foldl (fun g vs =>
              foldl (fun g x => (run_clauses (body x) (g, rows r [vs])).1) g
                (items r)) g vss,
     rows r vss).
Proof.
  revert g. induction vss as [|vs vss IH]; intros g; simpl; [done|].
  unfold rows in *. by rewrite IH.
Qed.

(** *** What the rows bind *)

Lemma elem_of_extend x ns vss vs' :
  vs' ∈ extend x ns vss ↔ ∃ vs n, vs ∈ vss ∧ n ∈ ns ∧ vs' = (x, n) :: vs.
Proof.
  unfold extend. rewrite elem_of_flat_map. split.
  - intros (vs & Hvs & (n & <- & Hn)%list_elem_of_In%in_map_iff).
    exists vs, n. apply list_elem_of_In in Hn. done.
  - intros (vs & n & Hvs & Hn & ->). exists vs. split; [done|].
    apply list_elem_of_In, in_map_iff. exists n.
    apply list_elem_of_In in Hn. done.
Qed.

Lemma elem_of_bound x vss n :
  n ∈ bound x vss ↔ ∃ vs, vs ∈ vss ∧ assoc x vs = Some n.
Proof. unfold bound. by rewrite list_elem_of_omap. Qed.

Lemma elem_of_bound2 a b vss p :
  p ∈ bound2 a b vss ↔
  ∃ vs, vs ∈ vss ∧ assoc a vs = Some p.1 ∧ assoc b vs = Some p.2.
Proof.
  unfold bound2. rewrite list_elem_of_omap. destruct p as [i j]. simpl.
  split; intros (vs & Hvs & H); exists vs; (split; [done|]).
  - destruct (assoc a vs), (assoc b vs); by simplify_eq.
  - destruct H as [-> ->]. done.
Qed.

End RunFacts.

Section StmtFacts.
Context {vector R : Type}.
Implicit Types (g : graph vector) (r : R) (vss : list (list (string * nat))).

Lemma stmt_match x lbl (pat : R → pattern) g r vss :
  run_stmt (g, rows r vss) (Do (MATCH x lbl pat))
  = (g, rows r (extend x (match_nodes lbl (pat r) g) vss)).
Proof. apply run_match. Qed.

Lemma stmt_with xs g r vss :
  run_stmt (g, rows r vss) (Do (WITH xs)) = (g, rows r (map (keep xs) vss)).
Proof. apply run_with. Qed.

Lemma stmt_set x (items : R → list (string * option (propval vector)))
    g r vss :
  run_stmt (g, rows r vss) (Do (SET x items))
  = (set_nodes (bound x vss) (items r) g, rows r vss).
Proof. apply run_set. Qed.

Lemma stmt_merge_rel a ty b g r vss :
  run_stmt (g, rows r vss) (Do (MERGE_rel a ty b))
  = (link_all (bound2 a b vss) ty g, rows r vss).
Proof. apply run_merge_rel. Qed.

Lemma stmt_merge x lbl (pat : R → pattern) g r vss :
  distinct_keys (pat r) → vss ≠ [] →
  run_stmt (g, rows r vss) (Do (MERGE x lbl pat))
  = (ensure lbl (pat r) g,
     rows r (extend x (match_nodes lbl (pat r) (ensure lbl (pat r) g)) vss)).
Proof. apply run_merge. Qed.

Lemma stmt_foreach {X} (items : R → list X)
    (body : X → list (clause vector R)) g r vss :
  run_stmt (g, rows r vss) (FOREACH items body)
  = (foldl (fun g vs =>
              foldl (fun g x => (run_clauses (body x) (g, rows r [vs])).1) g
                (items r)) g vss,
     rows r vss).
Proof. apply run_foreach. Qed.

Lemma clause_match x lbl (pat : R → pattern) g r vss :
  run_clause (g, rows r vss) (MATCH x lbl pat)
  = (g, rows r (extend x (match_nodes lbl (pat r) g) vss)).
Proof. apply run_match. Qed.

Lemma clause_merge x lbl (pat : R → pattern) g r vss :
  distinct_keys (pat r) → vss ≠ [] →
  run_clause (g, rows r vss) (MERGE x lbl pat)
  = (ensure lbl (pat r) g,
     rows r (extend x (match_nodes lbl (pat r) (ensure lbl (pat r) g)) vss)).
Proof. apply run_merge. Qed.

Lemma clause_merge_rel a ty b g r vss :
  run_clause (g, rows r vss) (MERGE_rel a ty b)
  = (link_all (bound2 a b vss) ty g, rows r vss).
Proof. apply run_merge_rel. Qed.

Lemma run_query_rows (q : list (stmt vector R)) r g :
  run_query q [r] g = (foldl run_stmt (g, rows r [[]]) q).1.
Proof. done. Qed.

Lemma extend_nonempty x ns vss :
  ns ≠ [] → vss ≠ [] → extend x ns vss ≠ [].
Proof.
  intros Hns Hvss. destruct vss as [|vs vss]; [done|].
  destruct ns as [|n ns]; [done|]. done.
Qed.

Lemma bound_extend_nil x ns : bound x (extend x ns [[]]) = ns.
Proof.
  unfold bound, extend. simpl. rewrite app_nil_r.
  induction ns as [|n ns IH]; simpl; [done|].
  rewrite String.eqb_refl. f_equal. exact IH.
Qed.

Lemma distinct_keys_1 {A} k (v : A) : distinct_keys [(k, v)].
Proof.
  unfold distinct_keys. simpl. apply NoDup_cons.
  split; [by intros ?%elem_of_nil | apply NoDup_nil_2].
Qed.

Lemma distinct_keys_2 {A} k k' (v v' : A) :
  k ≠ k' → distinct_keys [(k, v); (k', v')].
Proof.
  intros Hne. unfold distinct_keys. simpl. apply NoDup_cons. split.
  - by intros ->%list_elem_of_singleton.
  - apply NoDup_cons. split; [by intros ?%elem_of_nil | apply NoDup_nil_2].
Qed.

End StmtFacts.

(** ** [GraphWriter.write_event] *)

Section GraphWriterRuns.
Import GraphWriter.
Context {vector : Type}.
Implicit Types (g h : graph vector) (e : event vector).

(** [MERGE (a:Actor ...) SET a.name = ...] as operations on the store. *)
Lemma merge_actor_run e g :
  run_query merge_actor [e] g
  = set_nodes (match_nodes "Actor" [("id", actor_id e)]
                 (ensure "Actor" [("id", actor_id e)] g))
      [("name", PStr <$> actor_name e)]
      (ensure "Actor" [("id", actor_id e)] g).
Proof.
  rewrite run_query_rows. unfold merge_actor. cbn [foldl].
  rewrite stmt_merge by (done || apply distinct_keys_1).
  rewrite stmt_set. cbn [fst]. by rewrite bound_extend_nil.
Qed.

Lemma merge_stream_run e g :
  run_query merge_stream [e] g
  = ensure "Stream"
      [("id", stream_id e); ("source", source_value (source e))] g.
Proof.
  rewrite run_query_rows. unfold merge_stream. cbn [foldl].
  by rewrite stmt_merge by (done || by apply distinct_keys_2).
Qed.

(** The rows of the third statement: after [MERGE (m)], after
    [MATCH (a)], after [MATCH (s)]. *)
Lemma merge_message_run e g :
  ∃ (ns : list nat) (p1 p2 : list (nat * nat)),
    let g1 := ensure "Message" [("id", event_id e)] g in
    let items := [("body", Some (PStr (content e)));
                  ("timestamp", Some (PInt (timestamp e)));
                  ("embedding", PVec <$> embedding e);
                  ("source", Some (PStr (source_value (source e))))] in
    let g2 := set_nodes ns items g1 in
    let g3 := link_all p1 "PRODUCED" g2 in
    run_query merge_message [e] g = link_all p2 "HAS_EVENT" g3
    ∧ ns = match_nodes "Message" [("id", event_id e)] g1
    ∧ (∀ a m, (a, m) ∈ p1 ↔
         a ∈ match_nodes "Actor" [("id", actor_id e)] g2
         ∧ m ∈ match_nodes "Message" [("id", event_id e)] g1)
    ∧ (∀ s m, (s, m) ∈ p2 ↔
         s ∈ match_nodes "Stream" [("id", stream_id e)] g3
         ∧ m ∈ match_nodes "Message" [("id", event_id e)] g1
         ∧ match_nodes "Actor" [("id", actor_id e)] g2 ≠ []).
Proof.
  rewrite run_query_rows. unfold merge_message. cbn [foldl].
  rewrite stmt_merge by (done || apply distinct_keys_1).
  rewrite stmt_set, stmt_with, stmt_match, stmt_merge_rel, stmt_with,
    stmt_match, stmt_merge_rel. cbn [fst].
  rewrite bound_extend_nil.
  set (g1 := ensure "Message" [("id", event_id e)] g).
  set (Ms := match_nodes "Message" [("id", event_id e)] g1).
  set (g2 := set_nodes Ms _ g1).
  set (As := match_nodes "Actor" [("id", actor_id e)] g2).
  set (T3 := extend "a" As (map (keep ["m"]) (extend "m" Ms [[]]))).
  set (g3 := link_all (bound2 "a" "m" T3) "PRODUCED" g2).
  set (Ss := match_nodes "Stream" [("id", stream_id e)] g3).
  set (T5 := extend "s" Ss (map (keep ["m"]) T3)).
  exists Ms, (bound2 "a" "m" T3), (bound2 "s" "m" T5).
  split; [done|]. split; [done|].
  assert (∀ vs, vs ∈ map (keep ["m"]) (extend "m" Ms [[]]) ↔
                ∃ m, m ∈ Ms ∧ vs = [("m", m)]) as HT2.
  { intros vs. rewrite list_elem_of_fmap. split.
    - intros (vs' & -> & (vs0 & m & ->%list_elem_of_singleton & Hm & ->)
                         %elem_of_extend). by exists m.
    - intros (m & Hm & ->). exists [("m", m)]. split; [done|].
      apply elem_of_extend. exists [], m. by rewrite list_elem_of_singleton. }
  assert (∀ vs, vs ∈ T3 ↔
                ∃ a m, a ∈ As ∧ m ∈ Ms ∧ vs = [("a", a); ("m", m)]) as HT3.
  { intros vs. unfold T3. rewrite elem_of_extend. split.
    - intros (vs0 & a & (m & Hm & ->)%HT2 & Ha & ->). by exists a, m.
    - intros (a & m & Ha & Hm & ->). exists [("m", m)], a.
      split; [apply HT2; by exists m | done]. }
  split.
  - intros a m. rewrite elem_of_bound2. simpl. split.
    + intros (vs & (a' & m' & Ha & Hm & ->)%HT3 & Hva & Hvm).
      simpl in Hva, Hvm. by simplify_eq.
    + intros [Ha Hm]. exists [("a", a); ("m", m)].
      split; [apply HT3; by exists a, m | done].
  - intros s m. rewrite elem_of_bound2. simpl. split.
    + intros (vs & (vs' & s' & Hvs' & Hs & ->)%elem_of_extend & Hvs & Hvm).
      apply list_elem_of_fmap in Hvs' as (vs3 & -> & Hvs3).
      apply HT3 in Hvs3 as (a' & m' & Ha & Hm & ->).
      simpl in Hvs, Hvm. simplify_eq. repeat split; [done..|].
      intros Hnil. change (As = []) in Hnil. rewrite Hnil in Ha.
      by apply elem_of_nil in Ha.
    + intros (Hs & Hm & Hne).
      destruct As as [|a As'] eqn:EAs; [done|].
      exists [("s", s); ("m", m)]. split; [|done].
      apply elem_of_extend. exists [("m", m)], s. split; [|done].
      apply list_elem_of_fmap. exists [("a", a); ("m", m)]. split; [done|].
      apply HT3. exists a, m. split; [left | done].
Qed.

(** The fourth statement links every child to every parent found. *)
Lemma merge_reply_run parent e g :
  ∃ p : list (nat * nat),
    run_query (merge_reply parent) [e] g = link_all p "REPLIES_TO" g
    ∧ ∀ c q, (c, q) ∈ p ↔
        c ∈ match_nodes "Message" [("id", event_id e)] g
        ∧ q ∈ match_nodes "Message" [("id", parent)] g.
Proof.
  rewrite run_query_rows. unfold merge_reply. cbn [foldl].
  rewrite !stmt_match, stmt_merge_rel. cbn [fst].
  eexists. split; [done|]. intros c q. rewrite elem_of_bound2.
  cbn [fst snd]. split.
  - intros (vs & (vs' & q' & (vs0 & c' & ->%list_elem_of_singleton & Hc & ->)
                    %elem_of_extend & Hq & ->)%elem_of_extend & Hvc & Hvq).
    simpl in Hvc, Hvq. by simplify_eq.
  - intros [Hc Hq]. exists [("p", q); ("c", c)]. split; [|done].
    apply elem_of_extend. exists [("c", c)], q. split; [|done].
    apply elem_of_extend. exists [], c. by rewrite list_elem_of_singleton.
Qed.

End GraphWriterRuns.

Section GraphWriterIdempotent.
Import GraphWriter.
Context {vector : Type}.
Implicit Types (g h : graph vector) (e : event vector).

(** On a store in which [e] is written, writing [e] changes nothing. *)
Lemma write_event_settled e g : settled e g → write_event e g = g.
Proof.
  intros (HA & HAn & HS & HM & HMi & HP & HH & HR).
  unfold write_event.
  assert (run_query merge_actor [e] g = g) as ->.
  { rewrite merge_actor_run, ensure_noop by done.
    apply set_nodes_noop. intros n k v Hn Hkv _. by apply HAn. }
  assert (run_query merge_stream [e] g = g) as ->.
  { by rewrite merge_stream_run, ensure_noop. }
  assert (run_query merge_message [e] g = g) as ->.
  { destruct (merge_message_run e g)
      as (ns & p1 & p2 & Hrun & Hns & Hp1 & Hp2).
    cbv zeta in *. rewrite ensure_noop in * by done. subst ns.
    assert (set_nodes (match_nodes "Message" [("id", event_id e)] g)
              [("body", Some (PStr (content e)));
               ("timestamp", Some (PInt (timestamp e)));
               ("embedding", PVec <$> embedding e);
               ("source", Some (PStr (source_value (source e))))] g = g)
      as Hset.
    { apply set_nodes_noop. intros n k v Hn Hkv _. by apply HMi. }
    rewrite Hset in *.
    assert (link_all p1 "PRODUCED" g = g) as Hl1.
    { apply link_all_noop. intros [a m] [Ha Hm]%Hp1. by apply HP. }
    rewrite Hl1 in *. rewrite Hrun.
    apply link_all_noop. intros [s m] (Hs & Hm & _)%Hp2. by apply HH. }
  destruct (parent_event_id e) as [parent|] eqn:Ep; [|done].
  destruct (str_truthy parent) eqn:Et; [|done].
  destruct (merge_reply_run parent e g) as (p & -> & Hp).
  apply link_all_noop. intros [c q] [Hc Hq]%Hp. by apply (HR parent).
Qed.

End GraphWriterIdempotent.

(** Facts about a store carried across a frame, and across the [MERGE] of
    a node with another label. *)
Ltac push_frame Hf :=
  match type of Hf with
  | frame ?L ?K ?g ?h =>
      repeat match goal with
        | H : match_nodes ?lbl ?pat g ≠ [] |- _ =>
            rewrite <- (match_nodes_frame L K lbl pat g h Hf eq_refl) in H
        | H : all_have ?lbl ?pat ?items g |- _ =>
            apply (all_have_frame L K lbl pat items g h Hf eq_refl eq_refl)
              in H
        | H : all_linked ?l1 ?p1 ?ty ?l2 ?p2 g |- _ =>
            apply (all_linked_frame L K l1 p1 ty l2 p2 g h Hf eq_refl
                     eq_refl) in H
        end
  end.

Ltac push_ensure lbl' pat' g :=
  repeat match goal with
    | H : match_nodes ?lbl ?pat g ≠ [] |- _ =>
        rewrite <- (match_nodes_ensure lbl pat lbl' pat' g
                      (or_intror eq_refl)) in H
    | H : all_have ?lbl ?pat ?items g |- _ =>
        apply (all_have_ensure lbl pat items lbl' pat' g
                 (match_nodes_ensure lbl pat lbl' pat' g
                    (or_intror eq_refl))) in H
    | H : all_linked ?l1 ?p1 ?ty ?l2 ?p2 g |- _ =>
        apply (all_linked_ensure l1 p1 ty l2 p2 lbl' pat' g
                 (match_nodes_ensure l1 p1 lbl' pat' g (or_intror eq_refl))
                 (match_nodes_ensure l2 p2 lbl' pat' g (or_intror eq_refl)))
          in H
    end.

Section GraphWriterSettles.
Import GraphWriter.
Context {vector : Type}.
Implicit Types (g h : graph vector) (e : event vector).

Lemma matched_label lbl pat g :
  ∀ n (nd : node vector),
    n ∈ match_nodes lbl pat g → nodes g !! n = Some nd → label nd = lbl.
Proof.
  intros n nd (nd' & Hnd' & Hm)%elem_of_match_nodes Hnd.
  simplify_eq. by eapply node_matches_label.
Qed.

(** After [SET] on the nodes matching a pattern that the items leave
    alone, all of them have the items. *)
Lemma all_have_set_nodes lbl pat items ns g :
  distinct_keys items → untouched lbl pat.*1 lbl items.*1 = true →
  (∀ n, n ∈ ns ↔ n ∈ match_nodes lbl pat g) →
  frame lbl items.*1 g (set_nodes ns items g)
  ∧ all_have lbl pat items (set_nodes ns items g).
Proof.
  intros Hnd Hun Hns.
  assert (frame lbl items.*1 g (set_nodes ns items g)) as Hf.
  { apply frame_set_nodes. intros n nd Hn%Hns.
    by apply (matched_label lbl pat g). }
  split; [done|]. intros n k v Hn Hkv.
  rewrite (match_nodes_frame lbl items.*1 lbl pat g _ Hf Hun) in Hn.
  apply prop_at_set_nodes; [done..|]. left. split; [by apply Hns|].
  by eapply match_nodes_lt.
Qed.

(** After [MERGE] of relationships over pairs that cover two patterns, all
    matching pairs are linked. *)
Lemma all_linked_link_all lbl1 pat1 ty lbl2 pat2 pairs g :
  (∀ a b, a ∈ match_nodes lbl1 pat1 g → b ∈ match_nodes lbl2 pat2 g →
          (a, b) ∈ pairs) →
  all_linked lbl1 pat1 ty lbl2 pat2 (link_all pairs ty g).
Proof.
  intros Hcover a b Ha Hb.
  unfold match_nodes in Ha, Hb. rewrite link_all_nodes in Ha, Hb.
  apply elem_of_link_all. right. exists (a, b). split; [|done].
  apply Hcover; [exact Ha | exact Hb].
Qed.

Lemma match_nodes_link_all lbl pat pairs ty g :
  match_nodes lbl pat (link_all pairs ty g) = match_nodes lbl pat g.
Proof. unfold match_nodes. by rewrite link_all_nodes. Qed.

(** Writing [e] leaves a store in which [e] is written. *)
Lemma write_event_settles e g : settled e (write_event e g).
Proof.
  unfold write_event.
  (* first statement *)
  rewrite merge_actor_run.
  destruct (merge_node_result "Actor" [("id", actor_id e)] g
              (distinct_keys_1 _ _)) as [_ HA].
  set (g0 := ensure "Actor" [("id", actor_id e)] g) in *.
  destruct (all_have_set_nodes "Actor" [("id", actor_id e)]
              [("name", PStr <$> actor_name e)] _ g0
              (distinct_keys_1 _ _) eq_refl (fun n => reflexivity _))
    as [Hf HAn].
  set (gA := set_nodes _ _ g0) in *.
  push_frame Hf. clear Hf. clearbody gA. clear g0.
  (* second statement *)
  rewrite merge_stream_run.
  destruct (merge_node_result "Stream"
              [("id", stream_id e); ("source", source_value (source e))] gA
              (distinct_keys_2 "id" "source" _ _ ltac:(done))) as [_ HS].
  push_ensure "Stream"
    [("id", stream_id e); ("source", source_value (source e))] gA.
  set (gB := ensure "Stream" _ gA) in *. clearbody gB. clear gA.
  (* third statement *)
  destruct (merge_message_run e gB) as (ns & p1 & p2 & Hrun & Hns & Hp1 & Hp2).
  cbv zeta in *. rewrite Hrun. clear Hrun.
  destruct (merge_node_result "Message" [("id", event_id e)] gB
              (distinct_keys_1 _ _)) as [_ HM].
  push_ensure "Message" [("id", event_id e)] gB.
  set (g1 := ensure "Message" [("id", event_id e)] gB) in *.
  clearbody g1. clear gB. subst ns.
  destruct (all_have_set_nodes "Message" [("id", event_id e)]
              (message_items e) (match_nodes "Message" [("id", event_id e)] g1)
              g1) as [Hf HMi].
  { unfold message_items, distinct_keys. simpl.
    repeat (apply NoDup_cons; split;
            [rewrite ?not_elem_of_cons; repeat split;
               (done || by intros ?%elem_of_nil)|]).
    apply NoDup_nil_2. }
  { reflexivity. }
  { done. }
  unfold message_items in Hf, HMi at 1. fold (message_items e) in HMi.
  set (g2 := set_nodes _ _ g1) in *.
  assert (match_nodes "Message" [("id", event_id e)] g2
          = match_nodes "Message" [("id", event_id e)] g1) as HMs
    by (by apply (match_nodes_frame _ _ _ _ _ _ Hf)).
  rewrite <- HMs in Hp1, Hp2. push_frame Hf. clear Hf HMs.
  clearbody g2. clear g1.
  assert (all_linked "Actor" [("id", actor_id e)] "PRODUCED"
            "Message" [("id", event_id e)] (link_all p1 "PRODUCED" g2))
    as HP.
  { apply all_linked_link_all. intros a m Ha Hm. by apply Hp1. }
  pose proof (frame_link_all "" [] p1 "PRODUCED" g2) as Hf.
  set (g3 := link_all p1 "PRODUCED" g2) in *.
  assert (match_nodes "Message" [("id", event_id e)] g3
          = match_nodes "Message" [("id", event_id e)] g2) as HMs
    by apply match_nodes_link_all.
  assert (match_nodes "Actor" [("id", actor_id e)] g3
          = match_nodes "Actor" [("id", actor_id e)] g2) as HAs
    by apply match_nodes_link_all.
  rewrite <- HMs, <- HAs in Hp2. push_frame Hf. clear Hf HMs HAs Hp1.
  clearbody g3. clear g2.
  assert (all_linked "Stream" [("id", stream_id e)] "HAS_EVENT"
            "Message" [("id", event_id e)] (link_all p2 "HAS_EVENT" g3))
    as HH.
  { apply all_linked_link_all. intros s m Hs Hm. by apply Hp2. }
  pose proof (frame_link_all "" [] p2 "HAS_EVENT" g3) as Hf.
  set (gC := link_all p2 "HAS_EVENT" g3) in *.
  push_frame Hf. clear Hf Hp2. clearbody gC. clear g3.
  (* fourth statement *)
  destruct (parent_event_id e) as [parent|] eqn:Ep.
  - destruct (str_truthy parent) eqn:Et.
    + destruct (merge_reply_run parent e gC) as (p & -> & Hp).
      assert (all_linked "Message" [("id", event_id e)] "REPLIES_TO"
                "Message" [("id", parent)] (link_all p "REPLIES_TO" gC))
        as HR.
      { apply all_linked_link_all. intros c q Hc Hq. by apply Hp. }
      pose proof (frame_link_all "" [] p "REPLIES_TO" gC) as Hf.
      set (gD := link_all p "REPLIES_TO" gC) in *.
      push_frame Hf. repeat split; try done.
      intros parent' Hp' _. rewrite Ep in Hp'. by injection Hp' as <-.
    + repeat split; try done.
      intros parent' Hp'. rewrite Ep in Hp'. injection Hp' as <-.
      by rewrite Et.
  - repeat split; try done. intros parent' Hp'. by rewrite Ep in Hp'.
Qed.

End GraphWriterSettles.

(** ** [write_batch] of the Benchmark *)

Section BenchmarkRuns.
Import Benchmark.
Context {vector : Type}.
Implicit Types (g h : graph vector) (r : row vector).

Lemma link_all_app p1 p2 ty g :
  link_all (p1 ++ p2) ty g = link_all p2 ty (link_all p1 ty g).
Proof. unfold link_all. by rewrite foldl_app. Qed.

Lemma ensure_ensure lbl pat g :
  distinct_keys pat → ensure lbl pat (ensure lbl pat g) = ensure lbl pat g.
Proof.
  intros Hnd. apply ensure_noop. by apply merge_node_result.
Qed.

Lemma reply_step_run r parent g vs :
  reply_step r parent g vs
  = link_all
      (bound2 "p" "m"
         (extend "p"
            (match_nodes "Message" [("id", parent)]
               (ensure "Message" [("id", parent)] g)) [vs]))
      "REPLIED_TO" (ensure "Message" [("id", parent)] g).
Proof.
  unfold reply_step, run_clauses. cbn [foldl].
  rewrite clause_merge by (done || apply distinct_keys_1).
  by rewrite clause_merge_rel.
Qed.

Lemma reply_pairs (ps : list nat) vs q m :
  (q, m) ∈ bound2 "p" "m" (extend "p" ps [vs])
  ↔ q ∈ ps ∧ assoc "m" vs = Some m.
Proof.
  rewrite elem_of_bound2. cbn [fst snd]. split.
  - intros (vs' & (vs0 & q' & ->%list_elem_of_singleton & Hq & ->)
                  %elem_of_extend & Hp & Hm).
    simpl in Hp, Hm. by simplify_eq.
  - intros [Hq Hm]. exists (("p", q) :: vs). split; [|done].
    apply elem_of_extend. exists vs, q. by rewrite list_elem_of_singleton.
Qed.

(** The [FOREACH] over the rows, for a reply: the parent is found or
    created once, then every parent found is linked to the message of
    every row. *)
Lemma reply_stage_run r parent g vss :
  vss ≠ [] →
  ∃ pr : list (nat * nat),
    foldl (reply_step r parent) g vss
    = link_all pr "REPLIED_TO" (ensure "Message" [("id", parent)] g)
    ∧ ∀ q m, (q, m) ∈ pr ↔
        q ∈ match_nodes "Message" [("id", parent)]
              (ensure "Message" [("id", parent)] g)
        ∧ m ∈ bound "m" vss.
Proof.
  intros Hne.
  assert (∀ vss' h,
            match_nodes "Message" [("id", parent)] h ≠ [] →
            ∃ pr, foldl (reply_step r parent) h vss'
                  = link_all pr "REPLIED_TO" h
                  ∧ ∀ q m, (q, m) ∈ pr ↔
                      q ∈ match_nodes "Message" [("id", parent)] h
                      ∧ m ∈ bound "m" vss') as Hfound.
  { induction vss' as [|vs vss' IH]; intros h Hh.
    - exists []. split; [done|]. intros q m. split.
      + by intros ?%elem_of_nil.
      + by intros [_ ?%elem_of_nil].
    - cbn [foldl]. rewrite reply_step_run, ensure_noop by done.
      set (p0 := bound2 "p" "m" (extend "p" (match_nodes _ _ h) [vs])).
      destruct (IH (link_all p0 "REPLIED_TO" h)) as (pr & -> & Hpr).
      { by rewrite match_nodes_link_all. }
      exists (p0 ++ pr). split; [by rewrite link_all_app|].
      intros q m. rewrite elem_of_app, Hpr, match_nodes_link_all.
      unfold p0. rewrite reply_pairs, !elem_of_bound. split.
      + intros [[Hq Hm]|[Hq (vs' & ? & ?)]].
        * split; [done|]. exists vs. split; [left | done].
        * split; [done|]. exists vs'. split; [by right | done].
      + intros [Hq (vs' & [->|Hin]%elem_of_cons & Hm)]; [by left|].
        right. split; [done|]. eauto. }
  destruct vss as [|vs vss]; [done|].
  destruct (Hfound (vs :: vss) (ensure "Message" [("id", parent)] g))
    as (pr & Hrun & Hpr).
  { by apply merge_node_result, distinct_keys_1. }
  exists pr. split; [|done]. rewrite <- Hrun. cbn [foldl]. f_equal.
  rewrite !reply_step_run. by rewrite ensure_ensure by apply distinct_keys_1.
Qed.

Lemma foldl_unchanged {A B} (l : list B) (a : A) :
  foldl (fun a _ => a) a l = a.
Proof. induction l as [|x l IH]; [done|]. apply IH. Qed.

(** The statement of [write_batch] on a batch of one row, as operations on
    the store. *)
Lemma write_batch_run r g :
  ∃ (nu nm : list nat) (p1 p2 : list (nat * nat)),
    let g1 := ensure "Group" [("id", group_id r)] g in
    let g2 := ensure "User" [("id", user_id r)] g1 in
    let g3 := set_nodes nu [("name", Some (PStr (user_name r)))] g2 in
    let g4 := ensure "Message" [("id", message_id r)] g3 in
    let g5 := set_nodes nm (message_items r) g4 in
    let g6 := link_all p1 "SENT" g5 in
    let g7 := link_all p2 "IN_GROUP" g6 in
    (∀ n, n ∈ nu ↔ n ∈ match_nodes "User" [("id", user_id r)] g2)
    ∧ (∀ n, n ∈ nm ↔ n ∈ match_nodes "Message" [("id", message_id r)] g4)
    ∧ (∀ u m, (u, m) ∈ p1 ↔
         u ∈ match_nodes "User" [("id", user_id r)] g2
         ∧ m ∈ match_nodes "Message" [("id", message_id r)] g4)
    ∧ (∀ m x, (m, x) ∈ p2 ↔
         m ∈ match_nodes "Message" [("id", message_id r)] g4
         ∧ x ∈ match_nodes "Group" [("id", group_id r)] g1)
    ∧ match parent_id r with
      | None => write_batch [r] g = g7
      | Some parent =>
          ∃ pr : list (nat * nat),
            write_batch [r] g
            = link_all pr "REPLIED_TO"
                (ensure "Message" [("id", parent)] g7)
            ∧ ∀ q m, (q, m) ∈ pr ↔
                q ∈ match_nodes "Message" [("id", parent)]
                      (ensure "Message" [("id", parent)] g7)
                ∧ m ∈ match_nodes "Message" [("id", message_id r)] g4
      end.
Proof.
  unfold write_batch. rewrite run_query_rows. unfold write_batch_query.
  cbn [foldl].
  rewrite stmt_merge by (done || apply distinct_keys_1).
  set (g1 := ensure "Group" [("id", group_id r)] g).
  set (Gs := match_nodes "Group" [("id", group_id r)] g1).
  assert (Gs ≠ []) as HGs by (by apply merge_node_result, distinct_keys_1).
  rewrite stmt_merge
    by (apply distinct_keys_1 || by apply extend_nonempty).
  set (g2 := ensure "User" [("id", user_id r)] g1).
  set (Us := match_nodes "User" [("id", user_id r)] g2).
  assert (Us ≠ []) as HUs by (by apply merge_node_result, distinct_keys_1).
  set (T2 := extend "u" Us (extend "g" Gs [[]])).
  assert (T2 ≠ []) as HT2ne by (by repeat apply extend_nonempty).
  rewrite stmt_set.
  rewrite stmt_merge by (apply distinct_keys_1 || done).
  set (g3 := set_nodes (bound "u" T2) _ g2).
  set (g4 := ensure "Message" [("id", message_id r)] g3).
  set (Ms := match_nodes "Message" [("id", message_id r)] g4).
  assert (Ms ≠ []) as HMs by (by apply merge_node_result, distinct_keys_1).
  set (T3 := extend "m" Ms T2).
  assert (T3 ≠ []) as HT3ne by (by apply extend_nonempty).
  rewrite stmt_set, !stmt_merge_rel, stmt_foreach. cbn [fst].
  set (g5 := set_nodes (bound "m" T3) _ g4).
  set (g6 := link_all (bound2 "u" "m" T3) "SENT" g5).
  set (g7 := link_all (bound2 "m" "g" T3) "IN_GROUP" g6).
  assert (∀ vs, vs ∈ T2 ↔
            ∃ x u, x ∈ Gs ∧ u ∈ Us ∧ vs = [("u", u); ("g", x)]) as HT2.
  { intros vs. unfold T2. rewrite elem_of_extend. split.
    - intros (vs0 & u & (vs1 & x & ->%list_elem_of_singleton & Hx & ->)
                         %elem_of_extend & Hu & ->). by exists x, u.
    - intros (x & u & Hx & Hu & ->). exists [("g", x)], u.
      split; [|done]. apply elem_of_extend. exists [], x.
      by rewrite list_elem_of_singleton. }
  assert (∀ vs, vs ∈ T3 ↔
            ∃ x u m, x ∈ Gs ∧ u ∈ Us ∧ m ∈ Ms
                     ∧ vs = [("m", m); ("u", u); ("g", x)]) as HT3.
  { intros vs. unfold T3. rewrite elem_of_extend. split.
    - intros (vs0 & m & (x & u & Hx & Hu & ->)%HT2 & Hm & ->).
      by exists x, u, m.
    - intros (x & u & m & Hx & Hu & Hm & ->). exists [("u", u); ("g", x)], m.
      split; [|done]. apply HT2. by exists x, u. }
  assert (∀ l : list nat, l ≠ [] → ∃ x, x ∈ l) as Hex.
  { intros [|x l] Hl; [done|]. exists x. left. }
  destruct (Hex Gs HGs) as [x0 Hx0]. destruct (Hex Us HUs) as [u0 Hu0].
  assert (∀ m, m ∈ bound "m" T3 ↔ m ∈ Ms) as Hbm.
  { intros m. rewrite elem_of_bound. split.
    - intros (vs & (x & u & m' & Hx & Hu & Hm & ->)%HT3 & Hv).
      simpl in Hv. by simplify_eq.
    - intros Hm. exists [("m", m); ("u", u0); ("g", x0)]. split; [|done].
      apply HT3. by exists x0, u0, m. }
  exists (bound "u" T2), (bound "m" T3), (bound2 "u" "m" T3),
    (bound2 "m" "g" T3).
  cbv zeta. fold g1 g2 g3 g4 g5 g6 g7. fold Gs Us Ms.
  split; [|split; [|split; [|split]]].
  - intros n. rewrite elem_of_bound. split.
    + intros (vs & (x & u & Hx & Hu & ->)%HT2 & Hv).
      simpl in Hv. by simplify_eq.
    + intros Hn. exists [("u", n); ("g", x0)]. split; [|done].
      apply HT2. by exists x0, n.
  - exact Hbm.
  - intros u m. rewrite elem_of_bound2. cbn [fst snd]. split.
    + intros (vs & (x & u' & m' & Hx & Hu & Hm & ->)%HT3 & Hv1 & Hv2).
      simpl in Hv1, Hv2. by simplify_eq.
    + intros [Hu Hm]. exists [("m", m); ("u", u); ("g", x0)].
      split; [|done]. apply HT3. by exists x0, u, m.
  - intros m x. rewrite elem_of_bound2. cbn [fst snd]. split.
    + intros (vs & (x' & u' & m' & Hx & Hu & Hm & ->)%HT3 & Hv1 & Hv2).
      simpl in Hv1, Hv2. by simplify_eq.
    + intros [Hm Hx]. exists [("m", m); ("u", u0); ("g", x)].
      split; [|done]. apply HT3. by exists x, u0, m.
  - destruct (parent_id r) as [parent|]; cbn [option_list].
    + destruct (reply_stage_run r parent g7 T3 HT3ne) as (pr & Hrun & Hpr).
      exists pr. split; [exact Hrun|]. intros q m. by rewrite Hpr, Hbm.
    + apply foldl_unchanged.
Qed.

End BenchmarkRuns.

Section BenchmarkIdempotent.
Import Benchmark.
Context {vector : Type}.
Implicit Types (g h : graph vector) (r : row vector).

(** On a store in which [r] is written, writing [r] changes nothing. *)
Lemma write_batch_settled r g : settled r g → write_batch [r] g = g.
Proof.
  intros (HG & HU & HUn & HM & HMi & HS & HI & HR).
  destruct (write_batch_run r g)
    as (nu & nm & p1 & p2 & Hnu & Hnm & Hp1 & Hp2 & Hfin).
  cbv zeta in *. rewrite (ensure_noop "Group") in * by done.
  rewrite (ensure_noop "User") in * by done.
  assert (set_nodes nu [("name", Some (PStr (user_name r)))] g = g) as Hset1.
  { apply set_nodes_noop. intros n k v Hn%Hnu Hkv _. by apply HUn. }
  rewrite Hset1 in *. rewrite (ensure_noop "Message") in * by done.
  assert (set_nodes nm (message_items r) g = g) as Hset2.
  { apply set_nodes_noop. intros n k v Hn%Hnm Hkv _. by apply HMi. }
  rewrite Hset2 in *.
  assert (link_all p1 "SENT" g = g) as Hl1.
  { apply link_all_noop. intros [u m] [Hu Hm]%Hp1. by apply HS. }
  rewrite Hl1 in *.
  assert (link_all p2 "IN_GROUP" g = g) as Hl2.
  { apply link_all_noop. intros [m x] [Hm Hx]%Hp2. by apply HI. }
  rewrite Hl2 in *.
  destruct (parent_id r) as [parent|] eqn:Ep; [|done].
  destruct Hfin as (pr & -> & Hpr). destruct (HR parent eq_refl) as [HP HL].
  rewrite (ensure_noop "Message" [("id", parent)]) in * by done.
  apply link_all_noop. intros [q m] [Hq Hm]%Hpr. by apply HL.
Qed.

(** A [MERGE] on another id leaves the nodes of an id that has some. *)
Lemma match_nodes_ensure_id lbl (a b : string) g :
  match_nodes lbl [("id", a)] g ≠ [] →
  match_nodes lbl [("id", a)] (ensure lbl [("id", b)] g)
  = match_nodes lbl [("id", a)] g.
Proof.
  intros Hne. destruct (decide (a = b)) as [->|Hab].
  - by rewrite ensure_noop.
  - apply match_nodes_ensure. right. unfold node_matches. simpl.
    rewrite String.eqb_refl. simpl. unfold has_str. simpl.
    rewrite lookup_insert_eq. rewrite andb_true_r.
    apply String.eqb_neq. congruence.
Qed.

(** Writing [r] leaves a store in which [r] is written. *)
Lemma write_batch_settles r g : settled r (write_batch [r] g).
Proof.
  destruct (write_batch_run r g)
    as (nu & nm & p1 & p2 & Hnu & Hnm & Hp1 & Hp2 & Hfin).
  cbv zeta in *.
  (* MERGE (g:Group) *)
  destruct (merge_node_result "Group" [("id", group_id r)] g
              (distinct_keys_1 _ _)) as [_ HG].
  set (g1 := ensure "Group" [("id", group_id r)] g) in *.
  clearbody g1.
  (* MERGE (u:User) SET u.name *)
  destruct (merge_node_result "User" [("id", user_id r)] g1
              (distinct_keys_1 _ _)) as [_ HU].
  assert (match_nodes "Group" [("id", group_id r)]
            (ensure "User" [("id", user_id r)] g1)
          = match_nodes "Group" [("id", group_id r)] g1) as HGs
    by (by apply match_nodes_ensure; right).
  rewrite <- HGs in Hp2. clear HGs.
  push_ensure "User" [("id", user_id r)] g1.
  set (g2 := ensure "User" [("id", user_id r)] g1) in *. clearbody g2.
  destruct (all_have_set_nodes "User" [("id", user_id r)]
              [("name", Some (PStr (user_name r)))] nu g2
              (distinct_keys_1 _ _) eq_refl Hnu) as [Hf HUn].
  set (g3 := set_nodes nu _ g2) in *.
  rewrite <- (match_nodes_frame _ _ "User" [("id", user_id r)] g2 g3 Hf
                eq_refl) in Hp1.
  rewrite <- (match_nodes_frame _ _ "Group" [("id", group_id r)] g2 g3 Hf
                eq_refl) in Hp2.
  push_frame Hf. clear Hf Hnu. clearbody g3.
  (* MERGE (m:Message) SET ... *)
  destruct (merge_node_result "Message" [("id", message_id r)] g3
              (distinct_keys_1 _ _)) as [_ HM].
  rewrite <- (match_nodes_ensure "User" [("id", user_id r)]
                "Message" [("id", message_id r)] g3 (or_intror eq_refl))
    in Hp1.
  rewrite <- (match_nodes_ensure "Group" [("id", group_id r)]
                "Message" [("id", message_id r)] g3 (or_intror eq_refl))
    in Hp2.
  push_ensure "Message" [("id", message_id r)] g3.
  set (g4 := ensure "Message" [("id", message_id r)] g3) in *. clearbody g4.
  destruct (all_have_set_nodes "Message" [("id", message_id r)]
              (message_items r) nm g4) as [Hf HMi]; [|reflexivity|done|].
  { unfold message_items, distinct_keys. simpl.
    repeat (apply NoDup_cons; split;
            [rewrite ?not_elem_of_cons; repeat split;
               (done || by intros ?%elem_of_nil)|]).
    apply NoDup_nil_2. }
  set (g5 := set_nodes nm _ g4) in *.
  unfold message_items in Hf at 1.
  assert (∀ lbl (x : string),
            match_nodes lbl [("id", x)] g5 = match_nodes lbl [("id", x)] g4)
    as Hsame.
  { intros lbl x. apply (match_nodes_frame _ _ _ _ _ _ Hf).
    unfold untouched. simpl. apply orb_true_r. }
  rewrite <- (Hsame "User" (user_id r)),
    <- (Hsame "Message" (message_id r)) in Hp1.
  rewrite <- (Hsame "Group" (group_id r)),
    <- (Hsame "Message" (message_id r)) in Hp2.
  rewrite <- (Hsame "Message" (message_id r)) in Hfin.
  push_frame Hf. clear Hf Hnm.
  clearbody g5.
  (* MERGE (u)-[:SENT]->(m), MERGE (m)-[:IN_GROUP]->(g) *)
  assert (all_linked "User" [("id", user_id r)] "SENT"
            "Message" [("id", message_id r)] (link_all p1 "SENT" g5)) as HS.
  { apply all_linked_link_all. intros u m Hu Hm. by apply Hp1. }
  pose proof (frame_link_all "" [] p1 "SENT" g5) as Hf.
  set (g6 := link_all p1 "SENT" g5) in *.
  assert (∀ lbl pat, match_nodes lbl pat g6 = match_nodes lbl pat g5)
    as Hsame6 by (intros; apply match_nodes_link_all).
  rewrite <- (Hsame6 "Group"), <- (Hsame6 "Message") in Hp2.
  rewrite <- (Hsame6 "Message") in Hfin.
  push_frame Hf. clear Hf Hp1 Hsame6.
  clearbody g6.
  assert (all_linked "Message" [("id", message_id r)] "IN_GROUP"
            "Group" [("id", group_id r)] (link_all p2 "IN_GROUP" g6)) as HI.
  { apply all_linked_link_all. intros m x Hm Hx. by apply Hp2. }
  pose proof (frame_link_all "" [] p2 "IN_GROUP" g6) as Hf.
  set (g7 := link_all p2 "IN_GROUP" g6) in *.
  assert (∀ lbl pat, match_nodes lbl pat g7 = match_nodes lbl pat g6)
    as Hsame7 by (intros; apply match_nodes_link_all).
  rewrite <- (Hsame7 "Message" [("id", message_id r)]) in Hfin.
  push_frame Hf. clear Hf Hp2 Hsame7 Hsame.
  clearbody g7.
  (* FOREACH *)
  destruct (parent_id r) as [parent|] eqn:Ep.
  - destruct Hfin as (pr & -> & Hpr).
    destruct (merge_node_result "Message" [("id", parent)] g7
                (distinct_keys_1 _ _)) as [_ HP].
    pose proof (match_nodes_ensure_id "Message" (message_id r) parent g7 HM)
      as HMs.
    rewrite <- HMs in Hpr.
    apply (all_have_ensure _ _ _ "Message" [("id", parent)] g7 HMs) in HMi.
    apply (all_linked_ensure _ _ _ _ _ "Message" [("id", parent)] g7
             (match_nodes_ensure "User" [("id", user_id r)]
                "Message" [("id", parent)] g7 (or_intror eq_refl)) HMs)
      in HS.
    apply (all_linked_ensure _ _ _ _ _ "Message" [("id", parent)] g7 HMs
             (match_nodes_ensure "Group" [("id", group_id r)]
                "Message" [("id", parent)] g7 (or_intror eq_refl))) in HI.
    rewrite <- HMs in HM. clear HMs.
    push_ensure "Message" [("id", parent)] g7.
    set (g8 := ensure "Message" [("id", parent)] g7) in *. clearbody g8.
    assert (all_linked "Message" [("id", parent)] "REPLIED_TO"
              "Message" [("id", message_id r)]
              (link_all pr "REPLIED_TO" g8)) as HL.
    { apply all_linked_link_all. intros q m Hq Hm. by apply Hpr. }
    pose proof (frame_link_all "" [] pr "REPLIED_TO" g8) as Hf.
    set (g9 := link_all pr "REPLIED_TO" g8) in *.
    push_frame Hf. repeat split; try done.
    all: by simplify_eq.
  - rewrite Hfin. repeat split; try done.
    all: by simplify_eq.
Qed.

End BenchmarkIdempotent.

(** ** The claims about the writers *)

Section WriterClaims.
Import Examples.

(** C1. Re-ingestion is idempotent: for every event and every store,
    writing the event twice leaves the store that writing it once leaves;
    no node and no edge is added by the second write. For [GraphWriter]
    ([ingest] of the event twice and once) and for [write_batch] of the
    Benchmark (a batch of the row, twice and once). *)
Theorem reingestion_idempotent {vector : Type} :
  (∀ (e : GraphWriter.event vector) (g : graph vector),
     GraphWriter.ingest [e; e] g = GraphWriter.ingest [e] g)
  ∧ (∀ (r : Benchmark.row vector) (g : graph vector),
       Benchmark.write_batch [r] (Benchmark.write_batch [r] g)
       = Benchmark.write_batch [r] g).
Proof.
  split.
  - intros e g. unfold GraphWriter.ingest. simpl.
    apply write_event_settled, write_event_settles.
  - intros r g. apply write_batch_settled, write_batch_settles.
Qed.

(** C3 (as stated) fails: [M1] written again with another body has the
    new body, in both writers; and [M1] written again without an embedding
    loses the vector it had. *)
Lemma first_write_wins_counterexample :
  let g1 := GraphWriter.write_event stream_parent empty_graph in
  let h1 := Benchmark.write_batch [row_parent] empty_graph in
  match_nodes "Message" [("id", "M1")] g1 = [2%nat]
  ∧ match_nodes "Message" [("id", "M1")] h1 = [2%nat]
  ∧ prop_at g1 2 "body" = Some (PStr "Lunch at noon?")
  ∧ prop_at (GraphWriter.write_event stream_parent_edited g1) 2 "body"
    = Some (PStr "Lunch at one?")
  ∧ prop_at h1 2 "body" = Some (PStr "Lunch at noon?")
  ∧ prop_at (Benchmark.write_batch [row_parent_edited] h1) 2 "body"
    = Some (PStr "Lunch at one?")
  ∧ prop_at g1 2 "embedding" = Some (PVec [1; 2]%Z)
  ∧ prop_at (GraphWriter.write_event stream_parent_bare g1) 2 "embedding"
    = None
  ∧ prop_at h1 2 "embedding" = Some (PVec [1; 2]%Z)
  ∧ prop_at (Benchmark.write_batch [row_parent_bare] h1) 2 "embedding"
    = None.
Proof. by vm_compute. Qed.

(** C4 (the code departs from it). [M1] then its reply [M2] through
    [write_batch] of the Benchmark: the one reply edge goes from the
    parent [M1] to the child [M2]. Through [GraphWriter] and through
    [write_batch] of the ingestion script the same two messages give an
    edge from the child to the parent. *)
Theorem benchmark_reply_edge_reversed :
  let h := Benchmark.write_batch [row_reply]
             (Benchmark.write_batch [row_parent] empty_graph) in
  let g := GraphWriter.ingest [stream_parent; stream_reply] empty_graph in
  let k := Ingestion.write_batch ingested_reply
             (Ingestion.write_batch ingested_parent empty_graph) in
  match_nodes "Message" [("id", "M1")] h = [2%nat]
  ∧ match_nodes "Message" [("id", "M2")] h = [4%nat]
  ∧ edges_of_type "REPLIED_TO" h = [(2%nat, "REPLIED_TO", 4%nat)]
  ∧ match_nodes "Message" [("id", "M1")] g = [2%nat]
  ∧ match_nodes "Message" [("id", "M2")] g = [4%nat]
  ∧ edges_of_type "REPLIES_TO" g = [(4%nat, "REPLIES_TO", 2%nat)]
  ∧ match_nodes "Message" [("id", "M1")] k = [2%nat]
  ∧ match_nodes "Message" [("id", "M2")] k = [4%nat]
  ∧ edges_of_type "REPLY_TO" k = [(4%nat, "REPLY_TO", 2%nat)].
Proof. by vm_compute. Qed.

(** C5 (the code departs from it). The reply [M2] written by
    [GraphWriter] before its parent [M1]: no node is created for [M1] and
    no reply edge is written; when [M1] is written afterwards the store
    still has no reply edge. [write_batch] of the Benchmark, on the same
    messages, creates a node for [M1] with the id alone and an edge, and
    the later write of [M1] fills that node. *)
Theorem graph_writer_no_placeholder :
  let g1 := GraphWriter.write_event stream_reply empty_graph in
  let g2 := GraphWriter.write_event stream_parent g1 in
  let h1 := Benchmark.write_batch [row_reply] empty_graph in
  let h2 := Benchmark.write_batch [row_parent] h1 in
  match_nodes "Message" [("id", "M1")] g1 = []
  ∧ edges_of_type "REPLIES_TO" g1 = []
  ∧ match_nodes "Message" [("id", "M1")] g2 = [4%nat]
  ∧ edges_of_type "REPLIES_TO" g2 = []
  ∧ match_nodes "Message" [("id", "M1")] h1 = [3%nat]
  ∧ prop_at h1 3 "body" = None
  ∧ edges_of_type "REPLIED_TO" h1 = [(3%nat, "REPLIED_TO", 2%nat)]
  ∧ match_nodes "Message" [("id", "M1")] h2 = [3%nat]
  ∧ prop_at h2 3 "body" = Some (PStr "Lunch at noon?").
Proof. by vm_compute. Qed.

End WriterClaims.

(** ** [normalize_url] *)

Section UrlFacts.
Import Url.

Lemma endswith_spec s suf : endswith s suf = true ↔ ∃ p, s = p +:+ suf.
Proof.
  induction s as [|c s IH]; cbn [endswith].
  - rewrite orb_false_r, String.eqb_eq. split.
    + intros <-. by exists EmptyString.
    + intros [p Hp]. destruct p; simpl in Hp; [done|discriminate].
  - rewrite orb_true_iff, String.eqb_eq, IH. split.
    + intros [<-|[p ->]]; [by exists EmptyString|by exists (String c p)].
    + intros [p Hp]. destruct p as [|d p]; simpl in Hp.
      * by left.
      * right. exists p. by injection Hp.
Qed.

Lemma length_append (a b : string) :
  String.length (a +:+ b) = (String.length a + String.length b)%nat.
Proof. induction a as [|c a IH]; simpl; [done|]. by rewrite IH. Qed.

Lemma append_inj_r (a b c : string) : a +:+ c = b +:+ c → a = b.
Proof.
  revert b. induction a as [|x a IH]; intros [|y b] H; simpl in *.
  - done.
  - apply (f_equal String.length) in H. cbn [String.length] in H.
    change (String y b +:+ c) with (String y (b +:+ c)) in H.
    cbn [String.length] in H. rewrite !length_append in H. simpl in H. lia.
  - apply (f_equal String.length) in H.
    change (String x a +:+ c) with (String x (a +:+ c)) in H.
    cbn [String.length] in H. rewrite !length_append in H. simpl in H. lia.
  - injection H as -> H. f_equal. by apply IH.
Qed.

Lemma append_snoc_inv (a b : string) (c d : ascii) :
  a +:+ str1 c = b +:+ str1 d → a = b ∧ c = d.
Proof.
  revert b. induction a as [|x a IH]; intros [|y b] H; simpl in *.
  - by injection H.
  - injection H as -> H. destruct b; discriminate.
  - injection H as -> H. destruct a; discriminate.
  - injection H as -> H. destruct (IH _ H) as [-> ->]. done.
Qed.

Lemma endswith_slash_snoc s : endswith (s +:+ "/") "/" = true.
Proof. apply endswith_spec. by exists s. Qed.

Lemma endswith_app s t suf : endswith t suf = true → endswith (s +:+ t) suf = true.
Proof.
  rewrite !endswith_spec. intros [p ->]. exists (s +:+ p).
  by rewrite append_assoc.
Qed.

(** A tail of [s/] is [v1/] exactly when a tail of [s] is [v1]. *)
Lemma endswith_v1_slash s :
  endswith (s +:+ "/") "v1/" = endswith s "v1".
Proof.
  apply eq_true_iff_eq. rewrite !endswith_spec. split.
  - intros [p Hp]. exists p.
    change "v1/" with ("v1" +:+ "/") in Hp. rewrite <- append_assoc in Hp.
    by apply append_inj_r in Hp.
  - intros [p ->]. exists p. by rewrite append_assoc.
Qed.

(** A string that ends with [v1] does not end with [/]. *)
Lemma endswith_v1_not_slash s :
  endswith s "v1" = true → endswith s "/" = false.
Proof.
  intros [p ->]%endswith_spec. apply not_true_is_false.
  intros [q Hq]%endswith_spec.
  change "v1" with ("v" +:+ str1 "1") in Hq. rewrite <- append_assoc in Hq.
  change "/" with (str1 "/") in Hq.
  by apply append_snoc_inv in Hq as [_ ?].
Qed.

Lemma endswith_v1_slash_slash s :
  endswith s "v1/" = true → endswith s "/" = true.
Proof.
  intros [p ->]%endswith_spec. apply endswith_spec. exists (p +:+ "v1").
  by rewrite append_assoc.
Qed.

Lemma append_empty_r (a b : string) : a +:+ b = a → b = EmptyString.
Proof.
  intros H. apply (f_equal String.length) in H. rewrite length_append in H.
  destruct b; [done|simpl in H; lia].
Qed.

(** The four cases of [normalize_url]. *)
Lemma normalize_url_cases url :
  normalize_url url =
    if endswith url "v1/" then url
    else if endswith url "/" then url +:+ "v1"
    else if endswith url "v1" then url +:+ "/"
    else url +:+ "/v1".
Proof.
  unfold normalize_url.
  destruct (endswith url "/") eqn:Hs; simpl.
  - by destruct (endswith url "v1/").
  - rewrite endswith_v1_slash.
    destruct (endswith url "v1/") eqn:H3.
    { apply endswith_v1_slash_slash in H3. congruence. }
    destruct (endswith url "v1"); simpl; [done|].
    by rewrite append_assoc.
Qed.

End UrlFacts.

Section UrlSpec.
Import Url.

(** X1. [normalize_url] only appends: the result is the URL followed by
    nothing, a slash, [v1] or [/v1]; it ends with [/v1] or with [v1/]; and
    it is the URL itself exactly when the URL already ends with [v1/]. *)
Theorem normalize_url_appends (url : string) :
  (∃ suffix, suffix ∈ [EmptyString; "/"; "v1"; "/v1"]
             ∧ normalize_url url = url +:+ suffix)
  ∧ (endswith (normalize_url url) "/v1" = true
     ∨ endswith (normalize_url url) "v1/" = true)
  ∧ (normalize_url url = url ↔ endswith url "v1/" = true).
Proof.
  rewrite normalize_url_cases.
  destruct (endswith url "v1/") eqn:H3.
  { split; [|split; [by right|done]].
    exists EmptyString. split; [set_solver|].
    clear. induction url as [|c u IH]; [done|].
    rewrite append_cons. by f_equal. }
  destruct (endswith url "/") eqn:H1.
  { split; [|split].
    - exists "v1". split; [set_solver|done].
    - left. apply endswith_spec in H1 as [p ->].
      apply endswith_spec. exists p. by rewrite append_assoc.
    - split; [|done]. by intros ?%append_empty_r. }
  destruct (endswith url "v1") eqn:H2.
  { split; [|split].
    - exists "/". split; [set_solver|done].
    - right. by rewrite endswith_v1_slash.
    - split; [|done]. by intros ?%append_empty_r. }
  split; [|split].
  - exists "/v1". split; [set_solver|done].
  - left. apply endswith_spec. by exists url.
  - split; [|done]. by intros ?%append_empty_r.
Qed.

(** X2. [normalize_url] is not idempotent but settles at the second
    application: applied twice it gives a URL that ends with [v1/], which a
    third application leaves alone; a URL that ends with a slash but not
    with [v1/] first gets [v1], then [v1/]. *)
Theorem normalize_url_settles (url : string) :
  endswith (normalize_url (normalize_url url)) "v1/" = true
  ∧ normalize_url (normalize_url (normalize_url url))
    = normalize_url (normalize_url url)
  ∧ (endswith url "/" = true → endswith url "v1/" = false →
       normalize_url url = url +:+ "v1"
       ∧ normalize_url (normalize_url url) = url +:+ "v1/"
       ∧ normalize_url (normalize_url url) ≠ normalize_url url).
Proof.
  assert (Hfix : ∀ u, endswith u "v1/" = true → normalize_url u = u).
  { intros u Hu. by rewrite normalize_url_cases, Hu. }
  assert (Hv1 : ∀ u, endswith u "v1" = true
                     → normalize_url u = u +:+ "/").
  { intros u Hu. rewrite normalize_url_cases, Hu.
    pose proof (endswith_v1_not_slash _ Hu) as Hs. rewrite Hs.
    destruct (endswith u "v1/") eqn:H3; [|done].
    apply endswith_v1_slash_slash in H3. congruence. }
  assert (Htwice : endswith (normalize_url (normalize_url url)) "v1/" = true).
  { rewrite (normalize_url_cases url).
    destruct (endswith url "v1/") eqn:H3; [by rewrite Hfix|].
    destruct (endswith url "/") eqn:H1.
    { rewrite Hv1; [|by apply endswith_app].
      rewrite endswith_v1_slash. by apply endswith_app. }
    destruct (endswith url "v1") eqn:H2.
    { rewrite Hfix; by rewrite endswith_v1_slash. }
    rewrite Hv1; [|by apply endswith_app].
    rewrite endswith_v1_slash. by apply endswith_app. }
  split; [done|]. split; [by apply Hfix|].
  intros H1 H3.
  assert (Hone : normalize_url url = url +:+ "v1").
  { by rewrite normalize_url_cases, H3, H1. }
  split; [done|]. rewrite Hone.
  rewrite Hv1; [|by apply endswith_app].
  rewrite append_assoc. split; [done|].
  intros Heq. change "v1/" with ("v1" +:+ "/") in Heq.
  rewrite <- append_assoc in Heq. by apply append_empty_r in Heq.
Qed.

(** The default [OPENAI_BASE_URL]. *)
Lemma normalize_url_settles_witness :
  normalize_url "http://localhost:30000/" = "http://localhost:30000/v1"
  ∧ normalize_url (normalize_url "http://localhost:30000/")
    = "http://localhost:30000/v1/".
Proof.
  destruct (normalize_url_settles "http://localhost:30000/")
    as (_ & _ & H).
  destruct H as (H1 & H2 & _); [reflexivity|reflexivity|].
  split; [exact H1|exact H2].
Defined.

End UrlSpec.

(** ** The requests of [embed_texts] *)

Section BatchFacts.
Import Embed.
Context {vector : Type}.

(** The number of starts of the loop is the number of texts over the batch
    size, rounded up. *)
Lemma py_range_count (len b : nat) :
  (0 < b)%nat →
  py_range 0 (Z.of_nat len) (Z.of_nat b)
  = Ok (map (fun k => Z.of_nat (k * b)) (seq 0 ((len + b - 1) / b))).
Proof.
  intros Hb. unfold py_range.
  rewrite (proj2 (Z.eqb_neq _ _)) by lia.
  rewrite (proj2 (Z.ltb_lt _ _)) by lia.
  replace (Z.to_nat ((Z.of_nat len - 0 + Z.of_nat b - 1) `div` Z.of_nat b))
    with ((len + b - 1) / b)%nat.
  - f_equal. apply map_ext. intros k. lia.
  - replace (Z.of_nat len - 0 + Z.of_nat b - 1)%Z
      with (Z.of_nat (len + b - 1)) by lia.
    rewrite <- Nat2Z.inj_div. lia.
Qed.

Lemma ceil_div_bounds (len b : nat) :
  (0 < b)%nat →
  (len ≤ (len + b - 1) / b * b)%nat
  ∧ ∀ k, (k < (len + b - 1) / b)%nat → (k * b < len)%nat.
Proof.
  intros Hb.
  pose proof (Nat.div_mod_eq (len + b - 1) b) as Hdm.
  pose proof (Nat.mod_upper_bound (len + b - 1) b ltac:(lia)) as Hm.
  split; [nia|]. intros k Hk. nia.
Qed.

(** Consecutive slices of [b] elements, put end to end. *)
Lemma concat_chunks {A} (l : list A) (b n k0 : nat) :
  concat (map (fun k => take b (drop (k * b) l)) (seq k0 n))
  = take (n * b) (drop (k0 * b) l).
Proof.
  revert k0. induction n as [|n IH]; intros k0; [done|].
  cbn [seq map concat]. rewrite IH.
  replace (S k0 * b)%nat with (k0 * b + b)%nat by lia.
  rewrite <- drop_drop. by rewrite take_take_drop.
Qed.

(** What the loop has sent when it ends: the slices of the first [k]
    starts, all of them if it returns, and if it raises the last one is the
    request that raised. *)
Lemma embed_loop_trace (post : service vector)
    (decode : body vector → result (list vector)) (texts : list string)
    (b : Z) (starts : list Z) (sent : list (list string))
    (acc : list vector) :
  let slice := fun i => py_slice texts i (i + b) in
  let out := embed_loop post decode texts b starts sent acc in
  ∃ k, (k ≤ length starts)%nat
    ∧ out.1 = sent ++ map slice (take k starts)
    ∧ match out.2 with
      | Ok _ => k = length starts
      | Raise e =>
          ∃ j i, k = S j ∧ starts !! j = Some i
            ∧ post (sent ++ map slice (take j starts)) (slice i) ≫= decode
              = Raise e
      end.
Proof.
  intros slice. revert sent acc.
  induction starts as [|i rest IH]; intros sent acc.
  - exists 0%nat. simpl. by rewrite app_nil_r.
  - cbn [embed_loop]. fold (slice i).
    destruct (post sent (slice i) ≫= decode) as [vs|e] eqn:Hp.
    + destruct (IH (sent ++ [slice i]) (acc ++ vs)) as (k & Hk & H1 & H2).
      exists (S k). split; [simpl; lia|]. split.
      * rewrite H1. cbn [take map]. by rewrite <- app_assoc.
      * destruct (embed_loop _ _ _ _ rest _ _).2 as [?|e]; [simpl; lia|].
        destruct H2 as (j & i' & -> & Hj & He).
        exists (S j), i'. split; [done|]. split; [done|].
        cbn [take map]. by rewrite <- app_assoc in He.
    + exists 1%nat. split; [simpl; lia|]. split; [done|].
      exists 0%nat, i. simpl. by rewrite app_nil_r.
Qed.

(** With a batch size of at least one, the requests of a run. *)
Lemma embed_with_trace (post : service vector)
    (decode : body vector → result (list vector)) (texts : list string)
    (b : nat) :
  (0 < b)%nat →
  let chunk := fun k => take b (drop (k * b) texts) in
  let out := embed_with decode post texts (Z.of_nat b) in
  ∃ k, (k ≤ (length texts + b - 1) / b)%nat
    ∧ out.1 = map chunk (seq 0 k)
    ∧ match out.2 with
      | Ok _ => k = ((length texts + b - 1) / b)%nat
      | Raise e =>
          ∃ j, k = S j
            ∧ post (map chunk (seq 0 j)) (chunk j) ≫= decode = Raise e
      end.
Proof.
  intros Hb chunk. unfold embed_with. rewrite py_range_count by done.
  set (count := ((length texts + b - 1) / b)%nat).
  set (starts := map (fun k => Z.of_nat (k * b)) (seq 0 count)).
  destruct (embed_loop_trace post decode texts (Z.of_nat b) starts [] [])
    as (k & Hk & H1 & H2).
  assert (Hlen : length starts = count).
  { unfold starts. by rewrite length_map, length_seq. }
  assert (Hmap : ∀ j, (j ≤ count)%nat →
            map (fun i => py_slice texts i (i + Z.of_nat b)) (take j starts)
            = map chunk (seq 0 j)).
  { intros j Hj. unfold starts. rewrite firstn_map, map_map.
    rewrite take_seq, Nat.min_l by lia.
    apply map_ext. intros a. by rewrite py_slice_chunk. }
  exists k. rewrite Hlen in Hk. split; [done|]. split.
  - rewrite H1. simpl. by apply Hmap.
  - destruct (embed_loop _ _ _ _ starts _ _).2 as [?|e]; [lia|].
    destruct H2 as (j & i & -> & Hj & He). exists j. split; [done|].
    simpl in He. rewrite Hmap in He by lia.
    unfold starts in Hj. rewrite lookup_map, lookup_seq_lt in Hj by lia.
    simpl in Hj. injection Hj as <-.
    by rewrite py_slice_chunk in He.
Qed.

End BatchFacts.

Section BatchSpec.
Import Embed.
Context {vector : Type}.

Lemma embed_with_batches (post : service vector)
    (decode : body vector → result (list vector)) (texts : list string)
    (batch_size : Z) (sent : list (list string)) (embeddings : list vector) :
  (1 ≤ batch_size)%Z →
  embed_with decode post texts batch_size = (sent, Ok embeddings) →
  concat sent = texts
  ∧ Forall (fun batch => (1 ≤ length batch ≤ Z.to_nat batch_size)%nat) sent
  ∧ Z.of_nat (length sent)
    = ((Z.of_nat (length texts) + batch_size - 1) `div` batch_size)%Z.
Proof.
  intros Hbs Hrun.
  set (b := Z.to_nat batch_size).
  assert (Hb : (0 < b)%nat) by lia.
  replace batch_size with (Z.of_nat b) in * by lia.
  destruct (embed_with_trace post decode texts b Hb) as (k & _ & H1 & H2).
  rewrite Hrun in H1, H2. simpl in H1, H2. subst k sent.
  destruct (ceil_div_bounds (length texts) b Hb) as [Hcover Hinside].
  split; [|split].
  - rewrite concat_chunks. simpl. by rewrite drop_0, take_ge.
  - apply Forall_forall. intros batch [k [-> Hk]]%list_elem_of_fmap.
    apply elem_of_seq in Hk. specialize (Hinside k ltac:(lia)).
    rewrite length_take, length_drop. lia.
  - rewrite length_map, length_seq, Nat2Z.inj_div. f_equal. lia.
Qed.

(** X3. A run of [embed_texts] that returns has sent the texts to the
    service in consecutive batches: put end to end the batches are the
    input list, no batch is empty or longer than [batch_size], and their
    number is the number of texts over [batch_size], rounded up. *)
Theorem embed_texts_batches (post : service vector) (texts : list string)
    (batch_size : Z) (sent : list (list string)) (embeddings : list vector) :
  (1 ≤ batch_size)%Z →
  Streaming.embed_texts post texts batch_size = (sent, Ok embeddings)
  ∨ Ingested.embed_texts post texts batch_size = (sent, Ok embeddings) →
  concat sent = texts
  ∧ Forall (fun batch => (1 ≤ length batch ≤ Z.to_nat batch_size)%nat) sent
  ∧ Z.of_nat (length sent)
    = ((Z.of_nat (length texts) + batch_size - 1) `div` batch_size)%Z.
Proof.
  intros Hbs [Hrun|Hrun].
  - by apply (embed_with_batches post data_embeddings texts batch_size sent
                embeddings).
  - by apply (embed_with_batches post any_embeddings texts batch_size sent
                embeddings).
Qed.

Lemma embed_with_aborts (post : service vector)
    (decode : body vector → result (list vector)) (texts : list string)
    (batch_size : Z) (sent : list (list string)) (e : exn) :
  (1 ≤ batch_size)%Z →
  embed_with decode post texts batch_size = (sent, Raise e) →
  ∃ before batch,
    sent = before ++ [batch]
    ∧ post before batch ≫= decode = Raise e
    ∧ batch ≠ []
    ∧ concat sent `prefix_of` texts.
Proof.
  intros Hbs Hrun.
  set (b := Z.to_nat batch_size).
  assert (Hb : (0 < b)%nat) by lia.
  replace batch_size with (Z.of_nat b) in * by lia.
  destruct (embed_with_trace post decode texts b Hb) as (k & Hk & H1 & H2).
  rewrite Hrun in H1, H2. simpl in H1, H2.
  destruct H2 as (j & -> & He).
  destruct (ceil_div_bounds (length texts) b Hb) as [_ Hinside].
  exists (map (fun k => take b (drop (k * b) texts)) (seq 0 j)),
         (take b (drop (j * b) texts)).
  split; [|split; [done|split]].
  - rewrite H1, seq_S, map_app. done.
  - specialize (Hinside j ltac:(lia)). intros Hnil.
    apply (f_equal length) in Hnil.
    rewrite length_take, length_drop in Hnil. simpl in Hnil. lia.
  - rewrite H1, concat_chunks. simpl. rewrite drop_0.
    exists (drop (S j * b) texts). by rewrite take_drop.
Qed.

Lemma py_range_negative (len : nat) (step : Z) :
  (step < 0)%Z → py_range 0 (Z.of_nat len) step = Ok [].
Proof.
  intros Hs. unfold py_range.
  rewrite (proj2 (Z.eqb_neq _ _)) by lia.
  rewrite (proj2 (Z.ltb_ge _ _)) by lia.
  set (q := ((0 - Z.of_nat len - step - 1) `div` (- step))%Z).
  assert (Hq : (q < 1)%Z) by (apply Z.div_lt_upper_bound; lia).
  by replace (Z.to_nat q) with 0%nat by lia.
Qed.

(** X5. Outside the batch sizes of at least one, [embed_texts] sends
    nothing: with a batch size of zero it raises the [ValueError] of
    [range], also on the empty list; with a negative batch size it returns
    the empty list whatever the texts. *)
Theorem embed_texts_batch_size_not_positive (post : service vector)
    (texts : list string) (batch_size : Z) :
  (batch_size = 0%Z →
     Streaming.embed_texts post texts batch_size
     = ([], Raise (Exn ValueError "range() arg 3 must not be zero"))
     ∧ Ingested.embed_texts post texts batch_size
       = ([], Raise (Exn ValueError "range() arg 3 must not be zero")))
  ∧ ((batch_size < 0)%Z →
       Streaming.embed_texts post texts batch_size = ([], Ok [])
       ∧ Ingested.embed_texts post texts batch_size = ([], Ok [])).
Proof.
  split.
  - intros ->. done.
  - intros Hneg.
    unfold Streaming.embed_texts, Ingested.embed_texts, embed_with.
    by rewrite py_range_negative.
Qed.

(** X6. Against a service that answers each request with one vector under
    the key [embedding], the second [embed_texts] returns one vector per
    request, not per text: with a batch size of two or more and two texts
    or more it returns fewer vectors than texts. The first [embed_texts]
    raises [KeyError] on the first answer. *)
Theorem embed_texts_one_vector_per_request (post : service vector)
    (texts : list string) (batch_size : Z) :
  (1 ≤ batch_size)%Z →
  (∀ sent batch, ∃ v, post sent batch = Ok (Body None None (Some v))) →
  (∃ sent embeddings,
     Ingested.embed_texts post texts batch_size = (sent, Ok embeddings)
     ∧ length embeddings = length sent
     ∧ Z.of_nat (length embeddings)
       = ((Z.of_nat (length texts) + batch_size - 1) `div` batch_size)%Z
     ∧ ((2 ≤ batch_size)%Z → (2 ≤ length texts)%nat →
          (length embeddings < length texts)%nat))
  ∧ (texts ≠ [] →
       Streaming.embed_texts post texts batch_size
       = ([take (Z.to_nat batch_size) texts], Raise (key_error "data"))).
Proof.
  intros Hbs Hpost.
  set (b := Z.to_nat batch_size).
  assert (Hb : (0 < b)%nat) by lia.
  replace batch_size with (Z.of_nat b) in * by lia.
  split.
  - assert (Hloop : ∀ starts sent acc, ∃ vs,
              embed_loop post any_embeddings texts (Z.of_nat b) starts sent acc
              = (sent ++ map (fun i => py_slice texts i (i + Z.of_nat b))
                           starts,
                 Ok (acc ++ vs))
              ∧ length vs = length starts).
    { induction starts as [|i rest IH]; intros sent acc.
      - exists []. by rewrite !app_nil_r.
      - cbn [embed_loop].
        destruct (Hpost sent (py_slice texts i (i + Z.of_nat b))) as [v ->].
        cbn [mbind result_bind any_embeddings data embeddings embedding].
        destruct (IH (sent ++ [py_slice texts i (i + Z.of_nat b)])
                    (acc ++ [v])) as (vs & -> & Hlen).
        exists (v :: vs). rewrite <- !app_assoc. simpl. by rewrite Hlen. }
    unfold Ingested.embed_texts, embed_with. rewrite py_range_count by done.
    edestruct Hloop as (vs & -> & Hlen).
    eexists _, vs. split; [done|].
    rewrite length_map, length_seq in Hlen. simpl.
    rewrite length_map, length_map, length_seq, Hlen.
    split; [done|]. split.
    + rewrite Nat2Z.inj_div. f_equal. lia.
    + intros H2 Hn.
      assert ((length texts + b - 1) / b * 2 ≤ length texts + b - 1)%nat.
      { pose proof (Nat.div_mod_eq (length texts + b - 1) b). nia. }
      pose proof (Nat.div_mod_eq (length texts + b - 1) b) as Hdm.
      pose proof (Nat.mod_upper_bound (length texts + b - 1) b ltac:(lia)).
      nia.
  - intros Hne. unfold Streaming.embed_texts, embed_with.
    rewrite py_range_count by done.
    destruct (ceil_div_bounds (length texts) b Hb) as [Hcover _].
    destruct ((length texts + b - 1) / b)%nat as [|n] eqn:Hcount.
    { destruct texts; [done|simpl in Hcover; lia]. }
    cbn [seq map embed_loop].
    change (Z.of_nat (0 * b)) with (Z.of_nat 0).
    rewrite py_slice_chunk by done. rewrite drop_0.
    by destruct (Hpost [] (take b texts)) as [v ->].
Qed.

End BatchSpec.

Section BatchWitness.
Import Embed EmbedExamples.

Lemma embed_texts_batches_witness :
  concat [["hi"; "hello"]; ["hey"]] = ["hi"; "hello"; "hey"]
  ∧ Forall (fun batch => (1 ≤ length batch ≤ Z.to_nat 2)%nat)
      [["hi"; "hello"]; ["hey"]]
  ∧ Z.of_nat (length [["hi"; "hello"]; ["hey"]])
    = ((Z.of_nat (length ["hi"; "hello"; "hey"]) + 2 - 1) `div` 2)%Z.
Proof.
  apply (embed_texts_batches length_service ["hi"; "hello"; "hey"] 2
           [["hi"; "hello"]; ["hey"]] [2; 5; 3]%nat); [lia|].
  left. reflexivity.
Defined.

Lemma embed_texts_one_vector_per_request_witness :
  (∃ sent embeddings,
     Ingested.embed_texts single_vector_service ["hi"; "hello"; "hey"] 2
     = (sent, Ok embeddings)
     ∧ length embeddings = length sent
     ∧ Z.of_nat (length embeddings)
       = ((Z.of_nat (length ["hi"; "hello"; "hey"]) + 2 - 1) `div` 2)%Z
     ∧ ((2 ≤ 2)%Z → (2 ≤ length ["hi"; "hello"; "hey"])%nat →
          (length embeddings < length ["hi"; "hello"; "hey"])%nat))
  ∧ (["hi"; "hello"; "hey"] ≠ [] →
       Streaming.embed_texts single_vector_service ["hi"; "hello"; "hey"] 2
       = ([take (Z.to_nat 2) ["hi"; "hello"; "hey"]],
          Raise (key_error "data"))).
Proof.
  apply (embed_texts_one_vector_per_request single_vector_service
           ["hi"; "hello"; "hey"] 2); [lia|].
  intros sent batch. by eexists.
Defined.

End BatchWitness.

Section BenchmarkEmbedSpec.
Import Embed BenchmarkEmbed.
Context {vector : Type}.

Lemma item_embeddings_map (emb : string → vector) (l : list string) :
  item_embeddings (map (fun t => Some (emb t)) l) = Ok (map emb l).
Proof. induction l as [|t l IH]; simpl; [done|]. by rewrite IH. Qed.

(** X7. [embed_texts] of the benchmark ingestion sends all the texts in one
    request, whatever their number, and never returns an empty list. On
    the empty list of texts, against a service that answers a request with
    the vectors of its texts in order, it raises [IndexError]; on other
    lists it returns the vector of each text, in order. *)
Theorem benchmark_embed_texts_single_request (post : service vector)
    (texts : list string) :
  (embed_texts post texts).1 = [texts]
  ∧ (embed_texts post texts).2 ≠ Returns []
  ∧ ∀ emb : string → vector,
      (∀ sent batch, ∃ body,
          post sent batch = Ok body
          ∧ data body = Some (map (fun t => Some (emb t)) batch)) →
      (embed_texts post texts).2
      = match texts with
        | [] => RaisesIndexError
        | _ => Returns (map emb texts)
        end.
Proof.
  split; [done|]. split.
  - unfold embed_texts. simpl.
    by destruct (post [] texts ≫= data_embeddings) as [[|v vs]|e].
  - intros emb Hpost. unfold embed_texts. simpl.
    destruct (Hpost [] texts) as (body & -> & Hd).
    cbn [mbind result_bind]. unfold data_embeddings.
    rewrite Hd, item_embeddings_map. by destruct texts.
Qed.

End BenchmarkEmbedSpec.

Section BatchFails.
Import Embed.
Context {vector : Type}.

(** The loop at the first request that fails. *)
Lemma embed_loop_fails (post : service vector)
    (decode : body vector → result (list vector)) (texts : list string)
    (b : Z) (starts : list Z) (sent : list (list string))
    (acc : list vector) (j : nat) (i : Z) (e : exn) :
  let slice := fun i => py_slice texts i (i + b) in
  starts !! j = Some i →
  (∀ j' i', (j' < j)%nat → starts !! j' = Some i' →
     ∃ vs, post (sent ++ map slice (take j' starts)) (slice i') ≫= decode
           = Ok vs) →
  post (sent ++ map slice (take j starts)) (slice i) ≫= decode = Raise e →
  embed_loop post decode texts b starts sent acc
  = (sent ++ map slice (take (S j) starts), Raise e).
Proof.
  intros slice. revert sent acc j.
  induction starts as [|i0 rest IH]; intros sent acc j Hj Hok Hfail;
    [done|].
  cbn [embed_loop]. fold (slice i0). destruct j as [|j].
  - simpl in Hj. injection Hj as ->. simpl in Hfail.
    rewrite app_nil_r in Hfail. by rewrite Hfail.
  - destruct (Hok 0%nat i0 ltac:(lia) eq_refl) as [vs Hvs].
    simpl in Hvs. rewrite app_nil_r in Hvs. rewrite Hvs.
    rewrite (IH (sent ++ [slice i0]) (acc ++ vs) j); [| done | |].
    + cbn [take map]. by rewrite <- app_assoc.
    + intros j' i' Hlt Hi'.
      destruct (Hok (S j') i' ltac:(lia) Hi') as [vs' Hvs'].
      exists vs'. cbn [take map] in Hvs'. by rewrite <- app_assoc.
    + cbn [take map] in Hfail. by rewrite <- app_assoc.
Qed.

(** With a batch size of at least one, in terms of the slices. *)
Lemma embed_with_fails (post : service vector)
    (decode : body vector → result (list vector)) (texts : list string)
    (b j : nat) (e : exn) :
  (0 < b)%nat →
  let chunk := fun k => take b (drop (k * b) texts) in
  (j * b < length texts)%nat →
  (∀ i, (i < j)%nat →
     ∃ vs, post (map chunk (seq 0 i)) (chunk i) ≫= decode = Ok vs) →
  post (map chunk (seq 0 j)) (chunk j) ≫= decode = Raise e →
  embed_with decode post texts (Z.of_nat b)
  = (map chunk (seq 0 (S j)), Raise e).
Proof.
  intros Hb chunk Hj Hok Hfail. unfold embed_with.
  rewrite py_range_count by done.
  set (count := ((length texts + b - 1) / b)%nat).
  set (starts := map (fun k => Z.of_nat (k * b)) (seq 0 count)).
  destruct (ceil_div_bounds (length texts) b Hb) as [Hcover _].
  fold count in Hcover.
  assert (Hlt : (j < count)%nat) by nia.
  assert (Hmap : ∀ k, (k ≤ count)%nat →
            map (fun i => py_slice texts i (i + Z.of_nat b)) (take k starts)
            = map chunk (seq 0 k)).
  { intros k Hk. unfold starts. rewrite firstn_map, map_map.
    rewrite take_seq, Nat.min_l by lia.
    apply map_ext. intros a. by rewrite py_slice_chunk. }
  assert (Hat : ∀ k, (k < count)%nat →
            starts !! k = Some (Z.of_nat (k * b))).
  { intros k Hk. unfold starts.
    by rewrite lookup_map, lookup_seq_lt by lia. }
  rewrite (embed_loop_fails post decode texts (Z.of_nat b) starts [] [] j
             (Z.of_nat (j * b)) e).
  - simpl. by rewrite Hmap by lia.
  - by apply Hat.
  - intros j' i' Hj' Hi'. rewrite Hat in Hi' by lia. injection Hi' as <-.
    simpl. rewrite Hmap by lia. rewrite py_slice_chunk by done.
    by apply Hok.
  - simpl. rewrite Hmap by lia. by rewrite py_slice_chunk by done.
Qed.

Lemma chunks_prefix (texts : list string) (b j : nat) :
  (0 < b)%nat → (j * b < length texts)%nat →
  take b (drop (j * b) texts) ≠ []
  ∧ concat (map (fun k => take b (drop (k * b) texts)) (seq 0 (S j)))
    `prefix_of` texts.
Proof.
  intros Hb Hj. split.
  - intros Hnil. apply (f_equal length) in Hnil.
    rewrite length_take, length_drop in Hnil. simpl in Hnil. lia.
  - rewrite concat_chunks, drop_0.
    exists (drop (S j * b) texts). by rewrite take_drop.
Qed.

(** X4. When a request fails (the call, the status check or the decoding
    of the answer) after the requests before it were answered,
    [embed_texts] raises that exception and returns no vector, also not
    those of the batches already answered: the failing request is the last
    one sent, it carried a non-empty batch, and the batches sent until then
    are a prefix of the input. Every run that raises is of this kind. *)
Theorem embed_texts_aborts (post : service vector) (texts : list string)
    (batch_size : Z) :
  (1 ≤ batch_size)%Z →
  let b := Z.to_nat batch_size in
  let chunk := fun k => take b (drop (k * b) texts) in
  (∀ j e,
     (j * b < length texts)%nat →
     (∀ i, (i < j)%nat →
        ∃ vs, post (map chunk (seq 0 i)) (chunk i) ≫= data_embeddings
              = Ok vs) →
     post (map chunk (seq 0 j)) (chunk j) ≫= data_embeddings = Raise e →
     Streaming.embed_texts post texts batch_size
     = (map chunk (seq 0 j) ++ [chunk j], Raise e)
     ∧ chunk j ≠ []
     ∧ concat (map chunk (seq 0 j) ++ [chunk j]) `prefix_of` texts)
  ∧ (∀ j e,
       (j * b < length texts)%nat →
       (∀ i, (i < j)%nat →
          ∃ vs, post (map chunk (seq 0 i)) (chunk i) ≫= any_embeddings
                = Ok vs) →
       post (map chunk (seq 0 j)) (chunk j) ≫= any_embeddings = Raise e →
       Ingested.embed_texts post texts batch_size
       = (map chunk (seq 0 j) ++ [chunk j], Raise e)
       ∧ chunk j ≠ []
       ∧ concat (map chunk (seq 0 j) ++ [chunk j]) `prefix_of` texts)
  ∧ (∀ sent e,
       Streaming.embed_texts post texts batch_size = (sent, Raise e) →
       ∃ before batch,
         sent = before ++ [batch]
         ∧ post before batch ≫= data_embeddings = Raise e
         ∧ batch ≠ [] ∧ concat sent `prefix_of` texts)
  ∧ (∀ sent e,
       Ingested.embed_texts post texts batch_size = (sent, Raise e) →
       ∃ before batch,
         sent = before ++ [batch]
         ∧ post before batch ≫= any_embeddings = Raise e
         ∧ batch ≠ [] ∧ concat sent `prefix_of` texts).
Proof.
  intros Hbs b chunk.
  assert (Hb : (0 < b)%nat) by (unfold b; lia).
  assert (Hsz : batch_size = Z.of_nat b) by (unfold b; lia).
  assert (Hsent : ∀ j, map chunk (seq 0 j) ++ [chunk j]
                       = map chunk (seq 0 (S j))).
  { intros j. by rewrite seq_S, map_app. }
  split; [|split; [|split]].
  - intros j e Hj Hok Hfail. rewrite Hsent.
    destruct (chunks_prefix texts b j Hb Hj) as [Hne Hpre].
    split; [|by split]. unfold Streaming.embed_texts. rewrite Hsz.
    by apply embed_with_fails.
  - intros j e Hj Hok Hfail. rewrite Hsent.
    destruct (chunks_prefix texts b j Hb Hj) as [Hne Hpre].
    split; [|by split]. unfold Ingested.embed_texts. rewrite Hsz.
    by apply embed_with_fails.
  - intros sent e Hrun.
    by apply (embed_with_aborts post data_embeddings texts batch_size).
  - intros sent e Hrun.
    by apply (embed_with_aborts post any_embeddings texts batch_size).
Qed.

End BatchFails.

Section BatchFailsWitness.
Import Embed EmbedExamples.

(** Three texts one by one to [second_fails]: the second request fails. *)
Lemma embed_texts_aborts_witness :
  Streaming.embed_texts second_fails ["hi"; "hello"; "hey"] 1
  = ([["hi"]; ["hello"]], Raise (Exn Exception "503 Server Error"))
  ∧ ["hello"] ≠ []
  ∧ concat [["hi"]; ["hello"]] `prefix_of` ["hi"; "hello"; "hey"].
Proof.
  destruct (embed_texts_aborts second_fails ["hi"; "hello"; "hey"] 1
              ltac:(lia)) as [H _].
  apply (H 1%nat (Exn Exception "503 Server Error")).
  - simpl. lia.
  - intros i Hi. assert (i = 0%nat) as -> by lia. by eexists.
  - reflexivity.
Defined.

End BatchFailsWitness.

(** ** What the writers keep of a store *)

Section KeepsFacts.
Import Invariant.
Context {vector : Type}.
Implicit Types (g h : graph vector) (K : list string).

Lemma keeps_refl K g : keeps K g g.
Proof. split; [|done]. intros j nd H. by exists nd. Qed.

Lemma keeps_trans K g1 g2 g3 : keeps K g1 g2 → keeps K g2 g3 → keeps K g1 g3.
Proof.
  intros [N1 E1] [N2 E2]. split; [|by auto].
  intros j nd H. destruct (N1 j nd H) as (nd1 & H1 & L1 & P1).
  destruct (N2 j nd1 H1) as (nd2 & H2 & L2 & P2).
  exists nd2. split; [done|]. split; [congruence|].
  intros k Hk. by rewrite P2, P1.
Qed.

Lemma keeps_create K lbl pat g : keeps K g (create_node lbl pat g).
Proof.
  split; [|done]. intros j nd H. exists nd. split; [|done].
  unfold create_node. simpl. by apply lookup_app_l_Some.
Qed.

Lemma keeps_merge_node K lbl pat g : keeps K g (merge_node lbl pat g).1.
Proof.
  unfold merge_node. destruct (match_nodes lbl pat g); simpl.
  - apply keeps_create.
  - apply keeps_refl.
Qed.

Lemma keeps_set_props K n (items : list (string * option (propval vector))) g :
  items.*1 ⊆ K → keeps K g (set_props n items g).
Proof.
  intros HK. split; [|done]. intros j nd H.
  rewrite set_props_lookup. destruct (decide (n = j)) as [->|Hne].
  - rewrite H. simpl. eexists. split; [done|]. split; [done|].
    intros k Hk. simpl. apply foldl_set_prop_lookup_ne.
    intros Hin. by apply Hk, HK.
  - by exists nd.
Qed.

Lemma keeps_add_edge K (e : edge) g : keeps K g (add_edge e g).
Proof.
  split.
  - intros j nd H. exists nd. by rewrite add_edge_nodes.
  - intros e' He'. apply elem_of_add_edge. by right.
Qed.

End KeepsFacts.

Section KeepsRuns.
Import Invariant.
Context {vector R : Type}.
Implicit Types (g h : graph vector) (K : list string).

Lemma keeps_step K (c : clause vector R) g (e : env R) :
  sets_within K c → keeps K g (step c g e).1.
Proof.
  intros Hc. destruct c as [x lbl pat|x lbl pat|x items|a ty b|xs];
    cbn [step].
  - pose proof (keeps_merge_node K lbl (pat (row e)) g) as H.
    by destruct (merge_node lbl (pat (row e)) g).
  - apply keeps_refl.
  - simpl. destruct (assoc x (vars e)); [|apply keeps_refl].
    apply keeps_set_props, Hc.
  - simpl. destruct (assoc a (vars e)), (assoc b (vars e));
      (apply keeps_add_edge || apply keeps_refl).
  - apply keeps_refl.
Qed.

Lemma keeps_run_rows K (f : graph vector → env R → graph vector * list (env R))
    g (tbl : list (env R)) :
  (∀ g e, keeps K g (f g e).1) → keeps K g (run_rows f g tbl).1.
Proof.
  intros Hf. revert g. induction tbl as [|e rest IH]; intros g.
  - apply keeps_refl.
  - cbn [run_rows]. pose proof (Hf g e) as H1.
    destruct (f g e) as [g1 o1]. pose proof (IH g1) as H2.
    destruct (run_rows f g1 rest) as [g2 o2]. simpl in *.
    by apply keeps_trans with g1.
Qed.

Lemma keeps_run_clauses K (cs : list (clause vector R))
    (st : graph vector * list (env R)) :
  Forall (sets_within K) cs → keeps K st.1 (run_clauses cs st).1.
Proof.
  intros Hcs. revert st. induction Hcs as [|c cs Hc _ IH]; intros st.
  - apply keeps_refl.
  - unfold run_clauses. cbn [foldl]. fold (run_clauses cs (run_clause st c)).
    apply keeps_trans with (run_clause st c).1; [|apply IH].
    unfold run_clause. apply keeps_run_rows. intros. by apply keeps_step.
Qed.

Lemma keeps_run_stmt K (s : stmt vector R) (st : graph vector * list (env R)) :
  every_clause (sets_within K) s → keeps K st.1 (run_stmt st s).1.
Proof.
  destruct s as [c|X items body]; simpl; intros Hs.
  - unfold run_clause. apply keeps_run_rows. intros. by apply keeps_step.
  - apply keeps_run_rows. intros g e. unfold foreach_step. simpl.
    generalize (items (row e)). intros l. revert g.
    induction l as [|x l IH]; intros g; [apply keeps_refl|].
    cbn [foldl].
    eapply keeps_trans; [|apply IH].
    apply (keeps_run_clauses K (body x) (g, [e])), Hs.
Qed.

Lemma keeps_run_query K (q : list (stmt vector R)) (rs : list R) g :
  Forall (every_clause (sets_within K)) q → keeps K g (run_query q rs g).
Proof.
  intros Hq. unfold run_query.
  generalize (map (fun r => Env r []) rs). intros tbl.
  change g with (g, tbl).1 at 1. generalize (g, tbl). clear g tbl.
  induction Hq as [|s q Hs _ IH]; intros st.
  - apply keeps_refl.
  - cbn [foldl]. eapply keeps_trans; [|apply IH].
    by apply keeps_run_stmt.
Qed.

End KeepsRuns.

Section UniqueFacts.
Import Invariant.
Context {vector : Type}.
Implicit Types (g h : graph vector).

Lemma match_nodes_set_props lbl key s n
    (items : list (string * option (propval vector))) g :
  key ∉ items.*1 →
  match_nodes lbl [(key, s)] (set_props n items g)
  = match_nodes lbl [(key, s)] g.
Proof.
  intros Hk. unfold match_nodes, set_props. simpl. symmetry.
  apply find_from_pointwise. apply Forall2_alter_r.
  - by apply Forall_Forall2_diag, Forall_true.
  - intros nd nd' _ _ ->. unfold node_matches, has_str. simpl.
    by rewrite foldl_set_prop_lookup_ne.
Qed.

Lemma match_nodes_add_edge lbl pat (e : edge) g :
  match_nodes lbl pat (add_edge e g) = match_nodes lbl pat g.
Proof. unfold match_nodes. by rewrite add_edge_nodes. Qed.

(** The node a [MERGE] creates matches [(key, s)] only when it was merged
    on that label and that value. *)
Lemma created_matches_key lbl key s lbl' s' :
  node_matches lbl [(key, s)]
    (Node lbl' (pattern_props [(key, s')]) : node vector)
  = String.eqb lbl' lbl && String.eqb s' s.
Proof.
  unfold node_matches, has_str, pattern_props. simpl.
  rewrite lookup_insert_eq. by rewrite andb_true_r.
Qed.

Lemma unique_on_merge_node lbl key lbl' pat g :
  (lbl' = lbl → ∃ s, pat = [(key, s)]) →
  unique_on lbl key g → unique_on lbl key (merge_node lbl' pat g).1.
Proof.
  intros Hpat Hu. unfold merge_node.
  destruct (match_nodes lbl' pat g) eqn:Hm; simpl; [|done].
  intros s. rewrite match_nodes_create.
  destruct (decide (lbl' = lbl)) as [->|Hne].
  - destruct (Hpat eq_refl) as [s' ->]. rewrite created_matches_key.
    rewrite String.eqb_refl. simpl.
    destruct (String.eqb_spec s' s) as [->|Hs].
    + by rewrite Hm.
    + rewrite app_nil_r. apply Hu.
  - replace (node_matches lbl [(key, s)] (Node lbl' (pattern_props pat)))
      with false.
    + rewrite app_nil_r. apply Hu.
    + symmetry. unfold node_matches. simpl.
      by rewrite (proj2 (String.eqb_neq _ _) Hne).
Qed.

End UniqueFacts.

Section UniqueRuns.
Import Invariant.
Context {vector R : Type}.
Implicit Types (g h : graph vector).

Lemma unique_on_step lbl key (c : clause vector R) g (e : env R) :
  merges_on lbl key c → unique_on lbl key g → unique_on lbl key (step c g e).1.
Proof.
  intros Hc Hu. destruct c as [x l pat|x l pat|x items|a ty b|xs];
    cbn [step]; try done.
  - pose proof (unique_on_merge_node lbl key l (pat (row e)) g) as H.
    destruct (merge_node l (pat (row e)) g). simpl in *.
    apply H; [|done]. intros Hl. apply (Hc Hl).
  - simpl. destruct (assoc x (vars e)); [|done].
    intros s. rewrite match_nodes_set_props by apply Hc. apply Hu.
  - simpl. destruct (assoc a (vars e)), (assoc b (vars e)); try done.
    intros s. rewrite match_nodes_add_edge. apply Hu.
Qed.

Lemma unique_on_run_rows lbl key
    (f : graph vector → env R → graph vector * list (env R))
    g (tbl : list (env R)) :
  (∀ g e, unique_on lbl key g → unique_on lbl key (f g e).1) →
  unique_on lbl key g → unique_on lbl key (run_rows f g tbl).1.
Proof.
  intros Hf. revert g. induction tbl as [|e rest IH]; intros g Hu; [done|].
  cbn [run_rows]. pose proof (Hf g e Hu) as H1.
  destruct (f g e) as [g1 o1]. pose proof (IH g1 H1) as H2.
  by destruct (run_rows f g1 rest) as [g2 o2].
Qed.

Lemma unique_on_run_clauses lbl key (cs : list (clause vector R))
    (st : graph vector * list (env R)) :
  Forall (merges_on lbl key) cs →
  unique_on lbl key st.1 → unique_on lbl key (run_clauses cs st).1.
Proof.
  intros Hcs. revert st. induction Hcs as [|c cs Hc _ IH]; intros st Hu.
  - done.
  - unfold run_clauses. cbn [foldl]. fold (run_clauses cs (run_clause st c)).
    apply IH. unfold run_clause. apply unique_on_run_rows; [|done].
    intros. by apply unique_on_step.
Qed.

Lemma unique_on_run_stmt lbl key (s : stmt vector R)
    (st : graph vector * list (env R)) :
  every_clause (merges_on lbl key) s →
  unique_on lbl key st.1 → unique_on lbl key (run_stmt st s).1.
Proof.
  destruct s as [c|X items body]; simpl; intros Hs Hu.
  - unfold run_clause. apply unique_on_run_rows; [|done].
    intros. by apply unique_on_step.
  - apply unique_on_run_rows; [|done]. clear Hu. intros g e.
    unfold foreach_step. simpl.
    generalize (items (row e)). intros l. revert g.
    induction l as [|x l IH]; intros g Hu; [done|].
    cbn [foldl]. apply IH.
    by apply (unique_on_run_clauses lbl key (body x) (g, [e])).
Qed.

Lemma unique_on_run_query lbl key (q : list (stmt vector R)) (rs : list R) g :
  Forall (every_clause (merges_on lbl key)) q →
  unique_on lbl key g → unique_on lbl key (run_query q rs g).
Proof.
  intros Hq. unfold run_query.
  generalize (map (fun r => Env r []) rs). intros tbl.
  change g with (g, tbl).1 at 1. generalize (g, tbl). clear g tbl.
  induction Hq as [|s q Hs _ IH]; intros st Hu; [done|].
  cbn [foldl]. apply IH. by apply unique_on_run_stmt.
Qed.

End UniqueRuns.

(** The clauses of a literal query, one by one. *)
Ltac each_clause tac :=
  repeat first [ apply Forall_nil_2 | apply Forall_cons_2 ];
  cbn [Invariant.every_clause];
  try lazymatch goal with
      | |- ∀ _, Forall _ _ =>
          intros ?; repeat first [ apply Forall_nil_2 | apply Forall_cons_2 ]
      end;
  tac.

(** The keys of a literal [SET] are among those of a literal list. *)
Ltac keys_within :=
  simpl;
  lazymatch goal with
  | |- True => exact I
  | |- ∀ _, _ => intros ?; apply (bool_decide_unpack _); reflexivity
  end.

Section WritersKeep.
Import Invariant.
Context {vector : Type}.
Implicit Types (g : graph vector).

Lemma keeps_foldl {A} K (f : graph vector → A → graph vector) (l : list A) g :
  (∀ g x, keeps K g (f g x)) → keeps K g (foldl f g l).
Proof.
  intros Hf. revert g. induction l as [|x l IH]; intros g; [apply keeps_refl|].
  simpl. eapply keeps_trans; [apply Hf|apply IH].
Qed.

Lemma graph_writer_keeps (e : GraphWriter.event vector) g :
  keeps ["name"; "body"; "timestamp"; "embedding"; "source"] g
    (GraphWriter.write_event e g).
Proof.
  unfold GraphWriter.write_event.
  set (K := ["name"; "body"; "timestamp"; "embedding"; "source"]).
  assert (H1 : ∀ g, keeps K g (run_query GraphWriter.merge_actor [e] g)).
  { intros h. apply keeps_run_query.
    each_clause keys_within. }
  assert (H2 : ∀ g, keeps K g (run_query GraphWriter.merge_stream [e] g)).
  { intros h. apply keeps_run_query.
    each_clause keys_within. }
  assert (H3 : ∀ g, keeps K g (run_query GraphWriter.merge_message [e] g)).
  { intros h. apply keeps_run_query.
    each_clause keys_within. }
  assert (H4 : ∀ p g, keeps K g (run_query (GraphWriter.merge_reply p) [e] g)).
  { intros p h. apply keeps_run_query.
    each_clause keys_within. }
  eapply keeps_trans; [apply H1|]. eapply keeps_trans; [apply H2|].
  eapply keeps_trans; [apply H3|].
  destruct (GraphWriter.parent_event_id e) as [p|]; [|apply keeps_refl].
  destruct (str_truthy p); [apply H4|apply keeps_refl].
Qed.

Lemma benchmark_keeps (batch : list (Benchmark.row vector)) g :
  keeps ["name"; "body"; "timestamp"; "embedding"] g
    (Benchmark.write_batch batch g).
Proof.
  apply keeps_run_query.
  each_clause keys_within.
Qed.

Lemma ingestion_keeps (e : Ingestion.event vector) g :
  keeps ["name"; "body"; "timestamp"; "embedding"] g
    (Ingestion.write_batch e g).
Proof.
  unfold Ingestion.write_batch.
  set (K := ["name"; "body"; "timestamp"; "embedding"]).
  set (g1 := foldl _ g (Ingestion.contacts e)).
  set (g2 := run_query Ingestion.merge_conversation [e] g1).
  set (g3 := run_query Ingestion.merge_message [e] g2).
  assert (H1 : keeps K g g1).
  { apply keeps_foldl. intros h c. apply keeps_run_query.
    each_clause keys_within. }
  assert (H2 : keeps K g1 g2).
  { apply keeps_run_query. each_clause keys_within. }
  assert (H3 : keeps K g2 g3).
  { apply keeps_run_query. each_clause keys_within. }
  apply keeps_trans with g3.
  { by apply keeps_trans with g1; [|apply keeps_trans with g2]. }
  destruct (Ingestion.parent_id e) as [p|]; [|apply keeps_refl].
  destruct (str_truthy p); [|apply keeps_refl].
  apply keeps_run_query. each_clause keys_within.
Qed.

(** X8. The three writers only add to the store and overwrite attributes:
    whatever the events, a node of the store stays at its place with its
    label and all its properties but [name], [body], [timestamp],
    [embedding] (and [source] for [GraphWriter]), and every edge of the
    store stays. In particular no writer changes an [id] or removes a node
    or an edge. *)
Theorem writers_keep_the_store :
  (∀ (events : list (GraphWriter.event vector)) g,
     keeps ["name"; "body"; "timestamp"; "embedding"; "source"] g
       (GraphWriter.ingest events g))
  ∧ (∀ (batch : list (Benchmark.row vector)) g,
       keeps ["name"; "body"; "timestamp"; "embedding"] g
         (Benchmark.write_batch batch g))
  ∧ (∀ (e : Ingestion.event vector) g,
       keeps ["name"; "body"; "timestamp"; "embedding"] g
         (Ingestion.write_batch e g)).
Proof.
  split; [|split].
  - intros events g. unfold GraphWriter.ingest. apply keeps_foldl.
    intros h e. apply graph_writer_keeps.
  - apply benchmark_keeps.
  - apply ingestion_keeps.
Qed.

End WritersKeep.

Section WritersUnique.
Import Invariant.
Context {vector : Type}.
Implicit Types (g : graph vector).

Lemma unique_on_foldl {A} lbl key (f : graph vector → A → graph vector)
    (l : list A) g :
  (∀ g x, unique_on lbl key g → unique_on lbl key (f g x)) →
  unique_on lbl key g → unique_on lbl key (foldl f g l).
Proof.
  intros Hf. revert g. induction l as [|x l IH]; intros g Hu; [done|].
  simpl. by apply IH, Hf.
Qed.

Lemma unique_on_empty lbl key : unique_on lbl key (empty_graph (vector := vector)).
Proof. intros s. simpl. lia. Qed.

End WritersUnique.

(** A literal clause merges nodes labelled [lbl] on [key] alone, and sets
    other keys. *)
Ltac merges_on_key :=
  simpl;
  lazymatch goal with
  | |- True => exact I
  | |- _ = _ → _ =>
      first [ by intros ? | intros _ ?; eexists; reflexivity ]
  | |- ∀ _, _ ∉ _ => intros ?; apply (bool_decide_unpack _); reflexivity
  end.

Section WritersUniqueSpec.
Import Invariant.
Context {vector : Type}.
Implicit Types (g : graph vector).

Lemma graph_writer_unique lbl (e : GraphWriter.event vector) g :
  lbl = "Actor" ∨ lbl = "Message" →
  unique_on lbl "id" g → unique_on lbl "id" (GraphWriter.write_event e g).
Proof.
  intros Hl Hu. unfold GraphWriter.write_event.
  assert (H1 : unique_on lbl "id" (run_query GraphWriter.merge_actor [e] g)).
  { apply unique_on_run_query; [|done].
    destruct Hl as [-> | ->]; each_clause merges_on_key. }
  assert (H2 : unique_on lbl "id"
                 (run_query GraphWriter.merge_stream [e]
                    (run_query GraphWriter.merge_actor [e] g))).
  { apply unique_on_run_query; [|done].
    destruct Hl as [-> | ->]; each_clause merges_on_key. }
  assert (H3 : unique_on lbl "id"
                 (run_query GraphWriter.merge_message [e]
                    (run_query GraphWriter.merge_stream [e]
                       (run_query GraphWriter.merge_actor [e] g)))).
  { apply unique_on_run_query; [|done].
    destruct Hl as [-> | ->]; each_clause merges_on_key. }
  destruct (GraphWriter.parent_event_id e) as [p|]; [|done].
  destruct (str_truthy p); [|done].
  apply unique_on_run_query; [|done].
  destruct Hl as [-> | ->]; each_clause merges_on_key.
Qed.

Lemma benchmark_unique lbl (batch : list (Benchmark.row vector)) g :
  lbl = "Group" ∨ lbl = "User" ∨ lbl = "Message" →
  unique_on lbl "id" g → unique_on lbl "id" (Benchmark.write_batch batch g).
Proof.
  intros Hl Hu. apply unique_on_run_query; [|done].
  destruct Hl as [-> | [-> | ->]]; each_clause merges_on_key.
Qed.

Lemma ingestion_unique lbl key (e : Ingestion.event vector) g :
  (lbl = "User" ∧ key = "wa_id")
  ∨ (lbl = "Conversation" ∧ key = "id") ∨ (lbl = "Message" ∧ key = "id") →
  unique_on lbl key g → unique_on lbl key (Ingestion.write_batch e g).
Proof.
  intros Hl Hu. unfold Ingestion.write_batch.
  set (g1 := foldl _ g (Ingestion.contacts e)).
  assert (H1 : unique_on lbl key g1).
  { apply unique_on_foldl; [|done]. intros h c Hh.
    apply unique_on_run_query; [|done].
    destruct Hl as [[-> ->] | [[-> ->] | [-> ->]]]; each_clause merges_on_key. }
  assert (H2 : unique_on lbl key (run_query Ingestion.merge_conversation [e] g1)).
  { apply unique_on_run_query; [|done].
    destruct Hl as [[-> ->] | [[-> ->] | [-> ->]]]; each_clause merges_on_key. }
  assert (H3 : unique_on lbl key
                 (run_query Ingestion.merge_message [e]
                    (run_query Ingestion.merge_conversation [e] g1))).
  { apply unique_on_run_query; [|done].
    destruct Hl as [[-> ->] | [[-> ->] | [-> ->]]]; each_clause merges_on_key. }
  destruct (Ingestion.parent_id e) as [p|]; [|done].
  destruct (str_truthy p); [|done].
  apply unique_on_run_query; [|done].
  destruct Hl as [[-> ->] | [[-> ->] | [-> ->]]]; each_clause merges_on_key.
Qed.

(** X9. The writers keep identities unique: in a store where no two
    nodes of a label share an identity, none do after any list of events
    or any batch. This holds for the [id] of [Actor] and [Message] nodes
    ([GraphWriter]), of [Group], [User] and [Message] nodes (the benchmark
    [write_batch]), of [Conversation] and [Message] nodes and for the
    [wa_id] of [User] nodes (the third [write_batch]). *)
Theorem writers_keep_identities_unique :
  (∀ (events : list (GraphWriter.event vector)) g,
     (unique_on "Actor" "id" g
      → unique_on "Actor" "id" (GraphWriter.ingest events g))
     ∧ (unique_on "Message" "id" g
        → unique_on "Message" "id" (GraphWriter.ingest events g)))
  ∧ (∀ (batch : list (Benchmark.row vector)) g,
       (unique_on "Group" "id" g
        → unique_on "Group" "id" (Benchmark.write_batch batch g))
       ∧ (unique_on "User" "id" g
          → unique_on "User" "id" (Benchmark.write_batch batch g))
       ∧ (unique_on "Message" "id" g
          → unique_on "Message" "id" (Benchmark.write_batch batch g)))
  ∧ (∀ (e : Ingestion.event vector) g,
       (unique_on "User" "wa_id" g
        → unique_on "User" "wa_id" (Ingestion.write_batch e g))
       ∧ (unique_on "Conversation" "id" g
          → unique_on "Conversation" "id" (Ingestion.write_batch e g))
       ∧ (unique_on "Message" "id" g
          → unique_on "Message" "id" (Ingestion.write_batch e g))).
Proof.
  split; [|split].
  - intros events g. unfold GraphWriter.ingest.
    split; intros Hu; (apply unique_on_foldl; [|done]); intros h e Hh;
      apply graph_writer_unique; auto.
  - intros batch g. repeat split; intros Hu; apply benchmark_unique; auto.
  - intros e g. repeat split; intros Hu; apply ingestion_unique; auto.
Qed.

End WritersUniqueSpec.

Section WritersUniqueWitness.
Import Invariant Examples.

(** From the empty store, [M1] written twice and its reply. *)
Lemma writers_keep_identities_unique_witness :
  unique_on "Message" "id"
    (GraphWriter.ingest [stream_parent; stream_reply; stream_parent_edited]
       empty_graph)
  ∧ unique_on "Message" "id"
      (Benchmark.write_batch [row_reply; row_parent; row_parent_edited]
         empty_graph).
Proof.
  destruct (@writers_keep_identities_unique vec) as (HG & HB & _).
  split.
  - apply HG. intros s. simpl. lia.
  - apply HB. intros s. simpl. lia.
Defined.

End WritersUniqueWitness.

(** ** [GraphWriter.write_event], statement by statement *)

Section StoreLookups.
Context {vector : Type}.
Implicit Types (g h : graph vector) (pat : pattern).

Lemma ensure_lookup lbl pat g j (nd : node vector) :
  nodes g !! j = Some nd → nodes (ensure lbl pat g) !! j = Some nd.
Proof.
  intros H. destruct (ensure_nodes lbl pat g) as (new & -> & _).
  by apply lookup_app_l_Some.
Qed.

Lemma set_nodes_lookup_other ns
    (items : list (string * option (propval vector))) g j :
  j ∉ ns → nodes (set_nodes ns items g) !! j = nodes g !! j.
Proof.
  unfold set_nodes. revert g. induction ns as [|n ns IH]; intros g Hj; [done|].
  cbn [foldl]. rewrite IH by set_solver.
  rewrite set_props_lookup. rewrite decide_False; [done|]. set_solver.
Qed.

Lemma set_nodes_length ns (items : list (string * option (propval vector))) g :
  length (nodes (set_nodes ns items g)) = length (nodes g).
Proof.
  unfold set_nodes. revert g. induction ns as [|n ns IH]; intros g; [done|].
  cbn [foldl]. by rewrite IH, set_props_length.
Qed.

Lemma set_nodes_edges ns (items : list (string * option (propval vector))) g :
  edges (set_nodes ns items g) = edges g.
Proof.
  unfold set_nodes. revert g. induction ns as [|n ns IH]; intros g; [done|].
  cbn [foldl]. by rewrite IH.
Qed.

Lemma ensure_edges lbl pat g : edges (ensure lbl pat g) = edges g.
Proof. by destruct (ensure_nodes lbl pat g) as (new & _ & ->). Qed.

(** A node matches a pattern with one key: its label and the value. *)
Lemma node_matches_key lbl key s (nd : node vector) :
  node_matches lbl [(key, s)] nd = true
  ↔ label nd = lbl ∧ props nd !! key = Some (PStr s).
Proof.
  unfold node_matches, has_str. simpl. rewrite andb_true_r, andb_true_iff.
  rewrite String.eqb_eq. split; intros [Hl Hp]; (split; [done|]).
  - destruct (props nd !! key) as [[t| |]|]; try done.
    by apply String.eqb_eq in Hp as ->.
  - rewrite Hp. apply String.eqb_refl.
Qed.

(** A pattern matches the nodes of any pattern it is part of. *)
Lemma match_nodes_weaken lbl pat pat' g j :
  pat' ⊆ pat → j ∈ match_nodes lbl pat g → j ∈ match_nodes lbl pat' g.
Proof.
  intros Hsub. rewrite !elem_of_match_nodes. intros (nd & Hnd & Hm).
  exists nd. split; [done|]. unfold node_matches in *.
  apply andb_true_iff in Hm as [Hl Hp]. rewrite Hl. simpl.
  apply forallb_forall. intros kv Hkv.
  rewrite forallb_forall in Hp. apply Hp.
  apply list_elem_of_In, Hsub. by apply list_elem_of_In.
Qed.

End StoreLookups.

Section GraphWriterShape.
Import GraphWriter.
Context {vector : Type}.
Implicit Types (g h : graph vector) (e : event vector).

Lemma message_items_distinct e : distinct_keys (message_items e).
Proof.
  unfold message_items, distinct_keys. simpl.
  repeat (apply NoDup_cons; split;
          [rewrite ?not_elem_of_cons; repeat split;
             (done || by intros ?%elem_of_nil)|]).
  apply NoDup_nil_2.
Qed.

(** [write_event] as the node statements followed by three rounds of
    relationships, each between all the nodes that carry the identities. *)
Lemma write_event_run e g :
  let h := Nodes.graph_writer e g in
  ∃ p1 p2 pR : list (nat * nat),
    write_event e g
    = link_all pR "REPLIES_TO"
        (link_all p2 "HAS_EVENT" (link_all p1 "PRODUCED" h))
    ∧ match_nodes "Actor" [("id", actor_id e)] h ≠ []
    ∧ (∀ a m, (a, m) ∈ p1 ↔
         a ∈ match_nodes "Actor" [("id", actor_id e)] h
         ∧ m ∈ match_nodes "Message" [("id", event_id e)] h)
    ∧ (∀ s m, (s, m) ∈ p2 ↔
         s ∈ match_nodes "Stream" [("id", stream_id e)] h
         ∧ m ∈ match_nodes "Message" [("id", event_id e)] h)
    ∧ (∀ c q, (c, q) ∈ pR ↔
         ∃ parent, parent_event_id e = Some parent
           ∧ str_truthy parent = true
           ∧ c ∈ match_nodes "Message" [("id", event_id e)] h
           ∧ q ∈ match_nodes "Message" [("id", parent)] h).
Proof.
  intros h. unfold write_event.
  rewrite merge_actor_run.
  destruct (merge_node_result "Actor" [("id", actor_id e)] g
              (distinct_keys_1 _ _)) as [_ HA].
  set (g0 := ensure "Actor" [("id", actor_id e)] g) in *.
  destruct (all_have_set_nodes "Actor" [("id", actor_id e)]
              [("name", PStr <$> actor_name e)] _ g0
              (distinct_keys_1 _ _) eq_refl (fun n => reflexivity _))
    as [Hf _].
  set (gA := set_nodes _ _ g0) in *.
  push_frame Hf. clear Hf.
  rewrite merge_stream_run.
  push_ensure "Stream"
    [("id", stream_id e); ("source", source_value (source e))] gA.
  set (gB := ensure "Stream" _ gA) in *.
  destruct (merge_message_run e gB) as (ns & p1 & p2 & Hrun & Hns & Hp1 & Hp2).
  cbv zeta in *. rewrite Hrun. clear Hrun.
  push_ensure "Message" [("id", event_id e)] gB.
  set (g1 := ensure "Message" [("id", event_id e)] gB) in *. subst ns.
  destruct (all_have_set_nodes "Message" [("id", event_id e)]
              (message_items e) (match_nodes "Message" [("id", event_id e)] g1)
              g1 (message_items_distinct e) eq_refl (fun n => reflexivity _))
    as [Hf _].
  change (set_nodes (match_nodes "Message" [("id", event_id e)] g1)
            (message_items e) g1) with h in *.
  change (set_nodes (match_nodes "Message" [("id", event_id e)] g1)
            [("body", Some (PStr (content e)));
             ("timestamp", Some (PInt (timestamp e)));
             ("embedding", PVec <$> embedding e);
             ("source", Some (PStr (source_value (source e))))] g1)
    with h in *.
  assert (HMs : ∀ x, match_nodes "Message" [("id", x)] h
                     = match_nodes "Message" [("id", x)] g1).
  { intros x. by apply (match_nodes_frame _ _ _ _ _ _ Hf). }
  rewrite <- HMs in Hp1, Hp2. push_frame Hf. clear Hf.
  rewrite match_nodes_link_all in Hp2.
  set (gC := link_all p2 "HAS_EVENT" (link_all p1 "PRODUCED" h)).
  assert (HC : ∀ lbl pat, match_nodes lbl pat gC = match_nodes lbl pat h).
  { intros lbl pat. unfold gC. by rewrite !match_nodes_link_all. }
  assert (Hp2' : ∀ s m, (s, m) ∈ p2 ↔
            s ∈ match_nodes "Stream" [("id", stream_id e)] h
            ∧ m ∈ match_nodes "Message" [("id", event_id e)] h).
  { intros s m. rewrite Hp2. tauto. }
  destruct (parent_event_id e) as [parent|] eqn:Ep.
  - destruct (str_truthy parent) eqn:Et.
    + destruct (merge_reply_run parent e gC) as (pR & -> & HpR).
      exists p1, p2, pR. split; [done|]. split; [done|]. split; [exact Hp1|]. split; [exact Hp2'|].
      intros c q. split.
      * intros [Hc Hq]%HpR. rewrite !HC in Hc, Hq. by exists parent.
      * intros (parent' & Hp' & _ & Hc & Hq). injection Hp' as <-.
        apply HpR. by rewrite !HC.
    + exists p1, p2, []. split; [done|]. split; [done|]. split; [exact Hp1|]. split; [exact Hp2'|].
      intros c q. split.
      * by intros ?%elem_of_nil.
      * intros (parent' & Hp' & Ht & _). injection Hp' as <-. congruence.
  - exists p1, p2, []. split; [done|]. split; [done|]. split; [exact Hp1|]. split; [exact Hp2'|].
    intros c q. split.
    + by intros ?%elem_of_nil.
    + by intros (parent' & Hp' & _).
Qed.

Lemma write_event_nodes e g :
  nodes (write_event e g) = nodes (Nodes.graph_writer e g).
Proof.
  destruct (write_event_run e g) as (p1 & p2 & pR & -> & _).
  by rewrite !link_all_nodes.
Qed.

Lemma write_event_match lbl pat e g :
  match_nodes lbl pat (write_event e g)
  = match_nodes lbl pat (Nodes.graph_writer e g).
Proof. unfold match_nodes. by rewrite write_event_nodes. Qed.

Lemma graph_writer_nodes_edges e g : edges (Nodes.graph_writer e g) = edges g.
Proof.
  unfold Nodes.graph_writer.
  by rewrite !set_nodes_edges, !ensure_edges, set_nodes_edges, ensure_edges.
Qed.

End GraphWriterShape.

Section GraphWriterEdges.
Import GraphWriter.
Context {vector : Type}.
Implicit Types (g h : graph vector) (e : event vector).

(** The edges after [write_event]: those of the store, and the three
    rounds of relationships. *)
Lemma write_event_edges_run e g (x : edge) :
  let g' := write_event e g in
  x ∈ edges g' ↔
    x ∈ edges g
    ∨ (∃ a m, a ∈ match_nodes "Actor" [("id", actor_id e)] g'
              ∧ m ∈ match_nodes "Message" [("id", event_id e)] g'
              ∧ x = (a, "PRODUCED", m))
    ∨ (∃ s m, s ∈ match_nodes "Stream" [("id", stream_id e)] g'
              ∧ m ∈ match_nodes "Message" [("id", event_id e)] g'
              ∧ x = (s, "HAS_EVENT", m))
    ∨ (∃ parent m q,
         parent_event_id e = Some parent ∧ str_truthy parent = true
         ∧ m ∈ match_nodes "Message" [("id", event_id e)] g'
         ∧ q ∈ match_nodes "Message" [("id", parent)] g'
         ∧ x = (m, "REPLIES_TO", q)).
Proof.
  intros g'. unfold g'. setoid_rewrite write_event_match.
  destruct (write_event_run e g) as (p1 & p2 & pR & -> & _ & Hp1 & Hp2 & HpR).
  rewrite !elem_of_link_all, graph_writer_nodes_edges.
  split.
  - intros [[[Hx|(p & Hp & ->)]|(p & Hp & ->)]|(p & Hp & ->)].
    + by left.
    + right; left. destruct p as [a m]. apply Hp1 in Hp as [Ha Hm].
      by exists a, m.
    + right; right; left. destruct p as [s m]. apply Hp2 in Hp as [Hs Hm].
      by exists s, m.
    + right; right; right. destruct p as [c q].
      apply HpR in Hp as (parent & Hp & Ht & Hc & Hq). by exists parent, c, q.
  - intros [Hx|[(a & m & Ha & Hm & ->)|[(s & m & Hs & Hm & ->)
                                       |(parent & m & q & Hp & Ht & Hm & Hq & ->)]]].
    + by repeat left.
    + left; left; right. exists (a, m). split; [by apply Hp1|done].
    + left; right. exists (s, m). split; [by apply Hp2|done].
    + right. exists (m, q). split; [|done]. apply HpR. by exists parent.
Qed.

(** X10. The edges [write_event] leaves are those of the store and, between
    all the nodes that carry the identities of the event: a [PRODUCED] edge
    from the actor to the message, a [HAS_EVENT] edge from every [Stream]
    node with the stream id, whatever its source, to the message, and for
    an event with a parent reference a [REPLIES_TO] edge from the message
    to the [Message] nodes with the parent id. The actor, the stream and
    the message are in the store afterwards. *)
Theorem write_event_edges e g :
  let g' := write_event e g in
  let actors := match_nodes "Actor" [("id", actor_id e)] g' in
  let streams := match_nodes "Stream" [("id", stream_id e)] g' in
  let messages := match_nodes "Message" [("id", event_id e)] g' in
  actors ≠ [] ∧ streams ≠ [] ∧ messages ≠ []
  ∧ ∀ x : edge, x ∈ edges g' ↔
      x ∈ edges g
      ∨ (∃ a m, a ∈ actors ∧ m ∈ messages ∧ x = (a, "PRODUCED", m))
      ∨ (∃ s m, s ∈ streams ∧ m ∈ messages ∧ x = (s, "HAS_EVENT", m))
      ∨ (∃ parent m q,
           parent_event_id e = Some parent ∧ str_truthy parent = true
           ∧ m ∈ messages
           ∧ q ∈ match_nodes "Message" [("id", parent)] g'
           ∧ x = (m, "REPLIES_TO", q)).
Proof.
  intros g' actors streams messages.
  destruct (write_event_settles e g) as (HA & _ & HS & HM & _).
  fold g' in HA, HS, HM.
  split; [done|]. split.
  { destruct (match_nodes "Stream"
                [("id", stream_id e); ("source", source_value (source e))] g')
      as [|s l] eqn:Hs; [done|].
    assert (s ∈ streams) as Hin.
    { apply (match_nodes_weaken "Stream"
               [("id", stream_id e); ("source", source_value (source e))]).
      - intros kv ->%list_elem_of_singleton. left.
      - rewrite Hs. left. }
    intros Hnil. rewrite Hnil in Hin. by apply elem_of_nil in Hin. }
  split; [done|].
  intros x. apply write_event_edges_run.
Qed.

End GraphWriterEdges.

Section GraphWriterTouches.
Import GraphWriter.
Context {vector : Type}.
Implicit Types (g h : graph vector) (e : event vector).

Lemma ensure_length lbl pat g :
  (length (nodes g) ≤ length (nodes (ensure lbl pat g)) ≤ S (length (nodes g)))%nat.
Proof.
  unfold ensure, merge_node. destruct (match_nodes lbl pat g); simpl; [|lia].
  rewrite length_app. simpl. lia.
Qed.

(** A node that is in the store and does not carry the identity is not
    among the nodes a [MERGE] on that identity binds. *)
Lemma not_matched_after_ensure lbl key s lbl' pat' g j (nd : node vector) :
  nodes g !! j = Some nd →
  ¬ (label nd = lbl ∧ props nd !! key = Some (PStr s)) →
  j ∉ match_nodes lbl [(key, s)] (ensure lbl' pat' g).
Proof.
  intros Hj Hnot (nd' & Hnd' & Hm)%elem_of_match_nodes.
  rewrite (ensure_lookup lbl' pat' g j nd Hj) in Hnd'. injection Hnd' as <-.
  by apply node_matches_key in Hm.
Qed.

Lemma graph_writer_lookup_other e g j (nd : node vector) :
  nodes g !! j = Some nd →
  ¬ (label nd = "Actor" ∧ props nd !! "id" = Some (PStr (actor_id e))) →
  ¬ (label nd = "Message" ∧ props nd !! "id" = Some (PStr (event_id e))) →
  nodes (Nodes.graph_writer e g) !! j = Some nd.
Proof.
  intros Hj HA HM. unfold Nodes.graph_writer.
  set (g1 := ensure "Actor" _ g).
  set (g2 := set_nodes _ _ g1).
  set (g3 := ensure "Stream" _ g2).
  set (g4 := ensure "Message" _ g3).
  assert (H2 : nodes g2 !! j = Some nd).
  { unfold g2. rewrite set_nodes_lookup_other.
    - by apply ensure_lookup.
    - by apply (not_matched_after_ensure _ _ _ _ _ g j nd). }
  assert (H3 : nodes g3 !! j = Some nd) by by apply ensure_lookup.
  rewrite set_nodes_lookup_other.
  - by apply ensure_lookup.
  - by apply (not_matched_after_ensure _ _ _ _ _ g3 j nd).
Qed.

Lemma graph_writer_length e g :
  (length (nodes g) ≤ length (nodes (Nodes.graph_writer e g))
   ≤ length (nodes g) + 3)%nat.
Proof.
  unfold Nodes.graph_writer. rewrite !set_nodes_length.
  set (g1 := ensure "Actor" _ g).
  pose proof (ensure_length "Actor" [("id", actor_id e)] g) as H1.
  fold g1 in H1.
  set (g2 := set_nodes _ _ g1).
  assert (H2 : length (nodes g2) = length (nodes g1))
    by apply set_nodes_length.
  set (g3 := ensure "Stream" _ g2).
  pose proof (ensure_length "Stream"
                [("id", stream_id e); ("source", source_value (source e))] g2)
    as H3.
  fold g3 in H3.
  pose proof (ensure_length "Message" [("id", event_id e)] g3) as H4.
  lia.
Qed.

(** The [Message] nodes with another id than the event's, across
    [write_event]: the same nodes, unchanged. *)
Lemma write_event_other_message e g x :
  event_id e ≠ x →
  match_nodes "Message" [("id", x)] (write_event e g)
  = match_nodes "Message" [("id", x)] g
  ∧ ∀ m, m ∈ match_nodes "Message" [("id", x)] g →
      nodes (write_event e g) !! m = nodes g !! m.
Proof.
  intros Hx. split.
  - rewrite write_event_match. unfold Nodes.graph_writer.
    set (g1 := ensure "Actor" _ g).
    set (g2 := set_nodes _ _ g1).
    set (g3 := ensure "Stream" _ g2).
    set (g4 := ensure "Message" _ g3).
    destruct (all_have_set_nodes "Message" [("id", event_id e)]
                (message_items e)
                (match_nodes "Message" [("id", event_id e)] g4)
                g4 (message_items_distinct e) eq_refl (fun n => reflexivity _))
      as [Hf4 _].
    rewrite (match_nodes_frame _ _ "Message" [("id", x)] _ _ Hf4 eq_refl).
    unfold g4. rewrite match_nodes_ensure; last first.
    { right. rewrite created_matches_key.
      by rewrite (proj2 (String.eqb_neq _ _) Hx). }
    unfold g3. rewrite match_nodes_ensure by (by right).
    destruct (all_have_set_nodes "Actor" [("id", actor_id e)]
                [("name", PStr <$> actor_name e)]
                (match_nodes "Actor" [("id", actor_id e)] g1)
                g1 (distinct_keys_1 _ _) eq_refl (fun n => reflexivity _))
      as [Hf2 _].
    fold g2 in Hf2.
    rewrite (match_nodes_frame _ _ "Message" [("id", x)] _ _ Hf2 eq_refl).
    unfold g1. by rewrite match_nodes_ensure by (by right).
  - intros m (nd & Hnd & Hm)%elem_of_match_nodes.
    apply node_matches_key in Hm as [Hl Hid].
    rewrite write_event_nodes, Hnd.
    apply graph_writer_lookup_other; [done|..].
    + intros [Hl' _]. congruence.
    + intros [_ Hid']. congruence.
Qed.

(** X11. [write_event] changes no node but the actors with the actor id
    of the event and the messages with its event id: any other node of the
    store is the same afterwards, label and properties. It adds at most
    three nodes. *)
Theorem write_event_touches_only e g :
  let g' := write_event e g in
  (∀ j nd, nodes g !! j = Some nd →
     ¬ (label nd = "Actor" ∧ props nd !! "id" = Some (PStr (actor_id e))) →
     ¬ (label nd = "Message" ∧ props nd !! "id" = Some (PStr (event_id e))) →
     nodes g' !! j = Some nd)
  ∧ (length (nodes g) ≤ length (nodes g') ≤ length (nodes g) + 3)%nat.
Proof.
  intros g'. unfold g'. rewrite write_event_nodes. split.
  - intros j nd. apply graph_writer_lookup_other.
  - apply graph_writer_length.
Qed.

(** X12. In a list of events, the last event with a given id decides what
    is stored for the message: after [ingest], every [Message] node with
    the id of an event that no later event of the list shares has the
    body, the timestamp, the embedding and the source of that event. *)
Theorem ingest_last_event_wins (before later : list (event vector)) e g :
  (∀ e', e' ∈ later → event_id e' ≠ event_id e) →
  let g' := ingest (before ++ e :: later) g in
  match_nodes "Message" [("id", event_id e)] g' ≠ []
  ∧ ∀ m, m ∈ match_nodes "Message" [("id", event_id e)] g' →
      prop_at g' m "body" = Some (PStr (content e))
      ∧ prop_at g' m "timestamp" = Some (PInt (timestamp e))
      ∧ prop_at g' m "embedding" = PVec <$> embedding e
      ∧ prop_at g' m "source" = Some (PStr (source_value (source e))).
Proof.
  intros Hlater g'. unfold g', ingest. rewrite foldl_app. cbn [foldl].
  set (g0 := foldl (fun g e => write_event e g) g before).
  destruct (write_event_settles e g0) as (_ & _ & _ & HM & HMi & _).
  set (g1 := write_event e g0) in *. clearbody g1. clear g0 g'.
  assert (Hinv : match_nodes "Message" [("id", event_id e)]
                   (foldl (fun g e => write_event e g) g1 later) ≠ []
                 ∧ all_have "Message" [("id", event_id e)] (message_items e)
                     (foldl (fun g e => write_event e g) g1 later)).
  { revert g1 HM HMi. induction later as [|e' later IH]; intros g1 HM HMi.
    - done.
    - cbn [foldl].
      destruct (write_event_other_message e' g1 (event_id e)) as [Hsame Hnodes].
      { apply Hlater. left. }
      apply IH.
      + intros e'' He''. apply Hlater. by right.
      + by rewrite Hsame.
      + intros m k v Hm Hkv. rewrite Hsame in Hm.
        unfold prop_at. rewrite (Hnodes m Hm). by apply HMi. }
  destruct Hinv as [HM' HMi']. split; [done|].
  intros m Hm.
  repeat split; apply (HMi' m); try done; unfold message_items;
    set_unfold; tauto.
Qed.

End GraphWriterTouches.

Section GraphWriterTouchesWitness.
Import GraphWriter Examples.

(** [M1], its reply, and [M1] again with another body. *)
Lemma ingest_last_event_wins_witness :
  let g' := ingest ([stream_parent; stream_reply]
                    ++ stream_parent_edited :: [stream_reply]) empty_graph in
  match_nodes "Message" [("id", "M1")] g' ≠ []
  ∧ ∀ m, m ∈ match_nodes "Message" [("id", "M1")] g' →
      prop_at g' m "body" = Some (PStr "Lunch at one?")
      ∧ prop_at g' m "timestamp" = Some (PInt 1700000000)
      ∧ prop_at g' m "embedding" = PVec <$> Some [5; 6]%Z
      ∧ prop_at g' m "source" = Some (PStr "whatsapp").
Proof.
  apply (ingest_last_event_wins [stream_parent; stream_reply] [stream_reply]
           stream_parent_edited empty_graph).
  intros e' ->%list_elem_of_singleton. discriminate.
Defined.

End GraphWriterTouchesWitness.

Section GraphWriterReplies.
Import GraphWriter.
Context {vector : Type}.
Implicit Types (g h : graph vector) (e : event vector).

(** X13. How [write_event] resolves a parent reference. The message gets a
    [REPLIES_TO] edge to every [Message] node with the parent id that is in
    the store when the event is written, itself included when the event
    names itself as its parent. When the parent is not in the store,
    nothing stands in for it and no [REPLIES_TO] edge is written; writing
    the parent afterwards, as an event without a parent of its own, stores
    the parent and still adds no [REPLIES_TO] edge. *)
Theorem write_event_parent_reference e g parent :
  parent_event_id e = Some parent → str_truthy parent = true →
  let g' := write_event e g in
  (∀ m q, m ∈ match_nodes "Message" [("id", event_id e)] g' →
          q ∈ match_nodes "Message" [("id", parent)] g' →
          (m, "REPLIES_TO", q) ∈ edges g')
  ∧ (parent = event_id e →
       ∃ m, m ∈ match_nodes "Message" [("id", event_id e)] g'
            ∧ (m, "REPLIES_TO", m) ∈ edges g')
  ∧ (parent ≠ event_id e →
       match_nodes "Message" [("id", parent)] g = [] →
       match_nodes "Message" [("id", parent)] g' = []
       ∧ (∀ c q, (c, "REPLIES_TO", q) ∈ edges g' →
                 (c, "REPLIES_TO", q) ∈ edges g)
       ∧ ∀ p, event_id p = parent → parent_event_id p = None →
           match_nodes "Message" [("id", parent)] (write_event p g') ≠ []
           ∧ ∀ c q, (c, "REPLIES_TO", q) ∈ edges (write_event p g') →
                    (c, "REPLIES_TO", q) ∈ edges g).
Proof.
  intros Hp Ht g'.
  destruct (write_event_settles e g) as (_ & _ & _ & HM & _ & _ & _ & HR).
  specialize (HR parent Hp Ht). fold g' in HM, HR.
  split; [exact HR|]. split.
  - intros ->.
    destruct (match_nodes "Message" [("id", event_id e)] g') as [|m l] eqn:Hm;
      [done|].
    exists m. split; [left|]. apply HR; rewrite Hm; left.
  - intros Hne Hnone.
    destruct (write_event_other_message e g parent) as [Hsame _]; [done|].
    fold g' in Hsame. rewrite Hnone in Hsame.
    assert (Hreplies : ∀ c q, (c, "REPLIES_TO", q) ∈ edges g' →
                              (c, "REPLIES_TO", q) ∈ edges g).
    { intros c q
        [Hx|[(a & m & _ & _ & Hx)|[(s & m & _ & _ & Hx)
            |(parent' & m & q' & Hp' & _ & _ & Hq & Hx)]]]%write_event_edges_run;
        [done|discriminate|discriminate|].
      rewrite Hp in Hp'. injection Hp' as <-. fold g' in Hq.
      rewrite Hsame in Hq. by apply elem_of_nil in Hq. }
    split; [done|]. split; [done|].
    intros p Hid Hpp.
    destruct (write_event_settles p g') as (_ & _ & _ & HMp & _).
    rewrite Hid in HMp. split; [done|].
    intros c q
      [Hx|[(a & m & _ & _ & Hx)|[(s & m & _ & _ & Hx)
          |(parent' & m & q' & Hp' & _)]]]%write_event_edges_run;
      [by apply Hreplies|discriminate|discriminate|congruence].
Qed.

End GraphWriterReplies.

Section GraphWriterRepliesWitness.
Import GraphWriter Examples.

(** [M2], the reply to [M1], written to the empty store, then [M1]. *)
Lemma write_event_parent_reference_witness :
  match_nodes "Message" [("id", "M1")]
    (write_event stream_reply empty_graph) = []
  ∧ match_nodes "Message" [("id", "M1")]
      (write_event stream_parent (write_event stream_reply empty_graph)) ≠ []
  ∧ ∀ c q, (c, "REPLIES_TO", q)
             ∈ edges (write_event stream_parent
                        (write_event stream_reply empty_graph)) →
           (c, "REPLIES_TO", q) ∈ edges (empty_graph (vector := vec)).
Proof.
  destruct (write_event_parent_reference stream_reply empty_graph "M1"
              eq_refl eq_refl) as (_ & _ & H).
  destruct H as (H1 & _ & H3); [discriminate|reflexivity|].
  destruct (H3 stream_parent eq_refl eq_refl) as [H4 H5].
  split; [exact H1|]. split; [exact H4|exact H5].
Defined.

End GraphWriterRepliesWitness.

(** ** The third writer: [write_batch] of [whatsapp-ingested-graphiti] *)

Section RunInvariant.
Import Invariant.
Context {vector R : Type}.
Implicit Types (g h : graph vector).

(** A property of the store that every clause of a query keeps is kept by
    the query. *)
Lemma run_query_invariant (I : graph vector → Prop)
    (P : clause vector R → Prop) (q : list (stmt vector R)) (rs : list R) g :
  (∀ c g e, P c → I g → I (step c g e).1) →
  Forall (every_clause P) q → I g → I (run_query q rs g).
Proof.
  intros Hstep Hq.
  assert (Hrows : ∀ (f : graph vector → env R → graph vector * list (env R)),
            (∀ g e, I g → I (f g e).1) →
            ∀ tbl g, I g → I (run_rows f g tbl).1).
  { intros f Hf tbl. induction tbl as [|e rest IH]; intros h Hh; [done|].
    cbn [run_rows]. pose proof (Hf h e Hh) as H1.
    destruct (f h e) as [g1 o1]. pose proof (IH g1 H1) as H2.
    by destruct (run_rows f g1 rest) as [g2 o2]. }
  assert (Hcs : ∀ cs, Forall P cs → ∀ st, I st.1 → I (run_clauses cs st).1).
  { intros cs Hcs. induction Hcs as [|c cs Hc _ IH]; intros st Hst; [done|].
    unfold run_clauses. cbn [foldl]. fold (run_clauses cs (run_clause st c)).
    apply IH. unfold run_clause. apply Hrows; [|done].
    intros. by apply Hstep. }
  unfold run_query.
  generalize (map (fun r => Env r []) rs). intros tbl.
  change g with (g, tbl).1 at 1. generalize (g, tbl). clear g tbl.
  induction Hq as [|s q Hs _ IH]; intros st Hst; [done|].
  cbn [foldl]. apply IH. destruct s as [c|X items body]; simpl in *.
  - unfold run_clause. apply Hrows; [|done]. intros. by apply Hstep.
  - apply Hrows; [|done]. intros h e. unfold foreach_step. simpl.
    generalize (items (row e)). intros l. revert h.
    induction l as [|x l IHl]; intros h Hh; [done|].
    cbn [foldl]. apply IHl. by apply (Hcs (body x) (Hs x) (h, [e])).
Qed.

Lemma match_nodes_run_query lbl key s (q : list (stmt vector R))
    (rs : list R) g :
  Forall (every_clause (creates_no lbl key s)) q →
  match_nodes lbl [(key, s)] (run_query q rs g)
  = match_nodes lbl [(key, s)] g.
Proof.
  intros Hq.
  apply (run_query_invariant
           (fun h => match_nodes lbl [(key, s)] h
                     = match_nodes lbl [(key, s)] g)
           (creates_no lbl key s)); [|done..].
  intros c h e Hc Hh.
  destruct c as [x l pat|x l pat|x items|a ty b|xs]; cbn [step]; try done.
  - unfold merge_node. destruct (match_nodes l (pat (row e)) h); simpl; [|done].
    rewrite match_nodes_create, (Hc (row e)). by rewrite app_nil_r.
  - simpl. destruct (assoc x (vars e)); [|done].
    by rewrite match_nodes_set_props by apply Hc.
  - simpl. destruct (assoc a (vars e)), (assoc b (vars e)); try done.
    by rewrite match_nodes_add_edge.
Qed.

End RunInvariant.

Section IngestionRuns.
Import Ingestion IngestionSettled.
Context {vector : Type}.
Implicit Types (g h : graph vector) (e : event vector).

Lemma ingestion_user_run w n e g :
  run_query (merge_user w n) [e] g
  = set_nodes (match_nodes "User" [("wa_id", w)]
                 (ensure "User" [("wa_id", w)] g))
      [("name", Some (PStr n))]
      (ensure "User" [("wa_id", w)] g).
Proof.
  rewrite run_query_rows. unfold merge_user. cbn [foldl].
  rewrite stmt_merge by (done || apply distinct_keys_1).
  rewrite stmt_set. cbn [fst]. by rewrite bound_extend_nil.
Qed.

Lemma ingestion_conversation_run e g :
  run_query merge_conversation [e] g
  = ensure "Conversation" [("id", conversation_id e)] g.
Proof.
  rewrite run_query_rows. unfold merge_conversation. cbn [foldl].
  by rewrite stmt_merge by (done || apply distinct_keys_1).
Qed.

(** The rows of the third statement: after [MERGE (m)], after
    [MATCH (u)], after [MATCH (c)]. *)
Lemma ingestion_message_run e g :
  ∃ (p1 p2 : list (nat * nat)),
    let g1 := ensure "Message" [("id", message_id e)] g in
    let g2 := set_nodes (match_nodes "Message" [("id", message_id e)] g1)
                (message_items e) g1 in
    run_query merge_message [e] g
    = link_all p2 "HAS_MESSAGE" (link_all p1 "SENT" g2)
    ∧ (∀ u m, (u, m) ∈ p1 ↔
         u ∈ match_nodes "User" [("wa_id", from e)] g2
         ∧ m ∈ match_nodes "Message" [("id", message_id e)] g1)
    ∧ (∀ c m, (c, m) ∈ p2 ↔
         c ∈ match_nodes "Conversation" [("id", conversation_id e)] g2
         ∧ m ∈ match_nodes "Message" [("id", message_id e)] g1
         ∧ match_nodes "User" [("wa_id", from e)] g2 ≠ []).
Proof.
  rewrite run_query_rows. unfold merge_message. cbn [foldl].
  rewrite stmt_merge by (done || apply distinct_keys_1).
  rewrite stmt_set, stmt_with, stmt_match, stmt_merge_rel, stmt_with,
    stmt_match, stmt_merge_rel. cbn [fst].
  rewrite bound_extend_nil. rewrite match_nodes_link_all.
  set (g1 := ensure "Message" [("id", message_id e)] g).
  set (Ms := match_nodes "Message" [("id", message_id e)] g1).
  change (set_nodes Ms _ g1) with (set_nodes Ms (message_items e) g1).
  set (g2 := set_nodes Ms (message_items e) g1).
  set (Us := match_nodes "User" [("wa_id", from e)] g2).
  set (T3 := extend "u" Us (map (keep ["m"]) (extend "m" Ms [[]]))).
  set (Cs := match_nodes "Conversation" [("id", conversation_id e)] g2).
  set (T5 := extend "c" Cs (map (keep ["m"]) T3)).
  exists (bound2 "u" "m" T3), (bound2 "c" "m" T5).
  split; [done|].
  assert (∀ vs, vs ∈ map (keep ["m"]) (extend "m" Ms [[]]) ↔
                ∃ m, m ∈ Ms ∧ vs = [("m", m)]) as HT2.
  { intros vs. rewrite list_elem_of_fmap. split.
    - intros (vs' & -> & (vs0 & m & ->%list_elem_of_singleton & Hm & ->)
                         %elem_of_extend). by exists m.
    - intros (m & Hm & ->). exists [("m", m)]. split; [done|].
      apply elem_of_extend. exists [], m. by rewrite list_elem_of_singleton. }
  assert (∀ vs, vs ∈ T3 ↔
                ∃ u m, u ∈ Us ∧ m ∈ Ms ∧ vs = [("u", u); ("m", m)]) as HT3.
  { intros vs. unfold T3. rewrite elem_of_extend. split.
    - intros (vs0 & u & (m & Hm & ->)%HT2 & Hu & ->). by exists u, m.
    - intros (u & m & Hu & Hm & ->). exists [("m", m)], u.
      split; [apply HT2; by exists m | done]. }
  split.
  - intros u m. rewrite elem_of_bound2. simpl. split.
    + intros (vs & (u' & m' & Hu & Hm & ->)%HT3 & Hvu & Hvm).
      simpl in Hvu, Hvm. by simplify_eq.
    + intros [Hu Hm]. exists [("u", u); ("m", m)].
      split; [apply HT3; by exists u, m | done].
  - intros c m. rewrite elem_of_bound2. simpl. split.
    + intros (vs & (vs' & c' & Hvs' & Hc & ->)%elem_of_extend & Hvc & Hvm).
      apply list_elem_of_fmap in Hvs' as (vs3 & -> & Hvs3).
      apply HT3 in Hvs3 as (u' & m' & Hu & Hm & ->).
      simpl in Hvc, Hvm. simplify_eq. repeat split; [done..|].
      intros Hnil. change (Us = []) in Hnil. rewrite Hnil in Hu.
      by apply elem_of_nil in Hu.
    + intros (Hc & Hm & Hne).
      destruct Us as [|u Us'] eqn:EUs; [done|].
      exists [("c", c); ("m", m)]. split; [|done].
      apply elem_of_extend. exists [("m", m)], c. split; [|done].
      apply list_elem_of_fmap. exists [("u", u); ("m", m)]. split; [done|].
      apply HT3. exists u, m. split; [left | done].
Qed.

Lemma ingestion_reply_run parent e g :
  ∃ p : list (nat * nat),
    run_query (merge_reply parent) [e] g = link_all p "REPLY_TO" g
    ∧ ∀ c q, (c, q) ∈ p ↔
        c ∈ match_nodes "Message" [("id", message_id e)] g
        ∧ q ∈ match_nodes "Message" [("id", parent)] g.
Proof.
  rewrite run_query_rows. unfold merge_reply. cbn [foldl].
  rewrite !stmt_match, stmt_merge_rel. cbn [fst].
  eexists. split; [done|]. intros c q. rewrite elem_of_bound2.
  cbn [fst snd]. split.
  - intros (vs & (vs' & q' & (vs0 & c' & ->%list_elem_of_singleton & Hc & ->)
                    %elem_of_extend & Hq & ->)%elem_of_extend & Hvc & Hvq).
    simpl in Hvc, Hvq. by simplify_eq.
  - intros [Hc Hq]. exists [("parent", q); ("child", c)]. split; [|done].
    apply elem_of_extend. exists [("child", c)], q. split; [|done].
    apply elem_of_extend. exists [], c. by rewrite list_elem_of_singleton.
Qed.

Lemma ingestion_items_distinct e : distinct_keys (message_items e).
Proof.
  unfold message_items, distinct_keys. simpl.
  repeat (apply NoDup_cons; split;
          [rewrite ?not_elem_of_cons; repeat split;
             (done || by intros ?%elem_of_nil)|]).
  apply NoDup_nil_2.
Qed.

(** On a store in which [e] is written, writing [e] changes nothing. *)
Lemma ingestion_write_settled e g : settled e g → write_batch e g = g.
Proof.
  intros (HC & HV & HM & HMi & HS & HH & HR).
  unfold write_batch.
  assert (foldl (fun g c => run_query (merge_user c.1 c.2) [e] g) g
            (contacts e) = g) as ->.
  { assert (∀ l, l ⊆ contacts e →
              foldl (fun g c => run_query (merge_user c.1 c.2) [e] g) g l = g)
      as Hl; [|by apply Hl].
    induction l as [|[w n] l IH]; intros Hsub; [done|].
    cbn [foldl fst snd].
    destruct (HC w n) as [Hw Hn]; [apply Hsub; left|].
    rewrite ingestion_user_run, ensure_noop by done.
    rewrite set_nodes_noop.
    - apply IH. intros x Hx. apply Hsub. by right.
    - intros m k v Hm Hkv _. by apply Hn. }
  assert (run_query merge_conversation [e] g = g) as ->.
  { by rewrite ingestion_conversation_run, ensure_noop. }
  assert (run_query merge_message [e] g = g) as ->.
  { destruct (ingestion_message_run e g) as (p1 & p2 & Hrun & Hp1 & Hp2).
    cbv zeta in *. rewrite ensure_noop in * by done.
    assert (set_nodes (match_nodes "Message" [("id", message_id e)] g)
              (message_items e) g = g) as Hset.
    { apply set_nodes_noop. intros n k v Hn Hkv _. by apply HMi. }
    rewrite Hset in *.
    assert (link_all p1 "SENT" g = g) as Hl1.
    { apply link_all_noop. intros [u m] [Hu Hm]%Hp1. by apply HS. }
    rewrite Hl1 in *. rewrite Hrun.
    apply link_all_noop. intros [c m] (Hc & Hm & Hne)%Hp2. by apply HH. }
  destruct (parent_id e) as [parent|] eqn:Ep; [|done].
  destruct (str_truthy parent) eqn:Et; [|done].
  destruct (ingestion_reply_run parent e g) as (p & -> & Hp).
  apply link_all_noop. intros [c q] [Hc Hq]%Hp. by apply (HR parent).
Qed.

End IngestionRuns.

Section IngestionSettles.
Import Ingestion IngestionSettled Invariant.
Context {vector : Type}.
Implicit Types (g h : graph vector) (e : event vector).

(** A user and its name, across the [MERGE] and [SET] of another user. *)
Lemma user_kept w n w' n' e g :
  w' ≠ w →
  match_nodes "User" [("wa_id", w)] g ≠ []
  ∧ all_have "User" [("wa_id", w)] [("name", Some (PStr n))] g →
  match_nodes "User" [("wa_id", w)] (run_query (merge_user w' n') [e] g) ≠ []
  ∧ all_have "User" [("wa_id", w)] [("name", Some (PStr n))]
      (run_query (merge_user w' n') [e] g).
Proof.
  intros Hne [Hm Hn].
  assert (Hsame : match_nodes "User" [("wa_id", w)]
                    (run_query (merge_user w' n') [e] g)
                  = match_nodes "User" [("wa_id", w)] g).
  { apply match_nodes_run_query. each_clause idtac; cbn [creates_no].
    - intros _. rewrite created_matches_key.
      by rewrite (proj2 (String.eqb_neq _ _) Hne).
    - intros _. apply (bool_decide_unpack _). reflexivity. }
  rewrite Hsame. split; [done|].
  intros m k v Hin Hkv. rewrite Hsame in Hin. rewrite <- (Hn m k v Hin Hkv).
  apply elem_of_match_nodes in Hin as (nd & Hnd & Hmatch).
  apply node_matches_key in Hmatch as [Hl Hid].
  unfold prop_at. f_equal. rewrite ingestion_user_run.
  rewrite set_nodes_lookup_other.
  - rewrite Hnd. by apply ensure_lookup.
  - apply (not_matched_after_ensure _ _ _ _ _ g m nd); [done|].
    intros [_ Hid']. congruence.
Qed.

Lemma users_settle e (l : list (string * string)) g :
  NoDup l.*1 →
  ∀ w n, (w, n) ∈ l →
    match_nodes "User" [("wa_id", w)]
      (foldl (fun g c => run_query (merge_user c.1 c.2) [e] g) g l) ≠ []
    ∧ all_have "User" [("wa_id", w)] [("name", Some (PStr n))]
        (foldl (fun g c => run_query (merge_user c.1 c.2) [e] g) g l).
Proof.
  revert g. induction l as [|[w1 n1] l IH]; intros g Hnd w n Hin.
  { by apply elem_of_nil in Hin. }
  simpl in Hnd. apply NoDup_cons in Hnd as [Hw1 Hnd].
  cbn [foldl fst snd].
  apply elem_of_cons in Hin as [Heq|Hin]; [|by apply IH].
  injection Heq as -> ->.
  set (g1 := run_query (merge_user w1 n1) [e] g).
  assert (H1 : match_nodes "User" [("wa_id", w1)] g1 ≠ []
               ∧ all_have "User" [("wa_id", w1)] [("name", Some (PStr n1))] g1).
  { unfold g1. rewrite ingestion_user_run.
    destruct (merge_node_result "User" [("wa_id", w1)] g
                (distinct_keys_1 _ _)) as [_ HU].
    set (g0 := ensure "User" [("wa_id", w1)] g) in *.
    destruct (all_have_set_nodes "User" [("wa_id", w1)]
                [("name", Some (PStr n1))] _ g0
                (distinct_keys_1 _ _) eq_refl (fun n => reflexivity _))
      as [Hf Hn].
    split; [|done].
    by rewrite (match_nodes_frame _ _ "User" [("wa_id", w1)] _ _ Hf eq_refl). }
  clearbody g1. clear IH Hnd. revert g1 H1.
  induction l as [|[w2 n2] l IH]; intros g1 H1; [done|].
  cbn [foldl fst snd]. apply IH.
  - intros Hin. apply Hw1. simpl. by right.
  - apply user_kept; [|done]. intros ->. apply Hw1. simpl. left.
Qed.

End IngestionSettles.

Section IngestionWrites.
Import Ingestion IngestionSettled Invariant.
Context {vector : Type}.
Implicit Types (g h : graph vector) (e : event vector).

(** The statements after the loop over the contacts. *)
Lemma ingestion_rest_users e g0 w :
  let rest := fun g =>
    let g := run_query merge_conversation [e] g in
    let g := run_query merge_message [e] g in
    match parent_id e with
    | Some parent =>
        if str_truthy parent then run_query (merge_reply parent) [e] g else g
    | None => g
    end in
  match_nodes "User" [("wa_id", w)] (rest g0)
  = match_nodes "User" [("wa_id", w)] g0
  ∧ keeps ["body"; "timestamp"; "embedding"] g0 (rest g0).
Proof.
  intros rest. unfold rest.
  set (g1 := run_query merge_conversation [e] g0).
  set (g2 := run_query merge_message [e] g1).
  assert (H1 : match_nodes "User" [("wa_id", w)] g1
               = match_nodes "User" [("wa_id", w)] g0).
  { apply match_nodes_run_query. each_clause idtac; cbn [creates_no]. done. }
  assert (H2 : match_nodes "User" [("wa_id", w)] g2
               = match_nodes "User" [("wa_id", w)] g1).
  { apply match_nodes_run_query. each_clause idtac; cbn [creates_no];
      try done.
    intros ?. apply (bool_decide_unpack _). reflexivity. }
  assert (K1 : keeps ["body"; "timestamp"; "embedding"] g0 g1).
  { apply keeps_run_query. each_clause keys_within. }
  assert (K2 : keeps ["body"; "timestamp"; "embedding"] g1 g2).
  { apply keeps_run_query. each_clause keys_within. }
  assert (K12 : keeps ["body"; "timestamp"; "embedding"] g0 g2)
    by by apply keeps_trans with g1.
  destruct (parent_id e) as [parent|]; [|by rewrite H2, H1].
  destruct (str_truthy parent); [|by rewrite H2, H1].
  split.
  - rewrite <- H1, <- H2. apply match_nodes_run_query.
    each_clause idtac; by cbn [creates_no].
  - apply keeps_trans with g2; [done|].
    apply keeps_run_query. each_clause keys_within.
Qed.

(** With one name per [wa_id] in the contacts, writing [e] leaves a store
    in which [e] is written. *)
Lemma ingestion_write_settles e g :
  NoDup (contacts e).*1 → settled e (write_batch e g).
Proof.
  intros Hnd. unfold write_batch.
  pose proof (users_settle e (contacts e) g Hnd) as HC.
  set (g0 := foldl _ g (contacts e)) in *. clearbody g0.
  pose proof (ingestion_rest_users e g0) as Hrest. cbv zeta in Hrest.
  split.
  { intros w n Hin. destruct (HC w n Hin) as [Hm Hn].
    destruct (Hrest w) as [Hsame [Hkeep _]].
    rewrite Hsame. split; [done|].
    intros m k v Hmin Hkv. rewrite Hsame in Hmin.
    rewrite <- (Hn m k v Hmin Hkv).
    apply list_elem_of_singleton in Hkv. injection Hkv as -> _.
    apply elem_of_match_nodes in Hmin as (nd & Hnd' & _).
    destruct (Hkeep m nd Hnd') as (nd' & Hnd'' & _ & Hprops).
    unfold prop_at. rewrite Hnd', Hnd''. simpl. apply Hprops.
    apply (bool_decide_unpack _). reflexivity. }
  clear HC Hrest.
  (* second statement *)
  rewrite ingestion_conversation_run.
  destruct (merge_node_result "Conversation" [("id", conversation_id e)] g0
              (distinct_keys_1 _ _)) as [_ HV].
  set (gB := ensure "Conversation" _ g0) in *. clearbody gB. clear g0.
  (* third statement *)
  destruct (ingestion_message_run e gB) as (p1 & p2 & Hrun & Hp1 & Hp2).
  cbv zeta in *. rewrite Hrun. clear Hrun.
  destruct (merge_node_result "Message" [("id", message_id e)] gB
              (distinct_keys_1 _ _)) as [_ HM].
  push_ensure "Message" [("id", message_id e)] gB.
  set (g1 := ensure "Message" [("id", message_id e)] gB) in *.
  clearbody g1. clear gB.
  destruct (all_have_set_nodes "Message" [("id", message_id e)]
              (message_items e) (match_nodes "Message" [("id", message_id e)] g1)
              g1 (ingestion_items_distinct e) eq_refl (fun n => reflexivity _))
    as [Hf HMi].
  set (g2 := set_nodes _ _ g1) in *.
  assert (match_nodes "Message" [("id", message_id e)] g2
          = match_nodes "Message" [("id", message_id e)] g1) as HMs
    by (by apply (match_nodes_frame _ _ _ _ _ _ Hf)).
  rewrite <- HMs in Hp1, Hp2. push_frame Hf. clear Hf HMs.
  clearbody g2. clear g1.
  set (gC := link_all p2 "HAS_MESSAGE" (link_all p1 "SENT" g2)).
  assert (HCm : ∀ lbl pat, match_nodes lbl pat gC = match_nodes lbl pat g2).
  { intros lbl pat. unfold gC. by rewrite !match_nodes_link_all. }
  assert (HCe : ∀ x, x ∈ edges (link_all p1 "SENT" g2) → x ∈ edges gC).
  { intros x Hx. unfold gC. apply elem_of_link_all. by left. }
  assert (HS : all_linked "User" [("wa_id", from e)] "SENT"
                 "Message" [("id", message_id e)] gC).
  { intros u m Hu Hm. rewrite HCm in Hu, Hm. apply HCe.
    apply elem_of_link_all. right. exists (u, m). split; [|done].
    by apply Hp1. }
  assert (HH : match_nodes "User" [("wa_id", from e)] gC ≠ [] →
               all_linked "Conversation" [("id", conversation_id e)]
                 "HAS_MESSAGE" "Message" [("id", message_id e)] gC).
  { intros Hne c m Hc Hm. rewrite HCm in Hne, Hc, Hm.
    apply elem_of_link_all. right. exists (c, m). split; [|done].
    by apply Hp2. }
  assert (HMC : match_nodes "Message" [("id", message_id e)] gC ≠ [])
    by by rewrite HCm.
  assert (HVC : match_nodes "Conversation" [("id", conversation_id e)] gC ≠ [])
    by by rewrite HCm.
  assert (HMiC : all_have "Message" [("id", message_id e)] (message_items e) gC).
  { intros m k v Hm Hkv. rewrite HCm in Hm. rewrite <- (HMi m k v Hm Hkv).
    unfold prop_at, gC. by rewrite !link_all_nodes. }
  clearbody gC. clear HCm HCe Hp1 Hp2 HM HV HMi.
  (* fourth statement *)
  destruct (parent_id e) as [parent|] eqn:Ep.
  - destruct (str_truthy parent) eqn:Et.
    + destruct (ingestion_reply_run parent e gC) as (p & -> & Hp).
      set (gD := link_all p "REPLY_TO" gC).
      assert (HDm : ∀ lbl pat, match_nodes lbl pat gD = match_nodes lbl pat gC).
      { intros lbl pat. apply match_nodes_link_all. }
      assert (HDe : ∀ x, x ∈ edges gC → x ∈ edges gD).
      { intros x Hx. apply elem_of_link_all. by left. }
      split; [by rewrite HDm|]. split; [by rewrite HDm|]. split.
      { intros m k v Hm Hkv. rewrite HDm in Hm. rewrite <- (HMiC m k v Hm Hkv).
        unfold prop_at, gD. by rewrite link_all_nodes. }
      split.
      { intros u m Hu Hm. rewrite HDm in Hu, Hm. by apply HDe, HS. }
      split.
      { intros Hne c m Hc Hm. rewrite HDm in Hne, Hc, Hm. by apply HDe, HH. }
      intros parent' Hp' _. injection Hp' as <-.
      intros c q Hc Hq. rewrite HDm in Hc, Hq.
      apply elem_of_link_all. right. exists (c, q). split; [|done].
      by apply Hp.
    + repeat split; try done.
      intros parent' Hp'. injection Hp' as <-. by rewrite Et.
  - repeat split; try done.
Qed.

(** X14. Re-running the third [write_batch] on the same event changes
    nothing: for every event whose contacts give one name per [wa_id], as
    the items of a dict do, and every store, writing the event twice leaves
    the store that writing it once leaves. *)
Theorem ingestion_write_batch_idempotent e g :
  NoDup (contacts e).*1 →
  write_batch e (write_batch e g) = write_batch e g.
Proof.
  intros Hnd. by apply ingestion_write_settled, ingestion_write_settles.
Qed.

End IngestionWrites.

Section IngestionWritesWitness.
Import Ingestion Examples.

Lemma ingestion_write_batch_idempotent_witness :
  write_batch ingested_reply
    (write_batch ingested_reply (write_batch ingested_parent empty_graph))
  = write_batch ingested_reply (write_batch ingested_parent empty_graph).
Proof.
  apply ingestion_write_batch_idempotent. simpl.
  apply NoDup_cons. split; [by intros ?%elem_of_nil|apply NoDup_nil_2].
Defined.

End IngestionWritesWitness.

Section IngestionUnknownSender.
Import Ingestion IngestionSettled Invariant.
Context {vector : Type}.
Implicit Types (g h : graph vector) (e : event vector).

Lemma nil_of_no_elem {A} (l : list A) : (∀ x, x ∉ l) → l = [].
Proof. destruct l as [|x l]; [done|]. intros H. destruct (H x). left. Qed.

(** The loop over the contacts adds no edge, and no user with a [wa_id]
    that is not among the contacts. *)
Lemma users_loop_other e (l : list (string * string)) g w :
  w ∉ l.*1 →
  match_nodes "User" [("wa_id", w)]
    (foldl (fun g c => run_query (merge_user c.1 c.2) [e] g) g l)
  = match_nodes "User" [("wa_id", w)] g
  ∧ edges (foldl (fun g c => run_query (merge_user c.1 c.2) [e] g) g l)
    = edges g.
Proof.
  revert g. induction l as [|[w1 n1] l IH]; intros g Hw; [done|].
  cbn [foldl fst snd]. simpl in Hw. apply not_elem_of_cons in Hw as [Hne Hw].
  destruct (IH (run_query (merge_user w1 n1) [e] g) Hw) as [-> ->].
  split.
  - apply match_nodes_run_query. each_clause idtac; cbn [creates_no].
    + intros _. rewrite created_matches_key.
      by rewrite (proj2 (String.eqb_neq w1 w) ltac:(congruence)).
    + intros _. apply (bool_decide_unpack _). reflexivity.
  - by rewrite ingestion_user_run, set_nodes_edges, ensure_edges.
Qed.

(** X15. An event whose sender is neither among its contacts nor a user
    of the store: the third [write_batch] stores the message, creates no
    user for the sender, and attaches the message to nothing, neither by
    [SENT] nor by [HAS_MESSAGE]; the only edges it may add are [REPLY_TO]
    edges. *)
Theorem ingestion_unknown_sender e g :
  from e ∉ (contacts e).*1 →
  match_nodes "User" [("wa_id", from e)] g = [] →
  let g' := write_batch e g in
  match_nodes "Message" [("id", message_id e)] g' ≠ []
  ∧ match_nodes "User" [("wa_id", from e)] g' = []
  ∧ ∀ x : edge, x ∈ edges g' →
      x ∈ edges g ∨ ∃ c q, x = (c, "REPLY_TO", q).
Proof.
  intros Hfrom Hnone g'. unfold g', write_batch.
  destruct (users_loop_other e (contacts e) g (from e) Hfrom) as [HU HE].
  set (g0 := foldl _ g (contacts e)) in *. rewrite Hnone in HU.
  clearbody g0.
  rewrite ingestion_conversation_run.
  rewrite <- (match_nodes_ensure "User" [("wa_id", from e)] "Conversation"
                [("id", conversation_id e)] g0 (or_intror eq_refl)) in HU.
  rewrite <- (ensure_edges "Conversation" [("id", conversation_id e)] g0) in HE.
  set (gB := ensure "Conversation" _ g0) in *. clearbody gB. clear g0.
  destruct (ingestion_message_run e gB) as (p1 & p2 & Hrun & Hp1 & Hp2).
  cbv zeta in *. rewrite Hrun. clear Hrun.
  destruct (merge_node_result "Message" [("id", message_id e)] gB
              (distinct_keys_1 _ _)) as [_ HM].
  rewrite <- (match_nodes_ensure "User" [("wa_id", from e)] "Message"
                [("id", message_id e)] gB (or_intror eq_refl)) in HU.
  rewrite <- (ensure_edges "Message" [("id", message_id e)] gB) in HE.
  set (g1 := ensure "Message" [("id", message_id e)] gB) in *.
  clearbody g1. clear gB.
  destruct (all_have_set_nodes "Message" [("id", message_id e)]
              (message_items e) (match_nodes "Message" [("id", message_id e)] g1)
              g1 (ingestion_items_distinct e) eq_refl (fun n => reflexivity _))
    as [Hf _].
  rewrite <- (set_nodes_edges (match_nodes "Message" [("id", message_id e)] g1)
                (message_items e) g1) in HE.
  set (g2 := set_nodes _ _ g1) in *.
  rewrite <- (match_nodes_frame _ _ "User" [("wa_id", from e)] _ _ Hf eq_refl)
    in HU.
  rewrite <- (match_nodes_frame _ _ "Message" [("id", message_id e)] _ _ Hf
                eq_refl) in HM.
  assert (p1 = []) as ->.
  { apply nil_of_no_elem. intros [u m] [Hu _]%Hp1.
    rewrite HU in Hu. by apply elem_of_nil in Hu. }
  assert (p2 = []) as ->.
  { apply nil_of_no_elem. intros [c m] (_ & _ & Hne)%Hp2. by rewrite HU in Hne. }
  cbn [link_all foldl]. clear Hp1 Hp2 Hf. clearbody g2. clear g1.
  destruct (parent_id e) as [parent|]; [|by split; [|split; [|left; rewrite <- HE]]].
  destruct (str_truthy parent); [|by split; [|split; [|left; rewrite <- HE]]].
  destruct (ingestion_reply_run parent e g2) as (p & -> & _).
  rewrite !match_nodes_link_all. split; [done|]. split; [done|].
  intros x [Hx|(pr & _ & ->)]%elem_of_link_all.
  - left. by rewrite <- HE.
  - right. by exists pr.1, pr.2.
Qed.

End IngestionUnknownSender.

Section IngestionUnknownSenderWitness.
Import Ingestion Examples MoreExamples.

Lemma ingestion_unknown_sender_witness :
  let g' := write_batch ingested_stranger empty_graph in
  match_nodes "Message" [("id", "M2")] g' ≠ []
  ∧ match_nodes "User" [("wa_id", "A2")] g' = []
  ∧ ∀ x : edge, x ∈ edges g' →
      x ∈ edges (empty_graph (vector := vec)) ∨ ∃ c q, x = (c, "REPLY_TO", q).
Proof.
  apply (ingestion_unknown_sender ingested_stranger empty_graph).
  - simpl. by intros [?|?%elem_of_nil]%elem_of_cons.
  - reflexivity.
Defined.

End IngestionUnknownSenderWitness.

(** ** The records of the benchmark ingestion *)

Section RecordFacts.
Import Render.

Lemma strip_tagged_truthy inner caption :
  truthy (VStr (strip ("[" +:+ inner +:+ "] " +:+ caption))) = true.
Proof. rewrite strip_tagged. unfold tagged. by destruct (rstrip caption). Qed.

(** Outside the [text] branch, the body rendered is a non-empty string. *)
Lemma render_body_truthy contacts msg ty b :
  getitem msg "type" = Ok ty → eq_str ty "text" = false →
  render_body contacts msg = Ok b → truthy b = true.
Proof.
  intros Hty Htext. unfold render_body. rewrite Hty.
  cbn [mbind result_bind]. rewrite Htext.
  destruct (eq_str ty "image").
  { destruct (payload_get msg "image" "caption" _) as [c|]; [|done].
    cbn [mbind result_bind]. intros [= <-].
    apply (strip_tagged_truthy "Image"). }
  destruct (eq_str ty "document").
  { destruct (get msg "document" _) as [doc|]; [|done].
    cbn [mbind result_bind].
    destruct (get doc "filename" _) as [f|]; [|done].
    cbn [mbind result_bind].
    destruct (get doc "caption" _) as [c|]; [|done].
    cbn [mbind result_bind]. intros [= <-].
    apply (strip_tagged_truthy ("Document: " +:+ py_str f)). }
  destruct (eq_str ty "system").
  { destruct (payload_get msg "system" "type" _) as [st|]; [|done].
    cbn [mbind result_bind].
    destruct (eq_str st "group_title_changed").
    { destruct (payload_get msg "system" "title" _) as [t|]; [|done].
      cbn [mbind result_bind].
      destruct (sender_name contacts msg) as [who|]; [|done].
      cbn [mbind result_bind]. by intros [= <-]. }
    destruct (eq_str st "user_joined").
    { destruct (sender_name contacts msg) as [who|]; [|done].
      cbn [mbind result_bind]. by intros [= <-]. }
    by intros [= <-]. }
  destruct (eq_str ty "reaction").
  { destruct (payload_get msg "reaction" "emoji" _) as [em|]; [|done].
    cbn [mbind result_bind].
    destruct (payload_get msg "reaction" "message_id" _) as [t|]; [|done].
    cbn [mbind result_bind]. by intros [= <-]. }
  destruct (eq_str ty "video").
  { destruct (payload_get msg "video" "caption" _) as [c|]; [|done].
    cbn [mbind result_bind]. intros [= <-].
    apply (strip_tagged_truthy "Video"). }
  destruct (eq_str ty "audio"); [by intros [= <-]|].
  destruct (eq_str ty "sticker"); [by intros [= <-]|].
  destruct ty; try done. by intros [= <-].
Qed.

Lemma is_blank_text_spec msg :
  Records.is_blank_text msg = true
  ↔ getitem msg "type" = Ok (VStr "text")
    ∧ ∃ b, payload_get msg "text" "body" VNone = Ok b ∧ truthy b = false.
Proof.
  unfold Records.is_blank_text. split.
  - destruct (getitem msg "type") as [ty|]; [|done].
    intros [Hty Hb]%andb_true_iff. apply eq_str_true in Hty as ->.
    split; [done|].
    destruct (payload_get msg "text" "body" VNone) as [b|]; [|done].
    exists b. split; [done|]. by apply negb_true_iff.
  - intros (-> & b & -> & Hb). by rewrite Hb.
Qed.

(** What [process_message] gives for a message: nothing for a blank text
    message, and else a record with a truthy body and the [id] of the
    message, which then has its [id], [from] and [timestamp]. *)
Lemma process_message_ok group_id contacts msg o :
  process_message group_id contacts msg = Ok o →
  match o with
  | None => Records.is_blank_text msg = true
  | Some r =>
      Records.is_blank_text msg = false
      ∧ message_id r = Extract.field "id" msg
      ∧ truthy (body r) = true
      ∧ Extract.lacks_identity msg = false
  end.
Proof.
  unfold process_message.
  destruct (render_body contacts msg) as [b|] eqn:Hb; [|done].
  cbn [mbind result_bind].
  destruct (getitem msg "type") as [ty|] eqn:Hty;
    [|unfold render_body in Hb; by rewrite Hty in Hb].
  destruct (truthy b) eqn:Ht; simpl.
  - destruct (make_record group_id contacts msg b) as [r|] eqn:Hr; [|done].
    cbn [mbind result_bind]. intros [= <-].
    assert (Records.is_blank_text msg = false) as Hnb.
    { apply not_true_is_false. intros (Hty' & b' & Hb' & Ht')%is_blank_text_spec.
      unfold render_body in Hb. rewrite Hty' in Hb.
      cbn [mbind result_bind] in Hb.
      change (eq_str (VStr "text") "text") with true in Hb. cbn match in Hb.
      congruence. }
    split; [done|]. unfold make_record in Hr.
    destruct (getitem msg "from") as [uid|] eqn:Hfrom; [|done].
    cbn [mbind result_bind] in Hr.
    destruct (sender_name contacts msg) as [uname|]; [|done].
    cbn [mbind result_bind] in Hr.
    destruct (getitem msg "id") as [mid|] eqn:Hid; [|done].
    cbn [mbind result_bind] in Hr.
    destruct (contains msg "context") as [has|]; [|done].
    cbn [mbind result_bind] in Hr.
    destruct (if has then _ else _) as [pid|]; [|done].
    cbn [mbind result_bind] in Hr.
    destruct (getitem msg "timestamp") as [ts|] eqn:Hts; [|done].
    cbn [mbind result_bind] in Hr.
    destruct (py_int ts) as [z|]; [|done].
    cbn [mbind result_bind] in Hr. injection Hr as <-. simpl.
    split; [|split; [done|]].
    + unfold Extract.field. by rewrite Hid.
    + unfold Extract.lacks_identity. by rewrite Hid, Hfrom, Hts.
  - intros [= <-]. unfold Records.is_blank_text. rewrite Hty.
    destruct (eq_str ty "text") eqn:Htext.
    + apply eq_str_true in Htext as ->. unfold render_body in Hb.
      rewrite Hty in Hb. cbn [mbind result_bind] in Hb.
      change (eq_str (VStr "text") "text") with true in Hb. cbn match in Hb.
      by rewrite Hb, Ht.
    + rewrite (render_body_truthy contacts msg ty b Hty Htext Hb) in Ht.
      discriminate.
Qed.

End RecordFacts.

Section RecordSpec.
Import Render.

(** X16. The only messages the normalizer of the benchmark ingestion
    passes over are text messages without a body: [process_message] skips a
    message exactly when its type is [text] and its [text.body] is missing
    or falsy ([None], the empty string, zero, an empty list or dict). A
    message of any other type is never skipped: it gives a record or an
    exception. *)
Theorem process_message_skips (group_id : pyval) (contacts : kdict)
    (msg : pyval) :
  process_message group_id contacts msg = Ok None
  ↔ getitem msg "type" = Ok (VStr "text")
    ∧ ∃ b, payload_get msg "text" "body" VNone = Ok b ∧ truthy b = false.
Proof.
  rewrite <- is_blank_text_spec. split.
  - intros H. by apply process_message_ok in H.
  - intros (Hty & b & Hb & Ht)%is_blank_text_spec.
    unfold process_message, render_body. rewrite Hty.
    cbn [mbind result_bind]. change (eq_str (VStr "text") "text") with true.
    cbn match. rewrite Hb. cbn [mbind result_bind]. by rewrite Ht.
Qed.

End RecordSpec.

Section AppendingLoops.
Import Records.

Lemma for_each_appends {A B} (F : list B → A → result (list B)) G
    (l : list A) (acc : list B) :
  appends F G →
  for_each l F acc = ys ← for_each l F []; Ok (acc ++ ys).
Proof.
  intros HF. revert acc. induction l as [|x l IH]; intros acc.
  - simpl. by rewrite app_nil_r.
  - cbn [for_each]. rewrite !HF. destruct (G x) as [ys|e]; [|done].
    cbn [mbind result_bind]. rewrite (IH (acc ++ ys)), (IH ([] ++ ys)).
    destruct (for_each l F []) as [zs|e]; [|done].
    cbn [mbind result_bind]. by rewrite app_assoc.
Qed.

Lemma for_each_appends_ok {A B} (F : list B → A → result (list B)) G
    (l : list A) (r : list B) :
  appends F G →
  for_each l F [] = Ok r →
  ∃ yss, Forall2 (fun x ys => G x = Ok ys) l yss ∧ r = concat yss.
Proof.
  intros HF. revert r. induction l as [|x l IH]; intros r.
  - intros [= <-]. by exists [].
  - cbn [for_each]. rewrite HF. destruct (G x) as [ys|e] eqn:HG; [|done].
    cbn [mbind result_bind]. rewrite (for_each_appends F G) by done.
    destruct (for_each l F []) as [zs|e]; [|done].
    cbn [mbind result_bind]. intros [= <-].
    destruct (IH zs eq_refl) as (yss & Hyss & ->).
    exists (ys :: yss). split; [by constructor|done].
Qed.

End AppendingLoops.

Section BuildRecords.
Import Render Records.

Lemma kept_ids_app a b : kept_ids (a ++ b) = kept_ids a ++ kept_ids b.
Proof. unfold kept_ids. apply omap_app. Qed.

Lemma collected_nil : collected [] [].
Proof. split; [done|]. split; [done|]. by intros ? ?%elem_of_nil. Qed.

Lemma collected_app m1 m2 y1 y2 :
  collected m1 y1 → collected m2 y2 → collected (m1 ++ m2) (y1 ++ y2).
Proof.
  intros (I1 & T1 & L1) (I2 & T2 & L2). split; [|split].
  - by rewrite map_app, kept_ids_app, I1, I2.
  - by apply Forall_app.
  - intros msg [?|?]%elem_of_app; auto.
Qed.

Lemma collected_concat {A} (f : A → list pyval) (l : list A)
    (yss : list (list record)) :
  Forall2 (fun x ys => collected (f x) ys) l yss →
  collected (flat_map f l) (concat yss).
Proof.
  induction 1 as [|x ys l yss Hx _ IH]; simpl; [apply collected_nil|].
  by apply collected_app.
Qed.

Lemma Forall2_impl_elem {A B} (P Q : A → B → Prop) l k :
  Forall2 P l k → (∀ x y, x ∈ l → P x y → Q x y) → Forall2 Q l k.
Proof.
  induction 1 as [|x y l k Hxy _ IH]; intros HPQ; constructor.
  - apply HPQ; [left|done].
  - apply IH. intros x' y' Hx'. apply HPQ. by right.
Qed.

(** The loop of a level, from the empty list. *)
Lemma for_each_collected {A} (F : list record → A → result (list record))
    (f : A → list pyval) (l : list A) (r : list record) :
  appends F (F []) →
  (∀ x ys, F [] x = Ok ys → collected (f x) ys) →
  for_each l F [] = Ok r → collected (flat_map f l) r.
Proof.
  intros HF Hlevel Hr.
  destruct (for_each_appends_ok F (F []) l r HF Hr) as (yss & Hyss & ->).
  apply collected_concat.
  eapply Forall2_impl_elem; [exact Hyss|]. intros x ys _. apply Hlevel.
Qed.

Lemma message_step_appends group_id contacts :
  appends
    (fun records msg =>
       r ← process_message group_id contacts msg;
       Ok (match r with
           | Some rec => (records ++ [rec])%list
           | None => records
           end))
    (fun msg =>
       r ← process_message group_id contacts msg;
       Ok (match r with
           | Some rec => ([] ++ [rec])%list
           | None => []
           end)).
Proof.
  intros acc msg. destruct (process_message group_id contacts msg) as [[r|]|];
    simpl; [done| |done]. by rewrite app_nil_r.
Qed.

Lemma process_change_appends group_id :
  appends (process_change group_id) (process_change group_id []).
Proof.
  intros acc change. unfold process_change.
  destruct (getitem change "value") as [value|]; [|done].
  cbn [mbind result_bind].
  destruct (build_contacts value) as [contacts|]; [|done].
  cbn [mbind result_bind].
  destruct (get value "messages" (VList [])) as [msgs|]; [|done].
  cbn [mbind result_bind].
  destruct (iter msgs) as [l|]; [|done].
  cbn [mbind result_bind].
  apply (for_each_appends _ _ l acc (message_step_appends group_id contacts)).
Qed.

Lemma process_change_collected group_id change ys :
  process_change group_id [] change = Ok ys →
  collected (Extract.messages_of_change change) ys.
Proof.
  unfold process_change, Extract.messages_of_change, Extract.items_of.
  destruct (getitem change "value") as [value|]; [|done].
  cbn [mbind result_bind].
  destruct (build_contacts value) as [contacts|]; [|done].
  cbn [mbind result_bind].
  destruct (get value "messages" (VList [])) as [msgs|]; [|done].
  cbn [mbind result_bind].
  destruct (iter msgs) as [l|]; [|done].
  cbn [mbind result_bind]. intros Hr.
  assert (Hl : flat_map (fun msg : pyval => [msg]) l = l).
  { clear. induction l as [|x l IH]; simpl; [done|]. by rewrite IH. }
  rewrite <- Hl.
  match type of Hr with
  | for_each _ ?F _ = _ =>
      apply (for_each_collected F (fun msg => [msg]) l ys);
        [exact (message_step_appends group_id contacts)| |exact Hr]
  end.
  intros msg ys'. cbn beta.
  destruct (process_message group_id contacts msg) as [o|] eqn:Ho; [|done].
  apply process_message_ok in Ho. cbn [mbind result_bind]. intros [= <-].
  unfold collected, kept_ids. destruct o as [r|]; simpl.
  - destruct Ho as (Hnb & Hid & Ht & Hlacks). rewrite Hnb. simpl.
    split; [by rewrite Hid|]. split; [by repeat constructor|].
    by intros ? ->%list_elem_of_singleton.
  - rewrite Ho. simpl. split; [done|]. split; [done|].
    intros ? ->%list_elem_of_singleton. congruence.
Qed.

Lemma process_entry_appends : appends process_entry (process_entry []).
Proof.
  intros acc entry. unfold process_entry.
  destruct (getitem entry "id") as [gid|]; [|done].
  cbn [mbind result_bind].
  destruct (get entry "changes" (VList [])) as [changes|]; [|done].
  cbn [mbind result_bind].
  destruct (iter changes) as [l|]; [|done].
  cbn [mbind result_bind].
  apply (for_each_appends _ _ l acc (process_change_appends gid)).
Qed.

Lemma process_entry_collected entry ys :
  process_entry [] entry = Ok ys → collected (messages_of_entry entry) ys.
Proof.
  unfold process_entry, messages_of_entry, Extract.items_of.
  destruct (getitem entry "id") as [gid|]; [|done].
  cbn [mbind result_bind].
  destruct (get entry "changes" (VList [])) as [changes|]; [|done].
  cbn [mbind result_bind].
  destruct (iter changes) as [l|]; [|done].
  cbn [mbind result_bind].
  apply for_each_collected; [apply process_change_appends|].
  apply process_change_collected.
Qed.

Lemma object_step_appends :
  appends
    (fun records obj =>
       entries ← get obj "entry" (VList []);
       l ← iter entries;
       for_each l process_entry records)
    (fun obj =>
       entries ← get obj "entry" (VList []);
       l ← iter entries;
       for_each l process_entry []).
Proof.
  intros acc obj.
  destruct (get obj "entry" (VList [])) as [entries|]; [|done].
  cbn [mbind result_bind].
  destruct (iter entries) as [l|]; [|done].
  cbn [mbind result_bind].
  apply (for_each_appends _ _ l acc process_entry_appends).
Qed.

(** X17. The records the benchmark ingestion builds from its input: when
    [main] gets through the input, there is one record, with a truthy
    body, for each message that is not a blank text message, in the order
    of the input and with the [id] of the message; and every such message
    has an [id], a [from] and a [timestamp]. A non-blank message that
    lacks one of them therefore aborts the run, records of earlier
    messages included. *)
Theorem build_records_collects (payload : list pyval)
    (records : list record) :
  build_records payload = Ok records →
  map message_id records = kept_ids (messages_of payload)
  ∧ Forall (fun r => truthy (body r) = true) records
  ∧ ∀ msg, msg ∈ messages_of payload → is_blank_text msg = false →
           Extract.lacks_identity msg = false.
Proof.
  unfold build_records, messages_of. intros Hr.
  match type of Hr with
  | for_each _ ?F _ = _ =>
      apply (for_each_collected F messages_of_object payload records);
        [exact object_step_appends| |exact Hr]
  end.
  intros obj ys. cbn beta. unfold messages_of_object, Extract.items_of.
  destruct (get obj "entry" (VList [])) as [entries|]; [|done].
  cbn [mbind result_bind].
  destruct (iter entries) as [l|]; [|done].
  cbn [mbind result_bind].
  apply for_each_collected; [apply process_entry_appends|].
  apply process_entry_collected.
Qed.

Lemma build_records_collects_witness :
  match build_records blank_between with
  | Ok records =>
      map message_id records = [VStr "wamid.1"; VStr "wamid.3"]
      ∧ Forall (fun r => truthy (body r) = true) records
  | Raise _ => False
  end.
Proof.
  destruct (build_records blank_between) as [records|e] eqn:H;
    [|by vm_compute in H].
  destruct (build_records_collects blank_between records H) as (H1 & H2 & _).
  split; [exact H1|exact H2].
Defined.

End BuildRecords.

Section ContactFacts.
Import Render Records.

Lemma key_eqb_str_l w k : key_eqb (VStr w) k = true ↔ k = VStr w.
Proof.
  destruct k; simpl; try (split; [done|discriminate]).
  rewrite String.eqb_eq. split; [by intros ->|by intros [= ->]].
Qed.

Lemma key_eqb_str_r w k : key_eqb k (VStr w) = true ↔ k = VStr w.
Proof.
  destruct k; simpl; try (split; [done|discriminate]).
  rewrite String.eqb_eq. split; [by intros ->|by intros [= ->]].
Qed.

(** Reading a string key after [d[k] = n]. *)
Lemma kdict_find_set_str w k n d :
  kdict_find (VStr w) (kdict_set k n d)
  = if key_eqb (VStr w) k then Some n else kdict_find (VStr w) d.
Proof.
  induction d as [|[k' v'] d IH]; cbn [kdict_find kdict_set].
  - by destruct (key_eqb (VStr w) k).
  - destruct (key_eqb k k') eqn:Ekk'; cbn [kdict_find kdict_set].
    + destruct (key_eqb (VStr w) k) eqn:Ek.
      * apply key_eqb_str_l in Ek as ->. apply key_eqb_str_l in Ekk' as ->.
        by rewrite (proj2 (key_eqb_str_l w (VStr w)) eq_refl).
      * destruct (key_eqb (VStr w) k') eqn:E; [|done].
        apply key_eqb_str_l in E as ->. apply key_eqb_str_r in Ekk' as ->.
        by rewrite (proj2 (key_eqb_str_l w (VStr w)) eq_refl) in Ek.
    + rewrite IH. destruct (key_eqb (VStr w) k) eqn:Ek; [|done].
      apply key_eqb_str_l in Ek as ->.
      by destruct (key_eqb (VStr w) k').
Qed.

Lemma contacts_loop (w : string) (cs : list pyval) (d0 d : kdict) :
  for_each cs contact_step d0 = Ok d →
  (∀ pre c post n,
     cs = pre ++ c :: post →
     getitem c "wa_id" = Ok (VStr w) →
     (p ← getitem c "profile"; getitem p "name") = Ok n →
     (∀ c', c' ∈ post → getitem c' "wa_id" ≠ Ok (VStr w)) →
     kdict_find (VStr w) d = Some n)
  ∧ ((∀ c, c ∈ cs → getitem c "wa_id" ≠ Ok (VStr w)) →
       kdict_find (VStr w) d = kdict_find (VStr w) d0).
Proof.
  revert d0. induction cs as [|c cs IH]; intros d0 Hd.
  { injection Hd as <-. split; [|done].
    intros pre c post n Hcs. by destruct pre. }
  cbn [for_each] in Hd.
  destruct (contact_step d0 c) as [d1|] eqn:Hstep; [|done].
  cbn [mbind result_bind] in Hd. destruct (IH d1 Hd) as [IH1 IH2].
  unfold contact_step in Hstep.
  destruct (getitem c "wa_id") as [k|] eqn:Hk; [|done].
  cbn [mbind result_bind] in Hstep.
  destruct (getitem c "profile") as [p|] eqn:Hp; [|done].
  cbn [mbind result_bind] in Hstep.
  destruct (getitem p "name") as [n0|] eqn:Hn; [|done].
  cbn [mbind result_bind] in Hstep.
  destruct (hashable k); [|done]. injection Hstep as <-.
  split.
  - intros pre c1 post n Hcs Hw Hname Hpost.
    destruct pre as [|c0 pre]; simpl in Hcs; injection Hcs as -> ->.
    + rewrite IH2 by done. rewrite kdict_find_set_str.
      rewrite Hk in Hw. injection Hw as ->.
      rewrite (proj2 (key_eqb_str_l w (VStr w)) eq_refl).
      rewrite Hp in Hname. cbn [mbind result_bind] in Hname. congruence.
    + by apply (IH1 pre c1 post n).
  - intros Hnone. rewrite IH2.
    + rewrite kdict_find_set_str.
      destruct (key_eqb (VStr w) k) eqn:Ek; [|done].
      apply key_eqb_str_l in Ek as ->. by destruct (Hnone c); [left|].
    + intros c' Hc'. apply Hnone. by right.
Qed.

End ContactFacts.

Section ContactSpec.
Import Render Records.

(** X18. The dict of contact names, built alike by the three normalizers:
    when two contact entries of a change carry the same [wa_id], the name
    of the last one is the name of the sender; and a sender with no contact
    entry gets the default of the lookup, [Unknown] in the benchmark
    ingestion and [None] in the adapter. *)
Theorem contacts_last_name_wins (value : pyval) (d : kdict) (w : string) :
  build_contacts value = Ok d →
  let cs := Extract.items_of (get value "contacts" (VList [])) in
  (∀ pre c post n,
     cs = pre ++ c :: post →
     getitem c "wa_id" = Ok (VStr w) →
     (p ← getitem c "profile"; getitem p "name") = Ok n →
     (∀ c', c' ∈ post → getitem c' "wa_id" ≠ Ok (VStr w)) →
     ∀ default, kdict_get d (VStr w) default = Ok n)
  ∧ ((∀ c, c ∈ cs → getitem c "wa_id" ≠ Ok (VStr w)) →
       ∀ default, kdict_get d (VStr w) default = Ok default).
Proof.
  unfold build_contacts, Extract.items_of. intros Hd.
  destruct (get value "contacts" (VList [])) as [v|]; [|done].
  cbn [mbind result_bind] in Hd |- *.
  destruct (iter v) as [l|]; [|done].
  cbn [mbind result_bind] in Hd. cbv zeta.
  destruct (contacts_loop w l [] d Hd) as [H1 H2]. split.
  - intros pre c post n Hcs Hw Hn Hpost default. unfold kdict_get. simpl.
    by rewrite (H1 pre c post n).
  - intros Hnone default. unfold kdict_get. simpl. by rewrite H2.
Qed.

Lemma contacts_last_name_wins_witness :
  ∃ d, build_contacts renamed_contact = Ok d
       ∧ kdict_get d (VStr "17025551001") (VStr "Unknown")
         = Ok (VStr "Sara K.").
Proof.
  exists [(VStr "17025551001", VStr "Sara K.")]. split; [reflexivity|].
  destruct (contacts_last_name_wins renamed_contact
              [(VStr "17025551001", VStr "Sara K.")] "17025551001" eq_refl)
    as [H _].
  apply (H [VDict [("wa_id", VStr "17025551001");
                   ("profile", VDict [("name", VStr "Sara")])]]
           (VDict [("wa_id", VStr "17025551001");
                   ("profile", VDict [("name", VStr "Sara K.")])]) []).
  - reflexivity.
  - reflexivity.
  - reflexivity.
  - by intros c' ?%elem_of_nil.
Defined.

End ContactSpec.

(** ** The handler of the benchmark, call by call *)

Section HandlerSpec.
Import Query Answer.

(** The extraction of the answer never raises. *)
Lemma extract_answer_total (response : pyval) :
  ∃ answer, extract_answer response = Ok answer.
Proof.
  destruct response as [| | | | |items]; try (by eexists).
  unfold extract_answer.
  destruct (scan_keys_ok answer_keys items) as [s ->].
  cbn [mbind result_bind].
  destruct (negb (str_truthy s)); [|by eexists].
  destruct (string_values items) as [|v vs]; by eexists.
Qed.

(** X19. The [/query] handler of the benchmark fails only where a call it
    makes fails: with an initialised client, the body returned is
    [{error, query}], the error being the text of the exception, exactly
    when the search, the rendering of the context or the call of the model
    raises, the first of them that does; otherwise it is
    [{query, answer, context}] with the context of the search and the
    answer extracted from the response, whatever the shape of that
    response. The query is echoed in both. *)
Theorem benchmark_query_graph_outcome {results}
    (c : Benchmark.client results) (query : string) :
  (∀ e, Benchmark.search_ c query = Raise e →
        Benchmark.query_graph (Some c) query
        = Returns (Failed (exn_str e) query))
  ∧ (∀ found e,
       Benchmark.search_ c query = Ok found →
       Benchmark.search_results_to_context_string c found = Raise e →
       Benchmark.query_graph (Some c) query
       = Returns (Failed (exn_str e) query))
  ∧ (∀ found context e,
       Benchmark.search_ c query = Ok found →
       Benchmark.search_results_to_context_string c found = Ok context →
       Benchmark.generate_response c (Benchmark.prompt context query)
       = Raise e →
       Benchmark.query_graph (Some c) query
       = Returns (Failed (exn_str e) query))
  ∧ (∀ found context response,
       Benchmark.search_ c query = Ok found →
       Benchmark.search_results_to_context_string c found = Ok context →
       Benchmark.generate_response c (Benchmark.prompt context query)
       = Ok response →
       ∃ answer,
         extract_answer response = Ok answer
         ∧ Benchmark.query_graph (Some c) query
           = Returns (Answered query answer context)).
Proof.
  unfold Benchmark.query_graph, Benchmark.answer_query.
  split; [|split; [|split]].
  - by intros e ->.
  - intros found e -> Hc. cbn [mbind result_bind]. by rewrite Hc.
  - intros found context e -> Hc Hg. cbn [mbind result_bind]. rewrite Hc.
    cbn [mbind result_bind]. by rewrite Hg.
  - intros found context response -> Hc Hg.
    destruct (extract_answer_total response) as [answer Ha].
    exists answer. split; [done|].
    cbn [mbind result_bind]. rewrite Hc. cbn [mbind result_bind]. rewrite Hg.
    cbn [mbind result_bind]. by rewrite Ha.
Qed.

End HandlerSpec.

(** ** Ingesting a list twice *)

Section SecondPass.
Import GraphWriter Invariant.
Context {vector : Type}.
Implicit Types (g h : graph vector) (e : event vector).

(** A node that carries an identity still carries it in a store that
    keeps the first one, when the key is not among those set. *)
Lemma keeps_match K lbl key s g h j :
  keeps K g h → key ∉ K →
  j ∈ match_nodes lbl [(key, s)] g → j ∈ match_nodes lbl [(key, s)] h.
Proof.
  intros [Hn _] Hk (nd & Hnd & Hm)%elem_of_match_nodes.
  destruct (Hn j nd Hnd) as (nd' & Hnd' & Hl & Hp).
  apply elem_of_match_nodes. exists nd'. split; [done|].
  apply node_matches_key in Hm as [Hlbl Hid]. apply node_matches_key.
  split; [congruence|]. by rewrite Hp.
Qed.

Lemma write_event_keeps_match lbl s e g j :
  j ∈ match_nodes lbl [("id", s)] g →
  j ∈ match_nodes lbl [("id", s)] (write_event e g).
Proof.
  apply (keeps_match ["name"; "body"; "timestamp"; "embedding"; "source"]);
    [apply graph_writer_keeps|].
  apply (bool_decide_unpack _). reflexivity.
Qed.

End SecondPass.

Section IngestedOrder.
Import Embed.
Context {vector : Type}.

(** The loop of the second variant over the starts [k0 * b, ...], against
    a service that answers a batch with its embeddings in order, under
    [data] or under [embeddings]. *)
Lemma embed_loop_any_ordered (post : service vector) (emb : string → vector)
    (texts : list string) (b : nat) :
  (0 < b)%nat →
  (∀ sent batch, ∃ body,
      post sent batch = Ok body
      ∧ (data body = Some (map (fun t => Some (emb t)) batch)
         ∨ (data body = None ∧ embeddings body = Some (map emb batch)))) →
  ∀ n k0 sent acc,
    (embed_loop post any_embeddings texts (Z.of_nat b)
       (map (fun k => Z.of_nat (k * b)) (seq k0 n)) sent acc).2
    = Ok (acc ++ map emb (take (n * b) (drop (k0 * b) texts))).
Proof.
  intros Hb Hpost. induction n as [|n IH]; intros k0 sent acc.
  - simpl. by rewrite app_nil_r.
  - cbn [seq map embed_loop].
    rewrite py_slice_chunk by done.
    destruct (Hpost sent (take b (drop (k0 * b) texts))) as (body & -> & Hd).
    cbn [mbind result_bind].
    assert (any_embeddings body
            = Ok (map emb (take b (drop (k0 * b) texts)))) as ->.
    { unfold any_embeddings. destruct Hd as [->|[-> ->]]; [|done].
      apply item_embeddings_map. }
    rewrite IH. f_equal. rewrite <- app_assoc. f_equal.
    rewrite <- map_app. f_equal.
    replace (S k0 * b)%nat with (k0 * b + b)%nat by lia.
    rewrite <- drop_drop. by rewrite take_take_drop.
Qed.

(** X21. The second [embed_texts] keeps the order of the texts with the
    two list formats it accepts: against a service that answers each batch
    with the vectors of its texts in order, under the key [data] (the
    items carrying [embedding]) or, when there is no [data], under the key
    [embeddings], it returns one vector per text, the i-th being that of
    the i-th text, for every batch size of at least one. *)
Theorem ingested_embed_texts_ordered (post : service vector)
    (emb : string → vector) (texts : list string) (batch_size : Z) :
  (1 ≤ batch_size)%Z →
  (∀ sent batch, ∃ body,
      post sent batch = Ok body
      ∧ (data body = Some (map (fun t => Some (emb t)) batch)
         ∨ (data body = None ∧ embeddings body = Some (map emb batch)))) →
  ∃ vectors,
    (Ingested.embed_texts post texts batch_size).2 = Ok vectors
    ∧ length vectors = length texts
    ∧ ∀ i t, texts !! i = Some t → vectors !! i = Some (emb t).
Proof.
  intros Hbs Hpost. exists (map emb texts). split; [|split].
  - unfold Ingested.embed_texts, embed_with.
    replace batch_size with (Z.of_nat (Z.to_nat batch_size)) by lia.
    destruct (py_range_starts (length texts) (Z.to_nat batch_size))
      as (count & Hcount & ->); [lia|].
    rewrite (embed_loop_any_ordered post emb) by (done || lia).
    simpl. by rewrite drop_0, take_ge.
  - by rewrite length_map.
  - intros i t Hi. by rewrite lookup_map, Hi.
Qed.

End IngestedOrder.

Section IngestedOrderWitness.
Import Embed EmbedExamples.

Lemma ingested_embed_texts_ordered_witness :
  ∃ vectors,
    (Ingested.embed_texts embeddings_service ["hi"; "hello"; "hey"] 2).2
    = Ok vectors
    ∧ length vectors = 3%nat
    ∧ ∀ i t, ["hi"; "hello"; "hey"] !! i = Some t
             → vectors !! i = Some (String.length t).
Proof.
  apply (ingested_embed_texts_ordered embeddings_service String.length);
    [lia|].
  intros sent batch. eexists. split; [reflexivity|]. by right.
Defined.

End IngestedOrderWitness.

Section BenchmarkShape.
Import Benchmark.
Context {vector : Type}.
Implicit Types (g h : graph vector) (r : row vector).

Lemma benchmark_items_distinct r : distinct_keys (message_items r).
Proof.
  unfold message_items, distinct_keys. simpl.
  repeat (apply NoDup_cons; split;
          [rewrite ?not_elem_of_cons; repeat split;
             (done || by intros ?%elem_of_nil)|]).
  apply NoDup_nil_2.
Qed.

Lemma match_nodes_after_ensure lbl pat lbl' pat' g j :
  j ∈ match_nodes lbl pat g → j ∈ match_nodes lbl pat (ensure lbl' pat' g).
Proof.
  rewrite !elem_of_match_nodes. intros (nd & Hnd & Hm). exists nd.
  split; [by apply ensure_lookup|done].
Qed.

(** The store a row leaves, for a row with a parent: the [Message] nodes
    with another id than the row's are those of the store until the
    [FOREACH], and the edges are those of the store and three rounds of
    relationships. *)
Lemma write_batch_parent_run r g parent :
  parent_id r = Some parent →
  ∃ (g7 : graph vector) (pr : list (nat * nat)),
    write_batch [r] g
    = link_all pr "REPLIED_TO" (ensure "Message" [("id", parent)] g7)
    ∧ (∀ q m, (q, m) ∈ pr →
         q ∈ match_nodes "Message" [("id", parent)]
               (ensure "Message" [("id", parent)] g7)
         ∧ m ∈ match_nodes "Message" [("id", message_id r)] g7)
    ∧ (∀ x, message_id r ≠ x →
         match_nodes "Message" [("id", x)] g7
         = match_nodes "Message" [("id", x)] g)
    ∧ match_nodes "Message" [("id", message_id r)] g7 ≠ []
    ∧ (∀ c q, (c, "REPLIED_TO", q) ∈ edges g7 →
              (c, "REPLIED_TO", q) ∈ edges g).
Proof.
  intros Hp.
  destruct (write_batch_run r g) as (nu & nm & p1 & p2 & Hrun).
  cbv zeta in Hrun. destruct Hrun as (Hnu & Hnm & Hp1 & Hp2 & Hrun).
  rewrite Hp in Hrun. destruct Hrun as (pr & Hrun & Hpr).
  set (g1 := ensure "Group" [("id", group_id r)] g) in *.
  set (g2 := ensure "User" [("id", user_id r)] g1) in *.
  set (g3 := set_nodes nu [("name", Some (PStr (user_name r)))] g2) in *.
  set (g4 := ensure "Message" [("id", message_id r)] g3) in *.
  set (g5 := set_nodes nm (message_items r) g4) in *.
  set (g6 := link_all p1 "SENT" g5) in *.
  set (g7 := link_all p2 "IN_GROUP" g6) in *.
  assert (Hf3 : frame "User" ["name"] g2 g3).
  { apply (frame_set_nodes "User" nu [("name", Some (PStr (user_name r)))]).
    intros n nd Hn%Hnu.
    by apply (matched_label "User" [("id", user_id r)] g2). }
  assert (Hf5 : frame "Message" (message_items r).*1 g4 g5).
  { apply frame_set_nodes.
    intros n nd Hn%Hnm.
    by apply (matched_label "Message" [("id", message_id r)] g4). }
  assert (H75 : ∀ lbl pat, match_nodes lbl pat g7 = match_nodes lbl pat g5).
  { intros lbl pat. unfold g7, g6. by rewrite !match_nodes_link_all. }
  assert (H54 : ∀ x, match_nodes "Message" [("id", x)] g5
                     = match_nodes "Message" [("id", x)] g4).
  { intros x. by apply (match_nodes_frame _ _ _ _ _ _ Hf5). }
  exists g7, pr. split; [done|]. split; [|split; [|split]].
  - intros q m [Hq Hm]%Hpr. split; [done|]. by rewrite H75, H54.
  - intros x Hx. rewrite H75, H54. unfold g4.
    rewrite match_nodes_ensure; last first.
    { right. rewrite created_matches_key.
      by rewrite (proj2 (String.eqb_neq _ _) Hx). }
    rewrite (match_nodes_frame _ _ "Message" [("id", x)] _ _ Hf3 eq_refl).
    unfold g2. rewrite match_nodes_ensure by (by right).
    unfold g1. by rewrite match_nodes_ensure by (by right).
  - rewrite H75, H54. by apply merge_node_result, distinct_keys_1.
  - intros c q [[Hx|(p & _ & Hx)]%elem_of_link_all|(p & _ & Hx)]%elem_of_link_all;
      [|discriminate|discriminate].
    unfold g5, g4, g3, g2, g1 in Hx.
    by rewrite set_nodes_edges, ensure_edges, set_nodes_edges, !ensure_edges
      in Hx.
Qed.

End BenchmarkShape.

Section BenchmarkParent.
Import Benchmark.
Context {vector : Type}.
Implicit Types (g h : graph vector) (r : row vector).

(** X22. How the benchmark [write_batch] resolves the parent reference of
    a row, whatever the string (the empty string included). Afterwards
    there is a [Message] node with the parent id, and the [REPLIED_TO]
    edges written are those from the nodes with the parent id to the
    message of the row, and no other. When no [Message] node had the parent
    id and the row is not its own parent, exactly one node stands in for
    the parent, labelled [Message] and with the [id] as only property;
    when there was one, no node is added for the parent. *)
Theorem write_batch_parent_reference r g parent :
  parent_id r = Some parent →
  let g' := write_batch [r] g in
  match_nodes "Message" [("id", parent)] g' ≠ []
  ∧ (∀ q m, q ∈ match_nodes "Message" [("id", parent)] g' →
            m ∈ match_nodes "Message" [("id", message_id r)] g' →
            (q, "REPLIED_TO", m) ∈ edges g')
  ∧ (∀ c q, (c, "REPLIED_TO", q) ∈ edges g' →
            (c, "REPLIED_TO", q) ∈ edges g
            ∨ (c ∈ match_nodes "Message" [("id", parent)] g'
               ∧ q ∈ match_nodes "Message" [("id", message_id r)] g'))
  ∧ (parent ≠ message_id r →
     match_nodes "Message" [("id", parent)] g = [] →
     ∃ q nd,
       match_nodes "Message" [("id", parent)] g' = [q]
       ∧ nodes g' !! q = Some nd ∧ label nd = "Message"
       ∧ ∀ k, props nd !! k
              = if String.eqb k "id" then Some (PStr parent) else None)
  ∧ (parent ≠ message_id r →
     match_nodes "Message" [("id", parent)] g ≠ [] →
     match_nodes "Message" [("id", parent)] g'
     = match_nodes "Message" [("id", parent)] g).
Proof.
  intros Hp g'.
  destruct (write_batch_settles r g) as (_ & _ & _ & _ & _ & _ & _ & HR).
  destruct (HR parent Hp) as [HP HL]. fold g' in HP, HL.
  split; [done|]. split; [done|].
  destruct (write_batch_parent_run r g parent Hp)
    as (g7 & pr & Hrun & Hpr & Hother & HM7 & Hedges).
  assert (Hm' : ∀ lbl pat, match_nodes lbl pat g'
                = match_nodes lbl pat (ensure "Message" [("id", parent)] g7)).
  { intros lbl pat. unfold g'. rewrite Hrun. apply match_nodes_link_all. }
  split; [|split].
  - intros c q Hx. unfold g' in Hx. rewrite Hrun in Hx.
    apply elem_of_link_all in Hx as [Hx|([c' q'] & Hin & Hx)].
    + left. rewrite ensure_edges in Hx. by apply Hedges.
    + right. simpl in Hx. injection Hx as -> ->.
      apply Hpr in Hin as [Hc Hq]. rewrite !Hm'. split; [done|].
      by apply match_nodes_after_ensure.
  - intros Hne Hnone.
    assert (H7 : match_nodes "Message" [("id", parent)] g7 = []).
    { rewrite Hother by done. exact Hnone. }
    exists (length (nodes g7)),
      (Node "Message" (pattern_props [("id", parent)])).
    rewrite Hm'. unfold g'. rewrite Hrun, link_all_nodes.
    unfold ensure, merge_node. rewrite H7. simpl.
    split; [|split; [|split]].
    + change (Graph (nodes g7 ++ [Node "Message" (pattern_props [("id", parent)])])
                (edges g7))
        with (create_node "Message" [("id", parent)] g7).
      rewrite match_nodes_create, H7, created_matches by apply distinct_keys_1.
      done.
    + rewrite lookup_app_r by lia. by rewrite Nat.sub_diag.
    + done.
    + intros k. unfold pattern_props. simpl.
      destruct (String.eqb_spec k "id") as [->|Hk].
      * by rewrite lookup_insert_eq.
      * rewrite lookup_insert_ne by done. apply lookup_empty.
  - intros Hne Hsome. rewrite Hm'.
    rewrite match_nodes_ensure; [by apply Hother|].
    left. by rewrite Hother.
Qed.

End BenchmarkParent.

Section BenchmarkParentWitness.
Import Benchmark Examples.

(** The reply [M2] written to the empty store. *)
Lemma write_batch_parent_reference_witness :
  ∃ q nd,
    match_nodes "Message" [("id", "M1")]
      (write_batch [row_reply] empty_graph) = [q]
    ∧ nodes (write_batch [row_reply] empty_graph) !! q = Some nd
    ∧ label nd = "Message"
    ∧ ∀ k, props nd !! k
           = if String.eqb k "id" then Some (PStr "M1") else None.
Proof.
  destruct (write_batch_parent_reference row_reply empty_graph "M1" eq_refl)
    as (_ & _ & _ & H & _).
  apply H; [discriminate|reflexivity].
Defined.

End BenchmarkParentWitness.

Section TrackedRows.
Import Batch.
Context {vector R : Type}.
Implicit Types (g h : graph vector) (e : env R) (T : list (env R)).

Section Step.
Variable f : graph vector → env R → graph vector * list (env R).
Variable le : graph vector → graph vector → Prop.
Variables (r : R) (later : list R).
Variables A B D D' : graph vector → env R → Prop.
Hypothesis le_refl : ∀ g, le g g.
Hypothesis le_trans : ∀ g1 g2 g3, le g1 g2 → le g2 g3 → le g1 g3.
Hypothesis f_le : ∀ g e, le g (f g e).1.
Hypothesis f_rows : ∀ g e, Forall (fun e' => row e' = row e) (f g e).2.
Hypothesis A_mono : ∀ g h e, le g h → A g e → A h e.
Hypothesis B_mono : ∀ g h e, le g h → B g e → B h e.
Hypothesis D_mono : ∀ g h e, le g h → D g e → D h e.
Hypothesis f_bound : ∀ g e, A g e → Forall (B (f g e).1) (f g e).2.
Hypothesis f_reach :
  ∀ g e, A g e → D g e → row e = r →
         ∃ e' rest, (f g e).2 = e' :: rest ∧ D' (f g e).1 e'.
Hypothesis f_later :
  ∀ g e2 e', A g e2 → row e2 ∈ r :: later → D' g e' → D' (f g e2).1 e'.

Lemma run_rows_le g T : le g (run_rows f g T).1.
Proof.
  revert g. induction T as [|e T IH]; intros g; [apply le_refl|].
  cbn [run_rows]. pose proof (f_le g e) as H1.
  destruct (f g e) as [g1 o1]. pose proof (IH g1) as H2.
  destruct (run_rows f g1 T) as [g2 o2]. simpl in *. by eapply le_trans.
Qed.

Lemma run_rows_bound g T :
  Forall (A g) T → Forall (B (run_rows f g T).1) (run_rows f g T).2.
Proof.
  revert g. induction T as [|e T IH]; intros g HA; [by constructor|].
  apply Forall_cons in HA as [He HT].
  cbn [run_rows]. pose proof (f_le g e) as H1.
  pose proof (f_bound g e He) as Hb.
  destruct (f g e) as [g1 o1]. simpl in *.
  pose proof (IH g1) as H2. pose proof (run_rows_le g1 T) as H3.
  destruct (run_rows f g1 T) as [g2 o2]. simpl in *.
  apply Forall_app. split.
  - eapply Forall_impl; [exact Hb|]. intros e'. by apply B_mono.
  - apply H2. eapply Forall_impl; [exact HT|]. intros e'. by apply A_mono.
Qed.

Lemma run_rows_row (P : R → Prop) g T :
  Forall (fun e => P (row e)) T →
  Forall (fun e => P (row e)) (run_rows f g T).2.
Proof.
  revert g. induction T as [|e T IH]; intros g HP; [by constructor|].
  apply Forall_cons in HP as [He HT].
  cbn [run_rows]. pose proof (f_rows g e) as Hr.
  destruct (f g e) as [g1 o1]. pose proof (IH g1 HT) as H2.
  destruct (run_rows f g1 T) as [g2 o2]. simpl in *.
  apply Forall_app. split; [|done].
  eapply Forall_impl; [exact Hr|]. by intros e' ->.
Qed.

Lemma run_rows_later g T e' :
  Forall (A g) T → Forall (fun e2 => row e2 ∈ r :: later) T →
  D' g e' → D' (run_rows f g T).1 e'.
Proof.
  revert g. induction T as [|e T IH]; intros g HA HL HD; [done|].
  apply Forall_cons in HA as [He HT]. apply Forall_cons in HL as [Hl HL].
  cbn [run_rows]. pose proof (f_le g e) as H1.
  pose proof (f_later g e e' He Hl HD) as Hd.
  destruct (f g e) as [g1 o1]. simpl in *.
  pose proof (IH g1) as H2.
  destruct (run_rows f g1 T) as [g2 o2]. simpl in *.
  apply H2; [|done..].
  eapply Forall_impl; [exact HT|]. intros e0. by apply A_mono.
Qed.

(** The rows of a table, one after the other, through one statement. *)
Lemma run_rows_tracked g T :
  tracked r later A D g T →
  tracked r later B D' (run_rows f g T).1 (run_rows f g T).2.
Proof.
  intros (T1 & e & T2 & -> & Hr & HA & HD & HL).
  apply Forall_app in HA as [HA1 HA2]. apply Forall_cons in HA2 as [HAe HA2].
  rewrite run_rows_app.
  pose proof (run_rows_le g T1) as Hle1.
  pose proof (run_rows_bound g T1 HA1) as Hb1.
  destruct (run_rows f g T1) as [g1 o1]. simpl in Hle1, Hb1.
  cbn [run_rows].
  assert (HAe1 : A g1 e) by by eapply A_mono.
  assert (HDe1 : D g1 e) by by eapply D_mono.
  pose proof (f_le g1 e) as Hle2.
  pose proof (f_bound g1 e HAe1) as Hb2.
  pose proof (f_rows g1 e) as Hr2.
  destruct (f_reach g1 e HAe1 HDe1 Hr) as (e' & rest & Ho & HD').
  destruct (f g1 e) as [g2 o2]. simpl in Hle2, Hb2, Hr2, Ho, HD'. subst o2.
  assert (HA22 : Forall (A g2) T2).
  { eapply Forall_impl; [exact HA2|]. intros e0 H0.
    eapply A_mono; [|exact H0]. by eapply le_trans. }
  pose proof (run_rows_le g2 T2) as Hle3.
  pose proof (run_rows_bound g2 T2 HA22) as Hb3.
  pose proof (run_rows_later g2 T2 e' HA22 HL HD') as HD3.
  pose proof (run_rows_row (fun r' => r' ∈ r :: later) g2 T2 HL) as Hr3.
  destruct (run_rows f g2 T2) as [g3 o3]. simpl in Hle3, Hb3, HD3, Hr3.
  simpl. apply Forall_cons in Hr2 as [Hre' Hrest].
  exists o1, e', (rest ++ o3). split; [|split; [|split; [|split]]].
  - done.
  - congruence.
  - change (e' :: rest ++ o3) with ((e' :: rest) ++ o3).
    apply Forall_app. split; [|apply Forall_app; split].
    + eapply Forall_impl; [exact Hb1|]. intros e0 H0.
      eapply B_mono; [|exact H0]. by eapply le_trans.
    + eapply Forall_impl; [exact Hb2|]. intros e0. by apply B_mono.
    + done.
  - done.
  - apply Forall_app. split; [|done].
    eapply Forall_impl; [exact Hrest|]. intros e0 ->. rewrite Hr. set_solver.
Qed.

End Step.

End TrackedRows.
Section StepFacts.
Import Invariant.
Context {vector R : Type}.
Implicit Types (g h : graph vector) (e : env R).

Lemma step_rows (c : clause vector R) g e :
  Forall (fun e' => row e' = row e) (step c g e).2.
Proof.
  destruct c as [x lbl pat|x lbl pat|x items|a ty b|xs]; cbn [step].
  - destruct (merge_node lbl (pat (row e)) g) as [g1 ms]. simpl.
    apply Forall_map. by apply Forall_true.
  - simpl. apply Forall_map. by apply Forall_true.
  - simpl. by constructor.
  - simpl. by constructor.
  - simpl. by constructor.
Qed.

Lemma foreach_step_keeps {X} K (items : R → list X)
    (body : X → list (clause vector R)) g e :
  (∀ x, Forall (sets_within K) (body x)) →
  keeps K g (foreach_step items body g e).1.
Proof.
  intros Hs.
  by pose proof (keeps_run_stmt K (FOREACH items body) (g, [e]) Hs) as H.
Qed.

Lemma step_merge x lbl (pat : R → pattern) g e :
  distinct_keys (pat (row e)) →
  step (MERGE x lbl pat) g e
  = (ensure lbl (pat (row e)) g,
     map (bind x e)
       (match_nodes lbl (pat (row e)) (ensure lbl (pat (row e)) g))).
Proof.
  intros Hd. cbn [step].
  destruct (merge_node_result lbl (pat (row e)) g Hd) as [H2 _].
  unfold ensure in *.
  destruct (merge_node lbl (pat (row e)) g) as [g1 ms]. simpl in *.
  by rewrite H2.
Qed.

Lemma keeps_prop_at K g h j key :
  keeps K g h → key ∉ K → (j < length (nodes g))%nat →
  prop_at h j key = prop_at g j key.
Proof.
  intros [Hn _] Hk Hj. unfold prop_at.
  destruct (lookup_lt_is_Some_2 _ _ Hj) as [nd Hnd].
  destruct (Hn j nd Hnd) as (nd' & -> & _ & Hp). rewrite Hnd. simpl.
  by apply Hp.
Qed.

Lemma prop_at_set_props_ne n' (items : list (string * option (propval vector)))
    g n k :
  n' ≠ n → prop_at (set_props n' items g) n k = prop_at g n k.
Proof.
  intros Hne. unfold prop_at. rewrite set_props_lookup.
  by rewrite decide_False.
Qed.

Lemma match_same_id lbl lbl' (s s' : string) g n :
  n ∈ match_nodes lbl [("id", s)] g → n ∈ match_nodes lbl' [("id", s')] g →
  s = s'.
Proof.
  intros (nd & Hnd & [_ H1]%node_matches_key)%elem_of_match_nodes.
  intros (nd' & Hnd' & [_ H2]%node_matches_key)%elem_of_match_nodes.
  congruence.
Qed.

End StepFacts.

Section BenchmarkStages.
Import Invariant Batch Benchmark.
Context {vector : Type}.
Implicit Types (g h : graph vector) (e : env (row vector)) (r : row vector).

Lemma bound_keeps K k g h e :
  keeps K g h → "id" ∉ K → bound k g e → bound k h e.
Proof.
  intros Hk Hid (H1 & H2 & H3).
  split; [|split]; intros Hle;
    [destruct (H1 Hle) as (n & ? & ?)|destruct (H2 Hle) as (n & ? & ?)
    |destruct (H3 Hle) as (n & ? & ?)];
    (exists n; split; [done|]; by eapply keeps_match).
Qed.

Lemma bound_le k k' g e :
  ((1 ≤ k' → 1 ≤ k) ∧ (2 ≤ k' → 2 ≤ k) ∧ (4 ≤ k' → 4 ≤ k))%nat →
  bound k g e → bound k' g e.
Proof.
  intros (L1 & L2 & L3) (H1 & H2 & H3). split; [|split]; auto.
Qed.

(** What is written stays written in a store that keeps the first one, as
    long as the properties written stay. *)
Lemma written_transfer K k r later g h gi ui mi :
  keeps K g h → "id" ∉ K →
  ((3 ≤ k)%nat → ui ∈ match_nodes "User" [("id", user_id r)] g →
   names_agree r later →
   prop_at g ui "name" = Some (PStr (user_name r)) →
   prop_at h ui "name" = Some (PStr (user_name r))) →
  ((5 ≤ k)%nat → mi ∈ match_nodes "Message" [("id", message_id r)] g →
   items_agree r later →
   ∀ key v, (key, v) ∈ message_items r →
            prop_at g mi key = v → prop_at h mi key = v) →
  written k r later g gi ui mi → written k r later h gi ui mi.
Proof.
  intros Hk Hid Hname Hitems (H1 & H2 & H3 & H4 & H5 & H6 & H7 & H8).
  unfold written. split; [|split; [|split; [|split; [|split; [|split; [|split]]]]]].
  - intros L. by eapply keeps_match; [done..|apply H1].
  - intros L. by eapply keeps_match; [done..|apply H2].
  - intros L Ha. apply Hname; [done|apply H2; lia|done|by apply H3].
  - intros L. by eapply keeps_match; [done..|apply H4].
  - intros L Ha key v Hkv. apply Hitems; [done|apply H4; lia|done..|by apply H5].
  - intros L. by apply Hk, H6.
  - intros L. by apply Hk, H7.
  - intros L parent Hp. destruct (H8 L parent Hp) as (p & Hm & He).
    exists p. split; [by eapply keeps_match|by apply Hk].
Qed.

Lemma written_keeps K k r later g h gi ui mi :
  keeps K g h → "id" ∉ K →
  ((3 ≤ k)%nat → "name" ∉ K) →
  ((5 ≤ k)%nat → ∀ key, key ∈ (message_items r).*1 → key ∉ K) →
  written k r later g gi ui mi → written k r later h gi ui mi.
Proof.
  intros Hk Hid Hn Hi. apply (written_transfer K); [done..| |].
  - intros L Hu _ Hv. rewrite <- Hv.
    apply (keeps_prop_at K); [done|by apply Hn|].
    by eapply match_nodes_lt.
  - intros L Hm _ key v Hkv Hv. rewrite <- Hv.
    apply (keeps_prop_at K); [done| |].
    + apply Hi; [done|]. apply list_elem_of_fmap. by exists (key, v).
    + by eapply match_nodes_lt.
Qed.

Lemma reached_keeps K k r later g h e :
  keeps K g h → "id" ∉ K →
  ((3 ≤ k)%nat → "name" ∉ K) →
  ((5 ≤ k)%nat → ∀ key, key ∈ (message_items r).*1 → key ∉ K) →
  reached k r later g e → reached k r later h e.
Proof.
  intros Hk Hid Hn Hi (gi & ui & mi & Hg & Hu & Hm & Hw).
  exists gi, ui, mi. split; [done|]. split; [done|]. split; [done|].
  by apply (written_keeps K k r later g).
Qed.

End BenchmarkStages.

Ltac split8 :=
  split; [|split; [|split; [|split; [|split; [|split; [|split]]]]]].

Ltac not_in_keys := apply (bool_decide_unpack _); reflexivity.

Section BenchmarkRun.
Import Invariant Batch Benchmark.
Context {vector : Type}.
Implicit Types (g h : graph vector) (e : env (row vector)) (r : row vector).
Implicit Types (st : graph vector * list (env (row vector))).

(** The facts written before stay; [new] proves the one of this stage. *)
Local Ltac written_from Hw new :=
  let H1 := fresh "H1" in let H2 := fresh "H2" in let H3 := fresh "H3" in
  let H4 := fresh "H4" in let H5 := fresh "H5" in let H6 := fresh "H6" in
  let H7 := fresh "H7" in let H8 := fresh "H8" in
  let L := fresh "L" in
  destruct Hw as (H1 & H2 & H3 & H4 & H5 & H6 & H7 & H8);
  unfold written; split8; intros L;
  first [ lia
        | by (apply H1; lia) | by (apply H2; lia) | by (apply H3; lia)
        | by (apply H4; lia) | by (apply H5; lia) | by (apply H6; lia)
        | by (apply H7; lia) | by (apply H8; lia)
        | new ].

(** A stage takes a table that follows [r] to one that follows [r]. *)
Lemma stage_follows f K k r later st :
  stage f K k →
  tracked r later (bound k) (reached k r later) st.1 st.2 →
  tracked r later (bound (S k)) (reached (S k) r later)
    (run_rows f st.1 st.2).1 (run_rows f st.1 st.2).2.
Proof.
  intros (Hid & Hn & Hi & Hk & Hrows & Hb & Hl & Hr).
  apply (run_rows_tracked f (keeps K) r later (bound k) (bound (S k))
           (reached k r later) (reached (S k) r later)).
  - apply keeps_refl.
  - apply keeps_trans.
  - exact Hk.
  - exact Hrows.
  - intros g h e Hgh. by apply (bound_keeps K).
  - intros g h e Hgh. by apply (bound_keeps K).
  - intros g h e Hgh. apply (reached_keeps K); [done..|].
    intros L key Hkey. by apply Hi.
  - exact Hb.
  - apply Hr.
  - intros g e2 e' HA Hrow (gi & ui & mi & Hg & Hu & Hm & Hw).
    exists gi, ui, mi. split; [done|]. split; [done|]. split; [done|].
    by apply Hl.
Qed.

(** A stage run for later elements keeps what is written of [r]. *)
Lemma stage_passes f K k r later gi ui mi st :
  stage f K k →
  passing k r later gi ui mi st →
  passing (S k) r later gi ui mi (run_rows f st.1 st.2).
Proof.
  intros (Hid & Hn & Hi & Hk & Hrows & Hb & Hl & Hr) (HA & HR & Hw).
  split; [|split].
  - apply (run_rows_bound f (keeps K) (bound k)); [apply keeps_refl
      |apply keeps_trans|done| | |done..];
      intros g h e Hgh; by apply (bound_keeps K).
  - by apply (run_rows_row f Hrows (fun r' => r' ∈ r :: later)).
  - apply (run_rows_later f (keeps K) r later (bound k)
             (fun g _ => written 8 r later g gi ui mi)
             Hk); [| |exact (Env r [])|done..].
    + intros g h e Hgh. by apply (bound_keeps K).
    + intros g e2 _ HA2 Hrow. by apply Hl.
Qed.

(** A statement that binds nothing and gives the row back. *)
Lemma bound_same f K k g e :
  "id" ∉ K → keeps K g (f g e).1 → (f g e).2 = [e] →
  ((k = 3)%nat ∨ (5 ≤ k)%nat) →
  bound (pred k) g e → Forall (bound k (f g e).1) (f g e).2.
Proof.
  intros Hid Hk -> Hguard Hb. constructor; [|constructor].
  apply (bound_keeps K _ _ _ e Hk) in Hb; [|done].
  apply (bound_le (pred k) k); [lia|done].
Qed.

Lemma group_stage :
  stage (step (MERGE "g" "Group"
                 (fun row : row vector => [("id", group_id row)]))) [] 0.
Proof.
  set (c := MERGE "g" "Group" (fun row : row vector => [("id", group_id row)])).
  assert (Hc : ∀ g e, keeps [] g (step c g e).1).
  { intros g e. by apply keeps_step. }
  split8.
  - apply not_elem_of_nil.
  - lia.
  - lia.
  - exact Hc.
  - apply step_rows.
  - intros g e Hb. unfold c. rewrite step_merge by apply distinct_keys_1.
    simpl. apply Forall_map, Forall_forall. intros n Hn.
    split; [|split]; intros L; try lia. exists n. by split.
  - intros k' r later gi ui mi g e _ _.
    apply (written_keeps []); [apply Hc|apply not_elem_of_nil
      |intros _; apply not_elem_of_nil|intros _ key _; apply not_elem_of_nil].
  - intros r later g e Hb Hd Hr. unfold c.
    rewrite step_merge by apply distinct_keys_1. simpl.
    destruct (merge_node_result "Group" [("id", group_id (Cypher.row e))] g)
      as [_ Hne]; [apply distinct_keys_1|].
    destruct (match_nodes "Group" [("id", group_id (Cypher.row e))]
                (ensure "Group" [("id", group_id (Cypher.row e))] g))
      as [|n ms] eqn:E; [done|].
    exists (bind "g" e n), (map (bind "g" e) ms). split; [done|].
    exists n, 0%nat, 0%nat. split; [done|]. split; [lia|]. split; [lia|].
    unfold written. split8; intros L; try lia.
    rewrite <- Hr, E. by left.
Qed.

Lemma user_stage :
  stage (step (MERGE "u" "User"
                 (fun row : row vector => [("id", user_id row)]))) [] 1.
Proof.
  set (c := MERGE "u" "User" (fun row : row vector => [("id", user_id row)])).
  assert (Hc : ∀ g e, keeps [] g (step c g e).1).
  { intros g e. by apply keeps_step. }
  split8.
  - apply not_elem_of_nil.
  - lia.
  - lia.
  - exact Hc.
  - apply step_rows.
  - intros g e Hb.
    apply (bound_keeps [] _ _ _ e (Hc g e)) in Hb; [|apply not_elem_of_nil].
    revert Hb. unfold c. rewrite step_merge by apply distinct_keys_1.
    simpl. intros (B1 & B2 & B3).
    apply Forall_map, Forall_forall. intros n Hn.
    split; [|split]; intros L; try lia.
    + simpl. apply B1. lia.
    + exists n. by split.
  - intros k' r later gi ui mi g e _ _.
    apply (written_keeps []); [apply Hc|apply not_elem_of_nil
      |intros _; apply not_elem_of_nil|intros _ key _; apply not_elem_of_nil].
  - intros r later g e Hb (gi & ui & mi & Hg & Hu & Hm & Hw) Hr.
    apply (written_keeps [] _ _ _ _ _ _ _ _ (Hc g e)) in Hw;
      [|apply not_elem_of_nil|lia|lia].
    revert Hw. unfold c. rewrite step_merge by apply distinct_keys_1.
    simpl. intros Hw.
    destruct (merge_node_result "User" [("id", user_id (Cypher.row e))] g)
      as [_ Hne]; [apply distinct_keys_1|].
    destruct (match_nodes "User" [("id", user_id (Cypher.row e))]
                (ensure "User" [("id", user_id (Cypher.row e))] g))
      as [|n ms] eqn:E; [done|].
    exists (bind "u" e n), (map (bind "u" e) ms). split; [done|].
    exists gi, n, mi.
    split; [intros _; simpl; apply Hg; lia|]. split; [done|]. split; [lia|].
    written_from Hw ltac:(rewrite <- Hr, E; by left).
Qed.

Lemma name_stage :
  stage (step (SET "u" (fun row : row vector =>
                          [("name", Some (PStr (user_name row)))])))
    ["name"] 2.
Proof.
  set (c := SET "u" (fun row : row vector =>
                       [("name", Some (PStr (user_name row)))])).
  assert (Hc : ∀ g e, keeps ["name"] g (step c g e).1).
  { intros g e. apply keeps_step. keys_within. }
  split8.
  - not_in_keys.
  - lia.
  - lia.
  - exact Hc.
  - apply step_rows.
  - intros g e Hb.
    apply (bound_same (step c) ["name"] 3); [not_in_keys|apply Hc|done|lia|done].
  - intros k' r later gi ui mi g e2 (_ & B2 & _) Hl.
    apply (written_transfer ["name"]); [apply Hc|not_in_keys| |].
    + intros _ Hui Hagree Hv.
      destruct (B2 ltac:(lia)) as (u2 & Hu2 & Hm2).
      unfold c. cbn [step]. rewrite Hu2. simpl.
      destruct (decide (u2 = ui)) as [->|Hne].
      * assert (Hid : user_id (Cypher.row e2) = user_id r)
          by by eapply match_same_id.
        assert (Hn : user_name (Cypher.row e2) = user_name r).
        { apply elem_of_cons in Hl as [->|Hl]; [done|by apply Hagree]. }
        apply prop_at_set_props; [apply distinct_keys_1|rewrite Hn; by left|].
        left. split; [done|]. by eapply match_nodes_lt.
      * by rewrite prop_at_set_props_ne.
    + intros _ Hmi _ key v Hkv Hv. rewrite <- Hv.
      apply (keeps_prop_at ["name"]); [apply Hc| |by eapply match_nodes_lt].
      unfold message_items in Hkv.
      repeat (apply elem_of_cons in Hkv as [[= -> _]|Hkv]; [not_in_keys|]).
      by apply elem_of_nil in Hkv.
  - intros r later g e Hb (gi & ui & mi & Hg & Hu & Hm & Hw) Hr.
    exists e, []. split; [done|].
    exists gi, ui, mi.
    split; [intros _; apply Hg; lia|]. split; [intros _; apply Hu; lia|].
    split; [lia|].
    pose proof Hw as Hw0.
    apply (written_keeps ["name"] _ _ _ _ _ _ _ _ (Hc g e)) in Hw;
      [|not_in_keys|lia|lia].
    destruct Hw0 as (_ & U & _).
    written_from Hw idtac.
    intros _. unfold c. cbn [step]. rewrite (Hu ltac:(lia)). simpl.
    apply prop_at_set_props; [apply distinct_keys_1|rewrite Hr; by left|].
    left. split; [done|]. eapply match_nodes_lt. apply U. lia.
Qed.

Lemma message_stage :
  stage (step (MERGE "m" "Message"
                 (fun row : row vector => [("id", message_id row)]))) [] 3.
Proof.
  set (c := MERGE "m" "Message"
              (fun row : row vector => [("id", message_id row)])).
  assert (Hc : ∀ g e, keeps [] g (step c g e).1).
  { intros g e. by apply keeps_step. }
  split8.
  - apply not_elem_of_nil.
  - intros _. apply not_elem_of_nil.
  - lia.
  - exact Hc.
  - apply step_rows.
  - intros g e Hb.
    apply (bound_keeps [] _ _ _ e (Hc g e)) in Hb; [|apply not_elem_of_nil].
    revert Hb. unfold c. rewrite step_merge by apply distinct_keys_1.
    simpl. intros (B1 & B2 & B3).
    apply Forall_map, Forall_forall. intros n Hn.
    split; [|split]; intros L.
    + simpl. apply B1. lia.
    + simpl. apply B2. lia.
    + exists n. by split.
  - intros k' r later gi ui mi g e _ _.
    apply (written_keeps []); [apply Hc|apply not_elem_of_nil
      |intros _; apply not_elem_of_nil|intros _ key _; apply not_elem_of_nil].
  - intros r later g e Hb (gi & ui & mi & Hg & Hu & Hm & Hw) Hr.
    apply (written_keeps [] _ _ _ _ _ _ _ _ (Hc g e)) in Hw;
      [|apply not_elem_of_nil|intros _; apply not_elem_of_nil|lia].
    revert Hw. unfold c. rewrite step_merge by apply distinct_keys_1.
    simpl. intros Hw.
    destruct (merge_node_result "Message"
                [("id", message_id (Cypher.row e))] g)
      as [_ Hne]; [apply distinct_keys_1|].
    destruct (match_nodes "Message" [("id", message_id (Cypher.row e))]
                (ensure "Message" [("id", message_id (Cypher.row e))] g))
      as [|n ms] eqn:E; [done|].
    exists (bind "m" e n), (map (bind "m" e) ms). split; [done|].
    exists gi, ui, n.
    split; [intros _; simpl; apply Hg; lia|].
    split; [intros _; simpl; apply Hu; lia|]. split; [done|].
    written_from Hw ltac:(rewrite <- Hr, E; by left).
Qed.

Lemma items_stage :
  stage (step (SET "m" (message_items (vector := vector))))
    ["body"; "timestamp"; "embedding"] 4.
Proof.
  set (K := ["body"; "timestamp"; "embedding"]).
  set (c := SET "m" (message_items (vector := vector))).
  assert (Hc : ∀ g e, keeps K g (step c g e).1).
  { intros g e. apply keeps_step. keys_within. }
  split8.
  - not_in_keys.
  - intros _. not_in_keys.
  - lia.
  - exact Hc.
  - apply step_rows.
  - intros g e Hb.
    apply (bound_same (step c) K 5); [not_in_keys|apply Hc|done|lia|done].
  - intros k' r later gi ui mi g e2 (_ & _ & B3) Hl.
    apply (written_transfer K); [apply Hc|not_in_keys| |].
    + intros _ Hui _ Hv. rewrite <- Hv.
      apply (keeps_prop_at K); [apply Hc|not_in_keys|].
      by eapply match_nodes_lt.
    + intros _ Hmi Hagree key v Hkv Hv.
      destruct (B3 ltac:(lia)) as (m2 & Hm2 & Hmm2).
      unfold c. cbn [step]. rewrite Hm2. simpl.
      destruct (decide (m2 = mi)) as [->|Hne].
      * assert (Hid : message_id (Cypher.row e2) = message_id r)
          by by eapply match_same_id.
        assert (Hn : message_items (Cypher.row e2) = message_items r).
        { apply elem_of_cons in Hl as [->|Hl]; [done|by apply Hagree]. }
        apply prop_at_set_props;
          [apply benchmark_items_distinct|by rewrite Hn|].
        left. split; [done|]. by eapply match_nodes_lt.
      * by rewrite prop_at_set_props_ne.
  - intros r later g e Hb (gi & ui & mi & Hg & Hu & Hm & Hw) Hr.
    exists e, []. split; [done|].
    exists gi, ui, mi.
    split; [intros _; apply Hg; lia|]. split; [intros _; apply Hu; lia|].
    split; [intros _; apply Hm; lia|].
    pose proof Hw as Hw0.
    apply (written_keeps K _ _ _ _ _ _ _ _ (Hc g e)) in Hw;
      [|not_in_keys|intros _; not_in_keys|lia].
    destruct Hw0 as (_ & _ & _ & M & _).
    written_from Hw idtac.
    intros _ key v Hkv. unfold c. cbn [step]. rewrite (Hm ltac:(lia)). simpl.
    apply prop_at_set_props;
      [apply benchmark_items_distinct|by rewrite Hr|].
    left. split; [done|]. eapply match_nodes_lt. apply M. lia.
Qed.

Lemma sent_stage :
  stage (step (MERGE_rel "u" "SENT" "m" : clause vector (row vector))) [] 5.
Proof.
  set (c := MERGE_rel "u" "SENT" "m" : clause vector (row vector)).
  assert (Hc : ∀ g e, keeps [] g (step c g e).1).
  { intros g e. by apply keeps_step. }
  split8.
  - apply not_elem_of_nil.
  - intros _. apply not_elem_of_nil.
  - intros _ key _. apply not_elem_of_nil.
  - exact Hc.
  - apply step_rows.
  - intros g e Hb.
    apply (bound_same (step c) [] 6);
      [apply not_elem_of_nil|apply Hc|done|lia|done].
  - intros k' r later gi ui mi g e _ _.
    apply (written_keeps []); [apply Hc|apply not_elem_of_nil
      |intros _; apply not_elem_of_nil|intros _ key _; apply not_elem_of_nil].
  - intros r later g e Hb (gi & ui & mi & Hg & Hu & Hm & Hw) Hr.
    exists e, []. split; [done|].
    exists gi, ui, mi.
    split; [intros _; apply Hg; lia|]. split; [intros _; apply Hu; lia|].
    split; [intros _; apply Hm; lia|].
    apply (written_keeps [] _ _ _ _ _ _ _ _ (Hc g e)) in Hw;
      [|apply not_elem_of_nil|intros _; apply not_elem_of_nil
       |intros _ key _; apply not_elem_of_nil].
    written_from Hw idtac.
    unfold c. cbn [step].
    rewrite (Hu ltac:(lia)), (Hm ltac:(lia)). simpl.
    apply elem_of_add_edge. by left.
Qed.

Lemma in_group_stage :
  stage (step (MERGE_rel "m" "IN_GROUP" "g" : clause vector (row vector)))
    [] 6.
Proof.
  set (c := MERGE_rel "m" "IN_GROUP" "g" : clause vector (row vector)).
  assert (Hc : ∀ g e, keeps [] g (step c g e).1).
  { intros g e. by apply keeps_step. }
  split8.
  - apply not_elem_of_nil.
  - intros _. apply not_elem_of_nil.
  - intros _ key _. apply not_elem_of_nil.
  - exact Hc.
  - apply step_rows.
  - intros g e Hb.
    apply (bound_same (step c) [] 7);
      [apply not_elem_of_nil|apply Hc|done|lia|done].
  - intros k' r later gi ui mi g e _ _.
    apply (written_keeps []); [apply Hc|apply not_elem_of_nil
      |intros _; apply not_elem_of_nil|intros _ key _; apply not_elem_of_nil].
  - intros r later g e Hb (gi & ui & mi & Hg & Hu & Hm & Hw) Hr.
    exists e, []. split; [done|].
    exists gi, ui, mi.
    split; [intros _; apply Hg; lia|]. split; [intros _; apply Hu; lia|].
    split; [intros _; apply Hm; lia|].
    apply (written_keeps [] _ _ _ _ _ _ _ _ (Hc g e)) in Hw;
      [|apply not_elem_of_nil|intros _; apply not_elem_of_nil
       |intros _ key _; apply not_elem_of_nil].
    written_from Hw idtac.
    unfold c. cbn [step].
    rewrite (Hm ltac:(lia)), (Hg ltac:(lia)). simpl.
    apply elem_of_add_edge. by left.
Qed.

Lemma reply_stage :
  stage (foreach_step (fun row : row vector => option_list (parent_id row))
           (fun parent =>
              [ MERGE "p" "Message" (fun _ => [("id", parent)]);
                MERGE_rel "p" "REPLIED_TO" "m" ] : list (clause vector _)))
    [] 7.
Proof.
  set (items := fun row : row vector => option_list (parent_id row)).
  set (body := fun parent : string =>
         [ MERGE "p" "Message" (fun _ : row vector => [("id", parent)]);
           MERGE_rel "p" "REPLIED_TO" "m" ] : list (clause vector _)).
  assert (Hc : ∀ g e, keeps [] g (foreach_step items body g e).1).
  { intros g e. apply foreach_step_keeps. intros x.
    by repeat constructor. }
  split8.
  - apply not_elem_of_nil.
  - intros _. apply not_elem_of_nil.
  - intros _ key _. apply not_elem_of_nil.
  - exact Hc.
  - intros g e. simpl. by constructor.
  - intros g e Hb.
    apply (bound_same (foreach_step items body) [] 8);
      [apply not_elem_of_nil|apply Hc|done|lia|done].
  - intros k' r later gi ui mi g e _ _.
    apply (written_keeps []); [apply Hc|apply not_elem_of_nil
      |intros _; apply not_elem_of_nil|intros _ key _; apply not_elem_of_nil].
  - intros r later g e Hb (gi & ui & mi & Hg & Hu & Hm & Hw) Hr.
    exists e, []. split; [done|].
    exists gi, ui, mi.
    split; [intros _; apply Hg; lia|]. split; [intros _; apply Hu; lia|].
    split; [intros _; apply Hm; lia|].
    apply (written_keeps [] _ _ _ _ _ _ _ _ (Hc g e)) in Hw;
      [|apply not_elem_of_nil|intros _; apply not_elem_of_nil
       |intros _ key _; apply not_elem_of_nil].
    written_from Hw idtac.
    intros parent Hp. destruct e as [r0 vs]. simpl in Hr. subst r0.
    simpl in Hm. unfold foreach_step, items. cbn [Cypher.row fst].
    rewrite Hp. change (option_list (Some parent)) with [parent].
    cbn [foldl].
    change (run_clauses (body parent) (g, [Env r vs])).1
      with (reply_step r parent g vs).
    rewrite reply_step_run.
    destruct (merge_node_result "Message" [("id", parent)] g)
      as [_ Hne]; [apply distinct_keys_1|].
    destruct (match_nodes "Message" [("id", parent)]
                (ensure "Message" [("id", parent)] g))
      as [|p ps] eqn:E; [done|].
    exists p. split.
    + rewrite match_nodes_link_all, E. by left.
    + apply elem_of_link_all. right. exists (p, mi). split; [|done].
      apply reply_pairs. split; [by left|]. apply Hm. lia.
Qed.

(** The eight statements for a row of the batch. *)
Lemma write_batch_row_written (earlier later : list (row vector)) r g :
  ∃ gi ui mi,
    written 8 r later (write_batch (earlier ++ r :: later) g) gi ui mi.
Proof.
  assert (H0 : tracked r later (bound 0) (reached 0 r later) g
                 (map (fun r => Env r []) (earlier ++ r :: later))).
  { exists (map (fun r => Env r []) earlier), (Env r []),
      (map (fun r => Env r []) later).
    split; [by rewrite map_app|]. split; [done|]. split; [|split].
    - apply Forall_forall. intros e _. split; [|split]; lia.
    - exists 0%nat, 0%nat, 0%nat.
      split; [lia|]. split; [lia|]. split; [lia|].
      unfold written. split8; lia.
    - apply Forall_map, Forall_forall. intros r' Hr'. simpl. by right. }
  pose proof (stage_follows _ _ _ r later (g, _) group_stage H0) as H1.
  pose proof (stage_follows _ _ _ r later _ user_stage H1) as H2.
  pose proof (stage_follows _ _ _ r later _ name_stage H2) as H3.
  pose proof (stage_follows _ _ _ r later _ message_stage H3) as H4.
  pose proof (stage_follows _ _ _ r later _ items_stage H4) as H5.
  pose proof (stage_follows _ _ _ r later _ sent_stage H5) as H6.
  pose proof (stage_follows _ _ _ r later _ in_group_stage H6) as H7.
  pose proof (stage_follows _ _ _ r later _ reply_stage H7) as H8.
  destruct H8 as (_ & e & _ & _ & _ & _ & (gi & ui & mi & _ & _ & _ & Hw) & _).
  exists gi, ui, mi. exact Hw.
Qed.

(** The eight statements for a batch of later elements. *)
Lemma write_batch_passes (batch later : list (row vector)) r g gi ui mi :
  (∀ r', r' ∈ batch → r' ∈ later) →
  written 8 r later g gi ui mi →
  written 8 r later (write_batch batch g) gi ui mi.
Proof.
  intros Hsub Hw.
  assert (H0 : passing 0 r later gi ui mi
                 (g, map (fun r => Env r []) batch)).
  { split; [|split]; [| |done].
    - apply Forall_forall. intros e _. split; [|split]; lia.
    - apply Forall_map, Forall_forall. intros r' Hr'. simpl.
      right. by apply Hsub. }
  pose proof (stage_passes _ _ _ r later gi ui mi _ group_stage H0) as H1.
  pose proof (stage_passes _ _ _ r later gi ui mi _ user_stage H1) as H2.
  pose proof (stage_passes _ _ _ r later gi ui mi _ name_stage H2) as H3.
  pose proof (stage_passes _ _ _ r later gi ui mi _ message_stage H3) as H4.
  pose proof (stage_passes _ _ _ r later gi ui mi _ items_stage H4) as H5.
  pose proof (stage_passes _ _ _ r later gi ui mi _ sent_stage H5) as H6.
  pose proof (stage_passes _ _ _ r later gi ui mi _ in_group_stage H6) as H7.
  pose proof (stage_passes _ _ _ r later gi ui mi _ reply_stage H7) as H8.
  destruct H8 as (_ & _ & H8). exact H8.
Qed.

(** What [written 8] says, for the fields of the row. *)
Lemma written_all r later g gi ui mi :
  written 8 r later g gi ui mi →
  gi ∈ match_nodes "Group" [("id", group_id r)] g
  ∧ ui ∈ match_nodes "User" [("id", user_id r)] g
  ∧ mi ∈ match_nodes "Message" [("id", message_id r)] g
  ∧ (ui, "SENT", mi) ∈ edges g
  ∧ (mi, "IN_GROUP", gi) ∈ edges g
  ∧ (∀ parent, parent_id r = Some parent →
       ∃ p, p ∈ match_nodes "Message" [("id", parent)] g
            ∧ (p, "REPLIED_TO", mi) ∈ edges g)
  ∧ ((∀ r', r' ∈ later → user_id r' = user_id r →
            user_name r' = user_name r) →
     prop_at g ui "name" = Some (PStr (user_name r)))
  ∧ ((∀ r', r' ∈ later → message_id r' = message_id r →
            body r' = body r ∧ timestamp r' = timestamp r
            ∧ embedding r' = embedding r) →
     prop_at g mi "body" = Some (PStr (body r))
     ∧ prop_at g mi "timestamp" = Some (PInt (timestamp r))
     ∧ prop_at g mi "embedding" = PVec <$> embedding r).
Proof.
  intros (W1 & W2 & W3 & W4 & W5 & W6 & W7 & W8).
  split; [apply W1; lia|]. split; [apply W2; lia|]. split; [apply W4; lia|].
  split; [apply W6; lia|]. split; [apply W7; lia|]. split; [apply W8; lia|].
  split; [intros Ha; apply W3; [lia|exact Ha]|].
  intros Ha.
  assert (Hi : items_agree r later).
  { intros r' Hr' Hid. destruct (Ha r' Hr' Hid) as (Hb & Ht & He).
    unfold message_items. by rewrite Hb, Ht, He. }
  split; [|split]; apply W5; try lia; try done; unfold message_items.
  - by left.
  - right. by left.
  - right. right. by left.
Qed.

(** X23. A batch of any size stores each of its rows. For every row of
    the batch there are, after [write_batch], a [Group], a [User] and a
    [Message] node with the ids of the row, the edges [SENT] from the user
    to the message and [IN_GROUP] from the message to the group, and for a
    reply a [Message] node with the parent id and a [REPLIED_TO] edge from
    it to the message. The user has the name of the row unless a later row
    of the batch gives the same user another name, and the message has the
    body, the timestamp and the embedding of the row unless a later row
    of the batch with the same message id gives others: the last row
    wins. *)
Theorem write_batch_stores_every_row (earlier later : list (row vector)) r g :
  let g' := write_batch (earlier ++ r :: later) g in
  ∃ gi ui mi,
    gi ∈ match_nodes "Group" [("id", group_id r)] g'
    ∧ ui ∈ match_nodes "User" [("id", user_id r)] g'
    ∧ mi ∈ match_nodes "Message" [("id", message_id r)] g'
    ∧ (ui, "SENT", mi) ∈ edges g'
    ∧ (mi, "IN_GROUP", gi) ∈ edges g'
    ∧ (∀ parent, parent_id r = Some parent →
         ∃ p, p ∈ match_nodes "Message" [("id", parent)] g'
              ∧ (p, "REPLIED_TO", mi) ∈ edges g')
    ∧ ((∀ r', r' ∈ later → user_id r' = user_id r →
              user_name r' = user_name r) →
       prop_at g' ui "name" = Some (PStr (user_name r)))
    ∧ ((∀ r', r' ∈ later → message_id r' = message_id r →
              body r' = body r ∧ timestamp r' = timestamp r
              ∧ embedding r' = embedding r) →
       prop_at g' mi "body" = Some (PStr (body r))
       ∧ prop_at g' mi "timestamp" = Some (PInt (timestamp r))
       ∧ prop_at g' mi "embedding" = PVec <$> embedding r).
Proof.
  intros g'.
  destruct (write_batch_row_written earlier later r g) as (gi & ui & mi & Hw).
  exists gi, ui, mi. by apply written_all.
Qed.

End BenchmarkRun.

Section BenchmarkLoop.
Import Embed Invariant Batch Benchmark BenchmarkMain.
Context {vector : Type}.
Implicit Types (g h : graph vector) (r : row vector).

Lemma written_later_sub k r (l l' : list (row vector)) g gi ui mi :
  (∀ x, x ∈ l' → x ∈ l) →
  written k r l' g gi ui mi → written k r l g gi ui mi.
Proof.
  intros Hsub (W1 & W2 & W3 & W4 & W5 & W6 & W7 & W8).
  unfold written. split8; try done.
  - intros L Ha. apply W3; [done|]. intros r' Hr'. apply Ha. by apply Hsub.
  - intros L Ha. apply W5; [done|]. intros r' Hr'. apply Ha. by apply Hsub.
Qed.

(** An element of a concatenation lies in one of the lists. *)
Lemma concat_split {A} (cs : list (list A)) (l1 l2 : list A) (x : A) :
  concat cs = l1 ++ x :: l2 →
  ∃ cs1 c1 c2 cs2,
    cs = cs1 ++ (c1 ++ x :: c2) :: cs2 ∧ l2 = c2 ++ concat cs2.
Proof.
  revert l1. induction cs as [|c cs IH]; intros l1 H.
  - by destruct l1.
  - cbn [concat] in H. apply app_eq_inv in H as [(k & Hc & Hk)|(k & Hl & Hk)].
    + destruct k as [|y k].
      * rewrite app_nil_r in Hc. subst c. simpl in Hk.
        destruct (IH [] (eq_sym Hk)) as (cs1 & c1 & c2 & cs2 & -> & ->).
        by exists (l1 :: cs1), c1, c2, cs2.
      * injection Hk as <- ->. exists [], l1, k, cs. by subst c.
    + destruct (IH k Hk) as (cs1 & c1 & c2 & cs2 & -> & ->).
      by exists (c :: cs1), c1, c2, cs2.
Qed.

Lemma foldl_map {A B C} (f : A → C → A) (h : B → C) (a : A) (l : list B) :
  foldl f a (map h l) = foldl (fun a x => f a (h x)) a l.
Proof. revert a. induction l as [|x l IH]; intros a; [done|]. apply IH. Qed.

(** The loop writes the slices of [BATCH_SIZE] records, which put end to
    end are the records. *)
Lemma write_records_chunks (records : list (row vector)) g :
  ∃ cs, concat cs = records
        ∧ write_records records g
          = Ok (foldl (fun g c => write_batch c g) g cs).
Proof.
  set (n := ((length records + 100 - 1) / 100)%nat).
  exists (map (fun k => take 100 (drop (k * 100) records)) (seq 0 n)).
  split.
  - rewrite concat_chunks, drop_0. apply take_ge.
    destruct (ceil_div_bounds (length records) 100) as [Hle _]; [lia|].
    exact Hle.
  - unfold write_records. change BATCH_SIZE with (Z.of_nat 100).
    rewrite py_range_count by lia. fold n. cbn [mbind result_bind].
    f_equal. rewrite !foldl_map. generalize (seq 0 n). intros l. revert g.
    induction l as [|k l IH]; intros g; [done|].
    cbn [foldl]. rewrite py_slice_chunk by lia. apply IH.
Qed.

Lemma batches_pass (cs : list (list (row vector))) later r g gi ui mi :
  (∀ r', r' ∈ concat cs → r' ∈ later) →
  written 8 r later g gi ui mi →
  written 8 r later (foldl (fun g c => write_batch c g) g cs) gi ui mi.
Proof.
  revert g. induction cs as [|c cs IH]; intros g Hsub Hw; [done|].
  cbn [foldl]. apply IH.
  - intros r' Hr'. apply Hsub. cbn [concat]. apply elem_of_app. by right.
  - apply write_batch_passes; [|done].
    intros r' Hr'. apply Hsub. cbn [concat]. apply elem_of_app. by left.
Qed.

(** X24. The write loop of [main] stores every record, however the records
    fall into batches of [BATCH_SIZE]: it ends, and for every record there
    are afterwards a [Group], a [User] and a [Message] node with its ids,
    the [SENT] and [IN_GROUP] edges between them and, for a reply, a
    [Message] node with the parent id and a [REPLIED_TO] edge from it to
    the message. The user has the name of the record unless a later
    record, of the same batch or of a later one, gives the same user
    another name, and the message has the body, timestamp and embedding
    of the record unless a later record with the same message id gives
    others. *)
Theorem write_records_stores_every_record
    (earlier later : list (row vector)) r g :
  ∃ g',
    write_records (earlier ++ r :: later) g = Ok g'
    ∧ ∃ gi ui mi,
        gi ∈ match_nodes "Group" [("id", group_id r)] g'
        ∧ ui ∈ match_nodes "User" [("id", user_id r)] g'
        ∧ mi ∈ match_nodes "Message" [("id", message_id r)] g'
        ∧ (ui, "SENT", mi) ∈ edges g'
        ∧ (mi, "IN_GROUP", gi) ∈ edges g'
        ∧ (∀ parent, parent_id r = Some parent →
             ∃ p, p ∈ match_nodes "Message" [("id", parent)] g'
                  ∧ (p, "REPLIED_TO", mi) ∈ edges g')
        ∧ ((∀ r', r' ∈ later → user_id r' = user_id r →
                  user_name r' = user_name r) →
           prop_at g' ui "name" = Some (PStr (user_name r)))
        ∧ ((∀ r', r' ∈ later → message_id r' = message_id r →
                  body r' = body r ∧ timestamp r' = timestamp r
                  ∧ embedding r' = embedding r) →
           prop_at g' mi "body" = Some (PStr (body r))
           ∧ prop_at g' mi "timestamp" = Some (PInt (timestamp r))
           ∧ prop_at g' mi "embedding" = PVec <$> embedding r).
Proof.
  destruct (write_records_chunks (earlier ++ r :: later) g)
    as (cs & Hcs & ->).
  eexists. split; [done|].
  destruct (concat_split cs earlier later r Hcs)
    as (cs1 & c1 & c2 & cs2 & -> & Hlater).
  rewrite foldl_app. cbn [foldl].
  set (g1 := foldl (fun g c => write_batch c g) g cs1).
  destruct (write_batch_row_written c1 c2 r g1) as (gi & ui & mi & Hw).
  exists gi, ui, mi. apply written_all.
  apply batches_pass.
  - intros r' Hr'. rewrite Hlater. apply elem_of_app. by right.
  - apply (written_later_sub _ _ _ c2); [|done].
    intros x Hx. rewrite Hlater. apply elem_of_app. by left.
Qed.

End BenchmarkLoop.

(** ** No second node for an identity *)

Section SameOrNew.
Import Invariant Identity.
Context {vector R : Type}.
Implicit Types (g h : graph vector).

Lemma same_or_new_refl lbl key s g : same_or_new lbl key s g g.
Proof. split; [done|by left]. Qed.

Lemma same_or_new_trans lbl key s g1 g2 g3 :
  same_or_new lbl key s g1 g2 → same_or_new lbl key s g2 g3 →
  same_or_new lbl key s g1 g3.
Proof.
  intros [L1 H1] [L2 H2]. split; [lia|].
  destruct H1 as [E1|(N1 & m1 & E1 & B1)], H2 as [E2|(N2 & m2 & E2 & B2)].
  - left. congruence.
  - right. split; [congruence|]. exists m2. split; [done|lia].
  - right. split; [done|]. exists m1. split; [congruence|done].
  - congruence.
Qed.

Lemma same_or_new_merge_node lbl key s lbl' pat g :
  (lbl' = lbl → ∃ s', pat = [(key, s')]) →
  same_or_new lbl key s g (merge_node lbl' pat g).1.
Proof.
  intros Hpat. unfold merge_node.
  destruct (match_nodes lbl' pat g) eqn:Hm; simpl;
    [|apply same_or_new_refl].
  split; [unfold create_node; simpl; rewrite length_app; simpl; lia|].
  rewrite match_nodes_create.
  destruct (decide (lbl' = lbl)) as [->|Hne].
  - destruct (Hpat eq_refl) as [s' ->]. rewrite created_matches_key.
    rewrite String.eqb_refl. simpl.
    destruct (String.eqb_spec s' s) as [->|Hs].
    + right. split; [done|]. rewrite Hm. by eexists.
    + left. apply app_nil_r.
  - left.
    replace (node_matches lbl [(key, s)] (Node lbl' (pattern_props pat)))
      with false; [apply app_nil_r|].
    symmetry. unfold node_matches. simpl.
    by rewrite (proj2 (String.eqb_neq _ _) Hne).
Qed.

Lemma same_or_new_step lbl key s (c : clause vector R) g (e : env R) :
  merges_on lbl key c → same_or_new lbl key s g (step c g e).1.
Proof.
  intros Hc. destruct c as [x l pat|x l pat|x items|a ty b|xs];
    cbn [step]; try apply same_or_new_refl.
  - pose proof (same_or_new_merge_node lbl key s l (pat (row e)) g) as H.
    destruct (merge_node l (pat (row e)) g). simpl in *.
    apply H. intros Hl. apply (Hc Hl).
  - simpl. destruct (assoc x (vars e)); [|apply same_or_new_refl].
    split; [by rewrite set_props_length|].
    left. apply match_nodes_set_props, Hc.
  - simpl. destruct (assoc a (vars e)), (assoc b (vars e));
      try apply same_or_new_refl.
    split; [by rewrite add_edge_nodes|]. left. apply match_nodes_add_edge.
Qed.

Lemma same_or_new_run_query lbl key s (q : list (stmt vector R))
    (rs : list R) g :
  Forall (every_clause (merges_on lbl key)) q →
  same_or_new lbl key s g (run_query q rs g).
Proof.
  intros Hq.
  apply (run_query_invariant (same_or_new lbl key s g) (merges_on lbl key));
    [|done|apply same_or_new_refl].
  intros c h e Hc Hh. eapply same_or_new_trans; [exact Hh|].
  by apply same_or_new_step.
Qed.

End SameOrNew.

Section WritersSameOrNew.
Import Invariant Identity.
Context {vector : Type}.
Implicit Types (g : graph vector).

Lemma graph_writer_same_or_new s (e : GraphWriter.event vector) g :
  same_or_new "Message" "id" s g (GraphWriter.write_event e g).
Proof.
  unfold GraphWriter.write_event.
  set (g1 := run_query GraphWriter.merge_actor [e] g).
  set (g2 := run_query GraphWriter.merge_stream [e] g1).
  set (g3 := run_query GraphWriter.merge_message [e] g2).
  assert (H3 : same_or_new "Message" "id" s g g3).
  { apply same_or_new_trans with g2; [apply same_or_new_trans with g1|];
      apply same_or_new_run_query; each_clause merges_on_key. }
  destruct (GraphWriter.parent_event_id e) as [p|]; [|done].
  destruct (str_truthy p); [|done].
  apply same_or_new_trans with g3; [done|].
  apply same_or_new_run_query; each_clause merges_on_key.
Qed.

Lemma benchmark_same_or_new s (batch : list (Benchmark.row vector)) g :
  same_or_new "Message" "id" s g (Benchmark.write_batch batch g).
Proof. apply same_or_new_run_query; each_clause merges_on_key. Qed.

(** With a node for the identity afterwards: the nodes of before, or one
    new node. *)
Lemma same_or_new_found lbl key s g h :
  same_or_new lbl key s g h → match_nodes lbl [(key, s)] h ≠ [] →
  (match_nodes lbl [(key, s)] g ≠ [] →
   match_nodes lbl [(key, s)] h = match_nodes lbl [(key, s)] g)
  ∧ (match_nodes lbl [(key, s)] g = [] →
     ∃ m, match_nodes lbl [(key, s)] h = [m] ∧ (length (nodes g) ≤ m)%nat).
Proof.
  intros [_ [E|(N & m & E & B)]] Hne; split; intros Hg.
  - done.
  - congruence.
  - done.
  - by exists m.
Qed.

End WritersSameOrNew.

Section LastWrite.
Import Examples.

(** C3 (as amended). Ingesting an event, whatever the store held under its
    message id, leaves a message node with that id, and every such node
    with the body, the timestamp and the embedding of the event just
    ingested: the last write wins, on the body too, and the embedding
    stays set when the event carries one. No second message node is
    created: when the store had message nodes with the id, the nodes with
    the id are the same afterwards, and when it had none there is exactly
    one, which is new. *)
Theorem last_write_wins {vector : Type} :
  (∀ (e : GraphWriter.event vector) (g : graph vector),
     let g' := GraphWriter.write_event e g in
     let before := match_nodes "Message" [("id", GraphWriter.event_id e)] g in
     let after := match_nodes "Message" [("id", GraphWriter.event_id e)] g' in
     after ≠ []
     ∧ (∀ m, m ∈ after →
         prop_at g' m "body" = Some (PStr (GraphWriter.content e))
         ∧ prop_at g' m "timestamp" = Some (PInt (GraphWriter.timestamp e))
         ∧ prop_at g' m "embedding" = PVec <$> GraphWriter.embedding e)
     ∧ (before ≠ [] → after = before)
     ∧ (before = [] →
        ∃ m, after = [m] ∧ (length (nodes g) ≤ m)%nat))
  ∧ (∀ (r : Benchmark.row vector) (g : graph vector),
       let g' := Benchmark.write_batch [r] g in
       let before := match_nodes "Message" [("id", Benchmark.message_id r)] g in
       let after := match_nodes "Message" [("id", Benchmark.message_id r)] g' in
       after ≠ []
       ∧ (∀ m, m ∈ after →
           prop_at g' m "body" = Some (PStr (Benchmark.body r))
           ∧ prop_at g' m "timestamp" = Some (PInt (Benchmark.timestamp r))
           ∧ prop_at g' m "embedding" = PVec <$> Benchmark.embedding r)
       ∧ (before ≠ [] → after = before)
       ∧ (before = [] →
          ∃ m, after = [m] ∧ (length (nodes g) ≤ m)%nat)).
Proof.
  split.
  - intros e g g' before after.
    destruct (write_event_settles e g) as (_ & _ & _ & HM & HMi & _).
    split; [done|]. split.
    + intros m Hm.
      repeat split; apply (HMi m); try done;
        unfold GraphWriter.message_items; set_unfold; tauto.
    + apply same_or_new_found; [apply graph_writer_same_or_new|done].
  - intros r g g' before after.
    destruct (write_batch_settles r g) as (_ & _ & _ & HM & HMi & _).
    split; [done|]. split.
    + intros m Hm.
      repeat split; apply (HMi m); try done;
        unfold Benchmark.message_items; set_unfold; tauto.
    + apply same_or_new_found; [apply benchmark_same_or_new|done].
Qed.

Lemma last_write_wins_witness :
  prop_at (GraphWriter.write_event stream_parent_edited
             (GraphWriter.write_event stream_parent empty_graph)) 2 "body"
  = Some (PStr "Lunch at one?")
  ∧ match_nodes "Message" [("id", "M1")]
      (GraphWriter.write_event stream_parent_edited
         (GraphWriter.write_event stream_parent empty_graph))
    = match_nodes "Message" [("id", "M1")]
        (GraphWriter.write_event stream_parent empty_graph).
Proof.
  destruct (@last_write_wins vec) as [H _].
  destruct (H stream_parent_edited
              (GraphWriter.write_event stream_parent empty_graph))
    as (_ & Hall & Hsame & _).
  split.
  - apply (Hall 2%nat). vm_compute. left.
  - apply Hsame. by vm_compute.
Defined.

End LastWrite.

(** ** A reply ingested before its parent *)

Section ForwardReference.
Import GraphWriter Invariant Identity.
Context {vector : Type}.
Implicit Types (g h : graph vector) (e p : event vector).

(** A node of the first store that carries an identity in a store that
    keeps the first one carried it before. *)
Lemma keeps_match_old K lbl key s g h j :
  keeps K g h → key ∉ K → (j < length (nodes g))%nat →
  j ∈ match_nodes lbl [(key, s)] h → j ∈ match_nodes lbl [(key, s)] g.
Proof.
  intros [Hn _] Hk Hj (nd' & Hnd' & Hm)%elem_of_match_nodes.
  destruct (lookup_lt_is_Some_2 _ _ Hj) as [nd Hnd].
  destruct (Hn j nd Hnd) as (nd'' & Hnd'' & Hl & Hp).
  rewrite Hnd' in Hnd''. injection Hnd'' as <-.
  apply elem_of_match_nodes. exists nd. split; [done|].
  apply node_matches_key in Hm as [Hlbl Hid]. apply node_matches_key.
  split; [congruence|]. by rewrite <- Hp.
Qed.

Lemma ingest_keeps e p g :
  keeps ["name"; "body"; "timestamp"; "embedding"; "source"] g
    (write_event p (write_event e g)).
Proof.
  eapply keeps_trans; apply graph_writer_keeps.
Qed.

(** The reply gets no [REPLIES_TO] edge when it is written before its
    parent, and none when the parent is written after it. *)
Lemma forward_reference_first_pass e p g :
  parent_event_id e = Some (event_id p) → event_id p ≠ event_id e →
  match_nodes "Message" [("id", event_id p)] g = [] →
  ∀ c q,
    c ∈ match_nodes "Message" [("id", event_id e)]
          (write_event p (write_event e g)) →
    (c, "REPLIES_TO", q) ∈ edges (write_event p (write_event e g)) →
    (c, "REPLIES_TO", q) ∈ edges g.
Proof.
  intros Hp Hne Hnone c q Hc.
  destruct (write_event_other_message e g (event_id p)) as [Hsame _];
    [done|].
  rewrite Hnone in Hsame.
  intros [Hx|[(a & m & _ & _ & Hx)|[(s & m & _ & _ & Hx)
             |(parent' & m & q' & _ & _ & Hm & _ & Hx)]]]%write_event_edges_run;
    [|discriminate|discriminate|].
  - apply write_event_edges_run in Hx
      as [Hx|[(a & m & _ & _ & Hx)|[(s & m & _ & _ & Hx)
             |(parent' & m & q' & Hp' & _ & _ & Hq & Hx)]]];
      [done|discriminate|discriminate|].
    rewrite Hp in Hp'. injection Hp' as <-.
    rewrite Hsame in Hq. by apply elem_of_nil in Hq.
  - injection Hx as -> _. destruct Hne.
    by apply (match_same_id "Message" "Message" _ _
                (write_event p (write_event e g)) m).
Qed.

(** The edges of a store join nodes of the store: the empty store is of
    this kind, and [write_event] and [ingest] keep a store so. *)
Lemma write_event_edges_within e g :
  (∀ x ty y, (x, ty, y) ∈ edges g →
             (x < length (nodes g))%nat ∧ (y < length (nodes g))%nat) →
  ∀ x ty y, (x, ty, y) ∈ edges (write_event e g) →
            (x < length (nodes (write_event e g)))%nat
            ∧ (y < length (nodes (write_event e g)))%nat.
Proof.
  intros Hwf x ty y.
  intros [Hx|[(a & m & Ha & Hm & Hx)|[(s & m & Hs & Hm & Hx)
             |(parent & m & q & _ & _ & Hm & Hq & Hx)]]]%write_event_edges_run.
  - destruct (graph_writer_same_or_new EmptyString e g) as [Hlen _].
    destruct (Hwf x ty y Hx). lia.
  - injection Hx as -> _ ->. split; by eapply match_nodes_lt.
  - injection Hx as -> _ ->. split; by eapply match_nodes_lt.
  - injection Hx as -> _ ->. split; by eapply match_nodes_lt.
Qed.

Lemma ingest_edges_within (events : list (event vector)) g :
  (∀ x ty y, (x, ty, y) ∈ edges g →
             (x < length (nodes g))%nat ∧ (y < length (nodes g))%nat) →
  ∀ x ty y, (x, ty, y) ∈ edges (ingest events g) →
            (x < length (nodes (ingest events g)))%nat
            ∧ (y < length (nodes (ingest events g)))%nat.
Proof.
  revert g. induction events as [|e events IH]; intros g Hwf; [done|].
  unfold ingest. cbn [foldl]. apply IH. by apply write_event_edges_within.
Qed.

(** X20. [ingest] is not idempotent on a list in which a reply comes
    before its parent. Ingesting the reply and then the parent into a
    store that has no message with the id of the parent stores both
    messages and gives the reply no [REPLIES_TO] edge, whatever the parent
    itself refers to; ingesting the same list again finds the parent and
    writes the edge from every node of the reply to every node of the
    parent. In a store whose edges join nodes of the store, as is every
    store the writer builds from the empty one, none of these edges was
    there after the first run, so the second run changes the store, where
    re-ingesting a single event does not. *)
Theorem ingest_twice_links_forward_reference e p g :
  parent_event_id e = Some (event_id p) → str_truthy (event_id p) = true →
  event_id p ≠ event_id e →
  match_nodes "Message" [("id", event_id p)] g = [] →
  let g1 := ingest [e; p] g in
  let g2 := ingest [e; p] g1 in
  let replies := match_nodes "Message" [("id", event_id e)] g1 in
  let parents := match_nodes "Message" [("id", event_id p)] g1 in
  replies ≠ [] ∧ parents ≠ []
  ∧ (∀ c q, c ∈ replies → (c, "REPLIES_TO", q) ∈ edges g1 →
            (c, "REPLIES_TO", q) ∈ edges g)
  ∧ (∀ c q, c ∈ replies → q ∈ parents → (c, "REPLIES_TO", q) ∈ edges g2)
  ∧ ((∀ x ty y, (x, ty, y) ∈ edges g →
                (x < length (nodes g))%nat ∧ (y < length (nodes g))%nat) →
     (∀ c q, c ∈ replies → q ∈ parents → (c, "REPLIES_TO", q) ∉ edges g1)
     ∧ g2 ≠ g1).
Proof.
  intros Hp Ht Hne Hnone g1 g2 replies parents.
  assert (Hg1 : g1 = write_event p (write_event e g)) by done.
  assert (Hg2 : g2 = write_event p (write_event e g1)) by done.
  assert (HR : replies ≠ []).
  { destruct (write_event_settles e g) as (_ & _ & _ & HMe & _).
    destruct (match_nodes "Message" [("id", event_id e)] (write_event e g))
      as [|m ms] eqn:Em; [done|].
    assert (Hm : m ∈ replies).
    { unfold replies. rewrite Hg1. apply write_event_keeps_match.
      rewrite Em. left. }
    intros Hnil. rewrite Hnil in Hm. by apply elem_of_nil in Hm. }
  assert (HP : parents ≠ []).
  { destruct (write_event_settles p (write_event e g))
      as (_ & _ & _ & HMp & _). by rewrite <- Hg1 in HMp. }
  assert (H1 : ∀ c q, c ∈ replies → (c, "REPLIES_TO", q) ∈ edges g1 →
                      (c, "REPLIES_TO", q) ∈ edges g).
  { intros c q Hc. by apply (forward_reference_first_pass e p g). }
  assert (H2 : ∀ c q, c ∈ replies → q ∈ parents →
                      (c, "REPLIES_TO", q) ∈ edges g2).
  { intros c q Hc Hq.
    destruct (write_event_settles e g1) as (_ & _ & _ & _ & _ & _ & _ & Hl).
    specialize (Hl (event_id p) Hp Ht).
    rewrite Hg2. destruct (graph_writer_keeps p (write_event e g1)) as [_ He].
    apply He, Hl; by apply write_event_keeps_match. }
  split; [done|]. split; [done|]. split; [done|]. split; [done|].
  intros Hwf.
  assert (H3 : ∀ c q, c ∈ replies → q ∈ parents →
                      (c, "REPLIES_TO", q) ∉ edges g1).
  { intros c q Hc Hq Hin. apply H1 in Hin; [|done].
    destruct (Hwf _ _ _ Hin) as [_ Hlt].
    assert (Hold : q ∈ match_nodes "Message" [("id", event_id p)] g).
    { apply (keeps_match_old
               ["name"; "body"; "timestamp"; "embedding"; "source"]
               _ _ _ g g1); [apply ingest_keeps| |done..].
      apply (bool_decide_unpack _). reflexivity. }
    rewrite Hnone in Hold. by apply elem_of_nil in Hold. }
  split; [done|]. intros Heq.
  destruct replies as [|c cs] eqn:Er; [done|].
  destruct parents as [|q qs] eqn:Eq; [done|].
  apply (H3 c q); [left|left|]. rewrite <- Heq. apply H2; left.
Qed.

End ForwardReference.

Section ForwardReferenceWitness.
Import GraphWriter Examples.

Lemma ingest_twice_links_forward_reference_witness :
  (∀ c q,
     c ∈ match_nodes "Message" [("id", "M2")]
           (ingest [stream_reply; stream_parent] empty_graph) →
     q ∈ match_nodes "Message" [("id", "M1")]
           (ingest [stream_reply; stream_parent] empty_graph) →
     (c, "REPLIES_TO", q)
     ∈ edges (ingest [stream_reply; stream_parent]
                (ingest [stream_reply; stream_parent] empty_graph)))
  ∧ ingest [stream_reply; stream_parent]
      (ingest [stream_reply; stream_parent] empty_graph)
    ≠ ingest [stream_reply; stream_parent] empty_graph.
Proof.
  destruct (ingest_twice_links_forward_reference stream_reply stream_parent
              empty_graph eq_refl eq_refl) as (_ & _ & _ & H2 & H3).
  - discriminate.
  - reflexivity.
  - split; [exact H2|]. apply H3.
    intros x ty y Hin. by apply elem_of_nil in Hin.
Defined.

End ForwardReferenceWitness.
